(** * Juris: the state store and the string renderer

    A shallow embedding of two classes of the Juris bundle
    (src/unnamed/part_001):

    - [StateManager] (lines 77-446): the path-addressed state tree, its
      middleware, internal and external subscribers, the circular-update
      guard and the batching queue;
    - [StringRenderer] (lines 4042-4998): the HTML string renderer with its
      promise detection, depth counter, attribute rules and escaping.

    JavaScript strings are [string]s (one [ascii] per code unit below 256),
    JavaScript numbers are integers [Z] (no fractions, NaN or infinities),
    objects are association lists of own enumerable properties in key order.
    Property access reads own properties, and the characters of a string
    primitive by index; the members that objects, arrays and primitives
    inherit from the built-in prototypes, and [length], are listed in
    [builtinNames]; a path none of whose segments is such a name is an
    [ordinaryPath], and at such a path the model reads and writes what the
    code does.  Values are trees: two paths never share one object.  A
    subscriber callback reads and writes the store, returns or throws
    ([prog]); it does not subscribe or unsubscribe. *)

From Stdlib Require Import List String Ascii ZArith Bool Lia Arith.
From Stdlib Require Import DecimalString.
Import ListNotations.
Open Scope string_scope.
Open Scope list_scope.
Set Warnings "-register-all".

(** String concatenation, JavaScript's [+] on strings. *)
Infix "+++" := String.append (right associativity, at level 60).

(** ** Strings as the code uses them *)

Module Str.

Fixpoint chars (s : string) : list ascii :=
  match s with
  | EmptyString => []
  | String c r => c :: chars r
  end.

(** [s.includes(sub)]. *)
Fixpoint includes (sub s : string) : bool :=
  prefix sub s ||
  match s with
  | EmptyString => false
  | String _ r => includes sub r
  end.

(** [s.startsWith(p)]. *)
Definition startsWith (s p : string) : bool := prefix p s.

(** White space removed by [trim()], for code units below 256. *)
Definition isWhite (c : ascii) : bool :=
  let n := nat_of_ascii c in
  (((9 <=? n) && (n <=? 13)) || (n =? 32) || (n =? 160))%nat.

(** [s.trim().length > 0]: some code unit is not white space. *)
Definition trimNonEmpty (s : string) : bool :=
  existsb (fun c => negb (isWhite c)) (chars s).

(** [s.split(sep)] for a one-character separator. *)
Fixpoint split (sep : ascii) (s : string) : list string :=
  match s with
  | EmptyString => [EmptyString]
  | String c r =>
      if Ascii.eqb c sep then EmptyString :: split sep r
      else match split sep r with
           | [] => [String c EmptyString]
           | h :: t => String c h :: t
           end
  end.

(** [xs.join(sep)]. *)
Definition join (sep : string) (xs : list string) : string :=
  String.concat sep xs.

Definition nonEmpty (s : string) : bool :=
  match s with EmptyString => false | _ => true end.

Fixpoint mem (s : string) (l : list string) : bool :=
  match l with
  | [] => false
  | x :: r => String.eqb s x || mem s r
  end.

(** [new Set(l)] keeps the first occurrence of each element, in order. *)
Fixpoint dedupInto (seen l : list string) : list string :=
  match l with
  | [] => []
  | x :: r => if mem x seen then dedupInto seen r
              else x :: dedupInto (x :: seen) r
  end.

Definition dedup (l : list string) : list string := dedupInto [] l.

End Str.

(** ** Utility functions (part_001, lines 28-56) *)

(** [isValidPath]: the argument is a string by its type. *)
Definition isValidPath (path : string) : bool :=
  Str.trimNonEmpty path && negb (Str.includes ".." path).

(** [getPathParts]: [path.split('.').filter(Boolean)]. *)
Definition getPathParts (path : string) : list string :=
  filter Str.nonEmpty (Str.split "." path).

(** State values.  [VObj arr props]: an object with its own enumerable
    properties; [arr] is [Array.isArray], and an array's elements are its
    properties "0", "1", ... *)
Inductive value : Type :=
| VUndef
| VNull
| VBool (b : bool)
| VNum (n : Z)
| VStr (s : string)
| VObj (arr : bool) (props : list (string * value)).

Definition props_t : Type := list (string * value).

Fixpoint lookup (k : string) (props : props_t) : option value :=
  match props with
  | [] => None
  | (k', v) :: r => if String.eqb k k' then Some v else lookup k r
  end.

Definition natToString (n : nat) : string :=
  NilZero.string_of_uint (Nat.to_uint n).

(** [current[part]] for a [part] that is no built-in member name
    ([builtinNames] below): the own property of an object or array, and of
    a string primitive the character at the index whose decimal numeral
    [part] is. *)
Definition getProp (current : value) (part : string) : value :=
  match current with
  | VObj _ props =>
      match lookup part props with Some v => v | None => VUndef end
  | VStr s =>
      match find (fun i => String.eqb part (natToString i))
              (seq 0 (String.length s)) with
      | Some i =>
          match String.get i s with
          | Some ch => VStr (String ch EmptyString)
          | None => VUndef
          end
      | None => VUndef
      end
  | _ => VUndef
  end.

Fixpoint update (k : string) (v : value) (props : props_t) : props_t :=
  match props with
  | [] => [(k, v)]
  | (k', w) :: r =>
      if String.eqb k k' then (k, v) :: r else (k', w) :: update k v r
  end.

(** [current[part] = v] on an object. *)
Definition setProp (current : value) (part : string) (v : value) : value :=
  match current with
  | VObj arr props => VObj arr (update part v props)
  | _ => current
  end.

(** [x == null]. *)
Definition isNullish (v : value) : bool :=
  match v with VUndef | VNull => true | _ => false end.

Definition isUndef (v : value) : bool :=
  match v with VUndef => true | _ => false end.

(** [typeof x === 'object']: null included. *)
Definition typeofObject (v : value) : bool :=
  match v with VNull | VObj _ _ => true | _ => false end.

(** [typeof a === typeof b]. *)
Definition sameTypeof (a b : value) : bool :=
  match a, b with
  | VUndef, VUndef => true
  | VBool _, VBool _ => true
  | VNum _, VNum _ => true
  | VStr _, VStr _ => true
  | (VNull | VObj _ _), (VNull | VObj _ _) => true
  | _, _ => false
  end.

(** [a === b] on primitives.  Two objects are identical only when they are
    one object, and then [deepEquals] compares them equal as well
    ([deepEquals_refl]), so the identity shortcut needs no case of its own. *)
Definition strictEqPrim (a b : value) : bool :=
  match a, b with
  | VUndef, VUndef => true
  | VNull, VNull => true
  | VBool x, VBool y => Bool.eqb x y
  | VNum x, VNum y => Z.eqb x y
  | VStr x, VStr y => String.eqb x y
  | _, _ => false
  end.

(** [deepEquals] (lines 36-56).  The loop runs over the entries of [a]:
    [a[key]] is the entry's value, the keys of an object being distinct. *)
Fixpoint deepEquals (a b : value) {struct a} : bool :=
  if strictEqPrim a b then true
  else if isNullish a || isNullish b then false
  else if negb (sameTypeof a b) then false
  else
    match a, b with
    | VObj arrA propsA, VObj arrB propsB =>
        if negb (Bool.eqb arrA arrB) then false
        else if negb (List.length propsA =? List.length propsB)%nat then false
        else
          (fix each (l : props_t) : bool :=
             match l with
             | [] => true
             | (key, va) :: r =>
                 match lookup key propsB with
                 | None => false
                 | Some vb => if deepEquals va vb then each r else false
                 end
             end) propsA
    | _, _ => false
    end.

(** The entries loop of [deepEquals], named. *)
Fixpoint eachEntry (propsB : props_t) (l : props_t) : bool :=
  match l with
  | [] => true
  | (key, va) :: r =>
      match lookup key propsB with
      | None => false
      | Some vb => if deepEquals va vb then eachEntry propsB r else false
      end
  end.

(** The loop of [getState] (lines 132-139) from [current]. *)
Fixpoint walk (parts : list string) (current defaultValue : value) : value :=
  match parts with
  | [] => current
  | part :: rest =>
      if isNullish current || isUndef (getProp current part) then defaultValue
      else walk rest (getProp current part) defaultValue
  end.

(** The write of [_setStateImmediate] (lines 186-197) as a function of the
    object it starts from.  With no parts at all, [parts[parts.length - 1]]
    is [undefined] and the assignment goes to the key "undefined". *)
Fixpoint assignPath (parts : list string) (v : value) (current : value)
  : value :=
  match parts with
  | [] => setProp current "undefined" v
  | [lastPart] => setProp current lastPart v
  | part :: rest =>
      let child := getProp current part in
      let child' :=
        if isNullish child || negb (typeofObject child)
        then VObj false [] else child in
      setProp current part (assignPath rest v child')
  end.

(** ** The state manager (part_001, lines 77-446) *)

(** What a subscriber callback does to the store it belongs to: it reads
    with [getState], writes with [setState], returns or throws.  The
    continuation of a read receives the value read.  A callback that
    subscribes or unsubscribes while it is called, which the loop of
    [_notifyExternalSubscribers] over the live subscriptions would see, is
    outside the model. *)
Inductive prog : Type :=
| Return
| Throw (msg : string)
| GetState (path : string) (defaultValue : value) (k : value -> prog)
| SetState (path : string) (v : value) (context : value) (k : prog).

(** A middleware receives [{path, oldValue, newValue, context, state}] and
    returns a value ([undefined] keeps the current one) or throws. *)
Inductive mwResult : Type :=
| MwReturn (v : value)
| MwThrow (msg : string).

Definition middleware_t : Type :=
  string -> value -> value -> value -> props_t -> mwResult.

(** A reactive callback registered with [subscribeInternal]; [icb_id] is the
    identity of the function object. *)
Record icallback : Type := {
  icb_id : nat;
  icb_run : prog
}.

(** The object [{callback, hierarchical}] made by [subscribe]; [sub_id] is
    its identity.  The callback receives (newValue, oldValue, changedPath). *)
Record subscription : Type := {
  sub_id : nat;
  sub_callback : value -> value -> string -> prog;
  sub_hierarchical : bool
}.

(** An update record; its timestamp is written and never read. *)
Record updateRec : Type := {
  upd_path : string;
  upd_value : value;
  upd_context : value
}.

(** Console output, and the calls the store makes to the functions it was
    given, in the order they happen. *)
Inductive event : Type :=
| Warn (msg : string)
| Error (msg : string)
| Log (msg : string)
| CallMiddleware (index : nat) (path : string)
| CallInternal (subscribedPath : string) (callback : nat)
| CallExternal (subscribedPath : string) (subscriptionId : nat)
    (newValue oldValue : value) (changedPath : string).

(** The fields of [StateManager], the pending flush timers of the event
    loop ([timers]), a counter for fresh timer and subscription identities,
    and the trace.  A [Map] is an association list in insertion order, a
    [Set] a duplicate-free list in insertion order; [currentlyUpdating] is
    empty where the code has not created the set yet. *)
Record store : Type := {
  state : props_t;
  middleware : list middleware_t;
  subscribers : list (string * list icallback);
  externalSubscribers : list (string * list subscription);
  currentTracking : option (list string);
  isUpdating : bool;
  updateQueue : list updateRec;
  batchTimeout : option nat;
  batchUpdateInProgress : bool;
  maxBatchSize : Z;
  batchDelayMs : Z;
  batchingEnabled : bool;
  currentlyUpdating : list string;
  timers : list nat;
  nextId : nat;
  trace : list event
}.

Definition set_state (x : props_t) (st : store) : store :=
  {| state := x; middleware := middleware st; subscribers := subscribers st;
     externalSubscribers := externalSubscribers st;
     currentTracking := currentTracking st; isUpdating := isUpdating st;
     updateQueue := updateQueue st; batchTimeout := batchTimeout st;
     batchUpdateInProgress := batchUpdateInProgress st;
     maxBatchSize := maxBatchSize st; batchDelayMs := batchDelayMs st;
     batchingEnabled := batchingEnabled st;
     currentlyUpdating := currentlyUpdating st; timers := timers st;
     nextId := nextId st; trace := trace st |}.

Definition set_subscribers (x : list (string * list icallback)) (st : store)
  : store :=
  {| state := state st; middleware := middleware st; subscribers := x;
     externalSubscribers := externalSubscribers st;
     currentTracking := currentTracking st; isUpdating := isUpdating st;
     updateQueue := updateQueue st; batchTimeout := batchTimeout st;
     batchUpdateInProgress := batchUpdateInProgress st;
     maxBatchSize := maxBatchSize st; batchDelayMs := batchDelayMs st;
     batchingEnabled := batchingEnabled st;
     currentlyUpdating := currentlyUpdating st; timers := timers st;
     nextId := nextId st; trace := trace st |}.

Definition set_externalSubscribers (x : list (string * list subscription))
  (st : store) : store :=
  {| state := state st; middleware := middleware st;
     subscribers := subscribers st; externalSubscribers := x;
     currentTracking := currentTracking st; isUpdating := isUpdating st;
     updateQueue := updateQueue st; batchTimeout := batchTimeout st;
     batchUpdateInProgress := batchUpdateInProgress st;
     maxBatchSize := maxBatchSize st; batchDelayMs := batchDelayMs st;
     batchingEnabled := batchingEnabled st;
     currentlyUpdating := currentlyUpdating st; timers := timers st;
     nextId := nextId st; trace := trace st |}.

Definition set_currentTracking (x : option (list string)) (st : store)
  : store :=
  {| state := state st; middleware := middleware st;
     subscribers := subscribers st;
     externalSubscribers := externalSubscribers st;
     currentTracking := x; isUpdating := isUpdating st;
     updateQueue := updateQueue st; batchTimeout := batchTimeout st;
     batchUpdateInProgress := batchUpdateInProgress st;
     maxBatchSize := maxBatchSize st; batchDelayMs := batchDelayMs st;
     batchingEnabled := batchingEnabled st;
     currentlyUpdating := currentlyUpdating st; timers := timers st;
     nextId := nextId st; trace := trace st |}.

Definition set_isUpdating (x : bool) (st : store) : store :=
  {| state := state st; middleware := middleware st;
     subscribers := subscribers st;
     externalSubscribers := externalSubscribers st;
     currentTracking := currentTracking st; isUpdating := x;
     updateQueue := updateQueue st; batchTimeout := batchTimeout st;
     batchUpdateInProgress := batchUpdateInProgress st;
     maxBatchSize := maxBatchSize st; batchDelayMs := batchDelayMs st;
     batchingEnabled := batchingEnabled st;
     currentlyUpdating := currentlyUpdating st; timers := timers st;
     nextId := nextId st; trace := trace st |}.

Definition set_updateQueue (x : list updateRec) (st : store) : store :=
  {| state := state st; middleware := middleware st;
     subscribers := subscribers st;
     externalSubscribers := externalSubscribers st;
     currentTracking := currentTracking st; isUpdating := isUpdating st;
     updateQueue := x; batchTimeout := batchTimeout st;
     batchUpdateInProgress := batchUpdateInProgress st;
     maxBatchSize := maxBatchSize st; batchDelayMs := batchDelayMs st;
     batchingEnabled := batchingEnabled st;
     currentlyUpdating := currentlyUpdating st; timers := timers st;
     nextId := nextId st; trace := trace st |}.

Definition set_batchTimeout (x : option nat) (st : store) : store :=
  {| state := state st; middleware := middleware st;
     subscribers := subscribers st;
     externalSubscribers := externalSubscribers st;
     currentTracking := currentTracking st; isUpdating := isUpdating st;
     updateQueue := updateQueue st; batchTimeout := x;
     batchUpdateInProgress := batchUpdateInProgress st;
     maxBatchSize := maxBatchSize st; batchDelayMs := batchDelayMs st;
     batchingEnabled := batchingEnabled st;
     currentlyUpdating := currentlyUpdating st; timers := timers st;
     nextId := nextId st; trace := trace st |}.

Definition set_batchUpdateInProgress (x : bool) (st : store) : store :=
  {| state := state st; middleware := middleware st;
     subscribers := subscribers st;
     externalSubscribers := externalSubscribers st;
     currentTracking := currentTracking st; isUpdating := isUpdating st;
     updateQueue := updateQueue st; batchTimeout := batchTimeout st;
     batchUpdateInProgress := x;
     maxBatchSize := maxBatchSize st; batchDelayMs := batchDelayMs st;
     batchingEnabled := batchingEnabled st;
     currentlyUpdating := currentlyUpdating st; timers := timers st;
     nextId := nextId st; trace := trace st |}.

Definition set_batching (size delay : Z) (enabled : bool) (st : store)
  : store :=
  {| state := state st; middleware := middleware st;
     subscribers := subscribers st;
     externalSubscribers := externalSubscribers st;
     currentTracking := currentTracking st; isUpdating := isUpdating st;
     updateQueue := updateQueue st; batchTimeout := batchTimeout st;
     batchUpdateInProgress := batchUpdateInProgress st;
     maxBatchSize := size; batchDelayMs := delay;
     batchingEnabled := enabled;
     currentlyUpdating := currentlyUpdating st; timers := timers st;
     nextId := nextId st; trace := trace st |}.

Definition set_currentlyUpdating (x : list string) (st : store) : store :=
  {| state := state st; middleware := middleware st;
     subscribers := subscribers st;
     externalSubscribers := externalSubscribers st;
     currentTracking := currentTracking st; isUpdating := isUpdating st;
     updateQueue := updateQueue st; batchTimeout := batchTimeout st;
     batchUpdateInProgress := batchUpdateInProgress st;
     maxBatchSize := maxBatchSize st; batchDelayMs := batchDelayMs st;
     batchingEnabled := batchingEnabled st;
     currentlyUpdating := x; timers := timers st;
     nextId := nextId st; trace := trace st |}.

Definition set_timers (x : list nat) (n : nat) (st : store) : store :=
  {| state := state st; middleware := middleware st;
     subscribers := subscribers st;
     externalSubscribers := externalSubscribers st;
     currentTracking := currentTracking st; isUpdating := isUpdating st;
     updateQueue := updateQueue st; batchTimeout := batchTimeout st;
     batchUpdateInProgress := batchUpdateInProgress st;
     maxBatchSize := maxBatchSize st; batchDelayMs := batchDelayMs st;
     batchingEnabled := batchingEnabled st;
     currentlyUpdating := currentlyUpdating st; timers := x;
     nextId := n; trace := trace st |}.

(** One more entry of the trace. *)
Definition emit (e : event) (st : store) : store :=
  {| state := state st; middleware := middleware st;
     subscribers := subscribers st;
     externalSubscribers := externalSubscribers st;
     currentTracking := currentTracking st; isUpdating := isUpdating st;
     updateQueue := updateQueue st; batchTimeout := batchTimeout st;
     batchUpdateInProgress := batchUpdateInProgress st;
     maxBatchSize := maxBatchSize st; batchDelayMs := batchDelayMs st;
     batchingEnabled := batchingEnabled st;
     currentlyUpdating := currentlyUpdating st; timers := timers st;
     nextId := nextId st; trace := trace st ++ [e] |}.

(** The constructor (lines 78-94). *)
Definition newStateManager (initialState : props_t)
  (mws : list middleware_t) : store :=
  {| state := initialState; middleware := mws; subscribers := [];
     externalSubscribers := []; currentTracking := None;
     isUpdating := false; updateQueue := []; batchTimeout := None;
     batchUpdateInProgress := false; maxBatchSize := 50; batchDelayMs := 0;
     batchingEnabled := true; currentlyUpdating := []; timers := [];
     nextId := 0; trace := [] |}.

(** [set.add(x)] and [set.delete(x)]. *)
Definition setAdd (x : string) (l : list string) : list string :=
  if Str.mem x l then l else l ++ [x].

Definition setDelete (x : string) (l : list string) : list string :=
  filter (fun y => negb (String.eqb x y)) l.

(** [map.get(k)]. *)
Fixpoint mapGet {A : Type} (k : string) (m : list (string * A)) : option A :=
  match m with
  | [] => None
  | (k', a) :: r => if String.eqb k k' then Some a else mapGet k r
  end.

(** [map.set(k, a)]: an existing key keeps its place. *)
Fixpoint mapSet {A : Type} (k : string) (a : A) (m : list (string * A))
  : list (string * A) :=
  match m with
  | [] => [(k, a)]
  | (k', b) :: r =>
      if String.eqb k k' then (k, a) :: r else (k', b) :: mapSet k a r
  end.

(** [map.delete(k)]. *)
Definition mapDelete {A : Type} (k : string) (m : list (string * A))
  : list (string * A) :=
  filter (fun e => negb (String.eqb k (fst e))) m.

(** [getState] (lines 119-140): the value read and the store, in which the
    read is tracked.  [this.state] is the root object. *)
Definition getState (path : string) (defaultValue : value) (st : store)
  : value * store :=
  if negb (isValidPath path)
  then (defaultValue, emit (Warn ("Invalid state path: " +++ path)) st)
  else
    let st1 :=
      match currentTracking st with
      | Some deps => set_currentTracking (Some (setAdd path deps)) st
      | None => st
      end in
    (walk (getPathParts path) (VObj false (state st1)) defaultValue, st1).

(** The write through the path, from the root object. *)
Definition writeState (path : string) (v : value) (root : props_t)
  : props_t :=
  match assignPath (getPathParts path) v (VObj false root) with
  | VObj _ props => props
  | _ => root
  end.

(** The middleware loop (lines 164-180). *)
Fixpoint runMiddleware (mws : list middleware_t) (index : nat)
  (path : string) (oldValue finalValue context : value) (st : store)
  : value * store :=
  match mws with
  | [] => (finalValue, st)
  | mw :: rest =>
      let st1 := emit (CallMiddleware index path) st in
      match mw path oldValue finalValue context (state st1) with
      | MwReturn result =>
          runMiddleware rest (S index) path oldValue
            (if isUndef result then finalValue else result) context st1
      | MwThrow msg =>
          runMiddleware rest (S index) path oldValue finalValue context
            (emit (Error ("Middleware error: " +++ msg)) st1)
      end
  end.

(** [_hasCircularUpdate] (lines 422-433). *)
Definition _hasCircularUpdate (path : string) (st : store) : bool * store :=
  if Str.mem path (currentlyUpdating st)
  then (true,
        emit (Warn ("Circular dependency detected for path: " +++ path)) st)
  else (false, st).

(** [subscribeInternal] (lines 322-337) and the function it returns. *)
Definition hasCallback (cb : icallback) (subs : list icallback) : bool :=
  existsb (fun c => Nat.eqb (icb_id c) (icb_id cb)) subs.

Definition subscribeInternal (path : string) (cb : icallback) (st : store)
  : store :=
  let subs := match mapGet path (subscribers st) with
              | Some s => s
              | None => []
              end in
  let subs' := if hasCallback cb subs then subs else subs ++ [cb] in
  set_subscribers (mapSet path subs' (subscribers st)) st.

Definition unsubscribeInternal (path : string) (cb : icallback) (st : store)
  : store :=
  match mapGet path (subscribers st) with
  | None => st
  | Some subs =>
      let subs' :=
        filter (fun c => negb (Nat.eqb (icb_id c) (icb_id cb))) subs in
      match subs' with
      | [] => set_subscribers (mapDelete path (subscribers st)) st
      | _ => set_subscribers (mapSet path subs' (subscribers st)) st
      end
  end.

(** [subscribe] (lines 298-316): the new subscription object's identity is
    returned; [unsubscribe path id] is the function [subscribe] returns. *)
Definition subscribe (path : string)
  (callback : value -> value -> string -> prog) (hierarchical : bool)
  (st : store) : nat * store :=
  let id := nextId st in
  let sub := {| sub_id := id; sub_callback := callback;
                sub_hierarchical := hierarchical |} in
  let subs := match mapGet path (externalSubscribers st) with
              | Some s => s
              | None => []
              end in
  (id,
   set_timers (timers st) (S id)
     (set_externalSubscribers
        (mapSet path (subs ++ [sub]) (externalSubscribers st)) st)).

Definition unsubscribe (path : string) (id : nat) (st : store) : store :=
  match mapGet path (externalSubscribers st) with
  | None => st
  | Some subs =>
      let subs' := filter (fun s => negb (Nat.eqb (sub_id s) id)) subs in
      match subs' with
      | [] =>
          set_externalSubscribers (mapDelete path (externalSubscribers st)) st
      | _ =>
          set_externalSubscribers
            (mapSet path subs' (externalSubscribers st)) st
      end
  end.

(** [subscribeExact] (lines 318-320). *)
Definition subscribeExact (path : string)
  (callback : value -> value -> string -> prog) (st : store) : nat * store :=
  subscribe path callback false st.

(** A step that may throw: the store it leaves and the exception, if any. *)
Definition outcome : Type := (store * option string)%type.

(** [xs.forEach(f)], stopped by the first exception. *)
Fixpoint forEach {A : Type} (f : A -> store -> outcome) (l : list A)
  (st : store) : outcome :=
  match l with
  | [] => (st, None)
  | x :: r =>
      match f x st with
      | (st1, None) => forEach f r st1
      | (st1, Some e) => (st1, Some e)
      end
  end.

(** [setTimeout(() => this._processBatchedUpdates(), ...)]: a new pending
    timer. *)
Definition setTimeout (st : store) : nat * store :=
  (nextId st, set_timers (timers st ++ [nextId st]) (S (nextId st)) st).

(** [clearTimeout(id)]. *)
Definition clearTimeout (id : nat) (st : store) : store :=
  set_timers (filter (fun t => negb (Nat.eqb t id)) (timers st)) (nextId st)
    st.

(** [parts.slice(0, i).join('.')] for i = parts.length - 1 down to 1
    (lines 342-346). *)
Definition ancestorPaths (path : string) : list string :=
  let parts := getPathParts path in
  map (fun i => Str.join "." (firstn i parts))
      (rev (seq 1 (List.length parts - 1))).

Section Methods.

  (** How a callback's body is run against the store; fixed below. *)
Variable runCallback : prog -> store -> outcome.

(** The body of the loop of [_triggerPathSubscribers] (lines 398-418).
    The [catch] block logs and then reads [oldTracking], which is declared
    by [const] inside the [try] block and so not in scope: a ReferenceError
    leaves the method. *)
Definition triggerCallback (path : string) (cb : icallback) (st : store)
  : outcome :=
  let oldTracking := currentTracking st in
  let st1 := set_currentTracking (Some []) st in
  match runCallback (icb_run cb) (emit (CallInternal path (icb_id cb)) st1)
  with
  | (st2, None) =>
      let newTracking := match currentTracking st2 with
                         | Some deps => deps
                         | None => []
                         end in
      let st3 := set_currentTracking oldTracking st2 in
      (fold_left
         (fun s newPath =>
            match mapGet newPath (subscribers s) with
            | Some existingSubs =>
                if hasCallback cb existingSubs then s
                else subscribeInternal newPath cb s
            | None => subscribeInternal newPath cb s
            end)
         newTracking st3,
       None)
  | (st2, Some msg) =>
      (emit (Error ("Subscriber error: " +++ msg)) st2,
       Some "oldTracking is not defined")
  end.

(** [_triggerPathSubscribers] (lines 393-420). *)
Definition _triggerPathSubscribers (path : string) (st : store) : outcome :=
  match mapGet path (subscribers st) with
  | Some subs => forEach (triggerCallback path) subs st
  | None => (st, None)
  end.

(** [_notifySubscribers] (lines 339-359). *)
Definition _notifySubscribers (path : string) (st : store) : outcome :=
  match _triggerPathSubscribers path st with
  | (st1, Some e) => (st1, Some e)
  | (st1, None) =>
      match forEach _triggerPathSubscribers (ancestorPaths path) st1 with
      | (st2, Some e) => (st2, Some e)
      | (st2, None) =>
          let prefix :=
            if Str.nonEmpty path then path +++ "." else "" in
          let allSubscriberPaths :=
            Str.dedup (map fst (subscribers st2) ++
                       map fst (externalSubscribers st2)) in
          forEach
            (fun subscriberPath s =>
               if Str.startsWith subscriberPath prefix &&
                  negb (String.eqb subscriberPath path)
               then _triggerPathSubscribers subscriberPath s
               else (s, None))
            allSubscriberPaths st2
      end
  end.

(** The test of [_notifyExternalSubscribers] (lines 367-380). *)
Definition shouldNotify (hierarchical : bool)
  (changedPath subscribedPath : string) : bool :=
  if hierarchical
  then String.eqb changedPath subscribedPath ||
       Str.startsWith changedPath (subscribedPath +++ ".")
  else String.eqb changedPath subscribedPath.

Definition notifySubscription (changedPath : string)
  (newValue oldValue : value) (subscribedPath : string)
  (sub : subscription) (st : store) : store :=
  if shouldNotify (sub_hierarchical sub) changedPath subscribedPath
  then
    match runCallback (sub_callback sub newValue oldValue changedPath)
            (emit (CallExternal subscribedPath (sub_id sub)
                     newValue oldValue changedPath) st)
    with
    | (st1, None) => st1
    | (st1, Some msg) =>
        emit (Error ("External subscriber error: " +++ msg)) st1
    end
  else st.

(** [_notifyExternalSubscribers] (lines 361-391). *)
Definition _notifyExternalSubscribers (changedPath : string)
  (newValue oldValue : value) (st : store) : store :=
  fold_left
    (fun s entry =>
       fold_left
         (fun s' sub =>
            notifySubscription changedPath newValue oldValue
              (fst entry) sub s')
         (snd entry) s)
    (externalSubscribers st) st.

(** [_setStateImmediate] (lines 161-213). *)
Definition _setStateImmediate (path : string) (v context : value)
  (st : store) : outcome :=
  let '(oldValue, st1) := getState path VNull st in
  let '(finalValue, st2) :=
    runMiddleware (middleware st1) 0 path oldValue v context st1 in
  if deepEquals oldValue finalValue then (st2, None)
  else
    let st3 := set_state (writeState path finalValue (state st2)) st2 in
    if negb (isUpdating st3) then
      let st4 :=
        set_currentlyUpdating (setAdd path (currentlyUpdating st3))
          (set_isUpdating true st3) in
      match _notifySubscribers path st4 with
      | (st5, Some e) => (st5, Some e)
      | (st5, None) =>
          let st6 :=
            _notifyExternalSubscribers path finalValue oldValue st5 in
          (set_isUpdating false
             (set_currentlyUpdating
                (setDelete path (currentlyUpdating st6)) st6),
           None)
      end
    else (st3, None).

(** [pathGroups] (lines 233-237): the latest update of each path, at the
    place of the path's first update. *)
Definition pathGroups (currentBatch : list updateRec)
  : list (string * updateRec) :=
  fold_left (fun groups u => mapSet (upd_path u) u groups) currentBatch [].

(** [_processBatchedUpdates] (lines 216-258). *)
Definition _processBatchedUpdates (st : store) : store :=
  if batchUpdateInProgress st ||
     (List.length (updateQueue st) =? 0)%nat
  then st
  else
    let st1 := set_batchUpdateInProgress true st in
    let st2 :=
      match batchTimeout st1 with
      | Some t => set_batchTimeout None (clearTimeout t st1)
      | None => st1
      end in
    let batchSize :=
      Z.to_nat (Z.min (maxBatchSize st2)
                      (Z.of_nat (List.length (updateQueue st2)))) in
    let currentBatch := firstn batchSize (updateQueue st2) in
    let st3 := set_updateQueue (skipn batchSize (updateQueue st2)) st2 in
    let groups := pathGroups currentBatch in
    let st5 :=
      match
        forEach
          (fun u s =>
             _setStateImmediate (upd_path u) (upd_value u)
               (upd_context u) s)
          (map snd groups) st3
      with
      | (st4, None) =>
          emit (Log ("Batched " +++ natToString (List.length currentBatch)
                     +++ " updates into "
                     +++ natToString (List.length groups)
                     +++ " unique state changes")) st4
      | (st4, Some msg) =>
          emit (Error ("Error processing batched updates: " +++ msg)) st4
      end in
    let st6 := set_batchUpdateInProgress false st5 in
    if (0 <? List.length (updateQueue st6))%nat
    then snd (setTimeout st6)
    else st6.

(** [_queueUpdate] (lines 282-296). *)
Definition _queueUpdate (path : string) (v context : value) (st : store)
  : store :=
  let st1 :=
    set_updateQueue
      (updateQueue st ++
       [{| upd_path := path; upd_value := v; upd_context := context |}])
      st in
  if (Z.of_nat (List.length (updateQueue st1)) >? maxBatchSize st1 * 2)%Z
  then
    _processBatchedUpdates
      (emit (Warn "Update queue is getting large, processing immediately")
         st1)
  else
    match batchTimeout st1 with
    | None =>
        let '(t, st2) := setTimeout st1 in
        set_batchTimeout (Some t) st2
    | Some _ => st1
    end.

(** [setState] (lines 142-159). *)
Definition setState (path : string) (v context : value) (st : store)
  : outcome :=
  if negb (isValidPath path)
  then (emit (Warn ("Invalid state path: " +++ path)) st, None)
  else
    let '(circular, st1) := _hasCircularUpdate path st in
    if circular then (st1, None)
    else if batchingEnabled st1 && (batchDelayMs st1 >? 0)%Z
    then (_queueUpdate path v context st1, None)
    else _setStateImmediate path v context st1.

End Methods.

(** Running the body of a callback, given what its [setState] calls do. *)
Section Run.

Variable setStateFn : string -> value -> value -> store -> outcome.

Fixpoint runProg (p : prog) (st : store) : outcome :=
  match p with
  | Return => (st, None)
  | Throw msg => (st, Some msg)
  | GetState path defaultValue k =>
      let '(v, st1) := getState path defaultValue st in
      runProg (k v) st1
  | SetState path v context k =>
      match setStateFn path v context st with
      | (st1, None) => runProg k st1
      | (st1, Some e) => (st1, Some e)
      end
  end.

End Run.

(** A callback runs inside a notification pass, where [isUpdating] is true:
    the [setState] calls of its body write, queue or are dropped, and start
    no pass of their own ([setState_in_pass]).  So the callbacks of a nested
    call are never run, and the recursion between [setState] and the
    callbacks stops at the second level. *)
Definition run : prog -> store -> outcome :=
  runProg (setState (fun _ st => (st, None))).

(** A pending timer fires: the event loop calls [_processBatchedUpdates]. *)
Definition fireTimer (id : nat) (st : store) : store :=
  if existsb (Nat.eqb id) (timers st)
  then _processBatchedUpdates run
         (set_timers (filter (fun t => negb (Nat.eqb t id)) (timers st))
            (nextId st) st)
  else st.

(** [configureBatching] (lines 260-269); absent options are [None], and
    [options.maxBatchSize || this.maxBatchSize] keeps the old size for 0. *)
Definition configureBatching (optMaxBatchSize optBatchDelayMs : option Z)
  (optEnabled : option bool) (st : store) : store :=
  let size := match optMaxBatchSize with
              | Some n => if (n =? 0)%Z then maxBatchSize st else n
              | None => maxBatchSize st
              end in
  let delay := match optBatchDelayMs with
               | Some d => d
               | None => batchDelayMs st
               end in
  let enabled := match optEnabled with
                 | Some b => b
                 | None => batchingEnabled st
                 end in
  emit (Log "Batching configured")
    (set_batching size delay enabled st).

(** ** Vocabulary of the statements about the store *)

(** The property names that a value answers to without having them as own
    properties of the model: the members of [Object.prototype],
    [Array.prototype], [String.prototype], [Number.prototype] and
    [Boolean.prototype] (ECMAScript 2023, with the legacy accessors and the
    HTML methods of strings), and [length].  Reading one of them gives an
    inherited function or object, and assigning to [__proto__] or to the
    [length] of an array does not create a property. *)
Definition builtinNames : list string :=
  [ "__proto__"; "constructor"; "hasOwnProperty"; "isPrototypeOf";
    "propertyIsEnumerable"; "toLocaleString"; "toString"; "valueOf";
    "__defineGetter__"; "__defineSetter__"; "__lookupGetter__";
    "__lookupSetter__";
    "length";
    "at"; "concat"; "copyWithin"; "entries"; "every"; "fill"; "filter";
    "find"; "findIndex"; "findLast"; "findLastIndex"; "flat"; "flatMap";
    "forEach"; "includes"; "indexOf"; "join"; "keys"; "lastIndexOf"; "map";
    "pop"; "push"; "reduce"; "reduceRight"; "reverse"; "shift"; "slice";
    "some"; "sort"; "splice"; "toReversed"; "toSorted"; "toSpliced";
    "unshift"; "values"; "with";
    "anchor"; "big"; "blink"; "bold"; "charAt"; "charCodeAt"; "codePointAt";
    "endsWith"; "fixed"; "fontcolor"; "fontsize"; "isWellFormed"; "italics";
    "link"; "localeCompare"; "match"; "matchAll"; "normalize"; "padEnd";
    "padStart"; "repeat"; "replace"; "replaceAll"; "search"; "small";
    "split"; "startsWith"; "strike"; "sub"; "substr"; "substring"; "sup";
    "toLocaleLowerCase"; "toLocaleUpperCase"; "toLowerCase"; "toUpperCase";
    "toWellFormed"; "trim"; "trimEnd"; "trimLeft"; "trimRight"; "trimStart";
    "toExponential"; "toFixed"; "toPrecision" ].

(** A key that is an own property or none. *)
Definition ordinaryKey (k : string) : bool := negb (Str.mem k builtinNames).

(** A path none of whose segments is a built-in member name. *)
Definition ordinaryPath (path : string) : bool :=
  forallb ordinaryKey (getPathParts path).

(** The calls of subscriber callbacks in a trace. *)
Definition isCall (e : event) : bool :=
  match e with
  | CallInternal _ _ | CallExternal _ _ _ _ _ => true
  | _ => false
  end.

Definition calls (l : list event) : list event := filter isCall l.

(** Batching is active: [setState] queues instead of writing. *)
Definition batchingActive (st : store) : bool :=
  batchingEnabled st && (batchDelayMs st >? 0)%Z.

(** A callback body whose every [setState] call is on [p]. *)
Inductive writesOnly (p : string) : prog -> Prop :=
| wo_return : writesOnly p Return
| wo_throw : forall msg, writesOnly p (Throw msg)
| wo_get : forall path d k,
    (forall v, writesOnly p (k v)) -> writesOnly p (GetState path d k)
| wo_set : forall v c k,
    writesOnly p k -> writesOnly p (SetState p v c k).

(** A callback body that never throws. *)
Inductive neverThrows : prog -> Prop :=
| nt_return : neverThrows Return
| nt_get : forall path d k,
    (forall v, neverThrows (k v)) -> neverThrows (GetState path d k)
| nt_set : forall path v c k,
    neverThrows k -> neverThrows (SetState path v c k).

(** Every registered callback body satisfies [P]. *)
Definition internalBodies (P : prog -> Prop) (st : store) : Prop :=
  forall path subs cb,
    In (path, subs) (subscribers st) -> In cb subs -> P (icb_run cb).

Definition externalBodies (P : prog -> Prop) (st : store) : Prop :=
  forall path subs sub newValue oldValue changedPath,
    In (path, subs) (externalSubscribers st) -> In sub subs ->
    P (sub_callback sub newValue oldValue changedPath).

(** What no step inside a notification pass changes. *)
Record frame (st st' : store) : Prop := {
  fr_middleware : middleware st' = middleware st;
  fr_external : externalSubscribers st' = externalSubscribers st;
  fr_isUpdating : isUpdating st' = isUpdating st;
  fr_currentlyUpdating : currentlyUpdating st' = currentlyUpdating st;
  fr_maxBatchSize : maxBatchSize st' = maxBatchSize st;
  fr_batchDelayMs : batchDelayMs st' = batchDelayMs st;
  fr_batchingEnabled : batchingEnabled st' = batchingEnabled st
}.

(** [st'] extends the trace of [st] by [l]. *)
Definition traced (st st' : store) (l : list event) : Prop :=
  trace st' = trace st ++ l.

(** A step that calls no subscriber and leaves the subscriptions alone. *)
Record silent (st st' : store) : Prop := {
  si_frame : frame st st';
  si_subscribers : subscribers st' = subscribers st;
  si_trace : exists l, traced st st' l /\ calls l = []
}.

(** The part of [_setStateImmediate] before the notification (lines
    162-197): read, middleware, deep comparison, write. *)
Definition silentWrite (path : string) (v context : value) (st : store)
  : store :=
  let '(oldValue, st1) := getState path VNull st in
  let '(finalValue, st2) :=
    runMiddleware (middleware st1) 0 path oldValue v context st1 in
  if deepEquals oldValue finalValue then st2
  else set_state (writeState path finalValue (state st2)) st2.


(** What holds between the steps of a pass: [P] of the body of every
    reactive callback, [Q] of the body of every callback registered with
    [subscribe], and [J] of the store. *)
Definition passInv (P Q : prog -> Prop) (J : store -> Prop) (st : store)
  : Prop :=
  isUpdating st = true /\ J st /\
  internalBodies P st /\ externalBodies Q st.

(** The value [_setStateImmediate] reads first, and the value it ends with
    after the middleware. *)
Definition oldValueOf (path : string) (st : store) : value :=
  fst (getState path VNull st).

Definition finalValueOf (path : string) (v context : value) (st : store)
  : value :=
  let '(oldValue, st1) := getState path VNull st in
  fst (runMiddleware (middleware st1) 0 path oldValue v context st1).

(** The store at the start of the pass of a write that changed the state. *)
Definition passStart (path : string) (v context : value) (st : store)
  : store :=
  let st3 := silentWrite path v context st in
  set_currentlyUpdating (setAdd path (currentlyUpdating st3))
    (set_isUpdating true st3).

(** The calls [_notifyExternalSubscribers] makes for a change, from the
    registered subscriptions: in registration order of the paths, and of
    the subscriptions of one path. *)
Definition externalCalls (changedPath : string) (newValue oldValue : value)
  (ext : list (string * list subscription)) : list event :=
  flat_map
    (fun entry =>
       flat_map
         (fun sub =>
            if shouldNotify (sub_hierarchical sub) changedPath (fst entry)
            then [CallExternal (fst entry) (sub_id sub) newValue oldValue
                    changedPath]
            else [])
         (snd entry))
    ext.

(** A call of a reactive callback registered at [path]. *)
Definition atPath (path : string) (e : event) : Prop :=
  exists id, e = CallInternal path id.

(** A list of calls made of one block per path, in the order of the paths;
    the block of a path holds calls of callbacks registered at that path. *)
Inductive internalSeq : list string -> list event -> Prop :=
| is_nil : internalSeq [] []
| is_cons : forall path paths block l,
    Forall (atPath path) block -> internalSeq paths l ->
    internalSeq (path :: paths) (block ++ l).

(** [d] is a strict descendant of [p] for [_notifySubscribers]. *)
Definition isDescendant (p d : string) : bool :=
  Str.startsWith d (if Str.nonEmpty p then p +++ "." else "") &&
  negb (String.eqb d p).

(** The callbacks registered at [path]. *)
Definition internalAt (path : string) (st : store) : list icallback :=
  match mapGet path (subscribers st) with
  | Some subs => subs
  | None => []
  end.

Definition internalCall (path : string) (cb : icallback) : event :=
  CallInternal path (icb_id cb).

(** The reactive subscriptions of [st'] extend those of [st]: every path
    keeps its callbacks in their order, with new ones behind them. *)
Definition grown (st st' : store) : Prop :=
  forall path, exists late,
    internalAt path st' = internalAt path st ++ late.

(** A list of calls made of one block per path, in the order of the paths;
    the block of a path holds a call of every callback registered at that
    path in [st], in the order of registration, and behind them calls of
    callbacks that were registered at the path later ([late]). *)
Inductive internalBlocks (st : store) : list string -> list event -> Prop :=
| ib_nil : internalBlocks st [] []
| ib_cons : forall path paths late l,
    internalBlocks st paths l ->
    internalBlocks st (path :: paths)
      (map (internalCall path) (internalAt path st ++ late) ++ l).

(** How many calls in a trace are calls of the subscription [id]. *)
Definition isCallOf (id : nat) (e : event) : bool :=
  match e with
  | CallExternal _ id' _ _ _ => Nat.eqb id id'
  | _ => false
  end.

Definition countCalls (id : nat) (l : list event) : nat :=
  List.length (filter (isCallOf id) l).

(** The events added to the trace of [st] in [st']. *)
Definition newEvents (st st' : store) : list event :=
  skipn (List.length (trace st)) (trace st').

(** The identities of the registered subscriptions are below the counter the
    next one is taken from. *)
Definition freshIds (st : store) : Prop :=
  forall path subs sub,
    In (path, subs) (externalSubscribers st) -> In sub subs ->
    sub_id sub < nextId st.




(** The store in which a flush applies its updates, when the timer made for
    an empty queue fires: the queue taken whole, the timer cleared. *)
Definition flushStart (st : store) : store :=
  set_updateQueue []
    (set_batchTimeout None
       (set_timers
          (filter (fun t => negb (Nat.eqb t (nextId st))) (timers st))
          (S (nextId st))
          (set_batchUpdateInProgress true st))).

(** The end of [_processBatchedUpdates] (lines 247-257) after the updates
    were applied with outcome [r]. *)
Definition flushEnd (batchLength groups : nat) (r : outcome) : store :=
  let st5 :=
    match r with
    | (st4, None) =>
        emit (Log ("Batched " +++ natToString batchLength
                   +++ " updates into " +++ natToString groups
                   +++ " unique state changes")) st4
    | (st4, Some msg) =>
        emit (Error ("Error processing batched updates: " +++ msg)) st4
    end in
  let st6 := set_batchUpdateInProgress false st5 in
  if (0 <? List.length (updateQueue st6))%nat
  then snd (setTimeout st6)
  else st6.

(** Three updates of "x" issued in a row. *)
Definition setThrice (c1 c2 c3 : value) (st : store) : store :=
  fst (setState run "x" (VNum 3) c3
         (fst (setState run "x" (VNum 2) c2
                 (fst (setState run "x" (VNum 1) c1 st))))).

(** The keys of every object of a value are distinct, as the keys of an
    object are. *)
Fixpoint distinctKeys (v : value) : Prop :=
  match v with
  | VObj _ props =>
      NoDup (map fst props) /\
      (fix each (l : props_t) : Prop :=
         match l with
         | [] => True
         | (_, x) :: r => distinctKeys x /\ each r
         end) props
  | _ => True
  end.

(** ** The string renderer (part_001, lines 4042-4998) *)

(** Values of view trees.  [JFun src c]: a function called with no argument;
    [src] is its text ([String(f)]) and [c] what a call does.  [JPromise c]:
    a promise, settled with [c]: fulfilled with a value or rejected with an
    error of that message.  What is thrown or rejected is an error with a
    message, as [Error] objects are; a thrown [null] or [undefined], whose
    message the handlers cannot read, and thenables that are no promises
    are outside the model.  The entries of [JObj] are its own enumerable
    properties in the order of [Object.keys]. *)
Inductive jsv : Type :=
| JUndef
| JNull
| JBool (b : bool)
| JNum (n : Z)
| JStr (s : string)
| JArr (items : list jsv)
| JObj (props : list (string * jsv))
| JFun (src : string) (call : completion)
| JPromise (settled : completion)
with completion : Type :=
| Normal (v : jsv)
| Thrown (msg : string).

Module Js.

Definition zToString (n : Z) : string := NilZero.string_of_int (Z.to_int n).

(** [String(v)], for a number that is a safe integer and an object that
    has no [toString] of its own ([printable] below). *)
Fixpoint toStr (v : jsv) : string :=
  match v with
  | JUndef => "undefined"
  | JNull => "null"
  | JBool true => "true"
  | JBool false => "false"
  | JNum n => zToString n
  | JStr s => s
  | JArr items =>
      Str.join ","
        ((fix each (l : list jsv) : list string :=
            match l with
            | [] => []
            | x :: r =>
                (match x with
                 | JUndef | JNull => ""
                 | _ => toStr x
                 end) :: each r
            end) items)
  | JObj _ => "[object Object]"
  | JFun src _ => src
  | JPromise _ => "[object Promise]"
  end.

(** Truthiness. *)
Definition truthy (v : jsv) : bool :=
  match v with
  | JUndef | JNull | JBool false => false
  | JNum n => negb (n =? 0)%Z
  | JStr s => Str.nonEmpty s
  | _ => true
  end.

(** [x && typeof x.then === 'function']. *)
Definition isThenable (v : jsv) : bool :=
  match v with JPromise _ => true | _ => false end.

Definition isFunction (v : jsv) : bool :=
  match v with JFun _ _ => true | _ => false end.

(** [typeof v === 'object']. *)
Definition typeofObject (v : jsv) : bool :=
  match v with
  | JNull | JArr _ | JObj _ | JPromise _ => true
  | _ => false
  end.

Definition isNullish (v : jsv) : bool :=
  match v with JUndef | JNull => true | _ => false end.

Definition isUndef (v : jsv) : bool :=
  match v with JUndef => true | _ => false end.

Fixpoint indexed {A : Type} (i : nat) (l : list A) : list (string * A) :=
  match l with
  | [] => []
  | x :: r => (natToString i, x) :: indexed (S i) r
  end.

(** [Object.entries(v)]: the own enumerable properties. *)
Definition entries (v : jsv) : list (string * jsv) :=
  match v with
  | JObj props => props
  | JArr items => indexed 0 items
  | JStr s =>
      indexed 0 (map (fun c => JStr (String c EmptyString)) (Str.chars s))
  | _ => []
  end.

Definition keys (v : jsv) : list string := map fst (entries v).

(** [v[k]], own properties only. *)
Definition get (v : jsv) (k : string) : jsv :=
  match mapGet k (entries v) with
  | Some x => x
  | None => JUndef
  end.

(** [a === b] where one side is a string or a boolean. *)
Definition isTrue (v : jsv) : bool :=
  match v with JBool true => true | _ => false end.

Definition isFalse (v : jsv) : bool :=
  match v with JBool false => true | _ => false end.

Definition isString (v : jsv) (s : string) : bool :=
  match v with JStr t => String.eqb t s | _ => false end.

Definition lowerChar (c : ascii) : ascii :=
  let n := nat_of_ascii c in
  if (((65 <=? n) && (n <=? 90)) ||
      ((192 <=? n) && (n <=? 222) && negb (n =? 215)))%nat
  then ascii_of_nat (n + 32) else c.

(** [s.toLowerCase()], for code units below 256. *)
Fixpoint toLowerCase (s : string) : string :=
  match s with
  | EmptyString => EmptyString
  | String c r => String (lowerChar c) (toLowerCase r)
  end.

Fixpoint dropWhite (s : string) : string :=
  match s with
  | EmptyString => EmptyString
  | String c r => if Str.isWhite c then dropWhite r else s
  end.

Fixpoint revString (s acc : string) : string :=
  match s with
  | EmptyString => acc
  | String c r => revString r (String c acc)
  end.

(** [s.trim()]. *)
Definition trim (s : string) : string :=
  revString (dropWhite (revString (dropWhite s) "")) "".

Definition isDigit (c : ascii) : bool :=
  let n := nat_of_ascii c in ((48 <=? n) && (n <=? 57))%nat.

Definition isUpper (c : ascii) : bool :=
  let n := nat_of_ascii c in ((65 <=? n) && (n <=? 90))%nat.

Definition isLower (c : ascii) : bool :=
  let n := nat_of_ascii c in ((97 <=? n) && (n <=? 122))%nat.

Definition isAlpha (c : ascii) : bool := isUpper c || isLower c.

Definition isAlnum (c : ascii) : bool := isAlpha c || isDigit c.

(** The digits at the start of [s], as a number. *)
Fixpoint digits (s : string) (acc : option Z) : option Z :=
  match s with
  | String c r =>
      if isDigit c
      then digits r
             (Some (10 * (match acc with Some a => a | None => 0 end) +
                    Z.of_nat (nat_of_ascii c - 48))%Z)
      else acc
  | EmptyString => acc
  end.

(** [parseInt(v, 10)]; [None] is NaN. *)
Definition parseInt (v : jsv) : option Z :=
  match dropWhite (toStr v) with
  | String "-" r =>
      match digits r None with Some n => Some (- n)%Z | None => None end
  | String "+" r => digits r None
  | s => digits s None
  end.

(** [s.replace(/c/g, r)] for one character [c]. *)
Fixpoint replaceAll (c : ascii) (r : string) (s : string) : string :=
  match s with
  | EmptyString => EmptyString
  | String x rest =>
      if Ascii.eqb x c then r +++ replaceAll c r rest
      else String x (replaceAll c r rest)
  end.

End Js.

(** The mutable fields of [StringRenderer] that rendering reads and writes,
    and the console. *)
Record rstate : Type := {
  renderDepth : Z;
  maxRenderDepth : Z;
  asyncDetected : bool;
  console : list string
}.

(** The constructor (lines 4043-4069). *)
Definition newRenderer : rstate :=
  {| renderDepth := 0; maxRenderDepth := 100; asyncDetected := false;
     console := [] |}.

(** How a piece of rendering code ends: with a value, with an exception of
    that message, or not within the allowed number of nested calls. *)
Inductive outcomeOf (A : Type) : Type :=
| Val (a : A)
| Exc (msg : string)
| OutOfFuel.

Arguments Val {A} a.
Arguments Exc {A} msg.
Arguments OutOfFuel {A}.

(** Code that runs against the renderer.  A promise is such code, run when
    it is awaited: a fulfilled promise ends with [Val], a rejected one with
    [Exc]. *)
Definition M (A : Type) : Type := rstate -> outcomeOf A * rstate.

Definition ret {A : Type} (a : A) : M A := fun st => (Val a, st).

Definition throw {A : Type} (msg : string) : M A := fun st => (Exc msg, st).

Definition bind {A B : Type} (m : M A) (f : A -> M B) : M B :=
  fun st =>
    match m st with
    | (Val a, st1) => f a st1
    | (Exc msg, st1) => (Exc msg, st1)
    | (OutOfFuel, st1) => (OutOfFuel, st1)
    end.

(** [try { m } catch (error) { h(error.message) }]. *)
Definition tryCatch {A : Type} (m : M A) (h : string -> M A) : M A :=
  fun st =>
    match m st with
    | (Exc msg, st1) => h msg st1
    | r => r
    end.

Notation "x <- m ;; k" := (bind m (fun x => k))
  (at level 61, m at next level, right associativity).

Definition withDepth (d : Z) (st : rstate) : rstate :=
  {| renderDepth := d; maxRenderDepth := maxRenderDepth st;
     asyncDetected := asyncDetected st; console := console st |}.

Definition withAsyncDetected (b : bool) (st : rstate) : rstate :=
  {| renderDepth := renderDepth st; maxRenderDepth := maxRenderDepth st;
     asyncDetected := b; console := console st |}.

Definition withMessage (msg : string) (st : rstate) : rstate :=
  {| renderDepth := renderDepth st; maxRenderDepth := maxRenderDepth st;
     asyncDetected := asyncDetected st; console := console st ++ [msg] |}.

Definition setDepth (d : Z) : M unit := fun st => (Val tt, withDepth d st).

Definition setAsyncDetected (b : bool) : M unit :=
  fun st => (Val tt, withAsyncDetected b st).

(** [console.warn], [console.error], [console.log]. *)
Definition say (msg : string) : M unit :=
  fun st => (Val tt, withMessage msg st).

Definition getDepth : M Z := fun st => (Val (renderDepth st), st).

Definition getMaxDepth : M Z := fun st => (Val (maxRenderDepth st), st).

Definition getAsyncDetected : M bool := fun st => (Val (asyncDetected st), st).

(** What a rendering method returns: a string, or a promise of one. *)
Inductive rres : Type :=
| Now (s : string)
| Later (p : M string).

(** [await r], and [Promise.resolve(r)]. *)
Definition await (r : rres) : M string :=
  match r with
  | Now s => ret s
  | Later p => p
  end.

(** [p.then(f)] where [f] returns a string or a promise of one. *)
Definition andThen {A : Type} (p : M A) (f : A -> M rres) : M string :=
  x <- p ;; r <- f x ;; await r.

(** The promise [c] stands for. *)
Definition settle (c : completion) : M jsv :=
  match c with
  | Normal v => ret v
  | Thrown msg => throw msg
  end.

(** [Promise.all(results.map(r => thenable ? r : Promise.resolve(r)))
    .then(xs => xs.join(''))]: the promises are awaited in list order. *)
Fixpoint allJoin (results : list rres) : M string :=
  match results with
  | [] => ret ""
  | r :: rest => s <- await r ;; t <- allJoin rest ;; ret (s +++ t)
  end.

Definition isLater (r : rres) : bool :=
  match r with Later _ => true | Now _ => false end.

(** [results.join('')] when no result is a promise. *)
Fixpoint joinNow (results : list rres) : string :=
  match results with
  | [] => ""
  | Now s :: rest => s +++ joinNow rest
  | Later _ :: rest => joinNow rest
  end.

(** [xs.map(f)] for an [f] that runs against the renderer. *)
Fixpoint mapM {A B : Type} (f : A -> M B) (l : list A) : M (list B) :=
  match l with
  | [] => ret []
  | x :: r => y <- f x ;; ys <- mapM f r ;; ret (y :: ys)
  end.

(** The double quote. *)
Definition dquote : ascii := ascii_of_nat 34.

Definition dq : string := String dquote EmptyString.

(** [_escapeHtml] (lines 4899-4909); the argument is a string at every
    call. *)
Definition _escapeHtml (str : string) : string :=
  Js.replaceAll "'" "&#39;"
    (Js.replaceAll dquote "&quot;"
       (Js.replaceAll ">" "&gt;"
          (Js.replaceAll "<" "&lt;"
             (Js.replaceAll "&" "&amp;" str)))).

(** [_escapeAttributeValue] (lines 4911-4921). *)
Definition _escapeAttributeValue (value : jsv) : string :=
  if Js.isNullish value then ""
  else
    Js.replaceAll ">" "&gt;"
      (Js.replaceAll "<" "&lt;"
         (Js.replaceAll "'" "&#39;"
            (Js.replaceAll dquote "&quot;"
               (Js.replaceAll "&" "&amp;" (Js.toStr value))))).

(** [booleanAttributes] (lines 4056-4060). *)
Definition booleanAttributes : list string :=
  ["autofocus"; "autoplay"; "async"; "checked"; "controls"; "defer";
   "disabled"; "hidden"; "loop"; "multiple"; "muted"; "open";
   "readonly"; "required"; "reversed"; "selected"; "default"].

(** [skipAttributes] (lines 4063-4065). *)
Definition skipAttributes : list string :=
  ["children"; "text"; "style"; "key"].

(** [eventHandlerPattern]: [/^on[a-z]/i]. *)
Definition eventHandlerPattern (key : string) : bool :=
  match key with
  | String o (String n (String c _)) =>
      (Ascii.eqb o "o" || Ascii.eqb o "O") &&
      (Ascii.eqb n "n" || Ascii.eqb n "N") && Js.isAlpha c
  | _ => false
  end.

(** [_shouldSkipAttribute] (lines 4738-4743). *)
Definition _shouldSkipAttribute (key : string) : bool :=
  Str.mem key skipAttributes || eventHandlerPattern key ||
  String.eqb key "style".

(** [_isVoidElement] (lines 4745-4751). *)
Definition _isVoidElement (tagName : string) : bool :=
  Str.mem (Js.toLowerCase tagName)
    ["area"; "base"; "br"; "col"; "embed"; "hr"; "img";
     "input"; "link"; "meta"; "param"; "source"; "track"; "wbr"].

(** [_finalizeElement] (lines 4445-4450). *)
Definition _finalizeElement (tagName html : string) : string :=
  if negb (_isVoidElement tagName) then html +++ "</" +++ tagName +++ ">"
  else html.

(** [_camelToKebab] (lines 4895-4897). *)
Fixpoint _camelToKebab (str : string) : string :=
  match str with
  | EmptyString => EmptyString
  | String c r =>
      if Js.isUpper c
      then String "-" (String (Js.lowerChar c) (_camelToKebab r))
      else String c (_camelToKebab r)
  end.

(** [_processClassName] (lines 4714-4736). *)
Definition _processClassName (value : jsv) : string :=
  match value with
  | JStr s => Js.trim s
  | JArr items =>
      Str.join " "
        (filter Str.nonEmpty
           (map (fun cls => Js.trim (Js.toStr cls))
              (filter
                 (fun cls =>
                    Js.truthy cls &&
                    match cls with JStr _ => true | _ => false end)
                 items)))
  | JObj _ | JPromise _ =>
      Str.join " "
        (filter Str.nonEmpty
           (map (fun e => Js.trim (fst e))
              (filter (fun e => Js.truthy (snd e) && Str.nonEmpty (fst e))
                 (Js.entries value))))
  | _ => ""
  end.

(** The regular expressions of [isValidTag] (lines 4261-4262). *)
Definition tagPattern1 (s : string) : bool :=
  match s with
  | String c r => Js.isAlpha c && forallb Js.isAlnum (Str.chars r)
  | EmptyString => false
  end.

Definition tagPattern2 (s : string) : bool :=
  match s with
  | String c r => Js.isUpper c && forallb Js.isAlnum (Str.chars r)
  | EmptyString => false
  end.

(** A registered component: called with the props (and a context the model
    leaves out), it returns a value or throws. *)
Definition component : Type := jsv -> completion.

(** A special attribute handler: called with two arguments. *)
Definition attrHandler : Type := string -> jsv -> completion.

Section Renderer.

(** [juris.componentManager.components] and [specialAttributeHandlers]:
    the renderer reads them and never writes them. *)
Variable components : list (string * component).
Variable specialAttributeHandlers : list (string * attrHandler).

(** [_renderInternalAsync] (lines 4170-4200), the async twin of
    [_renderInternal]: the promise it returns for a view node.  Its awaits
    interleave with the other microtasks; it is a parameter here. *)
Variable renderInternalAsync : jsv -> M string.

Definition isComponent (tagName : string) : bool :=
  match mapGet tagName components with Some _ => true | None => false end.

(** [_evaluateFunction] (lines 4753-4767). *)
Definition _evaluateFunction (fn : jsv) : M jsv :=
  match fn with
  | JFun _ (Normal result) => ret result
  | JFun _ (Thrown msg) =>
      _ <- say ("StringRenderer: Function evaluation error: " +++ msg) ;;
      _ <- say "Context available" ;;
      ret (JStr "")
  | _ => ret fn
  end.

(** [` ${name}="${this._escapeAttributeValue(value)}"`]. *)
Definition attr (name : string) (value : jsv) : string :=
  " " +++ name +++ "=" +++ dq +++ _escapeAttributeValue value +++ dq.

(** [_renderAttribute] (lines 4601-4712).  With a handler registered for
    the lower-case name, the call's argument [element] is not defined and
    the evaluation throws before the handler is called.  The cases of the
    [switch] that emit the name as written and the escaped value are one
    case here. *)
Definition _renderAttribute (name : string) (value : jsv) : M string :=
  if Js.isNullish value then ret ""
  else
    let lowerName := Js.toLowerCase name in
    match mapGet lowerName specialAttributeHandlers with
    | Some _ => throw "element is not defined"
    | None =>
        if Str.mem lowerName booleanAttributes then
          if Js.isTrue value || Js.isString value "" ||
             Js.isString value name || Js.isString value lowerName
          then ret (" " +++ name)
          else if Js.isFalse value then ret ""
          else ret (attr name value)
        else if Str.startsWith lowerName "data-" ||
                Str.startsWith lowerName "aria-"
        then ret (attr name value)
        else if String.eqb lowerName "class" ||
                String.eqb lowerName "classname"
        then
          let className := _processClassName value in
          ret (if Str.nonEmpty className
               then attr "class" (JStr className) else "")
        else if String.eqb lowerName "for" || String.eqb lowerName "htmlfor"
        then ret (attr "for" value)
        else if String.eqb lowerName "tabindex" then
          match Js.parseInt value with
          | None => ret ""
          | Some tabIndex => ret (attr "tabindex" (JNum tabIndex))
          end
        else if Str.mem lowerName
                  ["value"; "type"; "id"; "name"; "placeholder"; "title";
                   "alt"; "src"; "href"; "target"; "rel"; "role";
                   "contenteditable"; "draggable"; "spellcheck"]
        then ret (attr lowerName value)
        else ret (attr name value)
    end.

(** One key of the loop of [_processAttributes] (lines 4507-4545): the
    markup added at once, and the attribute whose value is still a
    promise. *)
Definition processAttribute (props : jsv) (key : string)
  : M (string * option (string * completion)) :=
  match mapGet key specialAttributeHandlers with
  | Some handler =>
      result <- settle (handler key (Js.get props key)) ;;
      ret (if Js.truthy result then Js.toStr result else "", None)
  | None =>
      if _shouldSkipAttribute key then ret ("", None)
      else
        let value := Js.get props key in
        if Js.isFunction value then
          processedValue <- _evaluateFunction value ;;
          match processedValue with
          | JPromise c => ret ("", Some (key, c))
          | _ => html <- _renderAttribute key processedValue ;;
                 ret (html, None)
          end
        else
          html <- _renderAttribute key value ;; ret (html, None)
  end.

(** [xs.forEach(f)] threading a string through. *)
Fixpoint foldM {A : Type} (f : string -> A -> M string) (l : list A)
  (acc : string) : M string :=
  match l with
  | [] => ret acc
  | x :: r => acc' <- f acc x ;; foldM f r acc'
  end.

(** The promise of [_processAttributes] (lines 4549-4555): all attribute
    promises are awaited, then the resolved attributes are rendered in
    order. *)
Definition asyncAttributes (attributePromises : list (string * completion))
  (attributesHtml : string) : M string :=
  resolvedAttributes <-
    mapM (fun kc => value <- settle (snd kc) ;; ret (fst kc, value))
      attributePromises ;;
  foldM (fun html kv => h <- _renderAttribute (fst kv) (snd kv) ;;
                        ret (html +++ h))
    resolvedAttributes attributesHtml.

Definition optionToList {A : Type} (o : option A) : list A :=
  match o with Some a => [a] | None => [] end.

(** [_processAttributes] (lines 4503-4559). *)
Definition _processAttributes (props : jsv) : M rres :=
  parts <- mapM (processAttribute props) (Js.keys props) ;;
  let attributesHtml := String.concat "" (map fst parts) in
  let attributePromises := flat_map (fun p => optionToList (snd p)) parts in
  match attributePromises with
  | [] => ret (Now attributesHtml)
  | _ => ret (Later (asyncAttributes attributePromises attributesHtml))
  end.

(** [`${cssProp}: ${cssValue}`]. *)
Definition styleRule (prop : string) (cssValue : jsv) : string :=
  _camelToKebab prop +++ ": " +++ Js.toStr cssValue.

(** One entry of the loop of [_processStyleObject] (lines 4815-4838): a
    rule at once, or a rule whose value is still a promise. *)
Definition processStyleEntry (entry : string * jsv)
  : M (option string * option (string * completion)) :=
  cssValue <- (if Js.isFunction (snd entry)
               then _evaluateFunction (snd entry) else ret (snd entry)) ;;
  match cssValue with
  | JPromise c => ret (None, Some (fst entry, c))
  | _ =>
      if Js.isNullish cssValue then ret (None, None)
      else ret (Some (styleRule (fst entry) cssValue), None)
  end.

(** [_processStyleObject] (lines 4810-4852). *)
Definition _processStyleObject (style : jsv) : M rres :=
  if Js.typeofObject style && negb (Js.isNullish style) then
    parts <- mapM processStyleEntry (Js.entries style) ;;
    let syncRules := flat_map (fun p => optionToList (fst p)) parts in
    let stylePromises := flat_map (fun p => optionToList (snd p)) parts in
    match stylePromises with
    | [] => ret (Now (Str.join "; " syncRules))
    | _ =>
        ret (Later
               (asyncRules <-
                  mapM (fun pc =>
                          resolvedValue <- settle (snd pc) ;;
                          ret (if Js.isNullish resolvedValue then ""
                               else styleRule (fst pc) resolvedValue))
                    stylePromises ;;
                ret (Str.join "; "
                       (syncRules ++ filter Str.nonEmpty asyncRules))))
    end
  else ret (Now (Js.toStr style)).

(** [_renderStyle] (lines 4785-4807). *)
Definition _renderStyle (style : jsv) : M rres :=
  if negb (Js.truthy style) then ret (Now "")
  else if Js.isFunction style then
    tryCatch
      (result <- _evaluateFunction style ;;
       match result with
       | JPromise c =>
           ret (Later (andThen (settle c) _processStyleObject))
       | _ => _processStyleObject result
       end)
      (fun msg =>
         _ <- say ("StringRenderer: Style function evaluation error: "
                   +++ msg) ;;
         ret (Now ""))
  else _processStyleObject style.

(** [html += ` style="${this._escapeAttributeValue(styleStr)}"`] when the
    style string is not empty, then [html += '>']. *)
Definition openTag (html styleStr : string) : string :=
  (if Str.nonEmpty styleStr
   then html +++ " style=" +++ dq +++ _escapeAttributeValue (JStr styleStr)
        +++ dq
   else html) +++ ">".

(** The methods that call [render] take it as [self]. *)
Section WithRender.

Variable self : jsv -> M rres.

(** [_renderChildrenContent] (lines 4423-4442). *)
Definition _renderChildrenContent (children : jsv) : M rres :=
  match children with
  | JArr items =>
      results <- mapM self items ;;
      if existsb isLater results then ret (Later (allJoin results))
      else ret (Now (joinNow results))
  | _ =>
      if negb (Js.isNullish children) then self children else ret (Now "")
  end.

(** [_renderElementContent] (lines 4371-4420). *)
Definition _renderElementContent (tagName : string) (props : jsv)
  (htmlSoFar : string) : M rres :=
  if negb (Js.isUndef (Js.get props "text")) then
    text <- (if Js.isFunction (Js.get props "text")
             then _evaluateFunction (Js.get props "text")
             else ret (Js.get props "text")) ;;
    match text with
    | JPromise c =>
        ret (Later
               (resolvedText <- settle c ;;
                ret (_finalizeElement tagName
                       (htmlSoFar +++ _escapeHtml (Js.toStr resolvedText)))))
    | _ =>
        ret (Now (_finalizeElement tagName
                    (htmlSoFar +++ _escapeHtml (Js.toStr text))))
    end
  else if negb (Js.isUndef (Js.get props "children")) then
    children <-
      (if Js.isFunction (Js.get props "children")
       then tryCatch (_evaluateFunction (Js.get props "children"))
              (fun msg =>
                 _ <- say ("StringRenderer: Error evaluating children "
                           +++ "function: " +++ msg) ;;
                 ret (JArr []))
       else ret (Js.get props "children")) ;;
    match children with
    | JPromise c =>
        ret (Later
               (content <- andThen (settle c) _renderChildrenContent ;;
                ret (_finalizeElement tagName (htmlSoFar +++ content))))
    | _ =>
        childrenResult <- _renderChildrenContent children ;;
        match childrenResult with
        | Later p =>
            ret (Later
                   (content <- p ;;
                    ret (_finalizeElement tagName (htmlSoFar +++ content))))
        | Now s => ret (Now (_finalizeElement tagName (htmlSoFar +++ s)))
        end
    end
  else ret (Now (_finalizeElement tagName htmlSoFar)).

(** [_continueElementRendering] (lines 4343-4368). *)
Definition _continueElementRendering (tagName : string) (props : jsv)
  (processedAttributes : string) : M rres :=
  let html := "<" +++ tagName +++ processedAttributes in
  styleStr <- _renderStyle (Js.get props "style") ;;
  match styleStr with
  | Later p =>
      ret (Later
             (andThen p
                (fun resolvedStyle =>
                   _renderElementContent tagName props
                     (openTag html resolvedStyle))))
  | Now s => _renderElementContent tagName props (openTag html s)
  end.

(** [_renderElement] (lines 4326-4340). *)
Definition _renderElement (tagName : string) (props : jsv) : M rres :=
  processedAttributes <- _processAttributes props ;;
  match processedAttributes with
  | Later p =>
      ret (Later
             (andThen p
                (fun attrs => _continueElementRendering tagName props attrs)))
  | Now attrs => _continueElementRendering tagName props attrs
  end.

(** [isValidTag] (lines 4261-4263). *)
Definition isValidTag (firstKey : string) : bool :=
  tagPattern1 firstKey || tagPattern2 firstKey || isComponent firstKey.

(** [_processComponentResult] (lines 4231-4272). *)
Definition _processComponentResult (componentResult : jsv)
  (tagName : string) : M rres :=
  if negb (Js.truthy componentResult) then ret (Now "")
  else
    match Js.get componentResult "render" with
    | JFun _ call =>
        tryCatch
          (renderResult <- settle call ;;
           match renderResult with
           | JPromise c => ret (Later (andThen (settle c) self))
           | _ => self renderResult
           end)
          (fun msg =>
             _ <- say ("StringRenderer: Error in component " +++ tagName
                       +++ " render method: " +++ msg) ;;
             ret (Now ("<!-- Component " +++ tagName +++ " render error: "
                       +++ msg +++ " -->")))
    | _ =>
        if Js.typeofObject componentResult then
          match Js.keys componentResult with
          | firstKey :: _ =>
              if isValidTag firstKey then self componentResult
              else ret (Now (_escapeHtml (Js.toStr componentResult)))
          | [] => ret (Now (_escapeHtml (Js.toStr componentResult)))
          end
        else ret (Now (_escapeHtml (Js.toStr componentResult)))
    end.

(** [_renderComponent] (lines 4202-4228). *)
Definition _renderComponent (tagName : string) (props : jsv) : M rres :=
  tryCatch
    (match mapGet tagName components with
     | Some componentFn =>
         componentResult <- settle (componentFn props) ;;
         match componentResult with
         | JPromise c =>
             _ <- say ("StringRenderer: Component " +++ tagName
                       +++ " returned promise, returning for waiting") ;;
             ret (Later
                    (andThen (settle c)
                       (fun resolvedResult =>
                          _processComponentResult resolvedResult tagName)))
         | _ => _processComponentResult componentResult tagName
         end
     | None => throw "componentFn is not a function"
     end)
    (fun msg =>
       _ <- say ("StringRenderer: Error rendering component " +++ tagName
                 +++ ": " +++ msg) ;;
       ret (Now ("<!-- Component " +++ tagName +++ " error: " +++ msg
                 +++ " -->"))).

(** [_renderInternal] (lines 4128-4167). *)
Definition _renderInternal (vnode : jsv) : M rres :=
  if negb (Js.truthy vnode) then ret (Now "")
  else if negb (Js.typeofObject vnode)
  then ret (Now (_escapeHtml (Js.toStr vnode)))
  else
    match vnode with
    | JArr items =>
        results <- mapM self items ;;
        if existsb isLater results then ret (Later (allJoin results))
        else ret (Now (joinNow results))
    | _ =>
        match Js.keys vnode with
        | [] => ret (Now "")
        | tagName :: _ =>
            if negb (Str.nonEmpty tagName) then ret (Now "")
            else
              let nodeProps :=
                if Js.truthy (Js.get vnode tagName)
                then Js.get vnode tagName else JObj [] in
              if isComponent tagName then _renderComponent tagName nodeProps
              else _renderElement tagName nodeProps
        end
    end.

(** [renderAsync] (lines 4109-4126). *)
Definition renderAsync (vnode : jsv) : M string :=
  d <- getDepth ;;
  mx <- getMaxDepth ;;
  if (d >? mx)%Z then
    _ <- say "StringRenderer: Maximum render depth exceeded" ;;
    ret "<!-- Max render depth exceeded -->"
  else
    _ <- setDepth (d + 1) ;;
    tryCatch
      (result <- renderInternalAsync vnode ;;
       d' <- getDepth ;;
       _ <- setDepth (d' - 1) ;;
       ret result)
      (fun msg =>
         d' <- getDepth ;;
         _ <- setDepth (d' - 1) ;;
         _ <- say ("StringRenderer: Async render error: " +++ msg) ;;
         ret ("<!-- Async render error: " +++ msg +++ " -->")).

(** The body of [render] (lines 4075-4106). *)
Definition renderBody (vnode : jsv) : M rres :=
  d <- getDepth ;;
  mx <- getMaxDepth ;;
  if (d >? mx)%Z then
    _ <- say "StringRenderer: Maximum render depth exceeded" ;;
    ret (Now "<!-- Max render depth exceeded -->")
  else
    _ <- setDepth (d + 1) ;;
    _ <- setAsyncDetected false ;;
    tryCatch
      (result <- _renderInternal vnode ;;
       d' <- getDepth ;;
       _ <- setDepth (d' - 1) ;;
       match result with
       | Later _ => ret result
       | Now _ =>
           detected <- getAsyncDetected ;;
           if detected then
             _ <- say ("StringRenderer: Async detected, switching to "
                       +++ "async render") ;;
             ret (Later (renderAsync vnode))
           else ret result
       end)
      (fun msg =>
         d' <- getDepth ;;
         _ <- setDepth (d' - 1) ;;
         _ <- say ("StringRenderer: Render error: " +++ msg) ;;
         ret (Now ("<!-- Render error: " +++ msg +++ " -->"))).

End WithRender.

(** [render]: [fuel] bounds how deep the calls of [render] nest, through
    promises included; a call that would nest deeper ends with
    [OutOfFuel]. *)
Fixpoint render (fuel : nat) (vnode : jsv) : M rres :=
  match fuel with
  | O => fun st => (OutOfFuel, st)
  | S n => renderBody (render n) vnode
  end.

Definition errorDiv (kind msg : string) : string :=
  "<div style=" +++ dq +++ "color: red;" +++ dq +++ ">" +++ kind +++ msg
  +++ "</div>".

(** [renderToString] (lines 4924-4961); [forceAsync] is [options.async].
    The timer that [Promise.race] sets against a forced async render is
    not part of the model: it never fires here. *)
Definition renderToString (fuel : nat) (layout : jsv) (forceAsync : bool)
  : M rres :=
  if negb (Js.truthy layout) then ret (Now "<p>No layout provided</p>")
  else
    tryCatch
      (if forceAsync then
         ret (Later
                (tryCatch (renderAsync layout)
                   (fun msg =>
                      _ <- say ("StringRenderer forced async renderToString "
                                +++ "error: " +++ msg) ;;
                      ret (errorDiv "Async StringRenderer Error: " msg))))
       else
         result <- render fuel layout ;;
         match result with
         | Later p =>
             ret (Later
                    (tryCatch p
                       (fun msg =>
                          _ <- say ("StringRenderer smart render error: "
                                    +++ msg) ;;
                          ret (errorDiv "Smart Render Error: " msg))))
         | Now _ => ret result
         end)
      (fun msg =>
         _ <- say ("StringRenderer renderToString error: " +++ msg) ;;
         ret (Now (errorDiv "StringRenderer Error: " msg))).

End Renderer.

(** ** Vocabulary of the statements about the renderer *)

(** The entity of a character, or the character itself. *)
Definition entityOf (c : ascii) : string :=
  if Ascii.eqb c "&" then "&amp;"
  else if Ascii.eqb c "<" then "&lt;"
  else if Ascii.eqb c ">" then "&gt;"
  else if Ascii.eqb c dquote then "&quot;"
  else if Ascii.eqb c "'" then "&#39;"
  else String c EmptyString.

(** One pass over a string, each character replaced by a string. *)
Fixpoint flatMapStr (f : ascii -> string) (s : string) : string :=
  match s with
  | EmptyString => EmptyString
  | String c r => f c +++ flatMapStr f r
  end.

(** The characters that escaping removes from a text. *)
Definition isMarkupChar (c : ascii) : bool :=
  Ascii.eqb c "<" || Ascii.eqb c ">" || Ascii.eqb c dquote ||
  Ascii.eqb c "'".

(** A view node with one tag and a text. *)
Definition textNode (tagName : string) (text : jsv) : jsv :=
  JObj [(tagName, JObj [("text", text)])].

(** A component that refers to itself through a promise, a component that
    refers to itself directly, and the node that calls a component with no
    props. *)
Definition asyncLoop : component :=
  fun _ => Normal (JPromise (Normal (JObj [("Loop", JObj [])]))).

Definition syncLoop : component :=
  fun _ => Normal (JObj [("Loop", JObj [])]).

Definition loopNode : jsv := JObj [("Loop", JObj [])].

(** The depth counter is within the bound. *)
Definition withinDepth (st : rstate) : Prop :=
  (renderDepth st <= maxRenderDepth st)%Z.

(** A render that does not end however many nested calls are allowed: it
    runs out of fuel at once, or it returns a promise that runs out of fuel
    whenever it is awaited with the counter within the bound. *)
Definition neverSettles (r : outcomeOf rres * rstate) : Prop :=
  match r with
  | (OutOfFuel, _) => True
  | (Val (Later p), st') =>
      withinDepth st' /\
      forall s, withinDepth s -> fst (p s) = OutOfFuel
  | _ => False
  end.

(** [st'] has the depth counter and the bound of [st]. *)
Definition sameDepth (st st' : rstate) : Prop :=
  renderDepth st' = renderDepth st /\ maxRenderDepth st' = maxRenderDepth st.

(** Code that leaves the depth counter where it found it, whether it ends
    with a value (of which [Q] then holds) or with an exception. *)
Definition keepsDepth {A : Type} (Q : A -> Prop) (m : M A) : Prop :=
  forall st,
    match m st with
    | (Val a, st') => sameDepth st st' /\ Q a
    | (Exc _, st') => sameDepth st st'
    | (OutOfFuel, _) => True
    end.

(** A result whose promise, if it is one, leaves the depth counter where it
    finds it when it is awaited. *)
Definition balanced (r : rres) : Prop :=
  match r with
  | Now _ => True
  | Later p => keepsDepth (fun _ => True) p
  end.

(** * More of the bundle

    Further code of src/unnamed/part_001, embedded in the same way: the
    dependency tracking and [reset] of [StateManager], the route matcher of
    [SimpleRouter] (lines 3923-3944) and [levenshteinDistance] of
    [EndpointRegistry] (lines 5863-5889).  The async twins of the rendering
    methods ([_renderInternalAsync] and the methods it calls) start the
    rendering of all children of a node before the first of them is
    awaited; their interleaving is outside the model, in which
    [renderInternalAsync] stays a parameter. *)

(** ** The rest of the state manager (part_001, lines 435-446) *)

(** [startTracking] (lines 435-439).  The set it returns is the one
    [currentTracking] holds: what [getState] adds afterwards shows in both,
    and [endTracking] hands the same set back. *)
Definition startTracking (st : store) : store :=
  set_currentTracking (Some []) st.

(** [endTracking] (lines 441-445): [tracking || new Set()], a set being
    truthy even when empty. *)
Definition endTracking (st : store) : list string * store :=
  (match currentTracking st with Some deps => deps | None => [] end,
   set_currentTracking None st).

(** ** Vocabulary of the further statements about the store *)

(** Two paths part ways: at some segment both go on, with different keys.
    Neither is then a prefix of the other. *)
Fixpoint diverge (ps qs : list string) : bool :=
  match ps, qs with
  | a :: r1, b :: r2 => if String.eqb a b then diverge r1 r2 else true
  | _, _ => false
  end.

(** Reading the paths [ps] one after the other. *)
Definition readAll (ps : list string) (st : store) : store :=
  fold_left (fun s p => snd (getState p VNull s)) ps st.

(** A callback body that reads [q] on every run. *)
Inductive alwaysReads (q : string) : prog -> Prop :=
| ar_here : forall d k, alwaysReads q (GetState q d k)
| ar_get : forall path d k,
    (forall v, alwaysReads q (k v)) -> alwaysReads q (GetState path d k)
| ar_set : forall path v c k,
    alwaysReads q k -> alwaysReads q (SetState path v c k).

(** What the middleware make of a value (lines 164-180), the store left
    out: each middleware in turn sees the result so far, the old value and
    the state tree; one that throws or returns [undefined] passes the
    result so far on. *)
Fixpoint applyMiddleware (mws : list middleware_t) (path : string)
  (oldValue finalValue context : value) (root : props_t) : value :=
  match mws with
  | [] => finalValue
  | mw :: rest =>
      applyMiddleware rest path oldValue
        (match mw path oldValue finalValue context root with
         | MwReturn result => if isUndef result then finalValue else result
         | MwThrow _ => finalValue
         end) context root
  end.

(** The store during a flush: the flag is up, and the queue is [q0] with
    what was queued since behind it. *)
Definition flushing (q0 : list updateRec) (st : store) : Prop :=
  batchUpdateInProgress st = true /\
  exists extra, updateQueue st = q0 ++ extra.

(** [Math.min(this.maxBatchSize, this.updateQueue.length)] as the number of
    updates [splice] takes: none for a negative count. *)
Definition batchSizeOf (st : store) : nat :=
  Z.to_nat (Z.min (maxBatchSize st)
                  (Z.of_nat (List.length (updateQueue st)))).

(** ** Vocabulary of the further statements about the renderer *)

(** Code that does not end with an exception; of a promise: it is never
    rejected. *)
Definition neverRejects {A : Type} (p : M A) : Prop :=
  forall st msg, fst (p st) <> Exc msg.

(** A value whose conversion [String(v)] is the string [Js.toStr] gives,
    and does not throw: a number is a safe integer (below 2^53 in absolute
    value; JavaScript writes larger ones rounded, or with an exponent), an
    object has no [toString] of its own (the conversion would call it, and
    fails when it is no function), and the value is no promise or other
    thenable; the same of what the value holds. *)
Fixpoint printable (v : jsv) : bool :=
  match v with
  | JNum n => (Z.abs n <? 2 ^ 53)%Z
  | JArr items =>
      (fix all (l : list jsv) : bool :=
         match l with
         | [] => true
         | x :: r => printable x && all r
         end) items
  | JObj props =>
      negb (Str.mem "toString" (map fst props)) &&
      (fix all (l : list (string * jsv)) : bool :=
         match l with
         | [] => true
         | (_, x) :: r => printable x && all r
         end) props
  | JPromise _ => false
  | _ => true
  end.

(** The props without the keys that [_shouldSkipAttribute] passes over. *)
Definition dropSkipped (props : list (string * jsv)) : list (string * jsv) :=
  filter (fun e => negb (_shouldSkipAttribute (fst e))) props.

(** A tree that holds no function and no promise. *)
Fixpoint isStatic (v : jsv) : bool :=
  match v with
  | JFun _ _ | JPromise _ => false
  | JArr items =>
      (fix all (l : list jsv) : bool :=
         match l with
         | [] => true
         | x :: r => isStatic x && all r
         end) items
  | JObj props =>
      (fix all (l : list (string * jsv)) : bool :=
         match l with
         | [] => true
         | (_, x) :: r => isStatic x && all r
         end) props
  | _ => true
  end.

(** How deep the arrays and objects of a tree nest. *)
Fixpoint nesting (v : jsv) : nat :=
  match v with
  | JArr items =>
      S ((fix most (l : list jsv) : nat :=
            match l with
            | [] => 0
            | x :: r => Nat.max (nesting x) (most r)
            end) items)
  | JObj props =>
      S ((fix most (l : list (string * jsv)) : nat :=
            match l with
            | [] => 0
            | (_, x) :: r => Nat.max (nesting x) (most r)
            end) props)
  | _ => 0
  end.

(** ** The route matcher of [SimpleRouter] (part_001, lines 3923-3944) *)

(** [path.split('/').filter(Boolean)]. *)
Definition segments (path : string) : list string :=
  filter Str.nonEmpty (Str.split "/" path).

(** [s.slice(1)]. *)
Definition slice1 (s : string) : string :=
  match s with
  | String _ r => r
  | EmptyString => EmptyString
  end.

(** The loop of [matchRoute] (lines 3933-3941) over the two lists of
    segments, which have the same length.  [params] holds the properties
    assigned so far, in the order of their first assignment (an object lists
    names that are array indices first).  The assignment to the name
    [__proto__] makes no property; the statement about the parameters takes
    patterns without a segment [:__proto__]. *)
Fixpoint matchSegments (patternSegments currentSegments : list string)
  (params : list (string * string)) : option (list (string * string)) :=
  match patternSegments, currentSegments with
  | pattern :: ps, current :: cs =>
      if Str.startsWith pattern ":"
      then matchSegments ps cs (mapSet (slice1 pattern) current params)
      else if negb (String.eqb pattern current) then None
      else matchSegments ps cs params
  | _, _ => Some params
  end.

(** [matchRoute] (lines 3923-3944); [None] is [null]. *)
Definition matchRoute (currentPath routePattern : string)
  : option (list (string * string)) :=
  let currentSegments := segments currentPath in
  let patternSegments := segments routePattern in
  if negb (List.length currentSegments =? List.length patternSegments)%nat
  then None
  else matchSegments patternSegments currentSegments [].

(** A pattern segment matches a path segment: it is a parameter, or the
    same string. *)
Definition segmentMatches (pattern current : string) : Prop :=
  Str.startsWith pattern ":" = true \/ pattern = current.

(** The pattern segment is the parameter [name]. *)
Definition isParam (name : string) (pc : string * string) : bool :=
  Str.startsWith (fst pc) ":" && String.eqb name (slice1 (fst pc)).

(** The subscriptions registered with [subscribe] at [path]. *)
Definition externalAt (path : string) (st : store) : list subscription :=
  match mapGet path (externalSubscribers st) with
  | Some subs => subs
  | None => []
  end.

(** ** [reset] (part_001, lines 96-118) *)

(** [JSON.parse(JSON.stringify(v))] for a value other than [undefined]: a
    property whose value is [undefined] is left out of an object, and an
    element that is [undefined] becomes [null] in an array. *)
Fixpoint jsonCopy (v : value) : value :=
  match v with
  | VObj false props =>
      VObj false
        ((fix each (l : props_t) : props_t :=
            match l with
            | [] => []
            | (k, x) :: r =>
                if isUndef x then each r else (k, jsonCopy x) :: each r
            end) props)
  | VObj true props =>
      VObj true
        ((fix each (l : props_t) : props_t :=
            match l with
            | [] => []
            | (k, x) :: r =>
                (k, if isUndef x then VNull else jsonCopy x) :: each r
            end) props)
  | _ => v
  end.

(** The first loop of [reset] (lines 98-104): the object [preserved], its
    properties in the order of their first assignment (paths that are array
    indices, which JavaScript lists first, are outside the model). *)
Definition collectPreserved (preserve : list string) (st : store)
  : props_t * store :=
  fold_left
    (fun acc path =>
       let '(v, s) := getState path VNull (snd acc) in
       (match v with
        | VNull => fst acc
        | _ => update path v (fst acc)
        end, s))
    preserve ([], st).

(** The body of the second loop of [reset] (lines 110-112).
    [JSON.stringify(undefined)] is [undefined], which [JSON.parse] refuses
    with a SyntaxError.  The call of [setState] leaves the context to its
    default, the empty object. *)
Definition restoreEntry (entry : string * value) (st : store) : outcome :=
  match snd entry with
  | VUndef => (st, Some "undefined is not valid JSON")
  | v => setState run (fst entry) (jsonCopy v) (VObj false []) st
  end.

(** [reset] (lines 96-118).  [initialState] is the field of that name: the
    constructor sets it to a JSON copy of its argument and nothing writes it
    afterwards. *)
Definition reset (initialState : props_t) (preserve : list string)
  (st : store) : outcome :=
  let '(preserved, st1) := collectPreserved preserve st in
  let st2 := set_state [] st1 in
  match forEach restoreEntry initialState st2 with
  | (st3, Some e) => (st3, Some e)
  | (st3, None) =>
      forEach (fun e s => setState run (fst e) (snd e) (VObj false []) s)
        preserved st3
  end.

(** A callback body that only reads. *)
Inductive readsOnly : prog -> Prop :=
| ro_return : readsOnly Return
| ro_throw : forall msg, readsOnly (Throw msg)
| ro_get : forall path d k,
    (forall v, readsOnly (k v)) -> readsOnly (GetState path d k).

(** A key written with digits only: the array indices are among them,
    which an object lists before its other keys. *)
Definition digitsOnly (k : string) : bool :=
  forallb (fun ch => (48 <=? nat_of_ascii ch)%nat &&
                     (nat_of_ascii ch <=? 57)%nat) (Str.chars k).

(** A key that is a path of one segment, itself, and is neither a built-in
    member name nor written with digits only. *)
Definition plainKey (k : string) : Prop :=
  isValidPath k = true /\ getPathParts k = [k] /\
  ordinaryKey k = true /\ digitsOnly k = false.

(** A value that holds no [undefined]: what [JSON.parse] returns. *)
Fixpoint jsonClean (v : value) : Prop :=
  match v with
  | VUndef => False
  | VObj _ props =>
      (fix each (l : props_t) : Prop :=
         match l with
         | [] => True
         | (_, x) :: r => jsonClean x /\ each r
         end) props
  | _ => True
  end.

Definition isNull (v : value) : bool :=
  match v with VNull => true | _ => false end.

(** ** [levenshteinDistance] of [EndpointRegistry] (part_001, lines
    5863-5889) *)

(** [xs[i] = v] on an array: the element at [i] is replaced, and the array
    grows by one when [i] is its length.  The code never assigns beyond the
    length, which would leave holes. *)
Definition writeAt {A : Type} (i : nat) (v : A) (xs : list A) : list A :=
  firstn i xs ++ v :: skipn (S i) xs.

(** [matrix[i][j]], and [matrix[i][j] = v]. *)
Definition cell (matrix : list (list nat)) (i j : nat) : nat :=
  nth j (nth i matrix []) 0.

Definition setCell (matrix : list (list nat)) (i j v : nat)
  : list (list nat) :=
  writeAt i (writeAt j v (nth i matrix [])) matrix.

(** [s.charAt(k)], [None] for the empty string it gives out of range, and
    the comparison of two such results. *)
Definition charAt (s : string) (k : nat) : option ascii := String.get k s.

Definition sameChar (a b : option ascii) : bool :=
  match a, b with
  | Some x, Some y => Ascii.eqb x y
  | None, None => true
  | _, _ => false
  end.

(** The body of the inner loop (lines 5876-5884). *)
Definition fillCell (str1 str2 : string) (i : nat)
  (matrix : list (list nat)) (j : nat) : list (list nat) :=
  if sameChar (charAt str2 (i - 1)) (charAt str1 (j - 1))
  then setCell matrix i j (cell matrix (i - 1) (j - 1))
  else setCell matrix i j
         (Nat.min (cell matrix (i - 1) (j - 1) + 1)
            (Nat.min (cell matrix i (j - 1) + 1)
                     (cell matrix (i - 1) j + 1))).

(** [levenshteinDistance] (lines 5863-5889): the three loops, each over the
    values its counter takes. *)
Definition levenshteinDistance (str1 str2 : string) : nat :=
  let n1 := String.length str1 in
  let n2 := String.length str2 in
  let rows :=
    fold_left (fun matrix i => writeAt i [i] matrix) (seq 0 (S n2)) [] in
  let first :=
    fold_left (fun matrix j => setCell matrix 0 j j) (seq 0 (S n1)) rows in
  let filled :=
    fold_left
      (fun matrix i => fold_left (fillCell str1 str2 i) (seq 1 n1) matrix)
      (seq 1 n2) first in
  cell filled n2 n1.

(** The edit distance of two lists of characters: the least number of
    insertions, deletions and replacements of one character that turn one
    into the other, by the usual recurrence. *)
Fixpoint editDistance (u : list ascii) : list ascii -> nat :=
  match u with
  | [] => fun w => List.length w
  | a :: u' =>
      fix inner (w : list ascii) : nat :=
        match w with
        | [] => S (List.length u')
        | b :: w' =>
            if Ascii.eqb a b then editDistance u' w'
            else Nat.min (editDistance u' w' + 1)
                   (Nat.min (inner w' + 1) (editDistance u' w + 1))
        end
  end.

(** What [matrix[i][j]] is to hold: the edit distance of the first [i]
    characters of [str2] and the first [j] characters of [str1], each
    prefix read from its end. *)
Definition distanceAt (str1 str2 : string) (i j : nat) : nat :=
  editDistance (rev (firstn i (Str.chars str2)))
    (rev (firstn j (Str.chars str1))).

(** The matrix while row [i] is filled up to column [j]: the rows above
    are complete, row [i] holds its first [j] cells, and the rows below
    hold their first cell. *)
Definition filledTo (str1 str2 : string) (i j : nat)
  (matrix : list (list nat)) : Prop :=
  List.length matrix = S (String.length str2) /\
  (forall k, k < i ->
     nth k matrix [] =
     map (distanceAt str1 str2 k) (seq 0 (S (String.length str1)))) /\
  nth i matrix [] = map (distanceAt str1 str2 i) (seq 0 j) /\
  (forall k, i < k -> k <= String.length str2 -> nth k matrix [] = [k]).

(** * Properties of the state store *)

(** ** Association lists and sets *)

Lemma lookup_update_same (k : string) (v : value) (props : props_t) :
  lookup k (update k v props) = Some v.
Proof.
  induction props as [|[k' w] r IH]; simpl.
  - now rewrite String.eqb_refl.
  - destruct (String.eqb k k') eqn:E; simpl.
    + now rewrite String.eqb_refl.
    + now rewrite E.
Qed.

Lemma mem_In (x : string) (l : list string) :
  Str.mem x l = true <-> In x l.
Proof.
  induction l as [|y r IH]; simpl.
  - split; [discriminate | tauto].
  - rewrite orb_true_iff, IH, String.eqb_eq. split; intros [H|H]; auto.
Qed.

Lemma mem_setAdd (x : string) (l : list string) :
  Str.mem x (setAdd x l) = true.
Proof.
  unfold setAdd. destruct (Str.mem x l) eqn:E; [exact E|].
  apply mem_In, in_or_app. right. now left.
Qed.

Lemma mem_setAdd_other (x y : string) (l : list string) :
  Str.mem x l = true -> Str.mem x (setAdd y l) = true.
Proof.
  unfold setAdd. intros H. destruct (Str.mem y l); [exact H|].
  apply mem_In, in_or_app. left. now apply mem_In.
Qed.

Lemma mapGet_In {A : Type} (k : string) (m : list (string * A)) (a : A) :
  mapGet k m = Some a -> In (k, a) m.
Proof.
  induction m as [|[k' b] r IH]; simpl; [discriminate|].
  destruct (String.eqb k k') eqn:E.
  - apply String.eqb_eq in E. subst. intros [= ->]. now left.
  - intros H. right. auto.
Qed.

Lemma In_mapSet {A : Type} (k k0 : string) (a a0 : A)
  (m : list (string * A)) :
  In (k0, a0) (mapSet k a m) -> (k0 = k /\ a0 = a) \/ In (k0, a0) m.
Proof.
  induction m as [|[k' b] r IH]; simpl.
  - intros [[= <- <-]|[]]. now left.
  - destruct (String.eqb k k') eqn:E; simpl.
    + intros [[= <- <-]|H]; [now left | right; now right].
    + intros [H|H]; [right; now left|].
      destruct (IH H) as [?|?]; [now left | right; now right].
Qed.

Lemma mapGet_mapSet {A : Type} (k : string) (a : A)
  (m : list (string * A)) :
  mapGet k (mapSet k a m) = Some a.
Proof.
  induction m as [|[k' b] r IH]; simpl.
  - now rewrite String.eqb_refl.
  - destruct (String.eqb k k') eqn:E; simpl.
    + now rewrite String.eqb_refl.
    + now rewrite E.
Qed.

Lemma mapGet_mapSet_other {A : Type} (k k' : string) (a : A)
  (m : list (string * A)) :
  String.eqb k' k = false -> mapGet k' (mapSet k a m) = mapGet k' m.
Proof.
  intros H. induction m as [|[x b] r IH]; simpl.
  - now rewrite H.
  - destruct (String.eqb k x) eqn:E; simpl.
    + apply String.eqb_eq in E. subst x. now rewrite H.
    + destruct (String.eqb k' x); [reflexivity | exact IH].
Qed.

Lemma keys_mapSet {A : Type} (k : string) (a : A) (m : list (string * A)) :
  map fst (mapSet k a m) = setAdd k (map fst m).
Proof.
  unfold setAdd. induction m as [|[x b] r IH]; simpl; [reflexivity|].
  destruct (String.eqb k x) eqn:E; simpl.
  - apply String.eqb_eq in E. now subst x.
  - rewrite IH. now destruct (Str.mem k (map fst r)).
Qed.

(** ** What the deep comparison accepts *)

(** Induction on values that reaches the values of an object's entries. *)
Lemma value_ind' (P : value -> Prop) :
  P VUndef -> P VNull -> (forall b, P (VBool b)) -> (forall n, P (VNum n)) ->
  (forall s, P (VStr s)) ->
  (forall arr props, Forall (fun e => P (snd e)) props -> P (VObj arr props)) ->
  forall v, P v.
Proof.
  intros HU HN HB HZ HS HO.
  fix IH 1. intros [| |b|n|s|arr props].
  - exact HU.
  - exact HN.
  - apply HB.
  - apply HZ.
  - apply HS.
  - apply HO. induction props as [|[k v] r IHr].
    + constructor.
    + constructor; [simpl; apply IH | exact IHr].
Qed.

Lemma deepEquals_obj (arrA arrB : bool) (propsA propsB : props_t) :
  deepEquals (VObj arrA propsA) (VObj arrB propsB) =
  Bool.eqb arrA arrB && (List.length propsA =? List.length propsB)%nat &&
  eachEntry propsB propsA.
Proof.
  simpl. destruct (Bool.eqb arrA arrB); simpl; [|reflexivity].
  destruct (List.length propsA =? List.length propsB)%nat; simpl;
    [|reflexivity].
  induction propsA as [|[k v] r IH]; simpl; [reflexivity|].
  destruct (lookup k propsB); [|reflexivity].
  destruct (deepEquals v v0); [|reflexivity]. exact IH.
Qed.

Lemma lookup_NoDup (k : string) (v : value) (props : props_t) :
  NoDup (map fst props) -> In (k, v) props -> lookup k props = Some v.
Proof.
  induction props as [|[k' w] r IH]; simpl; intros N H; [destruct H|].
  inversion N as [|? ? Hn N']; subst.
  destruct H as [[= -> ->]|H].
  - now rewrite String.eqb_refl.
  - destruct (String.eqb k k') eqn:E; [|now apply IH].
    apply String.eqb_eq in E. subst k'. elim Hn.
    change k with (fst (k, v)). now apply in_map.
Qed.


Lemma distinctKeys_entries (arr : bool) (props : props_t) :
  distinctKeys (VObj arr props) ->
  NoDup (map fst props) /\ forall k v, In (k, v) props -> distinctKeys v.
Proof.
  simpl. intros [N E]. split; [exact N|]. clear N.
  induction props as [|[k' w] r IH]; intros k v H; [destruct H|].
  destruct E as [Ew Er]. destruct H as [[= <- <-]|H]; [exact Ew|].
  eapply IH; eauto.
Qed.


(** ** Steps that notify nobody *)

Lemma frame_refl (st : store) : frame st st.
Proof. now constructor. Qed.

Lemma frame_trans (a b c : store) : frame a b -> frame b c -> frame a c.
Proof.
  intros [] []. constructor; congruence.
Qed.

Lemma traced_refl (st : store) : traced st st [].
Proof. unfold traced. now rewrite app_nil_r. Qed.

Lemma traced_trans (a b c : store) (l1 l2 : list event) :
  traced a b l1 -> traced b c l2 -> traced a c (l1 ++ l2).
Proof.
  unfold traced. intros H1 H2. now rewrite H2, H1, app_assoc.
Qed.

Lemma calls_app (l1 l2 : list event) :
  calls (l1 ++ l2) = calls l1 ++ calls l2.
Proof. apply filter_app. Qed.

Lemma silent_refl (st : store) : silent st st.
Proof.
  constructor; [apply frame_refl | reflexivity |].
  exists []. split; [apply traced_refl | reflexivity].
Qed.

Lemma silent_trans (a b c : store) : silent a b -> silent b c -> silent a c.
Proof.
  intros [F1 S1 (l1 & T1 & C1)] [F2 S2 (l2 & T2 & C2)].
  constructor; [eapply frame_trans; eauto | congruence |].
  exists (l1 ++ l2). split; [eapply traced_trans; eauto|].
  now rewrite calls_app, C1, C2.
Qed.

Lemma silent_emit (e : event) (st : store) :
  isCall e = false -> silent st (emit e st).
Proof.
  intros H. constructor; [now constructor | reflexivity |].
  exists [e]. split; [reflexivity|]. unfold calls. simpl. now rewrite H.
Qed.

Create HintDb store.
#[local] Hint Resolve silent_refl silent_emit frame_refl : store.

Lemma getState_silent (path : string) (d : value) (st : store) :
  silent st (snd (getState path d st)).
Proof.
  unfold getState. destruct (isValidPath path); simpl.
  - destruct (currentTracking st); simpl; [|apply silent_refl].
    constructor; [now constructor | now cbn |].
    exists []. split; [|reflexivity]. unfold traced. cbn.
    now rewrite app_nil_r.
  - now apply silent_emit.
Qed.

Lemma getState_state (path : string) (d : value) (st : store) :
  state (snd (getState path d st)) = state st.
Proof.
  unfold getState. destruct (isValidPath path); simpl; [|reflexivity].
  now destruct (currentTracking st).
Qed.

Lemma getState_value (path : string) (d : value) (st : store) :
  isValidPath path = true ->
  fst (getState path d st) =
  walk (getPathParts path) (VObj false (state st)) d.
Proof.
  unfold getState. intros ->. simpl. now destruct (currentTracking st).
Qed.

Lemma runMiddleware_silent (mws : list middleware_t) (i : nat)
  (path : string) (o f c : value) (st : store) :
  silent st (snd (runMiddleware mws i path o f c st)).
Proof.
  revert i f st. induction mws as [|mw r IH]; intros i f st; simpl.
  - apply silent_refl.
  - destruct (mw path o f c (state st)).
    + eapply silent_trans; [|apply IH]. now apply silent_emit.
    + eapply silent_trans; [|apply IH].
      eapply silent_trans; now apply silent_emit.
Qed.

Lemma runMiddleware_state (mws : list middleware_t) (i : nat)
  (path : string) (o f c : value) (st : store) :
  state (snd (runMiddleware mws i path o f c st)) = state st.
Proof.
  revert i f st. induction mws as [|mw r IH]; intros i f st; simpl.
  - reflexivity.
  - destruct (mw path o f c (state st)); now rewrite IH.
Qed.

Ltac silent_setter :=
  constructor;
  [ constructor; reflexivity
  | reflexivity
  | exists []; split;
    [ unfold traced; cbn; now rewrite app_nil_r | reflexivity ] ].

Lemma silent_set_state (x : props_t) (st : store) :
  silent st (set_state x st).
Proof. silent_setter. Qed.

Lemma silent_set_updateQueue (x : list updateRec) (st : store) :
  silent st (set_updateQueue x st).
Proof. silent_setter. Qed.

Lemma silent_set_batchTimeout (x : option nat) (st : store) :
  silent st (set_batchTimeout x st).
Proof. silent_setter. Qed.

Lemma silent_set_batchUpdateInProgress (x : bool) (st : store) :
  silent st (set_batchUpdateInProgress x st).
Proof. silent_setter. Qed.

Lemma silent_set_timers (x : list nat) (n : nat) (st : store) :
  silent st (set_timers x n st).
Proof. silent_setter. Qed.

Lemma silent_set_currentTracking (x : option (list string)) (st : store) :
  silent st (set_currentTracking x st).
Proof. silent_setter. Qed.

#[local] Hint Resolve silent_set_state silent_set_updateQueue
  silent_set_batchTimeout silent_set_batchUpdateInProgress silent_set_timers
  silent_set_currentTracking getState_silent runMiddleware_silent : store.

Lemma silent_isUpdating (st st' : store) :
  silent st st' -> isUpdating st' = isUpdating st.
Proof. intros [[] _ _]. assumption. Qed.

Lemma silentWrite_silent (path : string) (v c : value) (st : store) :
  silent st (silentWrite path v c st).
Proof.
  unfold silentWrite.
  pose proof (getState_silent path VNull st) as H1.
  destruct (getState path VNull st) as [old st1]. simpl in H1.
  pose proof (runMiddleware_silent (middleware st1) 0 path old v c st1) as H2.
  destruct (runMiddleware (middleware st1) 0 path old v c st1) as [fin st2].
  simpl in H2.
  destruct (deepEquals old fin).
  - eapply silent_trans; eauto.
  - eapply silent_trans; [eapply silent_trans; eauto|].
    apply silent_set_state.
Qed.

(** Inside a pass [_setStateImmediate] is the silent write, whatever the
    callbacks are. *)
Lemma setStateImmediate_in_pass (R : prog -> store -> outcome)
  (path : string) (v c : value) (st : store) :
  isUpdating st = true ->
  _setStateImmediate R path v c st = (silentWrite path v c st, None).
Proof.
  intros U. unfold _setStateImmediate, silentWrite.
  pose proof (getState_silent path VNull st) as H1.
  destruct (getState path VNull st) as [old st1]. simpl in H1.
  pose proof (runMiddleware_silent (middleware st1) 0 path old v c st1) as H2.
  destruct (runMiddleware (middleware st1) 0 path old v c st1) as [fin st2].
  simpl in H2.
  destruct (deepEquals old fin); [reflexivity|].
  apply silent_isUpdating in H1, H2.
  replace (isUpdating (set_state (writeState path fin (state st2)) st2))
    with true by (cbn; congruence).
  reflexivity.
Qed.

Lemma forEach_in_pass {A : Type} (f : A -> store -> outcome)
  (g : A -> store -> store) (l : list A) (st : store) :
  (forall x s, isUpdating s = true -> f x s = (g x s, None)) ->
  (forall x s, silent s (g x s)) ->
  isUpdating st = true ->
  forEach f l st = (fold_left (fun s x => g x s) l st, None) /\
  silent st (fold_left (fun s x => g x s) l st).
Proof.
  intros Hf Hg. revert st. induction l as [|x r IH]; intros st U; simpl.
  - split; [reflexivity | apply silent_refl].
  - rewrite (Hf x st U).
    assert (U' : isUpdating (g x st) = true)
      by (rewrite (silent_isUpdating _ _ (Hg x st)); exact U).
    destruct (IH _ U') as [E S]. split; [exact E|].
    eapply silent_trans; [apply Hg | exact S].
Qed.

Lemma silent_clearTimeout (t : nat) (st : store) :
  silent st (clearTimeout t st).
Proof. apply silent_set_timers. Qed.

Lemma silent_setTimeout (st : store) : silent st (snd (setTimeout st)).
Proof. apply silent_set_timers. Qed.

(** Inside a pass a flush of the queue writes silently, whatever the
    callbacks are. *)
Lemma processBatchedUpdates_in_pass (R R' : prog -> store -> outcome)
  (st : store) :
  isUpdating st = true ->
  _processBatchedUpdates R st = _processBatchedUpdates R' st /\
  silent st (_processBatchedUpdates R st).
Proof.
  intros U. unfold _processBatchedUpdates.
  destruct (batchUpdateInProgress st || (List.length (updateQueue st) =? 0)%nat);
    [split; [reflexivity | apply silent_refl]|].
  set (st1 := set_batchUpdateInProgress true st).
  set (st2 := match batchTimeout st1 with
              | Some t => set_batchTimeout None (clearTimeout t st1)
              | None => st1
              end).
  assert (S2 : silent st st2).
  { eapply silent_trans; [apply (silent_set_batchUpdateInProgress true)|].
    fold st1. subst st2. destruct (batchTimeout st1).
    - eapply silent_trans; [apply silent_clearTimeout|].
      apply silent_set_batchTimeout.
    - apply silent_refl. }
  set (n := Z.to_nat (Z.min (maxBatchSize st2)
                            (Z.of_nat (List.length (updateQueue st2))))).
  set (st3 := set_updateQueue (skipn n (updateQueue st2)) st2).
  assert (S3 : silent st st3).
  { eapply silent_trans; [exact S2 | apply silent_set_updateQueue]. }
  assert (U3 : isUpdating st3 = true).
  { rewrite (silent_isUpdating _ _ S3). exact U. }
  set (us := map snd (pathGroups (firstn n (updateQueue st2)))).
  destruct (forEach_in_pass
              (fun u s => _setStateImmediate R (upd_path u) (upd_value u)
                            (upd_context u) s)
              (fun u s => silentWrite (upd_path u) (upd_value u)
                            (upd_context u) s) us st3) as [E1 S4];
    [intros; now apply setStateImmediate_in_pass
    |intros; apply silentWrite_silent | exact U3 |].
  destruct (forEach_in_pass
              (fun u s => _setStateImmediate R' (upd_path u) (upd_value u)
                            (upd_context u) s)
              (fun u s => silentWrite (upd_path u) (upd_value u)
                            (upd_context u) s) us st3) as [E2 _];
    [intros; now apply setStateImmediate_in_pass
    |intros; apply silentWrite_silent | exact U3 |].
  rewrite E1, E2. split; [reflexivity|].
  match goal with
  | |- silent _ (if _ then snd (setTimeout ?s) else _) =>
      assert (S6 : silent st s)
  end.
  { eapply silent_trans; [|apply silent_set_batchUpdateInProgress].
    eapply silent_trans; [|now apply silent_emit].
    eapply silent_trans; eauto. }
  match goal with
  | |- silent _ (if ?b then _ else _) => destruct b
  end.
  - eapply silent_trans; [exact S6 | apply silent_setTimeout].
  - exact S6.
Qed.

Lemma queueUpdate_in_pass (R R' : prog -> store -> outcome)
  (path : string) (v c : value) (st : store) :
  isUpdating st = true ->
  _queueUpdate R path v c st = _queueUpdate R' path v c st /\
  silent st (_queueUpdate R path v c st).
Proof.
  intros U. unfold _queueUpdate.
  set (st1 := set_updateQueue _ st).
  assert (S1 : silent st st1) by apply silent_set_updateQueue.
  destruct (Z.of_nat (List.length (updateQueue st1)) >? maxBatchSize st1 * 2)%Z.
  - set (st2 := emit _ st1).
    assert (S2 : silent st st2).
    { eapply silent_trans; [exact S1 | now apply silent_emit]. }
    destruct (processBatchedUpdates_in_pass R R' st2) as [E S3].
    { rewrite (silent_isUpdating _ _ S2). exact U. }
    split; [exact E | eapply silent_trans; eauto].
  - split; [reflexivity|]. destruct (batchTimeout st1); [exact S1|].
    simpl. eapply silent_trans; [exact S1|].
    eapply silent_trans; [apply (silent_setTimeout st1)|].
    apply silent_set_batchTimeout.
Qed.

(** A [setState] issued while a pass is running starts no pass: it does not
    depend on how callbacks would be run, it does not throw, and it calls no
    subscriber. *)
Lemma setState_in_pass (R R' : prog -> store -> outcome)
  (path : string) (v c : value) (st : store) :
  isUpdating st = true ->
  setState R path v c st = setState R' path v c st /\
  snd (setState R path v c st) = None /\
  silent st (fst (setState R path v c st)).
Proof.
  intros U. unfold setState.
  destruct (isValidPath path); simpl;
    [|split; [reflexivity | split; [reflexivity | now apply silent_emit]]].
  unfold _hasCircularUpdate.
  destruct (Str.mem path (currentlyUpdating st));
    [split; [reflexivity | split; [reflexivity | now apply silent_emit]]|].
  destruct (batchingEnabled st && (batchDelayMs st >? 0)%Z).
  - destruct (queueUpdate_in_pass R R' path v c st U) as [E S].
    split; [now rewrite E|]. split; [reflexivity | exact S].
  - rewrite !setStateImmediate_in_pass by exact U.
    split; [reflexivity | split; [reflexivity | apply silentWrite_silent]].
Qed.

(** ** Callbacks inside a pass *)

(** A callback body run inside a pass calls no subscriber. *)
Lemma run_in_pass (p : prog) (st : store) :
  isUpdating st = true -> silent st (fst (run p st)).
Proof.
  revert st. induction p as [|msg|path d k IH|path v c k IH]; intros st U.
  - apply silent_refl.
  - apply silent_refl.
  - unfold run. simpl. fold run.
    pose proof (getState_silent path d st) as H.
    destruct (getState path d st) as [x st1]. simpl in H.
    eapply silent_trans; [exact H|]. apply IH.
    rewrite (silent_isUpdating _ _ H). exact U.
  - unfold run. simpl. fold run.
    destruct (setState_in_pass (fun _ s => (s, None)) (fun _ s => (s, None))
                path v c st U) as (_ & N & S).
    destruct (setState (fun _ s => (s, None)) path v c st) as [st1 [e|]];
      simpl in *; [discriminate|].
    eapply silent_trans; [exact S|]. apply IH.
    rewrite (silent_isUpdating _ _ S). exact U.
Qed.

(** The second level of the recursion is all there is: inside a pass the
    body runs the same whatever would run the callbacks of its own
    [setState] calls. *)
Lemma run_level (R : prog -> store -> outcome) (p : prog) (st : store) :
  isUpdating st = true -> runProg (setState R) p st = run p st.
Proof.
  revert st. induction p as [|msg|path d k IH|path v c k IH]; intros st U.
  - reflexivity.
  - reflexivity.
  - unfold run. simpl. fold run.
    pose proof (getState_silent path d st) as H.
    destruct (getState path d st) as [x st1]. simpl in H.
    apply IH. rewrite (silent_isUpdating _ _ H). exact U.
  - unfold run. simpl. fold run.
    destruct (setState_in_pass R (fun _ s => (s, None)) path v c st U)
      as (E & N & S).
    rewrite E in *.
    destruct (setState (fun _ s => (s, None)) path v c st) as [st1 [e|]];
      simpl in *; [discriminate|].
    apply IH. rewrite (silent_isUpdating _ _ S). exact U.
Qed.

(** A body that never throws returns normally. *)
Lemma run_neverThrows (p : prog) (st : store) :
  neverThrows p -> isUpdating st = true -> snd (run p st) = None.
Proof.
  intros H. revert st. induction H as [|path d k _ IH|path v c k _ IH];
    intros st U.
  - reflexivity.
  - unfold run. simpl. fold run.
    pose proof (getState_silent path d st) as S.
    destruct (getState path d st) as [x st1]. simpl in S.
    apply IH. rewrite (silent_isUpdating _ _ S). exact U.
  - unfold run. simpl. fold run.
    destruct (setState_in_pass (fun _ s => (s, None)) (fun _ s => (s, None))
                path v c st U) as (_ & N & S).
    destruct (setState (fun _ s => (s, None)) path v c st) as [st1 [e|]];
      simpl in *; [discriminate|].
    apply IH. rewrite (silent_isUpdating _ _ S). exact U.
Qed.

(** The circular guard: a [setState] on a path that is being notified is
    dropped with a warning. *)
Lemma setState_circular (R : prog -> store -> outcome)
  (p : string) (v c : value) (st : store) :
  isValidPath p = true ->
  Str.mem p (currentlyUpdating st) = true ->
  setState R p v c st =
  (emit (Warn ("Circular dependency detected for path: " +++ p)) st, None).
Proof.
  intros V M. unfold setState, _hasCircularUpdate. now rewrite V, M.
Qed.

Lemma setState_dropped_state (R : prog -> store -> outcome)
  (p : string) (v c : value) (st : store) :
  Str.mem p (currentlyUpdating st) = true ->
  state (fst (setState R p v c st)) = state st /\
  updateQueue (fst (setState R p v c st)) = updateQueue st /\
  snd (setState R p v c st) = None.
Proof.
  intros M. unfold setState, _hasCircularUpdate.
  destruct (isValidPath p); simpl; [|now repeat split].
  rewrite M. now repeat split.
Qed.

(** A body whose writes all go to a path under notification leaves the
    state tree and the queue as they are. *)
Lemma run_writesOnly (p : string) (body : prog) (st : store) :
  writesOnly p body ->
  isUpdating st = true ->
  Str.mem p (currentlyUpdating st) = true ->
  state (fst (run body st)) = state st /\
  updateQueue (fst (run body st)) = updateQueue st.
Proof.
  intros H. revert st.
  induction H as [|msg|path d k _ IH|v c k _ IH]; intros st U M.
  - now split.
  - now split.
  - unfold run. simpl. fold run.
    pose proof (getState_silent path d st) as S.
    pose proof (getState_state path d st) as E.
    assert (Q : updateQueue (snd (getState path d st)) = updateQueue st).
    { unfold getState. destruct (isValidPath path); simpl; [|reflexivity].
      now destruct (currentTracking st). }
    destruct (getState path d st) as [x st1]. simpl in *.
    destruct (IH x st1) as [A B].
    + rewrite (silent_isUpdating _ _ S). exact U.
    + destruct S as [[] _ _]. congruence.
    + split; congruence.
  - unfold run. simpl. fold run.
    destruct (setState_in_pass (fun _ s => (s, None)) (fun _ s => (s, None))
                p v c st U) as (_ & _ & S).
    destruct (setState_dropped_state (fun _ s => (s, None)) p v c st M)
      as (A & B & N).
    destruct (setState (fun _ s => (s, None)) p v c st) as [st1 [e|]];
      simpl in *; [discriminate|].
    destruct (IH st1) as [A' B'].
    + rewrite (silent_isUpdating _ _ S). exact U.
    + destruct S as [[] _ _]. congruence.
    + split; congruence.
Qed.

(** ** Invariants of a notification pass *)

Lemma subscribeInternal_bodies (P : prog -> Prop) (path : string)
  (cb : icallback) (st : store) :
  internalBodies P st -> P (icb_run cb) ->
  internalBodies P (subscribeInternal path cb st).
Proof.
  intros HI HP path' subs' c Hin Hc. unfold subscribeInternal in Hin.
  cbn in Hin. apply In_mapSet in Hin. destruct Hin as [[-> ->]|Hin].
  - destruct (mapGet path (subscribers st)) as [subs|] eqn:G.
    + destruct (hasCallback cb subs).
      * eapply HI; [apply mapGet_In; exact G | exact Hc].
      * apply in_app_or in Hc. destruct Hc as [Hc|[<-|[]]]; [|exact HP].
        eapply HI; [apply mapGet_In; exact G | exact Hc].
    + simpl in Hc. destruct Hc as [<-|[]]. exact HP.
  - eapply HI; eauto.
Qed.

Section PassInvariant.

  (** [P] holds of the body of every reactive callback, [Q] of the body of
    every callback registered with [subscribe]; [J] is a property of the
      store that the bodies, the trace and the bookkeeping of the pass
      preserve. *)
Variable P Q : prog -> Prop.
Variable J : store -> Prop.

Hypothesis J_run : forall body st,
  P body \/ Q body -> J st -> isUpdating st = true -> J (fst (run body st)).
Hypothesis J_emit : forall e st, J st -> J (emit e st).
Hypothesis J_tracking : forall x st, J st -> J (set_currentTracking x st).
Hypothesis J_subscribers : forall x st, J st -> J (set_subscribers x st).


Lemma resubscribe_inv (cb : icallback) (tracked : list string)
  (st : store) :
  P (icb_run cb) -> passInv P Q J st ->
  passInv P Q J
    (fold_left
       (fun s newPath =>
          match mapGet newPath (subscribers s) with
          | Some existingSubs =>
              if hasCallback cb existingSubs then s
              else subscribeInternal newPath cb s
          | None => subscribeInternal newPath cb s
          end) tracked st).
Proof.
  intros HP. revert st. induction tracked as [|q r IH]; intros st I;
    simpl; [exact I|].
  apply IH. destruct I as (U & HJ & HI & HE).
  assert (I' : passInv P Q J (subscribeInternal q cb st)).
  { repeat split.
    - exact U.
    - now apply J_subscribers.
    - now apply subscribeInternal_bodies.
    - exact HE. }
  destruct (mapGet q (subscribers st)) as [subs|]; [|exact I'].
  destruct (hasCallback cb subs); [|exact I']. now repeat split.
Qed.

Lemma silent_inv (st st' : store) :
  silent st st' -> J st' ->
  internalBodies P st -> externalBodies Q st -> isUpdating st = true ->
  passInv P Q J st'.
Proof.
  intros [[] S _] HJ HI HE U. repeat split.
  - congruence.
  - exact HJ.
  - unfold internalBodies. rewrite S. exact HI.
  - unfold externalBodies. rewrite fr_external0. exact HE.
Qed.

Lemma triggerCallback_inv (path : string) (cb : icallback) (st : store) :
  P (icb_run cb) -> passInv P Q J st ->
  passInv P Q J (fst (triggerCallback run path cb st)).
Proof.
  intros HP (U & HJ & HI & HE). unfold triggerCallback.
  set (st1 := emit _ (set_currentTracking (Some []) st)).
  assert (I1 : passInv P Q J st1).
  { repeat split; [exact U | | exact HI | exact HE].
    apply J_emit, J_tracking, HJ. }
  destruct I1 as (U1 & J1 & HI1 & HE1).
  pose proof (run_in_pass (icb_run cb) st1 U1) as S.
  pose proof (J_run (icb_run cb) st1 (or_introl HP) J1 U1) as J2.
  destruct (run (icb_run cb) st1) as [st2 [msg|]]; simpl in *.
  - pose proof (silent_inv st1 st2 S J2 HI1 HE1 U1) as (U2 & _ & HI2 & HE2).
    repeat split; [exact U2 | now apply J_emit | exact HI2 | exact HE2].
  - apply resubscribe_inv; [exact HP|].
    pose proof (silent_inv st1 st2 S J2 HI1 HE1 U1) as (U2 & _ & HI2 & HE2).
    repeat split; [exact U2 | now apply J_tracking | exact HI2 | exact HE2].
Qed.

Lemma forEach_inv {A : Type} (f : A -> store -> outcome) (l : list A)
  (st : store) :
  (forall x s, In x l -> passInv P Q J s -> passInv P Q J (fst (f x s))) ->
  passInv P Q J st -> passInv P Q J (fst (forEach f l st)).
Proof.
  revert st. induction l as [|x r IH]; intros st Hf I; simpl; [exact I|].
  pose proof (Hf x st (or_introl eq_refl) I) as I1.
  destruct (f x st) as [st1 [e|]]; simpl in *; [exact I1|].
  apply IH; [|exact I1]. intros y s Hy. apply Hf. now right.
Qed.

Lemma triggerPathSubscribers_inv (path : string) (st : store) :
  passInv P Q J st -> passInv P Q J (fst (_triggerPathSubscribers run path st)).
Proof.
  intros I. unfold _triggerPathSubscribers.
  destruct (mapGet path (subscribers st)) as [subs|] eqn:G; [|exact I].
  apply forEach_inv; [|exact I].
  intros cb s Hcb Is. apply triggerCallback_inv; [|exact Is].
  destruct I as (_ & _ & HI & _).
  eapply HI; [apply mapGet_In; exact G | exact Hcb].
Qed.

Lemma notifySubscribers_inv (path : string) (st : store) :
  passInv P Q J st -> passInv P Q J (fst (_notifySubscribers run path st)).
Proof.
  intros I. unfold _notifySubscribers.
  pose proof (triggerPathSubscribers_inv path st I) as I1.
  destruct (_triggerPathSubscribers run path st) as [st1 [e|]];
    simpl in *; [exact I1|].
  pose proof (forEach_inv (_triggerPathSubscribers run)
                (ancestorPaths path) st1
                (fun x s _ => triggerPathSubscribers_inv x s) I1) as I2.
  destruct (forEach (_triggerPathSubscribers run) (ancestorPaths path) st1)
    as [st2 [e|]]; simpl in *; [exact I2|].
  apply forEach_inv; [|exact I2].
  intros sp s _ Is.
  destruct (Str.startsWith sp _ && negb (String.eqb sp path));
    [now apply triggerPathSubscribers_inv | exact Is].
Qed.

Lemma notifySubscription_inv (changed : string) (nv ov : value)
  (sp : string) (sub : subscription) (st : store) :
  (forall a b c, Q (sub_callback sub a b c)) ->
  passInv P Q J st ->
  passInv P Q J (notifySubscription run changed nv ov sp sub st).
Proof.
  intros HP (U & HJ & HI & HE). unfold notifySubscription.
  destruct (shouldNotify _ _ _); [|now repeat split].
  set (st1 := emit _ st).
  assert (J1 : J st1) by now apply J_emit.
  pose proof (run_in_pass (sub_callback sub nv ov changed) st1 U) as S.
  pose proof (J_run _ st1 (or_intror (HP nv ov changed)) J1 U) as J2.
  destruct (run (sub_callback sub nv ov changed) st1) as [st2 [msg|]];
    simpl in *.
  - pose proof (silent_inv st1 st2 S J2 HI HE U) as (U2 & _ & HI2 & HE2).
    repeat split; [exact U2 | now apply J_emit | exact HI2 | exact HE2].
  - exact (silent_inv st1 st2 S J2 HI HE U).
Qed.

Lemma notifyExternalSubscribers_inv (changed : string) (nv ov : value)
  (st : store) :
  passInv P Q J st ->
  passInv P Q J (_notifyExternalSubscribers run changed nv ov st).
Proof.
  intros I. unfold _notifyExternalSubscribers.
  assert (H : forall entries s,
             (forall e, In e entries -> In e (externalSubscribers st)) ->
             passInv P Q J s ->
             passInv P Q J
               (fold_left
                  (fun s0 entry =>
                     fold_left
                       (fun s' sub =>
                          notifySubscription run changed nv ov
                            (fst entry) sub s') (snd entry) s0)
                  entries s)).
  { induction entries as [|[sp subs] r IH]; intros s Hsub Is; simpl;
      [exact Is|].
    apply IH; [intros e He; apply Hsub; now right|].
    assert (Hin : In (sp, subs) (externalSubscribers st))
      by (apply Hsub; now left).
    clear IH Hsub.
    assert (K : forall l s0, (forall x, In x l -> In x subs) ->
                passInv P Q J s0 ->
                passInv P Q J (fold_left
                           (fun s' sub =>
                              notifySubscription run changed nv ov sp sub s')
                           l s0)).
    { induction l as [|sub l IHl]; intros s0 Hl I0; simpl; [exact I0|].
      apply IHl; [intros x Hx; apply Hl; now right|].
      apply notifySubscription_inv; [|exact I0].
      intros a b c. destruct I as (_ & _ & _ & HE).
      eapply HE; [exact Hin | apply Hl; now left]. }
    apply K; [auto | exact Is]. }
  apply H; [auto | exact I].
Qed.

End PassInvariant.

(** ** The shape of [_setStateImmediate] *)

Lemma setStateImmediate_unfold (R : prog -> store -> outcome)
  (p : string) (v c : value) (st : store) :
  _setStateImmediate R p v c st =
  if deepEquals (oldValueOf p st) (finalValueOf p v c st)
  then (silentWrite p v c st, None)
  else if negb (isUpdating st) then
    match _notifySubscribers R p (passStart p v c st) with
    | (st5, Some e) => (st5, Some e)
    | (st5, None) =>
        let st6 :=
          _notifyExternalSubscribers R p (finalValueOf p v c st)
            (oldValueOf p st) st5 in
        (set_isUpdating false
           (set_currentlyUpdating (setDelete p (currentlyUpdating st6)) st6),
         None)
    end
  else (silentWrite p v c st, None).
Proof.
  unfold _setStateImmediate, passStart, silentWrite, oldValueOf, finalValueOf.
  pose proof (getState_silent p VNull st) as H1.
  destruct (getState p VNull st) as [old st1]. simpl in H1.
  pose proof (runMiddleware_silent (middleware st1) 0 p old v c st1) as H2.
  destruct (runMiddleware (middleware st1) 0 p old v c st1) as [fin st2].
  simpl in H2. simpl fst.
  destruct (deepEquals old fin); [reflexivity|].
  apply silent_isUpdating in H1, H2.
  replace (isUpdating (set_state (writeState p fin (state st2)) st2))
    with (isUpdating st) by (cbn; congruence).
  reflexivity.
Qed.

Lemma silentWrite_state (p : string) (v c : value) (st : store) :
  state (silentWrite p v c st) =
  if deepEquals (oldValueOf p st) (finalValueOf p v c st) then state st
  else writeState p (finalValueOf p v c st) (state st).
Proof.
  unfold silentWrite, oldValueOf, finalValueOf.
  pose proof (getState_state p VNull st) as H1.
  destruct (getState p VNull st) as [old st1]. simpl in H1.
  pose proof (runMiddleware_state (middleware st1) 0 p old v c st1) as H2.
  destruct (runMiddleware (middleware st1) 0 p old v c st1) as [fin st2].
  simpl in *. destruct (deepEquals old fin); [congruence|].
  cbn. congruence.
Qed.

Lemma finalValueOf_no_middleware (p : string) (v c : value) (st : store) :
  middleware st = [] -> finalValueOf p v c st = v.
Proof.
  intros M. unfold finalValueOf.
  pose proof (getState_silent p VNull st) as [[A _ _ _ _ _ _] _ _].
  destruct (getState p VNull st) as [old st1]. simpl in A.
  rewrite A, M. reflexivity.
Qed.

Lemma silentWrite_no_middleware_trace (p : string) (v c : value)
  (st : store) :
  isValidPath p = true -> middleware st = [] ->
  trace (silentWrite p v c st) = trace st.
Proof.
  intros V M. unfold silentWrite, getState. rewrite V. simpl.
  destruct (currentTracking st); cbn; rewrite M; simpl;
    now destruct (deepEquals _ v).
Qed.

(** A top-level write whose callbacks write nowhere but to the path under
    notification leaves the state tree as the write made it. *)
Lemma setStateImmediate_state (p : string) (v c : value) (st : store) :
  internalBodies (writesOnly p) st ->
  externalBodies (writesOnly p) st ->
  state (fst (_setStateImmediate run p v c st)) =
  state (silentWrite p v c st).
Proof.
  intros HI HE. rewrite setStateImmediate_unfold.
  destruct (deepEquals _ _); [reflexivity|].
  destruct (isUpdating st) eqn:U; simpl; [reflexivity|].
  set (S0 := state (silentWrite p v c st)).
  set (J := fun s : store =>
              state s = S0 /\ Str.mem p (currentlyUpdating s) = true).
  assert (Jrun : forall body s, writesOnly p body \/ writesOnly p body ->
                   J s -> isUpdating s = true -> J (fst (run body s))).
  { intros body s Hb' [A B] Us.
    assert (Hb : writesOnly p body) by tauto.
    destruct (run_writesOnly p body s Hb Us B) as [E _].
    pose proof (run_in_pass body s Us) as [[] _ _].
    split; congruence. }
  assert (Jemit : forall e s, J s -> J (emit e s)) by (intros e s [A B]; now split).
  assert (Jtr : forall x s, J s -> J (set_currentTracking x s))
    by (intros x s [A B]; now split).
  assert (Jsub : forall x s, J s -> J (set_subscribers x s))
    by (intros x s [A B]; now split).
  pose proof (silentWrite_silent p v c st) as [[] SS _].
  assert (I4 : passInv (writesOnly p) (writesOnly p) J (passStart p v c st)).
  { unfold passStart. repeat split.
    - cbn. apply mem_setAdd.
    - unfold internalBodies. cbn. rewrite SS. exact HI.
    - unfold externalBodies. cbn. rewrite fr_external0. exact HE. }
  pose proof (notifySubscribers_inv (writesOnly p) (writesOnly p) J Jrun Jemit Jtr Jsub
                p _ I4) as I5.
  destruct (_notifySubscribers run p (passStart p v c st)) as [st5 [e|]];
    simpl in *.
  - now destruct I5 as (_ & [A _] & _).
  - pose proof (notifyExternalSubscribers_inv (writesOnly p) (writesOnly p) J
                  Jrun Jemit
                  p (finalValueOf p v c st) (oldValueOf p st) st5 I5)
      as (_ & [A _] & _).
    exact A.
Qed.

(** ** Writing through a path and reading it back *)

Lemma assignPath_obj (parts : list string) (v : value) (arr : bool)
  (props : props_t) :
  exists props', assignPath parts v (VObj arr props) = VObj arr props'.
Proof.
  destruct parts as [|part rest]; simpl; [eauto|].
  destruct rest; simpl; eauto.
Qed.

Lemma assignPath_cons (part : string) (rest : list string) (v : value)
  (current : value) :
  rest <> [] ->
  assignPath (part :: rest) v current =
  setProp current part
    (assignPath rest v
       (if isNullish (getProp current part) ||
           negb (typeofObject (getProp current part))
        then VObj false [] else getProp current part)).
Proof.
  destruct rest; [congruence | reflexivity].
Qed.

Lemma child_obj (child : value) :
  exists a q,
    (if isNullish child || negb (typeofObject child)
     then VObj false [] else child) = VObj a q.
Proof. destruct child; simpl; eauto. Qed.

Lemma walk_assignPath (parts : list string) (v d : value) (arr : bool)
  (props : props_t) :
  parts <> [] -> v <> VUndef ->
  walk parts (assignPath parts v (VObj arr props)) d = v.
Proof.
  revert arr props. induction parts as [|part rest IH]; intros arr props N V;
    [congruence|].
  destruct rest as [|part' rest'].
  - simpl. rewrite lookup_update_same. destruct v; simpl; congruence.
  - rewrite assignPath_cons by discriminate.
    destruct (child_obj (getProp (VObj arr props) part)) as (a & q & Hc).
    rewrite Hc.
    destruct (assignPath_obj (part' :: rest') v a q) as [q' Hq].
    cbn [walk setProp isNullish orb getProp].
    rewrite lookup_update_same.
    replace (isUndef (assignPath (part' :: rest') v (VObj a q))) with false
      by (rewrite Hq; reflexivity).
    apply IH; [discriminate | assumption].
Qed.

(** Every proper prefix of the path leads to an object after the write. *)
Lemma walk_prefix_assignPath (parts : list string) (v d : value)
  (arr : bool) (props : props_t) (k : nat) :
  k < List.length parts ->
  exists arr' props',
    walk (firstn k parts) (assignPath parts v (VObj arr props)) d =
    VObj arr' props'.
Proof.
  revert arr props k. induction parts as [|part rest IH];
    intros arr props k Hk; [simpl in Hk; lia|].
  destruct k as [|k].
  - simpl firstn. cbn [walk].
    destruct (assignPath_obj (part :: rest) v arr props) as [q Hq].
    rewrite Hq. eauto.
  - simpl in Hk. assert (Hk' : k < List.length rest) by lia.
    destruct rest as [|part' rest']; [simpl in Hk'; lia|].
    rewrite assignPath_cons by discriminate.
    destruct (child_obj (getProp (VObj arr props) part)) as (a & q & Hc).
    rewrite Hc.
    destruct (assignPath_obj (part' :: rest') v a q) as [q' Hq].
    cbn [walk firstn setProp isNullish orb getProp].
    rewrite lookup_update_same.
    replace (isUndef (assignPath (part' :: rest') v (VObj a q))) with false
      by (rewrite Hq; reflexivity).
    apply IH. exact Hk'.
Qed.

Lemma writeState_assignPath (p : string) (v : value) (root : props_t) :
  VObj false (writeState p v root) =
  assignPath (getPathParts p) v (VObj false root).
Proof.
  unfold writeState.
  destruct (assignPath_obj (getPathParts p) v false root) as [q Hq].
  now rewrite Hq.
Qed.

Lemma setState_immediate (R : prog -> store -> outcome)
  (p : string) (v c : value) (st : store) :
  isValidPath p = true ->
  Str.mem p (currentlyUpdating st) = false ->
  batchingActive st = false ->
  setState R p v c st = _setStateImmediate R p v c st.
Proof.
  intros V M B. unfold setState, _hasCircularUpdate.
  rewrite V, M. simpl. unfold batchingActive in B. now rewrite B.
Qed.

(** ** C1: a write followed by a read *)

(** C1 (as amended).  On a store with no middleware and batching inactive,
    for a valid path [p] with at least one segment, none of whose segments
    is a built-in member name, that is not under notification, and a value
    [v] other than [undefined], when no subscriber callback writes to
    another path during the pass: if [v] is not deep-equal
    to the value read at [p] before, then after [setState p v] the read
    [getState p] returns [v] and every proper prefix of the path leads to an
    object (missing intermediate objects were created); if [v] is deep-equal
    to the prior value, the write is skipped: the state tree and the trace
    are unchanged (no subscriber is called) and [getState p] returns the
    prior value. *)
Theorem set_then_get (st : store) (p : string) (v c : value) :
  isValidPath p = true ->
  getPathParts p <> [] ->
  ordinaryPath p = true ->
  v <> VUndef ->
  middleware st = [] ->
  batchingActive st = false ->
  Str.mem p (currentlyUpdating st) = false ->
  internalBodies (writesOnly p) st ->
  externalBodies (writesOnly p) st ->
  (deepEquals (oldValueOf p st) v = false ->
   fst (getState p VNull (fst (setState run p v c st))) = v /\
   forall k, k < List.length (getPathParts p) ->
     exists arr props,
       walk (firstn k (getPathParts p))
         (VObj false (state (fst (setState run p v c st)))) VNull =
       VObj arr props) /\
  (deepEquals (oldValueOf p st) v = true ->
   state (fst (setState run p v c st)) = state st /\
   trace (fst (setState run p v c st)) = trace st /\
   fst (getState p VNull (fst (setState run p v c st))) = oldValueOf p st).
Proof.
  intros V N _ U M B C HI HE.
  rewrite (setState_immediate run p v c st V C B).
  pose proof (setStateImmediate_state p v c st HI HE) as S.
  rewrite silentWrite_state, (finalValueOf_no_middleware p v c st M) in S.
  split; intros D; rewrite D in S.
  - split.
    + rewrite getState_value by exact V. rewrite S, writeState_assignPath.
      now apply walk_assignPath.
    + intros k Hk. rewrite S, writeState_assignPath.
      now apply walk_prefix_assignPath.
  - split; [exact S|]. split.
    + rewrite setStateImmediate_unfold.
      rewrite (finalValueOf_no_middleware p v c st M), D. simpl.
      now apply silentWrite_no_middleware_trace.
    + rewrite getState_value by exact V. rewrite S.
      unfold oldValueOf. now rewrite getState_value by exact V.
Qed.

Lemma set_then_get_witness :
  fst (getState "user.name" VNull
         (fst (setState run "user.name" (VStr "Ann") (VObj false [])
                 (newStateManager [("user", VNum 1)] [])))) = VStr "Ann".
Proof.
  refine (proj1 (proj1 (set_then_get (newStateManager [("user", VNum 1)] [])
                   "user.name" (VStr "Ann") (VObj false [])
                   _ _ _ _ _ _ _ _ _) _)).
  - reflexivity.
  - discriminate.
  - reflexivity.
  - discriminate.
  - reflexivity.
  - reflexivity.
  - reflexivity.
  - intros path subs cb [].
  - intros path subs sub nv ov cp [].
  - reflexivity.
Defined.

(** C1 as stated fails for the value [undefined]: the write is made and the
    read returns the default [null]. *)
Lemma set_then_get_undefined :
  isValidPath "a" = true /\
  fst (getState "a" VNull
         (fst (setState run "a" VUndef (VObj false [])
                 (newStateManager [("a", VNum 1)] [])))) = VNull /\
  VNull <> VUndef.
Proof.
  split; [reflexivity|]. split; [reflexivity | discriminate].
Qed.

(** The path "." passes [isValidPath] and has no segment: the write goes to
    the key "undefined" of the root, and the read returns the whole tree. *)
Lemma set_then_get_dot :
  isValidPath "." = true /\
  fst (getState "." VNull
         (fst (setState run "." (VNum 1) (VObj false [])
                 (newStateManager [] [])))) =
  VObj false [("undefined", VNum 1)].
Proof.
  split; reflexivity.
Qed.

(** A subscriber that writes to an ancestor of the path undoes the write
    before [setState] returns. *)
Lemma set_then_get_overwritten :
  let st := snd (subscribe "a.b"
                   (fun _ _ _ => SetState "a" (VNum 0) (VObj false []) Return)
                   true (newStateManager [] [])) in
  fst (getState "a.b" VNull
         (fst (setState run "a.b" (VNum 1) (VObj false []) st))) = VNull.
Proof.
  reflexivity.
Qed.

(** ** C4: the circular guard *)

Lemma passStart_currentlyUpdating (p : string) (v c : value) (st : store) :
  Str.mem p (currentlyUpdating (passStart p v c st)) = true /\
  isUpdating (passStart p v c st) = true.
Proof.
  unfold passStart. cbn. split; [apply mem_setAdd | reflexivity].
Qed.

(** C4.  A write applied at top level on a valid path [p] starts a pass in
    which [p] is under notification.  A [setState] on [p] issued in that
    situation is dropped: the store is left as it was but for the warning
    added to the trace (no middleware is called, nothing is written or
    queued, nobody is notified).  So when the subscribers' callbacks write
    back to [p] and nowhere else, the pass ends and the state tree is the one
    the outer write made. *)
Theorem circular_write_back (st : store) (p : string) (v c : value) :
  isValidPath p = true ->
  isUpdating st = false ->
  internalBodies (writesOnly p) st ->
  externalBodies (writesOnly p) st ->
  Str.mem p (currentlyUpdating (passStart p v c st)) = true /\
  (forall (s : store) (w cw : value),
     Str.mem p (currentlyUpdating s) = true ->
     setState run p w cw s =
     (emit (Warn ("Circular dependency detected for path: " +++ p)) s,
      None)) /\
  state (fst (_setStateImmediate run p v c st)) =
  state (silentWrite p v c st).
Proof.
  intros V U HI HE. split; [apply passStart_currentlyUpdating|]. split.
  - intros s w cw M. now apply setState_circular.
  - now apply setStateImmediate_state.
Qed.

Lemma writesOnly_write_back (p : string) (w cw : value) :
  writesOnly p (SetState p w cw Return).
Proof. constructor. constructor. Qed.

Lemma circular_write_back_witness :
  let st := snd (subscribe "a"
                   (fun _ _ _ => SetState "a" (VNum 2) (VObj false []) Return)
                   true (newStateManager [] [])) in
  state (fst (_setStateImmediate run "a" (VNum 1) (VObj false []) st)) =
  state (silentWrite "a" (VNum 1) (VObj false []) st).
Proof.
  intros st.
  refine (proj2 (proj2 (circular_write_back st "a" (VNum 1) (VObj false [])
                          _ _ _ _))).
  - reflexivity.
  - reflexivity.
  - intros path subs cb [].
  - intros path subs sub nv ov cp H1 H2. cbn in H1.
    destruct H1 as [H1|[]]. inversion H1; subst.
    destruct H2 as [<-|[]]. apply writesOnly_write_back.
Defined.

(** The scenario of C4 run: one call of the subscriber, one warning, and
    the value of the outer write at "a". *)
Lemma circular_write_back_run :
  let st := snd (subscribe "a"
                   (fun _ _ _ => SetState "a" (VNum 2) (VObj false []) Return)
                   true (newStateManager [] [])) in
  let st' := fst (setState run "a" (VNum 1) (VObj false []) st) in
  trace st' =
    [CallExternal "a" 0 (VNum 1) VNull "a";
     Warn "Circular dependency detected for path: a"] /\
  fst (getState "a" VNull st') = VNum 1.
Proof.
  split; reflexivity.
Qed.

(** ** C10: a write issued inside a pass *)




(** ** The calls of a notification pass *)

Lemma internalSeq_empty (paths : list string) : internalSeq paths [].
Proof.
  induction paths as [|p r IH]; [constructor|].
  change (@nil event) with (@nil event ++ []). now constructor.
Qed.

Lemma internalSeq_app (ps qs : list string) (l m : list event) :
  internalSeq ps l -> internalSeq qs m -> internalSeq (ps ++ qs) (l ++ m).
Proof.
  intros H. induction H as [|path paths block l HB _ IH]; intros Hm;
    [exact Hm|].
  simpl. rewrite <- app_assoc. constructor; auto.
Qed.

Lemma internalSeq_one (path : string) (block : list event) :
  Forall (atPath path) block -> internalSeq [path] block.
Proof.
  intros H. rewrite <- (app_nil_r block). constructor; [exact H|constructor].
Qed.

Lemma traced_calls (a b : store) (l : list event) :
  traced a b l -> calls (trace b) = calls (trace a) ++ calls l.
Proof. unfold traced. intros ->. apply calls_app. Qed.

Lemma traced_newEvents (a b : store) (l : list event) :
  traced a b l -> newEvents a b = l.
Proof.
  unfold traced, newEvents. intros ->.
  rewrite skipn_app, skipn_all, Nat.sub_diag. reflexivity.
Qed.

Lemma passInv_trivial (st : store) :
  isUpdating st = true ->
  passInv (fun _ => True) (fun _ => True) (fun _ => True) st.
Proof. intros U. repeat split; auto. Qed.

Lemma resubscribe_trace (cb : icallback) (tracked : list string)
  (st : store) :
  trace
    (fold_left
       (fun s newPath =>
          match mapGet newPath (subscribers s) with
          | Some existingSubs =>
              if hasCallback cb existingSubs then s
              else subscribeInternal newPath cb s
          | None => subscribeInternal newPath cb s
          end) tracked st) = trace st.
Proof.
  revert st. induction tracked as [|q r IH]; intros st; simpl; [reflexivity|].
  rewrite IH. destruct (mapGet q (subscribers st)) as [subs|];
    [destruct (hasCallback cb subs)|]; reflexivity.
Qed.

(** One callback of a pass: its own call, and nothing else that is a
    call. *)
Lemma triggerCallback_calls (path : string) (cb : icallback) (st : store) :
  isUpdating st = true ->
  exists l,
    traced st (fst (triggerCallback run path cb st)) l /\
    calls l = [internalCall path cb].
Proof.
  intros U. unfold triggerCallback.
  set (st1 := emit _ (set_currentTracking (Some []) st)).
  assert (T1 : traced st st1 [CallInternal path (icb_id cb)]) by reflexivity.
  pose proof (run_in_pass (icb_run cb) st1 U) as [_ _ (l & T2 & C2)].
  destruct (run (icb_run cb) st1) as [st2 [msg|]]; simpl in *.
  - exists ([CallInternal path (icb_id cb)] ++ l ++
            [Error ("Subscriber error: " +++ msg)]).
    split.
    + eapply traced_trans; [exact T1|].
      eapply traced_trans; [exact T2 | reflexivity].
    + rewrite !calls_app, C2. reflexivity.
  - exists ([CallInternal path (icb_id cb)] ++ l). split.
    + unfold traced. rewrite resubscribe_trace. cbn [trace set_currentTracking].
      exact (traced_trans _ _ _ _ _ T1 T2).
    + rewrite calls_app, C2. reflexivity.
Qed.

Lemma triggerCallback_isUpdating (path : string) (cb : icallback)
  (st : store) :
  isUpdating st = true ->
  isUpdating (fst (triggerCallback run path cb st)) = true.
Proof.
  intros U.
  apply (triggerCallback_inv (fun _ => True) (fun _ => True) (fun _ => True));
    auto.
  now apply passInv_trivial.
Qed.

Lemma triggerPathSubscribers_isUpdating (path : string) (st : store) :
  isUpdating st = true ->
  isUpdating (fst (_triggerPathSubscribers run path st)) = true.
Proof.
  intros U.
  apply (triggerPathSubscribers_inv (fun _ => True) (fun _ => True)
           (fun _ => True)); auto.
  now apply passInv_trivial.
Qed.

(** The callbacks of one path: calls at that path only. *)
Lemma triggerPathSubscribers_calls (path : string) (st : store) :
  isUpdating st = true ->
  exists l,
    traced st (fst (_triggerPathSubscribers run path st)) l /\
    Forall (atPath path) (calls l).
Proof.
  intros U. unfold _triggerPathSubscribers.
  destruct (mapGet path (subscribers st)) as [subs|];
    [|exists []; split; [apply traced_refl | constructor]].
  revert st U. induction subs as [|cb r IH]; intros st U; simpl.
  - exists []. split; [apply traced_refl | constructor].
  - destruct (triggerCallback_calls path cb st U) as (l1 & T1 & C1).
    pose proof (triggerCallback_isUpdating path cb st U) as U1.
    destruct (triggerCallback run path cb st) as [st1 [e|]]; simpl in *.
    + exists l1. split; [exact T1|]. rewrite C1.
      constructor; [now exists (icb_id cb) | constructor].
    + destruct (IH st1 U1) as (l2 & T2 & C2).
      exists (l1 ++ l2). split; [eapply traced_trans; eauto|].
      rewrite calls_app, C1. constructor; [now exists (icb_id cb) | exact C2].
Qed.

(** A loop over paths: one block per path. *)
Lemma forEach_paths_calls (keep : string -> bool) (paths : list string)
  (st : store) :
  isUpdating st = true ->
  let r := forEach
             (fun sp s => if keep sp then _triggerPathSubscribers run sp s
                          else (s, None)) paths st in
  isUpdating (fst r) = true /\
  exists l,
    traced st (fst r) l /\ internalSeq (filter keep paths) (calls l).
Proof.
  revert st. induction paths as [|sp rest IH]; intros st U; simpl.
  - split; [exact U|]. exists []. split; [apply traced_refl | constructor].
  - destruct (keep sp) eqn:K.
    + destruct (triggerPathSubscribers_calls sp st U) as (l1 & T1 & C1).
      pose proof (triggerPathSubscribers_isUpdating sp st U) as U1.
      destruct (_triggerPathSubscribers run sp st) as [st1 [e|]]; simpl in *.
      * split; [exact U1|]. exists l1. split; [exact T1|].
        rewrite <- (app_nil_r (calls l1)).
        constructor; [exact C1 | apply internalSeq_empty].
      * destruct (IH st1 U1) as (U2 & l2 & T2 & C2).
        split; [exact U2|]. exists (l1 ++ l2).
        split; [eapply traced_trans; eauto|].
        rewrite calls_app. now constructor.
    + exact (IH st U).
Qed.

Lemma filter_true {A : Type} (l : list A) : filter (fun _ => true) l = l.
Proof. induction l; simpl; congruence. Qed.

Lemma notifySubscription_calls (changed : string) (nv ov : value)
  (sp : string) (sub : subscription) (st : store) :
  isUpdating st = true ->
  isUpdating (notifySubscription run changed nv ov sp sub st) = true /\
  exists l,
    traced st (notifySubscription run changed nv ov sp sub st) l /\
    calls l =
    (if shouldNotify (sub_hierarchical sub) changed sp
     then [CallExternal sp (sub_id sub) nv ov changed] else []).
Proof.
  intros U. unfold notifySubscription.
  destruct (shouldNotify (sub_hierarchical sub) changed sp).
  - set (st1 := emit _ st).
    assert (T1 : traced st st1 [CallExternal sp (sub_id sub) nv ov changed])
      by reflexivity.
    pose proof (run_in_pass (sub_callback sub nv ov changed) st1 U)
      as [[] _ (l & T2 & C2)].
    destruct (run (sub_callback sub nv ov changed) st1) as [st2 [msg|]];
      simpl in *.
    + split; [congruence|].
      exists ([CallExternal sp (sub_id sub) nv ov changed] ++ l ++
              [Error ("External subscriber error: " +++ msg)]).
      split.
      * eapply traced_trans; [exact T1|].
        eapply traced_trans; [exact T2 | reflexivity].
      * rewrite !calls_app, C2. reflexivity.
    + split; [congruence|].
      exists ([CallExternal sp (sub_id sub) nv ov changed] ++ l).
      split; [eapply traced_trans; eauto|].
      rewrite calls_app, C2. reflexivity.
  - split; [exact U|]. exists []. split; [apply traced_refl | reflexivity].
Qed.

Lemma notifyExternal_fold_calls (changed : string) (nv ov : value)
  (entries : list (string * list subscription)) (st : store) :
  isUpdating st = true ->
  let st' :=
    fold_left
      (fun s entry =>
         fold_left
           (fun s' sub =>
              notifySubscription run changed nv ov (fst entry) sub s')
           (snd entry) s)
      entries st in
  isUpdating st' = true /\
  exists l, traced st st' l /\ calls l = externalCalls changed nv ov entries.
Proof.
  revert st. induction entries as [|[sp subs] rest IH]; intros st U; simpl.
  - split; [exact U|]. exists []. split; [apply traced_refl | reflexivity].
  - assert (K : forall l s, isUpdating s = true ->
                let s' := fold_left
                            (fun s' sub =>
                               notifySubscription run changed nv ov sp sub s')
                            l s in
                isUpdating s' = true /\
                exists m, traced s s' m /\
                  calls m =
                  flat_map
                    (fun sub =>
                       if shouldNotify (sub_hierarchical sub) changed sp
                       then [CallExternal sp (sub_id sub) nv ov changed]
                       else []) l).
    { induction l as [|sub l IHl]; intros s Us; simpl.
      - split; [exact Us|]. exists []. split; [apply traced_refl|reflexivity].
      - destruct (notifySubscription_calls changed nv ov sp sub s Us)
          as (U1 & m1 & T1 & C1).
        destruct (IHl _ U1) as (U2 & m2 & T2 & C2).
        split; [exact U2|]. exists (m1 ++ m2).
        split; [eapply traced_trans; eauto|].
        rewrite calls_app, C1, C2. reflexivity. }
    destruct (K subs st U) as (U1 & m1 & T1 & C1).
    destruct (IH _ U1) as (U2 & m2 & T2 & C2).
    split; [exact U2|]. exists (m1 ++ m2).
    split; [eapply traced_trans; eauto|].
    rewrite calls_app, C1, C2. reflexivity.
Qed.

(** The calls of [_notifyExternalSubscribers]. *)
Lemma notifyExternalSubscribers_calls (changed : string) (nv ov : value)
  (st : store) :
  isUpdating st = true ->
  exists l,
    traced st (_notifyExternalSubscribers run changed nv ov st) l /\
    calls l = externalCalls changed nv ov (externalSubscribers st).
Proof.
  intros U.
  destruct (notifyExternal_fold_calls changed nv ov (externalSubscribers st)
              st U) as (_ & l & T & C).
  now exists l.
Qed.

Lemma notifySubscribers_frame (p : string) (st : store) :
  isUpdating st = true ->
  externalSubscribers (fst (_notifySubscribers run p st)) =
  externalSubscribers st.
Proof.
  intros U.
  set (J := fun s : store => externalSubscribers s = externalSubscribers st).
  assert (I : passInv (fun _ => True) (fun _ => True) J st)
    by (repeat split; auto).
  apply (notifySubscribers_inv (fun _ => True) (fun _ => True) J)
    with (path := p) in I.
  - now destruct I as (_ & HJ & _).
  - intros body s _ HJ Us.
    pose proof (run_in_pass body s Us) as [[] _ _]. unfold J in *. congruence.
  - intros e s HJ. exact HJ.
  - intros x s HJ. exact HJ.
  - intros x s HJ. exact HJ.
Qed.

(** Bodies that never throw: the internal pass returns normally. *)
Lemma forEach_no_throw {A : Type} (f : A -> store -> outcome) (l : list A)
  (Inv : store -> Prop) (st : store) :
  (forall x s, In x l -> Inv s ->
     Inv (fst (f x s)) /\ snd (f x s) = None) ->
  Inv st -> snd (forEach f l st) = None /\ Inv (fst (forEach f l st)).
Proof.
  revert st. induction l as [|x r IH]; intros st Hf I; simpl; [now split|].
  destruct (Hf x st (or_introl eq_refl) I) as [I1 N1].
  destruct (f x st) as [st1 [e|]]; simpl in *; [discriminate|].
  apply IH; [|exact I1]. intros y s Hy. apply Hf. now right.
Qed.

Lemma triggerCallback_no_throw (path : string) (cb : icallback)
  (st : store) :
  neverThrows (icb_run cb) -> isUpdating st = true ->
  snd (triggerCallback run path cb st) = None.
Proof.
  intros H U. unfold triggerCallback.
  set (st1 := emit _ (set_currentTracking (Some []) st)).
  pose proof (run_neverThrows (icb_run cb) st1 H U) as N.
  destruct (run (icb_run cb) st1) as [st2 [msg|]]; simpl in *;
    [discriminate | reflexivity].
Qed.

Lemma triggerPathSubscribers_no_throw (path : string) (st : store) :
  passInv neverThrows (fun _ => True) (fun _ => True) st ->
  snd (_triggerPathSubscribers run path st) = None.
Proof.
  intros I. unfold _triggerPathSubscribers.
  destruct (mapGet path (subscribers st)) as [subs|] eqn:G; [|reflexivity].
  apply (forEach_no_throw _ subs (passInv neverThrows (fun _ => True) (fun _ => True)));
    [|exact I].
  intros cb s Hcb Is.
  assert (Hb : neverThrows (icb_run cb)).
  { destruct I as (_ & _ & HI & _).
    eapply HI; [apply mapGet_In; exact G | exact Hcb]. }
  split.
  - apply triggerCallback_inv; auto.
  - apply triggerCallback_no_throw; [exact Hb | now destruct Is].
Qed.

Lemma notifySubscribers_no_throw (p : string) (st : store) :
  passInv neverThrows (fun _ => True) (fun _ => True) st ->
  snd (_notifySubscribers run p st) = None.
Proof.
  intros I. unfold _notifySubscribers.
  pose proof (triggerPathSubscribers_no_throw p st I) as N1.
  pose proof (triggerPathSubscribers_inv neverThrows (fun _ => True)
                (fun _ => True) (fun _ _ _ _ _ => Logic.I) (fun _ _ _ => Logic.I)
                (fun _ _ _ => Logic.I) (fun _ _ _ => Logic.I) p st I) as I1.
  destruct (_triggerPathSubscribers run p st) as [st1 [e|]]; simpl in *;
    [discriminate|].
  destruct (forEach_no_throw (_triggerPathSubscribers run) (ancestorPaths p)
              (passInv neverThrows (fun _ => True) (fun _ => True)) st1) as [N2 I2];
    [|exact I1|].
  { intros x s _ Is. split.
    - apply triggerPathSubscribers_inv; auto.
    - now apply triggerPathSubscribers_no_throw. }
  destruct (forEach (_triggerPathSubscribers run) (ancestorPaths p) st1)
    as [st2 [e|]]; simpl in *; [discriminate|].
  apply (forEach_no_throw _ _ (passInv neverThrows (fun _ => True) (fun _ => True)));
    [|exact I2].
  intros x s _ Is.
  destruct (Str.startsWith x _ && negb (String.eqb x p)).
  - split.
    + apply triggerPathSubscribers_inv; auto.
    + now apply triggerPathSubscribers_no_throw.
  - now split.
Qed.

Lemma triggerCallbacks_calls (path : string) (subs : list icallback) :
  forall st,
    isUpdating st = true ->
    (forall cb, In cb subs -> neverThrows (icb_run cb)) ->
    snd (forEach (triggerCallback run path) subs st) = None /\
    isUpdating (fst (forEach (triggerCallback run path) subs st)) = true /\
    exists l,
      traced st (fst (forEach (triggerCallback run path) subs st)) l /\
      calls l = map (internalCall path) subs.
Proof.
  induction subs as [|cb r IH]; intros st U NT; simpl.
  - split; [reflexivity|]. split; [exact U|]. exists []. split;
      [apply traced_refl | reflexivity].
  - pose proof (triggerCallback_no_throw path cb st
                  (NT cb (or_introl eq_refl)) U) as N.
    pose proof (triggerCallback_isUpdating path cb st U) as U1.
    destruct (triggerCallback_calls path cb st U) as [l1 [T1 C1]].
    destruct (triggerCallback run path cb st) as [st1 [e|]];
      cbn [fst snd] in *; [discriminate|].
    destruct (IH st1 U1 (fun x H => NT x (or_intror H)))
      as [N2 [U2 [l2 [T2 C2]]]].
    split; [exact N2|]. split; [exact U2|].
    exists (l1 ++ l2). split; [eapply traced_trans; eauto|].
    now rewrite calls_app, C1, C2.
Qed.

(** ** The blocks of a pass whose reactive callbacks do not throw *)

Lemma traced_inj (a b : store) (l l' : list event) :
  traced a b l -> traced a b l' -> l = l'.
Proof.
  unfold traced. intros H H'. rewrite H in H'. now apply app_inv_head in H'.
Qed.

Lemma grown_refl (st : store) : grown st st.
Proof. intros path. exists []. now rewrite app_nil_r. Qed.

Lemma grown_trans (a b c : store) : grown a b -> grown b c -> grown a c.
Proof.
  intros H1 H2 path. destruct (H1 path) as [x Hx], (H2 path) as [y Hy].
  exists (x ++ y). now rewrite Hy, Hx, app_assoc.
Qed.

Lemma grown_same (st st' : store) :
  subscribers st' = subscribers st -> grown st st'.
Proof.
  intros H path. exists []. unfold internalAt. now rewrite H, app_nil_r.
Qed.

Lemma subscribeInternal_grown (q : string) (cb : icallback) (st : store) :
  grown st (subscribeInternal q cb st).
Proof.
  intros path. unfold subscribeInternal, internalAt.
  cbn [subscribers set_subscribers].
  destruct (String.eqb path q) eqn:E.
  - apply String.eqb_eq in E. subst path. rewrite mapGet_mapSet.
    destruct (hasCallback cb _);
      [exists []; now rewrite app_nil_r | now exists [cb]].
  - rewrite (mapGet_mapSet_other q path _ _ E). exists [].
    now rewrite app_nil_r.
Qed.

Lemma resubscribe_grown (cb : icallback) (tracked : list string)
  (st : store) :
  grown st
    (fold_left
       (fun s newPath =>
          match mapGet newPath (subscribers s) with
          | Some existingSubs =>
              if hasCallback cb existingSubs then s
              else subscribeInternal newPath cb s
          | None => subscribeInternal newPath cb s
          end) tracked st).
Proof.
  revert st. induction tracked as [|q r IH]; intros st; simpl;
    [apply grown_refl|].
  eapply grown_trans; [|apply IH].
  destruct (mapGet q (subscribers st)) as [subs|];
    [destruct (hasCallback cb subs)|];
    try apply subscribeInternal_grown; apply grown_refl.
Qed.

Lemma triggerCallback_grown (path : string) (cb : icallback) (st : store) :
  isUpdating st = true -> grown st (fst (triggerCallback run path cb st)).
Proof.
  intros U. unfold triggerCallback.
  set (st1 := emit _ (set_currentTracking (Some []) st)).
  pose proof (run_in_pass (icb_run cb) st1 U) as [_ S _].
  destruct (run (icb_run cb) st1) as [st2 [msg|]]; cbn [fst] in *.
  - apply grown_same. cbn [subscribers emit]. exact S.
  - eapply grown_trans; [|apply resubscribe_grown].
    apply grown_same. cbn [subscribers set_currentTracking]. exact S.
Qed.

(** The callbacks of one path in a pass whose callbacks do not throw: the
    callbacks registered at the path at the start of the pass, and those
    registered there since. *)
Lemma triggerPathSubscribers_block (b : store) (path : string)
  (st : store) :
  passInv neverThrows (fun _ => True) (fun _ => True) st ->
  grown b st ->
  grown b (fst (_triggerPathSubscribers run path st)) /\
  exists late l,
    traced st (fst (_triggerPathSubscribers run path st)) l /\
    calls l = map (internalCall path) (internalAt path b ++ late).
Proof.
  intros I G. destruct (G path) as [late Hl].
  unfold _triggerPathSubscribers. unfold internalAt at 1 in Hl.
  destruct (mapGet path (subscribers st)) as [subs|] eqn:E.
  - assert (NT : forall cb, In cb subs -> neverThrows (icb_run cb)).
    { intros cb Hcb. destruct I as (_ & _ & HI & _).
      eapply HI; [apply mapGet_In; exact E | exact Hcb]. }
    destruct I as (U & _).
    destruct (triggerCallbacks_calls path subs st U NT) as (_ & _ & l & T & C).
    split.
    + eapply grown_trans; [exact G|]. clear - U.
      revert st U. induction subs as [|cb r IH]; intros st U; simpl;
        [apply grown_refl|].
      pose proof (triggerCallback_grown path cb st U) as G1.
      pose proof (triggerCallback_isUpdating path cb st U) as U1.
      destruct (triggerCallback run path cb st) as [st1 [e|]];
        cbn [fst] in *; [exact G1|].
      eapply grown_trans; [exact G1 | now apply IH].
    + exists late, l. split; [exact T|]. now rewrite C, Hl.
  - split; [exact G|]. exists late, []. split; [apply traced_refl|].
    now rewrite <- Hl.
Qed.

(** A loop over paths in such a pass: one block per path. *)
Lemma forEach_paths_blocks (b : store) (keep : string -> bool)
  (paths : list string) (st : store) :
  passInv neverThrows (fun _ => True) (fun _ => True) st ->
  grown b st ->
  let r := forEach
             (fun sp s => if keep sp then _triggerPathSubscribers run sp s
                          else (s, None)) paths st in
  snd r = None /\
  passInv neverThrows (fun _ => True) (fun _ => True) (fst r) /\
  grown b (fst r) /\
  exists l,
    traced st (fst r) l /\ internalBlocks b (filter keep paths) (calls l).
Proof.
  revert st. induction paths as [|sp rest IH]; intros st I G; simpl.
  - split; [reflexivity|]. split; [exact I|]. split; [exact G|]. exists [].
    split; [apply traced_refl | constructor].
  - destruct (keep sp) eqn:K.
    + destruct (triggerPathSubscribers_block b sp st I G)
        as (G1 & late & l1 & T1 & C1).
      pose proof (triggerPathSubscribers_no_throw sp st I) as N1.
      pose proof (triggerPathSubscribers_inv neverThrows (fun _ => True)
                    (fun _ => True) (fun _ _ _ _ _ => Logic.I)
                    (fun _ _ _ => Logic.I) (fun _ _ _ => Logic.I)
                    (fun _ _ _ => Logic.I) sp st I) as I1.
      destruct (_triggerPathSubscribers run sp st) as [st1 [e|]];
        cbn [fst snd] in *; [discriminate|].
      destruct (IH st1 I1 G1) as (N2 & I2 & G2 & l2 & T2 & C2).
      split; [exact N2|]. split; [exact I2|]. split; [exact G2|].
      exists (l1 ++ l2).
      split; [eapply traced_trans; eauto|].
      rewrite calls_app, C1. now constructor.
    + apply IH; assumption.
Qed.

Lemma In_dedupInto (x : string) (l : list string) :
  forall seen,
    In x l -> Str.mem x seen = false -> In x (Str.dedupInto seen l).
Proof.
  induction l as [|y r IH]; intros seen H M; [destruct H|]. simpl.
  destruct (String.eqb x y) eqn:E.
  - apply String.eqb_eq in E. subst y. rewrite M. now left.
  - destruct H as [->|H]; [now rewrite String.eqb_refl in E|].
    destruct (Str.mem y seen).
    + now apply IH.
    + right. apply IH; [exact H|]. simpl. now rewrite E.
Qed.

Lemma internalBlocks_app (b : store) (ps qs : list string)
  (l m : list event) :
  internalBlocks b ps l -> internalBlocks b qs m ->
  internalBlocks b (ps ++ qs) (l ++ m).
Proof.
  intros H. induction H as [|path paths late l _ IH]; intros Hm; [exact Hm|].
  simpl. rewrite <- app_assoc. constructor. now apply IH.
Qed.

Lemma grown_keys (b st : store) (d : string) :
  grown b st ->
  internalAt d b <> [] -> In d (map fst (subscribers st)).
Proof.
  intros G N. destruct (G d) as [late H]. unfold internalAt at 1 in H.
  destruct (mapGet d (subscribers st)) as [subs|] eqn:E.
  - apply mapGet_In in E. change d with (fst (d, subs)). now apply in_map.
  - destruct (internalAt d b); [congruence | discriminate].
Qed.

(** The calls of [_notifySubscribers]: the block of the changed path, the
    blocks of its ancestors from the nearest one, then blocks of strict
    descendants.  When no reactive callback throws, the block of a path
    holds a call of every callback registered at it at the start ([b]), and
    every strict descendant that has a callback then has its block. *)
Lemma notifySubscribers_calls (b : store) (p : string) (st : store) :
  isUpdating st = true ->
  isUpdating (fst (_notifySubscribers run p st)) = true /\
  exists ds l,
    traced st (fst (_notifySubscribers run p st)) l /\
    internalSeq (p :: ancestorPaths p ++ ds) (calls l) /\
    Forall (fun d => isDescendant p d = true) ds /\
    (internalBodies neverThrows st -> grown b st ->
     internalBlocks b (p :: ancestorPaths p ++ ds) (calls l) /\
     forall d, internalAt d b <> [] -> isDescendant p d = true -> In d ds).
Proof.
  intros U. unfold _notifySubscribers.
  assert (PI : internalBodies neverThrows st ->
               passInv neverThrows (fun _ => True) (fun _ => True) st).
  { intros HI. repeat split; auto. }
  destruct (triggerPathSubscribers_calls p st U) as (l1 & T1 & C1).
  pose proof (triggerPathSubscribers_isUpdating p st U) as U1.
  pose proof (fun HI => triggerPathSubscribers_no_throw p st (PI HI)) as N1.
  pose proof (fun HI =>
                triggerPathSubscribers_inv neverThrows (fun _ => True)
                  (fun _ => True) (fun _ _ _ _ _ => Logic.I)
                  (fun _ _ _ => Logic.I) (fun _ _ _ => Logic.I)
                  (fun _ _ _ => Logic.I) p st (PI HI)) as I1.
  pose proof (fun HI G => triggerPathSubscribers_block b p st (PI HI) G)
    as B1.
  destruct (_triggerPathSubscribers run p st) as [st1 [e|]];
    cbn [fst snd] in *.
  { split; [exact U1|]. exists [], l1. split; [exact T1|].
    split; [|split; [constructor|]].
    - rewrite <- (app_nil_r (calls l1)).
      constructor; [exact C1 | apply internalSeq_empty].
    - intros HI _. discriminate (N1 HI). }
  pose proof (forEach_paths_calls (fun _ => true) (ancestorPaths p) st1 U1)
    as H2.
  pose proof (fun HI G =>
                forEach_paths_blocks b (fun _ => true) (ancestorPaths p) st1
                  (I1 HI) (proj1 (B1 HI G))) as B2.
  cbv zeta beta iota in H2, B2. rewrite filter_true in H2, B2.
  change (forEach (fun sp s => _triggerPathSubscribers run sp s))
    with (forEach (_triggerPathSubscribers run)) in H2, B2.
  destruct H2 as (U2 & l2 & T2 & C2).
  destruct (forEach (_triggerPathSubscribers run) (ancestorPaths p) st1)
    as [st2 [e|]]; cbn [fst snd] in *.
  { split; [exact U2|]. exists [], (l1 ++ l2).
    split; [eapply traced_trans; eauto|].
    split; [|split; [constructor|]].
    - rewrite calls_app, app_nil_r. now constructor.
    - intros HI G. destruct (B2 HI G) as (N2 & _). discriminate N2. }
  set (paths := Str.dedup _).
  pose proof (forEach_paths_calls (isDescendant p) paths st2 U2) as H3.
  pose proof (fun HI G =>
                forEach_paths_blocks b (isDescendant p) paths st2
                  (proj1 (proj2 (B2 HI G)))
                  (proj1 (proj2 (proj2 (B2 HI G))))) as B3.
  cbv zeta in H3, B3. unfold isDescendant at 1 in H3.
  unfold isDescendant at 1 in B3.
  destruct H3 as (U3 & l3 & T3 & C3).
  split; [exact U3|].
  exists (filter (isDescendant p) paths), (l1 ++ l2 ++ l3). split.
  - eapply traced_trans; [exact T1|]. eapply traced_trans; eauto.
  - split; [|split].
    + rewrite !calls_app. constructor; [exact C1|].
      now apply internalSeq_app.
    + apply Forall_forall. intros d Hd. now apply filter_In in Hd.
    + intros HI G.
      destruct (B1 HI G) as (G1 & late & l1' & T1' & C1').
      destruct (B2 HI G) as (_ & _ & G2 & l2' & T2' & C2').
      destruct (B3 HI G) as (_ & _ & _ & l3' & T3' & C3').
      rewrite (traced_inj _ _ _ _ T1 T1'), (traced_inj _ _ _ _ T2 T2'),
        (traced_inj _ _ _ _ T3 T3').
      split.
      * rewrite !calls_app, C1'. constructor.
        now apply internalBlocks_app.
      * intros d Hd Dd. apply filter_In. split; [|exact Dd].
        unfold paths, Str.dedup. apply In_dedupInto; [|reflexivity].
        apply in_or_app. left. now apply (grown_keys b).
Qed.

(** ** C3: the order of a notification pass *)

(** The trace of a top-level write that changes the state: the events of
    the write, the calls of [_notifySubscribers], then the calls of
    [_notifyExternalSubscribers] unless a reactive callback threw. *)
Lemma setStateImmediate_calls (p : string) (v c : value) (st : store) :
  isUpdating st = false ->
  deepEquals (oldValueOf p st) (finalValueOf p v c st) = false ->
  exists ds lint lext,
    calls (newEvents st (fst (_setStateImmediate run p v c st))) =
      lint ++ lext /\
    internalSeq (p :: ancestorPaths p ++ ds) lint /\
    Forall (fun d => isDescendant p d = true) ds /\
    (snd (_setStateImmediate run p v c st) = None ->
     lext = externalCalls p (finalValueOf p v c st) (oldValueOf p st)
              (externalSubscribers st)) /\
    (snd (_setStateImmediate run p v c st) <> None -> lext = []) /\
    (internalBodies neverThrows st ->
     snd (_setStateImmediate run p v c st) = None /\
     internalBlocks st (p :: ancestorPaths p ++ ds) lint /\
     forall d, internalAt d st <> [] -> isDescendant p d = true -> In d ds).
Proof.
  intros U D. rewrite setStateImmediate_unfold, D, U. simpl negb. cbv iota.
  pose proof (silentWrite_silent p v c st) as [F0 S0 (l0 & T0 & C0)].
  assert (T0' : traced st (passStart p v c st) l0) by exact T0.
  destruct (passStart_currentlyUpdating p v c st) as [_ U4].
  destruct (notifySubscribers_calls st p _ U4)
    as (U5 & ds & l1 & T1 & C1 & Hds & HB0).
  assert (HB : internalBodies neverThrows st ->
               internalBlocks st (p :: ancestorPaths p ++ ds) (calls l1) /\
               forall d, internalAt d st <> [] -> isDescendant p d = true ->
                         In d ds).
  { intros HI. apply HB0.
    - unfold internalBodies, passStart. cbn. rewrite S0. exact HI.
    - apply grown_same. unfold passStart. cbn. exact S0. }
  clear HB0.
  pose proof (notifySubscribers_frame p _ U4) as E5.
  assert (N5 : internalBodies neverThrows st ->
               snd (_notifySubscribers run p (passStart p v c st)) = None).
  { intros HI. apply notifySubscribers_no_throw.
    split; [exact U4|]. split; [exact Logic.I|]. split.
    - unfold internalBodies, passStart. cbn. rewrite S0. exact HI.
    - unfold externalBodies. intros. exact Logic.I. }
  destruct (_notifySubscribers run p (passStart p v c st)) as [st5 [e|]];
    simpl in *.
  - exists ds, (calls l1), []. split.
    + rewrite (traced_newEvents _ _ _ (traced_trans _ _ _ _ _ T0' T1)).
      now rewrite calls_app, C0, app_nil_r.
    + split; [exact C1|]. split; [exact Hds|]. split; [discriminate|].
      split; [reflexivity|]. intros HI. discriminate (N5 HI).
  - destruct (notifyExternalSubscribers_calls p (finalValueOf p v c st)
                (oldValueOf p st) st5 U5) as (l2 & T2 & C2).
    exists ds, (calls l1), (calls l2). split.
    + assert (T : traced st
                    (set_isUpdating false
                       (set_currentlyUpdating
                          (setDelete p
                             (currentlyUpdating
                                (_notifyExternalSubscribers run p
                                   (finalValueOf p v c st)
                                   (oldValueOf p st) st5)))
                          (_notifyExternalSubscribers run p
                             (finalValueOf p v c st) (oldValueOf p st) st5)))
                    (l0 ++ l1 ++ l2)).
      { eapply traced_trans; [exact T0'|].
        eapply traced_trans; [exact T1 | exact T2]. }
      rewrite (traced_newEvents _ _ _ T).
      now rewrite !calls_app, C0.
    + split; [exact C1|]. split; [exact Hds|]. split.
      * intros _. rewrite C2, E5. unfold passStart. cbn.
        destruct F0. now rewrite fr_external0.
      * split; [congruence|]. intros HI. split; [reflexivity|].
        exact (HB HI).
Qed.




(** ** C6: subscribing and unsubscribing *)

Lemma isCallOf_isCall (h : nat) (e : event) :
  isCallOf h e = true -> isCall e = true.
Proof. destruct e; simpl; congruence. Qed.

Lemma countCalls_calls (h : nat) (l : list event) :
  countCalls h (calls l) = countCalls h l.
Proof.
  unfold countCalls, calls. induction l as [|e r IH]; simpl; [reflexivity|].
  destruct (isCall e) eqn:C; simpl.
  - destruct (isCallOf h e); simpl; congruence.
  - destruct (isCallOf h e) eqn:K; [|exact IH].
    apply isCallOf_isCall in K. congruence.
Qed.

Lemma countCalls_app (h : nat) (l m : list event) :
  countCalls h (l ++ m) = countCalls h l + countCalls h m.
Proof. unfold countCalls. now rewrite filter_app, length_app. Qed.

Lemma countCalls_internalSeq (h : nat) (paths : list string)
  (l : list event) :
  internalSeq paths l -> countCalls h l = 0.
Proof.
  induction 1 as [|path paths block l HB _ IH]; [reflexivity|].
  rewrite countCalls_app, IH, Nat.add_0_r.
  induction HB as [|e r [id ->] _ IHr]; [reflexivity|].
  exact IHr.
Qed.

Lemma countCalls_subs_other (h : nat) (q sp : string) (nv ov : value)
  (subs : list subscription) :
  (forall s, In s subs -> sub_id s <> h) ->
  countCalls h
    (flat_map
       (fun sub =>
          if shouldNotify (sub_hierarchical sub) q sp
          then [CallExternal sp (sub_id sub) nv ov q] else []) subs) = 0.
Proof.
  induction subs as [|s r IH]; intros H; simpl; [reflexivity|].
  rewrite countCalls_app, IH by (intros; apply H; now right).
  destruct (shouldNotify _ _ _); [|reflexivity].
  unfold countCalls. simpl.
  destruct (Nat.eqb h (sub_id s)) eqn:E; [|reflexivity].
  apply Nat.eqb_eq in E. elim (H s (or_introl eq_refl)). congruence.
Qed.

Lemma countCalls_externalCalls_other (h : nat) (q : string) (nv ov : value)
  (ext : list (string * list subscription)) :
  (forall sp subs s, In (sp, subs) ext -> In s subs -> sub_id s <> h) ->
  countCalls h (externalCalls q nv ov ext) = 0.
Proof.
  induction ext as [|[sp subs] r IH]; intros H; [reflexivity|].
  unfold externalCalls in *. simpl.
  rewrite countCalls_app, IH by (intros; eapply H; [right|]; eauto).
  rewrite countCalls_subs_other; [reflexivity|].
  intros s Hs. eapply H; [left; reflexivity | exact Hs].
Qed.

(** The calls of the subscription just added by [subscribe]. *)
Lemma countCalls_externalCalls_subscribed (h : nat) (q p : string)
  (nv ov : value) (cb : value -> value -> string -> prog) (hier : bool)
  (ext : list (string * list subscription)) :
  (forall sp subs s, In (sp, subs) ext -> In s subs -> sub_id s <> h) ->
  countCalls h
    (externalCalls q nv ov
       (mapSet p
          ((match mapGet p ext with Some s => s | None => [] end) ++
           [{| sub_id := h; sub_callback := cb; sub_hierarchical := hier |}])
          ext)) =
  if shouldNotify hier q p then 1 else 0.
Proof.
  intros H.
  assert (One : forall subs, (forall s, In s subs -> sub_id s <> h) ->
            countCalls h
              (flat_map
                 (fun sub =>
                    if shouldNotify (sub_hierarchical sub) q p
                    then [CallExternal p (sub_id sub) nv ov q] else [])
                 (subs ++ [{| sub_id := h; sub_callback := cb;
                              sub_hierarchical := hier |}])) =
            if shouldNotify hier q p then 1 else 0).
  { intros subs Hs. rewrite flat_map_app, countCalls_app.
    rewrite countCalls_subs_other by exact Hs. simpl.
    destruct (shouldNotify hier q p); [|reflexivity].
    unfold countCalls. simpl. now rewrite Nat.eqb_refl. }
  induction ext as [|[sp subs] r IH]; simpl.
  - unfold externalCalls. simpl. rewrite app_nil_r.
    apply (One []). intros s [].
  - destruct (String.eqb p sp) eqn:E.
    + apply String.eqb_eq in E. subst sp.
      unfold externalCalls. simpl. rewrite countCalls_app.
      rewrite One by (intros s Hs; eapply H; [left; reflexivity | exact Hs]).
      fold (externalCalls q nv ov r).
      rewrite countCalls_externalCalls_other
        by (intros; eapply H; [right|]; eauto).
      apply Nat.add_0_r.
    + unfold externalCalls in *. simpl. rewrite countCalls_app.
      rewrite IH by (intros; eapply H; [right|]; eauto).
      rewrite countCalls_subs_other; [reflexivity|].
      intros s Hs. eapply H; [left; reflexivity | exact Hs].
Qed.

(** How often one subscription is called by a [setState] issued outside any
    pass with batching inactive. *)
Lemma setState_countCalls (st : store) (q : string) (v c : value) (h : nat) :
  batchingActive st = false ->
  isUpdating st = false ->
  internalBodies neverThrows st ->
  countCalls h (newEvents st (fst (setState run q v c st))) =
  if isValidPath q && negb (Str.mem q (currentlyUpdating st)) &&
     negb (deepEquals (oldValueOf q st) (finalValueOf q v c st))
  then countCalls h
         (externalCalls q (finalValueOf q v c st) (oldValueOf q st)
            (externalSubscribers st))
  else 0.
Proof.
  intros B U HI.
  destruct (isValidPath q) eqn:V; simpl.
  2:{ unfold setState. rewrite V. simpl.
      rewrite (traced_newEvents st _ [Warn ("Invalid state path: " +++ q)])
        by reflexivity.
      reflexivity. }
  destruct (Str.mem q (currentlyUpdating st)) eqn:M; simpl.
  { rewrite setState_circular by assumption. simpl.
    rewrite (traced_newEvents st _
               [Warn ("Circular dependency detected for path: " +++ q)])
      by reflexivity.
    reflexivity. }
  rewrite (setState_immediate run q v c st V M B).
  destruct (deepEquals (oldValueOf q st) (finalValueOf q v c st)) eqn:D;
    simpl.
  - rewrite setStateImmediate_unfold, D. simpl.
    pose proof (silentWrite_silent q v c st) as [_ _ (l & T & C)].
    rewrite (traced_newEvents _ _ _ T), <- countCalls_calls, C. reflexivity.
  - destruct (setStateImmediate_calls q v c st U D)
      as (ds & lint & lext & E & Hint & _ & Hext & _ & Hn).
    rewrite <- countCalls_calls, E, countCalls_app.
    rewrite (countCalls_internalSeq h _ _ Hint).
    rewrite (Hext (proj1 (Hn HI))). reflexivity.
Qed.

Lemma mapSet_mapSet {A : Type} (k : string) (a b : A)
  (m : list (string * A)) :
  mapSet k b (mapSet k a m) = mapSet k b m.
Proof.
  induction m as [|[k' x] r IH]; simpl.
  - now rewrite String.eqb_refl.
  - destruct (String.eqb k k') eqn:E; simpl.
    + now rewrite String.eqb_refl.
    + now rewrite E, IH.
Qed.

Lemma mapDelete_mapSet {A : Type} (k : string) (a : A)
  (m : list (string * A)) :
  mapDelete k (mapSet k a m) = mapDelete k m.
Proof.
  unfold mapDelete. induction m as [|[k' x] r IH]; simpl.
  - now rewrite String.eqb_refl.
  - destruct (String.eqb k k') eqn:E; simpl.
    + now rewrite String.eqb_refl.
    + rewrite E. simpl. now rewrite IH.
Qed.

Lemma filter_other_ids (h : nat) (subs : list subscription)
  (s : subscription) :
  (forall x, In x subs -> sub_id x <> h) -> sub_id s = h ->
  filter (fun x => negb (Nat.eqb (sub_id x) h)) (subs ++ [s]) = subs.
Proof.
  intros H E. rewrite filter_app. simpl. rewrite E, Nat.eqb_refl. simpl.
  rewrite app_nil_r. induction subs as [|x r IH]; simpl; [reflexivity|].
  destruct (Nat.eqb (sub_id x) h) eqn:K.
  - apply Nat.eqb_eq in K. elim (H x (or_introl eq_refl) K).
  - simpl. rewrite IH; [reflexivity|]. intros y Hy. apply H. now right.
Qed.

(** After [subscribe] and the function it returned, no subscription has the
    identity that was given out. *)
Lemma unsubscribe_ids (p : string) (cb : value -> value -> string -> prog)
  (hier : bool) (st : store) :
  freshIds st ->
  forall sp subs s,
    In (sp, subs)
       (externalSubscribers
          (unsubscribe p (fst (subscribe p cb hier st))
             (snd (subscribe p cb hier st)))) ->
    In s subs -> sub_id s <> nextId st.
Proof.
  intros F sp subs s Hin Hs.
  assert (Old : forall sp' subs' s',
            In (sp', subs') (externalSubscribers st) -> In s' subs' ->
            sub_id s' <> nextId st).
  { intros sp' subs' s' H1 H2. pose proof (F sp' subs' s' H1 H2). lia. }
  unfold unsubscribe, subscribe in Hin.
  cbn [fst snd externalSubscribers set_timers set_externalSubscribers] in Hin.
  rewrite mapGet_mapSet in Hin.
  set (subs0 := match mapGet p (externalSubscribers st) with
                | Some s0 => s0
                | None => []
                end) in Hin.
  assert (H0 : forall x, In x subs0 -> sub_id x <> nextId st).
  { subst subs0. intros x Hx.
    destruct (mapGet p (externalSubscribers st)) as [l|] eqn:G; [|destruct Hx].
    eapply Old; [apply mapGet_In; exact G | exact Hx]. }
  rewrite filter_other_ids in Hin by (auto || reflexivity).
  destruct subs0 as [|x xs] eqn:E0;
    cbn [externalSubscribers set_externalSubscribers] in Hin.
  - rewrite mapDelete_mapSet in Hin. apply filter_In in Hin.
    destruct Hin as [Hin _]. eapply Old; eauto.
  - rewrite mapSet_mapSet in Hin. apply In_mapSet in Hin.
    destruct Hin as [[-> ->]|Hin]; [|eapply Old; eauto].
    now apply H0.
Qed.

Lemma shouldNotify_same (hier : bool) (p : string) :
  shouldNotify hier p p = true.
Proof.
  unfold shouldNotify. rewrite String.eqb_refl. now destruct hier.
Qed.

Lemma subscribe_fresh (p : string) (cb : value -> value -> string -> prog)
  (hier : bool) (st : store) :
  freshIds st ->
  forall sp subs s,
    In (sp, subs) (externalSubscribers st) -> In s subs ->
    sub_id s <> fst (subscribe p cb hier st).
Proof.
  intros F sp subs s H1 H2. pose proof (F sp subs s H1 H2). simpl. lia.
Qed.

Lemma unsubscribe_fields (p : string) (h : nat) (st : store) :
  batchingActive (unsubscribe p h st) = batchingActive st /\
  isUpdating (unsubscribe p h st) = isUpdating st /\
  subscribers (unsubscribe p h st) = subscribers st.
Proof.
  unfold unsubscribe. destruct (mapGet p (externalSubscribers st)) as [l|];
    [|now repeat split].
  destruct (filter _ l); now repeat split.
Qed.

(** C6 (as amended).  Let [subscribe p cb hierarchical] be issued on a store
    outside any pass, with batching inactive, whose reactive callbacks never
    throw, and let [h] be the subscription it makes; the callbacks of the
    store read and write it and do not subscribe or unsubscribe ([prog]).
    Then a [setState] on a valid path [q], none of whose segments is a
    built-in member name, that is not under notification and whose value
    is not deep-equal to the current one calls [h] exactly once before it
    returns when [q] is [p], and also when [h] is hierarchical and [q] lies
    under [p]; an exact subscription is never called for a path other than
    [p]; and once the function returned by [subscribe] has been called, no
    [setState] calls [h] again. *)
Theorem subscribe_then_set (st : store) (p : string)
  (cb : value -> value -> string -> prog) (hier : bool) :
  isUpdating st = false ->
  batchingActive st = false ->
  internalBodies neverThrows st ->
  freshIds st ->
  let h := fst (subscribe p cb hier st) in
  let st1 := snd (subscribe p cb hier st) in
  let st2 := unsubscribe p h st1 in
  (forall v c,
     isValidPath p = true ->
     ordinaryPath p = true ->
     Str.mem p (currentlyUpdating st) = false ->
     deepEquals (oldValueOf p st1) (finalValueOf p v c st1) = false ->
     countCalls h (newEvents st1 (fst (setState run p v c st1))) = 1) /\
  (forall q v c,
     countCalls h (newEvents st2 (fst (setState run q v c st2))) = 0) /\
  (hier = true ->
   forall q v c,
     Str.startsWith q (p +++ ".") = true ->
     isValidPath q = true ->
     ordinaryPath q = true ->
     Str.mem q (currentlyUpdating st) = false ->
     deepEquals (oldValueOf q st1) (finalValueOf q v c st1) = false ->
     countCalls h (newEvents st1 (fst (setState run q v c st1))) = 1) /\
  (hier = false ->
   forall q v c,
     q <> p ->
     countCalls h (newEvents st1 (fst (setState run q v c st1))) = 0).
Proof.
  intros U B HI F h st1 st2.
  assert (Count : forall q v c,
            countCalls h (newEvents st1 (fst (setState run q v c st1))) =
            if isValidPath q && negb (Str.mem q (currentlyUpdating st)) &&
               negb (deepEquals (oldValueOf q st1) (finalValueOf q v c st1))
            then (if shouldNotify hier q p then 1 else 0) else 0).
  { intros q v c.
    rewrite (setState_countCalls st1 q v c h B U HI).
    change (currentlyUpdating st1) with (currentlyUpdating st).
    destruct (isValidPath q && negb (Str.mem q (currentlyUpdating st)) &&
              negb (deepEquals (oldValueOf q st1) (finalValueOf q v c st1)));
      [|reflexivity].
    apply (countCalls_externalCalls_subscribed (nextId st)).
    intros sp subs s H1 H2. pose proof (F sp subs s H1 H2). lia. }
  split; [|split; [|split]].
  - intros v c V _ M D. rewrite Count, V, M, D. simpl.
    now rewrite shouldNotify_same.
  - intros q v c.
    destruct (unsubscribe_fields p h st1) as (B2 & U2 & S2).
    rewrite (setState_countCalls st2 q v c h);
      [| unfold st2; rewrite B2; exact B
       | unfold st2; rewrite U2; exact U
       | unfold internalBodies, st2; rewrite S2; exact HI].
    destruct (isValidPath q && negb (Str.mem q (currentlyUpdating st2)) &&
              negb (deepEquals (oldValueOf q st2) (finalValueOf q v c st2)));
      [|reflexivity].
    apply countCalls_externalCalls_other.
    intros sp subs s H1 H2.
    exact (unsubscribe_ids p cb hier st F sp subs s H1 H2).
  - intros -> q v c S V _ M D. rewrite Count, V, M, D. simpl.
    unfold shouldNotify. rewrite S. now rewrite orb_true_r.
  - intros -> q v c N. rewrite Count.
    destruct (isValidPath q && negb (Str.mem q (currentlyUpdating st)) &&
              negb (deepEquals (oldValueOf q st1) (finalValueOf q v c st1)));
      [|reflexivity].
    unfold shouldNotify.
    destruct (String.eqb q p) eqn:E; [|reflexivity].
    apply String.eqb_eq in E. contradiction.
Qed.

Lemma subscribe_then_set_witness :
  let st := newStateManager [] [] in
  let h := fst (subscribe "a" (fun _ _ _ => Return) true st) in
  let st1 := snd (subscribe "a" (fun _ _ _ => Return) true st) in
  countCalls h
    (newEvents st1 (fst (setState run "a" (VNum 1) (VObj false []) st1))) = 1.
Proof.
  intros st h st1.
  refine (proj1 (subscribe_then_set st "a" (fun _ _ _ => Return) true
                   _ _ _ _) (VNum 1) (VObj false []) _ _ _ _).
  - reflexivity.
  - reflexivity.
  - intros path subs cb [].
  - intros path subs sub [].
  - reflexivity.
  - reflexivity.
  - reflexivity.
  - reflexivity.
Defined.

(** C6 as stated fails for a [setState] issued inside a callback: the
    subscriber of "x" writes "y", the value of "y" changes, batching is
    inactive, and the subscriber of "y" is not called. *)
Lemma subscribe_nested_not_called :
  let st0 := newStateManager [] [] in
  let st1 := snd (subscribe "x"
                    (fun _ _ _ => SetState "y" (VNum 2) (VObj false []) Return)
                    true st0) in
  let h := fst (subscribe "y" (fun _ _ _ => Return) true st1) in
  let st2 := snd (subscribe "y" (fun _ _ _ => Return) true st1) in
  let st' := fst (setState run "x" (VNum 1) (VObj false []) st2) in
  batchingActive st2 = false /\
  fst (getState "y" VNull st2) = VNull /\
  fst (getState "y" VNull st') = VNum 2 /\
  countCalls h (trace st') = 0.
Proof.
  repeat split.
Qed.

(** ** C5: batching *)

Lemma queueUpdate_plain (R : prog -> store -> outcome) (p : string)
  (v c : value) (st : store) :
  (Z.of_nat (S (List.length (updateQueue st))) <= maxBatchSize st * 2)%Z ->
  _queueUpdate R p v c st =
  let st1 :=
    set_updateQueue
      (updateQueue st ++
       [{| upd_path := p; upd_value := v; upd_context := c |}]) st in
  match batchTimeout st with
  | None => set_batchTimeout (Some (nextId st)) (snd (setTimeout st1))
  | Some _ => st1
  end.
Proof.
  intros H. unfold _queueUpdate. cbn [updateQueue set_updateQueue maxBatchSize].
  rewrite length_app. simpl List.length. rewrite Nat.add_1_r.
  destruct (Z.gtb_spec (Z.of_nat (S (List.length (updateQueue st))))
              (maxBatchSize st * 2)); [lia|].
  cbn [batchTimeout set_updateQueue]. destruct (batchTimeout st); reflexivity.
Qed.

Lemma filter_fired (t : nat) (l : list nat) :
  filter (fun x => negb (Nat.eqb x t))
    (filter (fun x => negb (Nat.eqb x t)) (l ++ [t])) =
  filter (fun x => negb (Nat.eqb x t)) l.
Proof.
  rewrite filter_app. simpl. rewrite Nat.eqb_refl. simpl. rewrite app_nil_r.
  induction l as [|x r IH]; simpl; [reflexivity|].
  destruct (Nat.eqb x t) eqn:E; simpl; [exact IH|].
  rewrite E. simpl. now rewrite IH.
Qed.

(** Updates of one path are grouped into the last of them. *)
Lemma pathGroups_last (p : string) (v1 v2 v3 c1 c2 c3 : value) :
  pathGroups
    [ {| upd_path := p; upd_value := v1; upd_context := c1 |};
      {| upd_path := p; upd_value := v2; upd_context := c2 |};
      {| upd_path := p; upd_value := v3; upd_context := c3 |} ] =
  [(p, {| upd_path := p; upd_value := v3; upd_context := c3 |})].
Proof.
  unfold pathGroups. simpl. rewrite String.eqb_refl. simpl.
  now rewrite String.eqb_refl.
Qed.

Lemma setState_queued (R : prog -> store -> outcome) (p : string)
  (v c : value) (st : store) :
  isValidPath p = true ->
  Str.mem p (currentlyUpdating st) = false ->
  batchingActive st = true ->
  setState R p v c st = (_queueUpdate R p v c st, None).
Proof.
  intros V M B. unfold setState, _hasCircularUpdate. rewrite V, M. simpl.
  unfold batchingActive in B. now rewrite B.
Qed.

Lemma setThrice_queue (c1 c2 c3 : value) (st : store) :
  batchingActive st = true ->
  updateQueue st = [] ->
  batchTimeout st = None ->
  Str.mem "x" (currentlyUpdating st) = false ->
  (3 <= maxBatchSize st)%Z ->
  setThrice c1 c2 c3 st =
  set_batchTimeout (Some (nextId st))
    (set_timers (timers st ++ [nextId st]) (S (nextId st))
       (set_updateQueue
          [ {| upd_path := "x"; upd_value := VNum 1; upd_context := c1 |};
            {| upd_path := "x"; upd_value := VNum 2; upd_context := c2 |};
            {| upd_path := "x"; upd_value := VNum 3; upd_context := c3 |} ]
          st)).
Proof.
  intros B Q T M L. unfold setThrice.
  rewrite (setState_queued run "x" (VNum 1) c1 st eq_refl M B).
  rewrite queueUpdate_plain by (rewrite Q; simpl; lia).
  rewrite T, Q. cbn [fst app].
  set (sa := set_batchTimeout _ _).
  rewrite (setState_queued run "x" (VNum 2) c2 sa eq_refl M B).
  rewrite queueUpdate_plain by (simpl; lia).
  cbn [fst]. subst sa. cbn [batchTimeout set_batchTimeout].
  set (sb := set_updateQueue _ _).
  rewrite (setState_queued run "x" (VNum 3) c3 sb eq_refl M B).
  rewrite queueUpdate_plain by (simpl; lia).
  reflexivity.
Qed.

Lemma runMiddleware_value (mws : list middleware_t) (i : nat) (p : string)
  (o f c : value) (st st' : store) :
  state st = state st' ->
  fst (runMiddleware mws i p o f c st) =
  fst (runMiddleware mws i p o f c st').
Proof.
  revert i f st st'. induction mws as [|mw r IH]; intros i f st st' E; simpl;
    [reflexivity|].
  rewrite E. destruct (mw p o f c (state st')); apply IH; simpl; exact E.
Qed.

Lemma values_flushStart (p : string) (v c : value) (st : store) :
  oldValueOf p (flushStart st) = oldValueOf p st /\
  finalValueOf p v c (flushStart st) = finalValueOf p v c st.
Proof.
  unfold oldValueOf, finalValueOf, getState.
  destruct (isValidPath p); simpl.
  - destruct (currentTracking st); simpl;
      (split; [reflexivity | now apply runMiddleware_value]).
  - split; [reflexivity | now apply runMiddleware_value].
Qed.

Lemma countCalls_flushEnd (h n g : nat) (st0 : store) (r : outcome) :
  (exists l, traced st0 (fst r) l) ->
  countCalls h (newEvents st0 (flushEnd n g r)) =
  countCalls h (newEvents st0 (fst r)).
Proof.
  intros [l T]. unfold flushEnd. destruct r as [st4 [e|]]; simpl in *.
  - match goal with
    | |- context [emit ?ev st4] =>
        assert (T' : forall s, trace s = trace (emit ev st4) ->
                  countCalls h (newEvents st0 s) =
                  countCalls h (newEvents st0 st4))
    end.
    { intros s Es. unfold newEvents. rewrite Es. cbn [trace emit].
      rewrite T, <- app_assoc, !skipn_app, !skipn_all, Nat.sub_diag.
      simpl. now rewrite countCalls_app, Nat.add_0_r. }
    match goal with
    | |- context [if ?b then _ else _] => destruct b
    end; apply T'; reflexivity.
  - match goal with
    | |- context [emit ?ev st4] =>
        assert (T' : forall s, trace s = trace (emit ev st4) ->
                  countCalls h (newEvents st0 s) =
                  countCalls h (newEvents st0 st4))
    end.
    { intros s Es. unfold newEvents. rewrite Es. cbn [trace emit].
      rewrite T, <- app_assoc, !skipn_app, !skipn_all, Nat.sub_diag.
      simpl. now rewrite countCalls_app, Nat.add_0_r. }
    match goal with
    | |- context [if ?b then _ else _] => destruct b
    end; apply T'; reflexivity.
Qed.

Lemma setStateImmediate_traced (p : string) (v c : value) (st : store) :
  exists l, traced st (fst (_setStateImmediate run p v c st)) l.
Proof.
  rewrite setStateImmediate_unfold.
  pose proof (silentWrite_silent p v c st) as [_ _ (l0 & T0 & _)].
  destruct (deepEquals _ _); [now exists l0|].
  destruct (isUpdating st) eqn:U; simpl; [now exists l0|].
  destruct (passStart_currentlyUpdating p v c st) as [_ U4].
  destruct (notifySubscribers_calls st p _ U4) as (U5 & _ & l1 & T1 & _).
  destruct (_notifySubscribers run p (passStart p v c st)) as [st5 [e|]];
    simpl in *.
  - exists (l0 ++ l1). eapply traced_trans; [exact T0 | exact T1].
  - destruct (notifyExternalSubscribers_calls p (finalValueOf p v c st)
                (oldValueOf p st) st5 U5) as (l2 & T2 & _).
    exists (l0 ++ l1 ++ l2).
    eapply traced_trans; [exact T0|]. eapply traced_trans; [exact T1|].
    exact T2.
Qed.

(** C5 (as amended).  With batching active, an empty queue, no flush timer
    pending or running, "x" not under notification and a batch size of at
    least 3: the three updates of "x" issued in a row change neither the
    state tree nor the trace, they are queued and one timer is set; when
    that timer fires the flush is one call of the unbatched path
    [_setStateImmediate], on "x" with the last value 3; and when the flush
    runs outside any pass, no reactive callback throws and the value that
    the middleware leaves of 3 is not deep-equal to the value of "x", every
    subscription is called as often as one change of "x" to that value
    calls it, with that value. *)
Theorem batch_coalesces (st : store) (c1 c2 c3 : value) :
  batchingActive st = true ->
  updateQueue st = [] ->
  batchTimeout st = None ->
  batchUpdateInProgress st = false ->
  Str.mem "x" (currentlyUpdating st) = false ->
  (3 <= maxBatchSize st)%Z ->
  state (setThrice c1 c2 c3 st) = state st /\
  trace (setThrice c1 c2 c3 st) = trace st /\
  map upd_value (updateQueue (setThrice c1 c2 c3 st)) =
    [VNum 1; VNum 2; VNum 3] /\
  timers (setThrice c1 c2 c3 st) = timers st ++ [nextId st] /\
  fireTimer (nextId st) (setThrice c1 c2 c3 st) =
    flushEnd 3 1 (_setStateImmediate run "x" (VNum 3) c3 (flushStart st)) /\
  (isUpdating st = false ->
   internalBodies neverThrows st ->
   deepEquals (oldValueOf "x" st) (finalValueOf "x" (VNum 3) c3 st) = false ->
   state (fireTimer (nextId st) (setThrice c1 c2 c3 st)) =
     state (fst (_setStateImmediate run "x" (VNum 3) c3 (flushStart st))) /\
   forall h,
     countCalls h
       (newEvents st (fireTimer (nextId st) (setThrice c1 c2 c3 st))) =
     countCalls h
       (externalCalls "x" (finalValueOf "x" (VNum 3) c3 st)
          (oldValueOf "x" st) (externalSubscribers st))).
Proof.
  intros B Q T P M L.
  assert (Fire : fireTimer (nextId st) (setThrice c1 c2 c3 st) =
                 flushEnd 3 1
                   (_setStateImmediate run "x" (VNum 3) c3 (flushStart st))).
  { rewrite (setThrice_queue c1 c2 c3 st B Q T M L).
    unfold fireTimer. cbn [timers set_batchTimeout set_timers].
    replace (existsb (Nat.eqb (nextId st)) (timers st ++ [nextId st]))
      with true
      by (symmetry; apply existsb_exists; exists (nextId st);
          split; [apply in_or_app; right; now left | apply Nat.eqb_refl]).
    unfold _processBatchedUpdates.
    cbn [batchUpdateInProgress updateQueue set_timers set_batchTimeout
         set_updateQueue set_batchUpdateInProgress batchTimeout maxBatchSize
         clearTimeout timers nextId List.length].
    rewrite P. cbn [orb Nat.eqb].
    replace (Z.to_nat (Z.min (maxBatchSize st) (Z.of_nat 3))) with 3%nat
      by (rewrite Z.min_r by lia; reflexivity).
    cbn [firstn skipn].
    rewrite (pathGroups_last "x" (VNum 1) (VNum 2) (VNum 3) c1 c2 c3).
    cbn [map snd forEach upd_path upd_value upd_context List.length].
    unfold clearTimeout. cbn [timers set_batchUpdateInProgress set_timers].
    rewrite filter_fired.
    unfold flushEnd, flushStart.
    destruct (_setStateImmediate run "x" (VNum 3) c3 _) as [st4 [e|]];
      reflexivity. }
  rewrite Fire. rewrite (setThrice_queue c1 c2 c3 st B Q T M L).
  repeat (split; [reflexivity|]).
  intros U HI D.
  destruct (values_flushStart "x" (VNum 3) c3 st) as [EO EF].
  split.
  - unfold flushEnd.
    destruct (_setStateImmediate run "x" (VNum 3) c3 (flushStart st))
      as [st4 [e|]]; simpl;
      match goal with
      | |- context [if ?b then _ else _] => destruct b
      end; reflexivity.
  - intros h.
    assert (E0 : forall s, newEvents st s = newEvents (flushStart st) s)
      by reflexivity.
    rewrite E0, countCalls_flushEnd by apply setStateImmediate_traced.
    destruct (setStateImmediate_calls "x" (VNum 3) c3 (flushStart st))
      as (ds & lint & lext & E & Hint & _ & Hext & _ & Hn);
      [exact U | now rewrite EO, EF |].
    rewrite <- countCalls_calls, E, countCalls_app.
    rewrite (countCalls_internalSeq h _ _ Hint).
    rewrite (Hext (proj1 (Hn HI))), EO, EF. reflexivity.
Qed.

Lemma batch_coalesces_witness :
  let st := snd (subscribe "x" (fun _ _ _ => Return) true
                   (configureBatching None (Some 10%Z) None
                      (newStateManager [] []))) in
  fireTimer (nextId st) (setThrice VNull VNull VNull st) =
  flushEnd 3 1 (_setStateImmediate run "x" (VNum 3) VNull (flushStart st)).
Proof.
  intros st.
  refine (proj1 (proj2 (proj2 (proj2 (proj2
            (batch_coalesces st VNull VNull VNull _ _ _ _ _ _))))));
    try reflexivity.
  vm_compute. discriminate.
Defined.

(** The scenario of C5 run with one subscriber of "x": one call, with 3. *)
Lemma batch_coalesces_run :
  let st := snd (subscribe "x" (fun _ _ _ => Return) true
                   (configureBatching None (Some 10%Z) None
                      (newStateManager [] []))) in
  let st' := fireTimer (nextId st) (setThrice VNull VNull VNull st) in
  calls (newEvents st st') = [CallExternal "x" 0 (VNum 3) VNull "x"] /\
  state st' = [("x", VNum 3)].
Proof.
  split; reflexivity.
Qed.

(** C5 as stated fails when "x" already holds 3: the flush applies no state
    change and notifies nobody. *)
Lemma batch_no_change :
  let st := snd (subscribe "x" (fun _ _ _ => Return) true
                   (configureBatching None (Some 10%Z) None
                      (newStateManager [("x", VNum 3)] []))) in
  let st' := fireTimer (nextId st) (setThrice VNull VNull VNull st) in
  batchingActive st = true /\
  map upd_value (updateQueue (setThrice VNull VNull VNull st)) =
    [VNum 1; VNum 2; VNum 3] /\
  state st' = state st /\
  calls (newEvents st st') = [].
Proof.
  repeat split.
Qed.

(** It also fails for a batch size of 1: the third update overflows the
    queue, and the updates are applied one by one, each with its pass. *)
Lemma batch_split :
  let st := snd (subscribe "x" (fun _ _ _ => Return) true
                   (configureBatching (Some 1%Z) (Some 10%Z) None
                      (newStateManager [] []))) in
  let st3 := setThrice VNull VNull VNull st in
  let st' := fireTimer 3 (fireTimer 2 st3) in
  calls (newEvents st st3) = [CallExternal "x" 0 (VNum 1) VNull "x"] /\
  calls (newEvents st st') =
    [CallExternal "x" 0 (VNum 1) VNull "x";
     CallExternal "x" 0 (VNum 2) (VNum 1) "x";
     CallExternal "x" 0 (VNum 3) (VNum 2) "x"].
Proof.
  split; reflexivity.
Qed.

(** * Properties of the string renderer *)

(** ** C7: escaping *)

Lemma append_assoc (a b c : string) : (a +++ b) +++ c = a +++ (b +++ c).
Proof. induction a; simpl; congruence. Qed.

Lemma append_nil_r (a : string) : a +++ "" = a.
Proof. induction a; simpl; congruence. Qed.

Lemma flatMapStr_app (f : ascii -> string) (a b : string) :
  flatMapStr f (a +++ b) = flatMapStr f a +++ flatMapStr f b.
Proof.
  induction a as [|c r IH]; simpl; [reflexivity|].
  now rewrite IH, append_assoc.
Qed.

Lemma flatMapStr_compose (f g : ascii -> string) (s : string) :
  flatMapStr g (flatMapStr f s) = flatMapStr (fun c => flatMapStr g (f c)) s.
Proof.
  induction s as [|c r IH]; simpl; [reflexivity|].
  now rewrite flatMapStr_app, IH.
Qed.

Lemma flatMapStr_ext (f g : ascii -> string) (s : string) :
  (forall c, f c = g c) -> flatMapStr f s = flatMapStr g s.
Proof.
  intros H. induction s as [|c r IH]; simpl; [reflexivity|].
  now rewrite H, IH.
Qed.

Lemma replaceAll_flatMapStr (c : ascii) (r s : string) :
  Js.replaceAll c r s =
  flatMapStr (fun x => if Ascii.eqb x c then r else String x EmptyString) s.
Proof.
  induction s as [|x rest IH]; simpl; [reflexivity|].
  rewrite IH. now destruct (Ascii.eqb x c).
Qed.

(** The five replacements in sequence are one pass: no entity is escaped
    again. *)
Lemma escapeHtml_one_pass (s : string) :
  _escapeHtml s = flatMapStr entityOf s.
Proof.
  unfold _escapeHtml. rewrite !replaceAll_flatMapStr.
  rewrite !flatMapStr_compose. apply flatMapStr_ext.
  intros [[] [] [] [] [] [] [] []]; reflexivity.
Qed.

Lemma escapeAttributeValue_one_pass (s : string) :
  _escapeAttributeValue (JStr s) = flatMapStr entityOf s.
Proof.
  unfold _escapeAttributeValue. simpl. rewrite !replaceAll_flatMapStr.
  rewrite !flatMapStr_compose. apply flatMapStr_ext.
  intros [[] [] [] [] [] [] [] []]; reflexivity.
Qed.

Lemma chars_app (a b : string) :
  Str.chars (a +++ b) = Str.chars a ++ Str.chars b.
Proof. induction a; simpl; congruence. Qed.

(** No markup character is left in an escaped text. *)
Lemma escapeHtml_no_markup (s : string) :
  forallb (fun c => negb (isMarkupChar c)) (Str.chars (_escapeHtml s)) = true.
Proof.
  rewrite escapeHtml_one_pass. induction s as [|c r IH]; simpl;
    [reflexivity|].
  rewrite chars_app, forallb_app, IH, andb_true_r.
  revert c. intros [[] [] [] [] [] [] [] []]; reflexivity.
Qed.

Lemma renderElementContent_text (self : jsv -> M rres)
  (tagName : string) (props : jsv) (html : string) (st : rstate) :
  Js.isUndef (Js.get props "text") = false ->
  Js.isFunction (Js.get props "text") = false ->
  Js.isThenable (Js.get props "text") = false ->
  _renderElementContent self tagName props html st =
  (Val (Now (_finalizeElement tagName
               (html +++ _escapeHtml (Js.toStr (Js.get props "text"))))),
   st).
Proof.
  intros U F T. unfold _renderElementContent. rewrite U, F. simpl.
  unfold bind, ret. destruct (Js.get props "text"); try reflexivity.
  discriminate.
Qed.

Lemma renderElementContent_function (self : jsv -> M rres)
  (tagName : string) (props : jsv) (html src : string) (v : jsv)
  (st : rstate) :
  Js.get props "text" = JFun src (Normal v) ->
  Js.isThenable v = false ->
  _renderElementContent self tagName props html st =
  (Val (Now (_finalizeElement tagName (html +++ _escapeHtml (Js.toStr v)))),
   st).
Proof.
  intros G T. unfold _renderElementContent. rewrite G. simpl.
  unfold bind, ret. destruct v; try reflexivity. discriminate.
Qed.

Lemma renderElementContent_promise (self : jsv -> M rres)
  (tagName : string) (props : jsv) (html src : string) (v : jsv)
  (st : rstate) :
  Js.get props "text" = JPromise (Normal v) \/
  Js.get props "text" = JFun src (Normal (JPromise (Normal v))) ->
  exists p,
    _renderElementContent self tagName props html st = (Val (Later p), st) /\
    forall st',
      p st' =
      (Val (_finalizeElement tagName (html +++ _escapeHtml (Js.toStr v))),
       st').
Proof.
  intros [G|G]; unfold _renderElementContent; rewrite G; simpl;
    (eexists; split; [reflexivity|]; intros st'; reflexivity).
Qed.

(** The depth test of [render] passes. *)
Lemma gtb_false (d mx : Z) : (d <= mx)%Z -> (d >? mx)%Z = false.
Proof. intros H. destruct (Z.gtb_spec d mx); [lia | reflexivity]. Qed.

Lemma get_single (k : string) (v : jsv) : Js.get (JObj [(k, v)]) k = v.
Proof. unfold Js.get. simpl. now rewrite String.eqb_refl. Qed.

Lemma processAttributes_text_only (handlers : list (string * attrHandler))
  (x : jsv) (st : rstate) :
  mapGet "text" handlers = None ->
  _processAttributes handlers (JObj [("text", x)]) st = (Val (Now ""), st).
Proof.
  intros H. unfold _processAttributes, bind. simpl.
  unfold bind, processAttribute. rewrite H. reflexivity.
Qed.

Lemma renderElement_textNode (handlers : list (string * attrHandler))
  (self : jsv -> M rres) (tagName t : string) (st : rstate) :
  mapGet "text" handlers = None ->
  _renderElement handlers self tagName (JObj [("text", JStr t)]) st =
  (Val (Now (_finalizeElement tagName
               ("<" +++ tagName +++ ">" +++ _escapeHtml t))), st).
Proof.
  intros H. unfold _renderElement, bind.
  rewrite (processAttributes_text_only handlers (JStr t) st H).
  unfold _continueElementRendering, bind.
  replace (Js.get (JObj [("text", JStr t)]) "style") with JUndef
    by reflexivity.
  simpl. rewrite renderElementContent_text by reflexivity.
  rewrite get_single. simpl. unfold openTag. simpl.
  now rewrite append_nil_r, append_assoc.
Qed.

Lemma renderInternal_textNode (components : list (string * component))
  (handlers : list (string * attrHandler)) (self : jsv -> M rres)
  (tagName t : string) (st : rstate) :
  Str.nonEmpty tagName = true ->
  isComponent components tagName = false ->
  mapGet "text" handlers = None ->
  _renderInternal components handlers self (textNode tagName (JStr t)) st =
  (Val (Now (_finalizeElement tagName
               ("<" +++ tagName +++ ">" +++ _escapeHtml t))), st).
Proof.
  intros NE C H. unfold _renderInternal, textNode. simpl.
  rewrite NE. simpl. rewrite get_single. simpl. rewrite C.
  now apply renderElement_textNode.
Qed.

(** [render] around a [_renderInternal] that returns a string. *)
Lemma renderBody_now (components : list (string * component))
  (handlers : list (string * attrHandler)) (inner : jsv -> M string)
  (self : jsv -> M rres) (vnode : jsv) (st st2 : rstate) (s : string) :
  (renderDepth st <= maxRenderDepth st)%Z ->
  _renderInternal components handlers self vnode
    (withAsyncDetected false (withDepth (renderDepth st + 1) st)) =
    (Val (Now s), st2) ->
  asyncDetected st2 = false ->
  renderBody components handlers inner self vnode st =
  (Val (Now s), withDepth (renderDepth st2 - 1) st2).
Proof.
  intros D E A. unfold renderBody, bind, getDepth, getMaxDepth.
  rewrite (gtb_false _ _ D). unfold setDepth, setAsyncDetected, tryCatch.
  rewrite E. unfold getAsyncDetected. simpl. now rewrite A.
Qed.

(** [render] around a [_renderInternal] that returns a promise. *)
Lemma renderBody_later (components : list (string * component))
  (handlers : list (string * attrHandler)) (inner : jsv -> M string)
  (self : jsv -> M rres) (vnode : jsv) (st st2 : rstate) (p : M string) :
  (renderDepth st <= maxRenderDepth st)%Z ->
  _renderInternal components handlers self vnode
    (withAsyncDetected false (withDepth (renderDepth st + 1) st)) =
    (Val (Later p), st2) ->
  renderBody components handlers inner self vnode st =
  (Val (Later p), withDepth (renderDepth st2 - 1) st2).
Proof.
  intros D E. unfold renderBody, bind, getDepth, getMaxDepth.
  rewrite (gtb_false _ _ D). unfold setDepth, setAsyncDetected, tryCatch.
  rewrite E. reflexivity.
Qed.

Lemma withDepth_back (st : rstate) :
  withDepth (renderDepth st + 1 - 1)
    (withAsyncDetected false (withDepth (renderDepth st + 1) st)) =
  withAsyncDetected false st.
Proof.
  unfold withDepth, withAsyncDetected. simpl.
  now replace (renderDepth st + 1 - 1)%Z with (renderDepth st) by lia.
Qed.

(** A node with a tag and a string as text. *)
Lemma render_textNode (components : list (string * component))
  (handlers : list (string * attrHandler))
  (inner : jsv -> M string) (n : nat) (tagName t : string) (st : rstate) :
  Str.nonEmpty tagName = true ->
  isComponent components tagName = false ->
  mapGet "text" handlers = None ->
  (renderDepth st <= maxRenderDepth st)%Z ->
  render components handlers inner (S n) (textNode tagName (JStr t)) st =
  (Val (Now (_finalizeElement tagName
               ("<" +++ tagName +++ ">" +++ _escapeHtml t))),
   withAsyncDetected false st).
Proof.
  intros NE C H D. cbn [render].
  erewrite renderBody_now;
    [ | exact D | now apply renderInternal_textNode | reflexivity ].
  f_equal. apply withDepth_back.
Qed.

(** C7.  [_escapeHtml] replaces each of the five characters by its entity
    in what amounts to one pass (the ampersand of an entity is not escaped
    again), and its result holds no markup character.  Every text of an
    element, given as a value, computed by a function or resolved from a
    promise (given, or returned by the function), is converted to a string and escaped before it is appended to
    the markup; a node with the text "<b>&" renders the content
    "&lt;b&gt;&amp;". *)
Theorem text_is_escaped :
  (forall s, _escapeHtml s = flatMapStr entityOf s) /\
  (forall s,
     forallb (fun c => negb (isMarkupChar c)) (Str.chars (_escapeHtml s))
     = true) /\
  (forall self tagName props html st,
     Js.isUndef (Js.get props "text") = false ->
     Js.isFunction (Js.get props "text") = false ->
     Js.isThenable (Js.get props "text") = false ->
     _renderElementContent self tagName props html st =
     (Val (Now (_finalizeElement tagName
                  (html +++ _escapeHtml (Js.toStr (Js.get props "text"))))),
      st)) /\
  (forall self tagName props html src v st,
     Js.get props "text" = JFun src (Normal v) ->
     Js.isThenable v = false ->
     _renderElementContent self tagName props html st =
     (Val (Now (_finalizeElement tagName
                  (html +++ _escapeHtml (Js.toStr v)))), st)) /\
  (forall self tagName props html src v st,
     Js.get props "text" = JPromise (Normal v) \/
     Js.get props "text" = JFun src (Normal (JPromise (Normal v))) ->
     exists p,
       _renderElementContent self tagName props html st =
         (Val (Later p), st) /\
       forall st',
         p st' =
         (Val (_finalizeElement tagName
                 (html +++ _escapeHtml (Js.toStr v))), st')) /\
  (forall components handlers inner n st,
     isComponent components "div" = false ->
     mapGet "text" handlers = None ->
     (renderDepth st <= maxRenderDepth st)%Z ->
     fst (render components handlers inner (S n)
            (textNode "div" (JStr "<b>&")) st) =
     Val (Now "<div>&lt;b&gt;&amp;</div>")).
Proof.
  split; [exact escapeHtml_one_pass|].
  split; [exact escapeHtml_no_markup|].
  split; [exact renderElementContent_text|].
  split; [exact renderElementContent_function|].
  split; [exact renderElementContent_promise|].
  intros components handlers inner n st C H D.
  now rewrite (render_textNode components handlers inner n "div" "<b>&" st).
Qed.

Lemma text_is_escaped_witness :
  fst (render [] [] (fun _ => throw "unused") 1
         (textNode "div" (JStr "<b>&")) newRenderer) =
  Val (Now "<div>&lt;b&gt;&amp;</div>").
Proof.
  refine (proj2 (proj2 (proj2 (proj2 (proj2 text_is_escaped))))
            [] [] _ 0 newRenderer _ _ _).
  - reflexivity.
  - reflexivity.
  - discriminate.
Defined.

(** ** C8: attributes *)

Lemma renderAttribute_boolean (handlers : list (string * attrHandler))
  (name : string) (value : jsv) (st : rstate) :
  mapGet (Js.toLowerCase name) handlers = None ->
  Str.mem (Js.toLowerCase name) booleanAttributes = true ->
  _renderAttribute handlers name value st =
  (Val (if Js.isNullish value then ""
        else if Js.isTrue value || Js.isString value "" ||
                Js.isString value name ||
                Js.isString value (Js.toLowerCase name)
        then " " +++ name
        else if Js.isFalse value then ""
        else attr name value), st).
Proof.
  intros H B. unfold _renderAttribute.
  destruct (Js.isNullish value); [reflexivity|].
  rewrite H, B.
  destruct (Js.isTrue value || Js.isString value "" ||
            Js.isString value name ||
            Js.isString value (Js.toLowerCase name)); [reflexivity|].
  now destruct (Js.isFalse value).
Qed.

Lemma not_boolean_with_dash (s : string) :
  Str.startsWith s "data-" || Str.startsWith s "aria-" = true ->
  Str.mem s booleanAttributes = false.
Proof.
  intros H. destruct (Str.mem s booleanAttributes) eqn:M; [|reflexivity].
  apply mem_In in M. simpl in M.
  repeat (destruct M as [<-|M]; [discriminate H|]). destruct M.
Qed.

Lemma renderAttribute_data_aria (handlers : list (string * attrHandler))
  (name : string) (value : jsv) (st : rstate) :
  mapGet (Js.toLowerCase name) handlers = None ->
  Str.startsWith (Js.toLowerCase name) "data-" ||
  Str.startsWith (Js.toLowerCase name) "aria-" = true ->
  _renderAttribute handlers name value st =
  (Val (if Js.isNullish value then "" else attr name value), st).
Proof.
  intros H D. unfold _renderAttribute.
  destruct (Js.isNullish value); [reflexivity|].
  now rewrite H, (not_boolean_with_dash _ D), D.
Qed.

(** C8 (as amended).  With no special handler registered for the name: for
    an attribute whose lower-case name is in the boolean-attribute set, the
    bare name is emitted exactly when the value is [true], the empty string,
    or the name itself (as written or in lower case); nothing is emitted
    when the value is [false], [null] or [undefined]; any other value is
    emitted as name="escaped value".  A data- or aria- attribute emits
    name="escaped value" for every value but [null] and [undefined], for
    which it emits nothing. *)
Theorem attribute_rules (handlers : list (string * attrHandler))
  (name : string) (value : jsv) (st : rstate) :
  mapGet (Js.toLowerCase name) handlers = None ->
  (Str.mem (Js.toLowerCase name) booleanAttributes = true ->
   _renderAttribute handlers name value st =
   (Val (if Js.isNullish value then ""
         else if Js.isTrue value || Js.isString value "" ||
                 Js.isString value name ||
                 Js.isString value (Js.toLowerCase name)
         then " " +++ name
         else if Js.isFalse value then ""
         else " " +++ name +++ "=" +++ dq +++ _escapeAttributeValue value
              +++ dq), st)) /\
  (Str.startsWith (Js.toLowerCase name) "data-" ||
   Str.startsWith (Js.toLowerCase name) "aria-" = true ->
   _renderAttribute handlers name value st =
   (Val (if Js.isNullish value then ""
         else " " +++ name +++ "=" +++ dq +++ _escapeAttributeValue value
              +++ dq), st)).
Proof.
  intros H. split; intros K.
  - now apply renderAttribute_boolean.
  - now apply renderAttribute_data_aria.
Qed.

Lemma attribute_rules_witness :
  _renderAttribute [] "disabled" (JBool true) newRenderer =
  (Val " disabled", newRenderer).
Proof.
  refine (proj1 (attribute_rules [] "disabled" (JBool true) newRenderer _) _);
    reflexivity.
Defined.

(** C8 as stated fails: the empty string is falsy and emits the bare name;
    0 is falsy and "yes" is truthy, and both are emitted with a value; a
    data- attribute with the value [null] emits nothing. *)
Lemma attribute_rules_falsy :
  Js.truthy (JStr "") = false /\
  _renderAttribute [] "disabled" (JStr "") newRenderer =
    (Val " disabled", newRenderer) /\
  Js.truthy (JNum 0) = false /\
  _renderAttribute [] "disabled" (JNum 0) newRenderer =
    (Val (" disabled=" +++ dq +++ "0" +++ dq), newRenderer) /\
  Js.truthy (JStr "yes") = true /\
  _renderAttribute [] "disabled" (JStr "yes") newRenderer =
    (Val (" disabled=" +++ dq +++ "yes" +++ dq), newRenderer) /\
  _renderAttribute [] "data-x" JNull newRenderer = (Val "", newRenderer).
Proof.
  repeat split.
Qed.

(** ** C2: a [render()] that returns a promise *)

Lemma isComponent_registered (components : list (string * component))
  (name : string) (f : component) :
  mapGet name components = Some f -> isComponent components name = true.
Proof. unfold isComponent. now intros ->. Qed.

(** The view node of a component and the props it is called with. *)
Lemma renderInternal_component (components : list (string * component))
  (handlers : list (string * attrHandler)) (self : jsv -> M rres)
  (name : string) (props : jsv) (f : component) (st : rstate) :
  Str.nonEmpty name = true ->
  mapGet name components = Some f ->
  _renderInternal components handlers self (JObj [(name, props)]) st =
  _renderComponent components self name
    (if Js.truthy props then props else JObj []) st.
Proof.
  intros NE G. unfold _renderInternal. simpl. rewrite NE. simpl.
  rewrite get_single. now rewrite (isComponent_registered _ _ _ G).
Qed.

Lemma span_shape (t : string) :
  Js.truthy (textNode "span" (JStr t)) = true /\
  Js.get (textNode "span" (JStr t)) "render" = JUndef /\
  Js.typeofObject (textNode "span" (JStr t)) = true /\
  Js.keys (textNode "span" (JStr t)) = ["span"].
Proof. now repeat split. Qed.

Lemma finalize_span (t : string) :
  _finalizeElement "span" ("<" +++ "span" +++ ">" +++ _escapeHtml t) =
  "<span>" +++ _escapeHtml t +++ "</span>".
Proof.
  unfold _finalizeElement. simpl. reflexivity.
Qed.

Lemma render_unfold (components : list (string * component))
  (handlers : list (string * attrHandler)) (inner : jsv -> M string)
  (n : nat) (vnode : jsv) (st : rstate) :
  render components handlers inner (S n) vnode st =
  renderBody components handlers inner (render components handlers inner n)
    vnode st.
Proof. reflexivity. Qed.

(** A component result with a [render()] that returns [v] at once. *)
Lemma processComponentResult_render (components : list (string * component))
  (self : jsv -> M rres) (r v : jsv) (src name : string) (x : rres)
  (st st' : rstate) :
  Js.truthy r = true ->
  Js.get r "render" = JFun src (Normal v) ->
  Js.isThenable v = false ->
  self v st = (Val x, st') ->
  _processComponentResult components self r name st = (Val x, st').
Proof.
  intros T G N E. unfold _processComponentResult. rewrite T, G. cbn [negb].
  unfold tryCatch, bind. simpl settle. unfold ret at 1.
  destruct v; try (now rewrite E). discriminate.
Qed.

(** A component result with a [render()] that returns a promise resolved
    with [v]. *)
Lemma processComponentResult_promise
  (components : list (string * component))
  (self : jsv -> M rres) (r v : jsv) (src name : string) (st : rstate) :
  Js.truthy r = true ->
  Js.get r "render" = JFun src (Normal (JPromise (Normal v))) ->
  _processComponentResult components self r name st =
  (Val (Later (andThen (settle (Normal v)) self)), st).
Proof.
  intros T G. unfold _processComponentResult. rewrite T, G. cbn [negb].
  reflexivity.
Qed.

(** A component result that is a view node with a valid tag. *)
Lemma processComponentResult_node (components : list (string * component))
  (self : jsv -> M rres) (tag name : string) (props : jsv) (st : rstate) :
  String.eqb tag "render" = false ->
  isValidTag components tag = true ->
  _processComponentResult components self (JObj [(tag, props)]) name st =
  self (JObj [(tag, props)]) st.
Proof.
  intros N V. unfold _processComponentResult. cbn [Js.truthy negb].
  unfold Js.get. cbn [Js.entries mapGet].
  rewrite String.eqb_sym, N. cbn [Js.typeofObject Js.keys Js.entries map fst].
  now rewrite V.
Qed.

Lemma renderComponent_result (components : list (string * component))
  (self : jsv -> M rres) (name : string) (props r : jsv) (f : component)
  (x : rres) (st st' : rstate) :
  mapGet name components = Some f ->
  f props = Normal r ->
  Js.isThenable r = false ->
  _processComponentResult components self r name st = (Val x, st') ->
  _renderComponent components self name props st = (Val x, st').
Proof.
  intros G F N E. unfold _renderComponent, tryCatch. rewrite G.
  unfold bind at 1. rewrite F. simpl settle. unfold ret at 1.
  destruct r; try (now rewrite E). discriminate.
Qed.

(** [renderToString] without [options.async], from what [render] returns. *)
Lemma renderToString_auto (components : list (string * component))
  (handlers : list (string * attrHandler)) (inner : jsv -> M string)
  (n : nat) (layout : jsv) (st : rstate) :
  Js.truthy layout = true ->
  renderToString components handlers inner n layout false st =
  match render components handlers inner n layout st with
  | (Val (Later p), st') =>
      (Val (Later
              (tryCatch p
                 (fun msg =>
                    _ <- say ("StringRenderer smart render error: "
                              +++ msg) ;;
                    ret (errorDiv "Smart Render Error: " msg)))), st')
  | (Val (Now s), st') => (Val (Now s), st')
  | (Exc msg, st') =>
      (Val (Now (errorDiv "StringRenderer Error: " msg)),
       withMessage ("StringRenderer renderToString error: " +++ msg) st')
  | (OutOfFuel, st') => (OutOfFuel, st')
  end.
Proof.
  intros T. unfold renderToString. rewrite T. cbn [negb].
  unfold tryCatch at 1. unfold bind at 1.
  destruct (render components handlers inner n layout st)
    as [[[s|p]|msg|] st']; reflexivity.
Qed.

(** C2.  Let a registered component, called with the props of the node,
    return an object whose [render()] returns a promise already resolved
    with {span: {text: t}}.  Then [renderToString] returns a promise, and
    the promise resolves to "<span>" + escaped t + "</span>": the string
    that [renderToString] returns at once when the component returns
    {span: {text: t}} directly, or from a [render()] without a promise.
    For t = "ok" the string is "<span>ok</span>". *)
Theorem async_matches_sync (components : list (string * component))
  (handlers : list (string * attrHandler)) (inner : jsv -> M string)
  (name src t : string) (props : jsv) (f : component) (fuel : nat)
  (st : rstate) :
  Str.nonEmpty name = true ->
  mapGet name components = Some f ->
  isComponent components "span" = false ->
  mapGet "text" handlers = None ->
  (renderDepth st + 1 <= maxRenderDepth st)%Z ->
  (f (if Js.truthy props then props else JObj []) =
     Normal (JObj [("render",
                    JFun src (Normal (JPromise
                                        (Normal (textNode "span" (JStr t))))))])
   ->
   exists p st1,
     renderToString components handlers inner (S (S fuel))
       (JObj [(name, props)]) false st = (Val (Later p), st1) /\
     fst (p st1) = Val ("<span>" +++ _escapeHtml t +++ "</span>")) /\
  (f (if Js.truthy props then props else JObj []) =
     Normal (textNode "span" (JStr t)) ->
   fst (renderToString components handlers inner (S (S fuel))
          (JObj [(name, props)]) false st) =
   Val (Now ("<span>" +++ _escapeHtml t +++ "</span>"))) /\
  (f (if Js.truthy props then props else JObj []) =
     Normal (JObj [("render",
                    JFun src (Normal (textNode "span" (JStr t))))]) ->
   fst (renderToString components handlers inner (S (S fuel))
          (JObj [(name, props)]) false st) =
   Val (Now ("<span>" +++ _escapeHtml t +++ "</span>"))).
Proof.
  intros NE G C H D.
  assert (D0 : (renderDepth st <= maxRenderDepth st)%Z) by lia.
  set (st1 := withAsyncDetected false (withDepth (renderDepth st + 1) st)).
  assert (D1 : (renderDepth st1 <= maxRenderDepth st1)%Z) by (simpl; lia).
  assert (Span : forall s,
            (renderDepth s <= maxRenderDepth s)%Z ->
            render components handlers inner (S fuel)
              (textNode "span" (JStr t)) s =
            (Val (Now ("<span>" +++ _escapeHtml t +++ "</span>")),
             withAsyncDetected false s)).
  { intros s Ds. rewrite <- finalize_span.
    now apply render_textNode. }
  split; [|split]; intros F.
  - (* the promise *)
    assert (E : _renderInternal components handlers
                  (render components handlers inner (S fuel))
                  (JObj [(name, props)]) st1 =
                (Val (Later (andThen (settle (Normal (textNode "span" (JStr t))))
                               (render components handlers inner (S fuel)))),
                 st1)).
    { rewrite (renderInternal_component _ _ _ _ _ f _ NE G).
      eapply renderComponent_result; [exact G | exact F | reflexivity |].
      now apply processComponentResult_promise with (src := src). }
    rewrite renderToString_auto by reflexivity. rewrite render_unfold.
    rewrite (renderBody_later _ _ _ _ _ st st1 _ D0 E).
    eexists. eexists. split; [reflexivity|].
    unfold tryCatch, andThen, bind. simpl settle. unfold ret at 1.
    rewrite withDepth_back, Span by (simpl; lia). reflexivity.
  - (* the component returns the node *)
    assert (E : _renderInternal components handlers
                  (render components handlers inner (S fuel))
                  (JObj [(name, props)]) st1 =
                (Val (Now ("<span>" +++ _escapeHtml t +++ "</span>")),
                 withAsyncDetected false st1)).
    { rewrite (renderInternal_component _ _ _ _ _ f _ NE G).
      eapply renderComponent_result; [exact G | exact F | reflexivity |].
      unfold textNode. rewrite processComponentResult_node by reflexivity.
      now apply Span. }
    rewrite renderToString_auto by reflexivity. rewrite render_unfold.
    rewrite (renderBody_now _ _ _ _ _ st _ _ D0 E) by reflexivity.
    reflexivity.
  - (* the component's render() returns the node *)
    assert (E : _renderInternal components handlers
                  (render components handlers inner (S fuel))
                  (JObj [(name, props)]) st1 =
                (Val (Now ("<span>" +++ _escapeHtml t +++ "</span>")),
                 withAsyncDetected false st1)).
    { rewrite (renderInternal_component _ _ _ _ _ f _ NE G).
      eapply renderComponent_result; [exact G | exact F | reflexivity |].
      eapply processComponentResult_render with (src := src)
                                                (v := textNode "span" (JStr t));
        [reflexivity | reflexivity | reflexivity | now apply Span]. }
    rewrite renderToString_auto by reflexivity. rewrite render_unfold.
    rewrite (renderBody_now _ _ _ _ _ st _ _ D0 E) by reflexivity.
    reflexivity.
Qed.

Lemma async_matches_sync_witness :
  exists p st1,
    renderToString
      [("Greeting",
        fun _ => Normal (JObj [("render",
                   JFun "render" (Normal (JPromise
                      (Normal (textNode "span" (JStr "ok"))))))]))]
      [] (fun _ => throw "unused") 2 (JObj [("Greeting", JObj [])]) false
      newRenderer = (Val (Later p), st1) /\
    fst (p st1) = Val "<span>ok</span>".
Proof.
  refine (proj1 (async_matches_sync _ [] _ "Greeting" "render" "ok"
                   (JObj []) _ 0 newRenderer _ _ _ _ _) _);
    try reflexivity.
  discriminate.
Defined.

(** ** C9: the depth guard *)

(** Past the bound [render] returns the marker and goes no deeper. *)
Lemma render_guard (components : list (string * component))
  (handlers : list (string * attrHandler)) (inner : jsv -> M string)
  (n : nat) (vnode : jsv) (st : rstate) :
  (renderDepth st > maxRenderDepth st)%Z ->
  render components handlers inner (S n) vnode st =
  (Val (Now "<!-- Max render depth exceeded -->"),
   withMessage "StringRenderer: Maximum render depth exceeded" st).
Proof.
  intros D. rewrite render_unfold.
  unfold renderBody, bind, getDepth, getMaxDepth.
  destruct (Z.gtb_spec (renderDepth st) (maxRenderDepth st)); [|lia].
  reflexivity.
Qed.

Lemma renderAsync_guard (inner : jsv -> M string) (vnode : jsv)
  (st : rstate) :
  (renderDepth st > maxRenderDepth st)%Z ->
  renderAsync inner vnode st =
  (Val "<!-- Max render depth exceeded -->",
   withMessage "StringRenderer: Maximum render depth exceeded" st).
Proof.
  intros D. unfold renderAsync, bind, getDepth, getMaxDepth.
  destruct (Z.gtb_spec (renderDepth st) (maxRenderDepth st)); [|lia].
  reflexivity.
Qed.

(** [renderAsync] takes its own step back on both exits: the counter after
    it is the counter its body left. *)
Lemma renderAsync_balanced (inner : jsv -> M string) (vnode : jsv)
  (st : rstate) :
  (renderDepth st <= maxRenderDepth st)%Z ->
  match inner vnode (withDepth (renderDepth st + 1) st) with
  | (OutOfFuel, _) => True
  | (_, st2) =>
      renderDepth (snd (renderAsync inner vnode st)) = (renderDepth st2 - 1)%Z
  end.
Proof.
  intros D. unfold renderAsync, bind, getDepth, getMaxDepth.
  rewrite (gtb_false _ _ D). unfold setDepth, tryCatch.
  destruct (inner vnode (withDepth (renderDepth st + 1) st))
    as [[s|msg|] st2]; [reflexivity | reflexivity | exact Logic.I].
Qed.

(** A component that refers to itself directly is stopped by the guard. *)
Lemma sync_self_reference_stopped :
  renderToString [("Loop", syncLoop)] [] (fun _ => throw "unused") 103
    loopNode false newRenderer =
  (Val (Now "<!-- Max render depth exceeded -->"),
   withMessage "StringRenderer: Maximum render depth exceeded" newRenderer).
Proof.
  vm_compute. reflexivity.
Qed.

(** A component that returns a promise. *)
Lemma renderComponent_promise (components : list (string * component))
  (self : jsv -> M rres) (name : string) (props : jsv) (f : component)
  (c : completion) (st : rstate) :
  mapGet name components = Some f ->
  f props = Normal (JPromise c) ->
  _renderComponent components self name props st =
  (Val (Later
          (andThen (settle c)
             (fun resolvedResult =>
                _processComponentResult components self resolvedResult name))),
   withMessage ("StringRenderer: Component " +++ name
                +++ " returned promise, returning for waiting") st).
Proof.
  intros G F. unfold _renderComponent, tryCatch. rewrite G.
  unfold bind at 1. rewrite F. reflexivity.
Qed.

Lemma render_async_loop (components : list (string * component))
  (handlers : list (string * attrHandler)) (inner : jsv -> M string)
  (n : nat) (st : rstate) :
  mapGet "Loop" components = Some asyncLoop ->
  withinDepth st ->
  neverSettles (render components handlers inner n loopNode st).
Proof.
  intros G. revert st. induction n as [|n IH]; intros st D.
  - exact Logic.I.
  - rewrite render_unfold.
    set (st1 := withAsyncDetected false (withDepth (renderDepth st + 1) st)).
    erewrite renderBody_later; [ | exact D | ].
    2:{ unfold loopNode.
        rewrite (renderInternal_component components handlers _ "Loop"
                   (JObj []) asyncLoop _ eq_refl G).
        apply renderComponent_promise with (f := asyncLoop);
          [exact G | reflexivity]. }
    unfold neverSettles. split.
    + unfold withinDepth in *. simpl. lia.
    + intros s Ds. unfold andThen, bind. simpl settle. unfold ret at 1.
      change (JObj [("Loop", JObj [])]) with loopNode.
      unfold loopNode at 1.
      rewrite processComponentResult_node;
        [ | reflexivity
          | unfold isValidTag; now rewrite (isComponent_registered _ _ _ G),
              orb_true_r ].
      specialize (IH s Ds). fold loopNode.
      destruct (render components handlers inner n loopNode s)
        as [[[x|p']|msg|] s']; simpl in IH; try contradiction.
      * destruct IH as [Ds' IH]. simpl. apply IH. exact Ds'.
      * reflexivity.
Qed.

(** C9 at the failing input.  A component that refers to itself through a
    promise is not stopped by the depth guard: [render] takes the counter
    back before it returns the promise, the continuation calls [render]
    with the counter where it was, and so on; however many nested calls are
    allowed, the promise that [renderToString] returns does not settle, and
    no marker is returned. *)
Theorem async_self_reference_unguarded
  (components : list (string * component))
  (handlers : list (string * attrHandler)) (inner : jsv -> M string)
  (fuel : nat) (st : rstate) :
  mapGet "Loop" components = Some asyncLoop ->
  withinDepth st ->
  neverSettles
    (renderToString components handlers inner fuel loopNode false st).
Proof.
  intros G D. rewrite renderToString_auto by reflexivity.
  pose proof (render_async_loop components handlers inner fuel st G D) as H.
  destruct (render components handlers inner fuel loopNode st)
    as [[[x|p]|msg|] s']; simpl in H; try contradiction.
  - destruct H as [Ds H]. simpl. split; [exact Ds|].
    intros s Hs. unfold tryCatch. specialize (H s Hs).
    destruct (p s) as [[y|m|] s2]; simpl in H; try discriminate.
    reflexivity.
  - exact Logic.I.
Qed.

Lemma async_self_reference_unguarded_witness :
  neverSettles
    (renderToString [("Loop", asyncLoop)] [] (fun _ => throw "unused") 200
       loopNode false newRenderer).
Proof.
  apply (async_self_reference_unguarded [("Loop", asyncLoop)] [] _ 200
           newRenderer).
  - reflexivity.
  - unfold withinDepth. simpl. lia.
Defined.

(** ** The depth counter is left where it was *)

Lemma sameDepth_refl (st : rstate) : sameDepth st st.
Proof. now split. Qed.

Lemma sameDepth_trans (a b c : rstate) :
  sameDepth a b -> sameDepth b c -> sameDepth a c.
Proof. intros [] []. split; congruence. Qed.

Lemma keepsDepth_ret {A : Type} (Q : A -> Prop) (a : A) :
  Q a -> keepsDepth Q (ret a).
Proof. intros H st. simpl. split; [apply sameDepth_refl | exact H]. Qed.

Lemma keepsDepth_throw {A : Type} (Q : A -> Prop) (msg : string) :
  keepsDepth Q (@throw A msg).
Proof. intros st. simpl. apply sameDepth_refl. Qed.

Lemma keepsDepth_say (msg : string) : keepsDepth (fun _ => True) (say msg).
Proof. intros st. simpl. now repeat split. Qed.

Lemma keepsDepth_bind {A B : Type} (Q1 : A -> Prop) (Q2 : B -> Prop)
  (m : M A) (f : A -> M B) :
  keepsDepth Q1 m -> (forall a, Q1 a -> keepsDepth Q2 (f a)) ->
  keepsDepth Q2 (bind m f).
Proof.
  intros Hm Hf st. unfold bind. specialize (Hm st).
  destruct (m st) as [[a|msg|] st1]; [|exact Hm|exact Logic.I].
  destruct Hm as [S1 Qa]. specialize (Hf a Qa st1).
  destruct (f a st1) as [[b|msg|] st2]; [| |exact Logic.I].
  - destruct Hf as [S2 Qb]. split; [eapply sameDepth_trans; eauto | exact Qb].
  - eapply sameDepth_trans; eauto.
Qed.

Lemma keepsDepth_tryCatch {A : Type} (Q : A -> Prop) (m : M A)
  (h : string -> M A) :
  keepsDepth Q m -> (forall msg, keepsDepth Q (h msg)) ->
  keepsDepth Q (tryCatch m h).
Proof.
  intros Hm Hh st. unfold tryCatch. specialize (Hm st).
  destruct (m st) as [[a|msg|] st1]; [exact Hm| |exact Logic.I].
  specialize (Hh msg st1).
  destruct (h msg st1) as [[b|msg'|] st2]; [| |exact Logic.I].
  - destruct Hh as [S2 Qb]. split; [eapply sameDepth_trans; eauto | exact Qb].
  - eapply sameDepth_trans; eauto.
Qed.

Lemma keepsDepth_weaken {A : Type} (Q Q' : A -> Prop) (m : M A) :
  (forall a, Q a -> Q' a) -> keepsDepth Q m -> keepsDepth Q' m.
Proof.
  intros H Hm st. specialize (Hm st).
  destruct (m st) as [[a|msg|] st1]; [|exact Hm|exact Logic.I].
  destruct Hm. split; auto.
Qed.

Lemma keepsDepth_settle (c : completion) :
  keepsDepth (fun _ => True) (settle c).
Proof.
  destruct c; [now apply keepsDepth_ret | apply keepsDepth_throw].
Qed.

Lemma keepsDepth_mapM {A B : Type} (Q : B -> Prop) (f : A -> M B)
  (l : list A) :
  (forall x, keepsDepth Q (f x)) -> keepsDepth (Forall Q) (mapM f l).
Proof.
  intros Hf. induction l as [|x r IH]; simpl.
  - apply keepsDepth_ret. constructor.
  - eapply keepsDepth_bind; [apply Hf|]. intros y Qy.
    eapply keepsDepth_bind; [exact IH|]. intros ys Qys.
    apply keepsDepth_ret. now constructor.
Qed.

Lemma keepsDepth_foldM {A : Type} (f : string -> A -> M string)
  (l : list A) (acc : string) :
  (forall a x, keepsDepth (fun _ => True) (f a x)) ->
  keepsDepth (fun _ => True) (foldM f l acc).
Proof.
  intros Hf. revert acc. induction l as [|x r IH]; intros acc; simpl.
  - now apply keepsDepth_ret.
  - eapply keepsDepth_bind; [apply Hf|]. intros a _. apply IH.
Qed.

Lemma keepsDepth_await (r : rres) :
  balanced r -> keepsDepth (fun _ => True) (await r).
Proof.
  destruct r; simpl; intros H; [now apply keepsDepth_ret | exact H].
Qed.

Lemma keepsDepth_andThen {A : Type} (Q : A -> Prop) (p : M A)
  (f : A -> M rres) :
  keepsDepth Q p -> (forall a, keepsDepth balanced (f a)) ->
  keepsDepth (fun _ => True) (andThen p f).
Proof.
  intros Hp Hf. unfold andThen.
  eapply keepsDepth_bind; [exact Hp|]. intros a _.
  eapply keepsDepth_bind; [apply Hf|]. intros r Hr.
  now apply keepsDepth_await.
Qed.

Lemma keepsDepth_allJoin (results : list rres) :
  Forall balanced results -> keepsDepth (fun _ => True) (allJoin results).
Proof.
  induction 1 as [|r rest Hr _ IH]; simpl.
  - now apply keepsDepth_ret.
  - eapply keepsDepth_bind; [now apply keepsDepth_await|]. intros s _.
    eapply keepsDepth_bind; [exact IH|]. intros t _.
    now apply keepsDepth_ret.
Qed.

Lemma keepsDepth_evaluateFunction (fn : jsv) :
  keepsDepth (fun _ => True) (_evaluateFunction fn).
Proof.
  destruct fn; try (now apply keepsDepth_ret).
  destruct call; simpl; [now apply keepsDepth_ret|].
  eapply keepsDepth_bind; [apply keepsDepth_say|]. intros _ _.
  eapply keepsDepth_bind; [apply keepsDepth_say|]. intros _ _.
  now apply keepsDepth_ret.
Qed.

Lemma keepsDepth_renderAttribute (handlers : list (string * attrHandler))
  (name : string) (value : jsv) :
  keepsDepth (fun _ => True) (_renderAttribute handlers name value).
Proof.
  unfold _renderAttribute.
  repeat match goal with
         | |- keepsDepth _ (ret _) => now apply keepsDepth_ret
         | |- keepsDepth _ (throw _) => apply keepsDepth_throw
         | |- keepsDepth _ (if ?b then _ else _) => destruct b
         | |- keepsDepth _ (match ?x with _ => _ end) => destruct x
         end.
Qed.

Ltac keeps_step :=
  match goal with
  | |- keepsDepth _ (ret _) => apply keepsDepth_ret
  | |- keepsDepth _ (throw _) => apply keepsDepth_throw
  | |- keepsDepth _ (say _) => apply keepsDepth_say
  | |- keepsDepth _ (settle _) => apply keepsDepth_settle
  | |- keepsDepth _ (_evaluateFunction _) => apply keepsDepth_evaluateFunction
  | |- keepsDepth _ (_renderAttribute _ _ _) =>
      apply keepsDepth_renderAttribute
  | |- keepsDepth _ (tryCatch _ _) => apply keepsDepth_tryCatch; [|intros ?]
  | |- keepsDepth _ (bind _ _) => eapply keepsDepth_bind; [|intros ? ?]
  | |- keepsDepth _ (if ?b then _ else _) => destruct b
  end.

Lemma keepsDepth_processAttribute (handlers : list (string * attrHandler))
  (props : jsv) (key : string) :
  keepsDepth (fun _ => True) (processAttribute handlers props key).
Proof.
  unfold processAttribute.
  destruct (mapGet key handlers); repeat keeps_step; auto.
  destruct a; repeat keeps_step; auto.
Qed.

Lemma keepsDepth_asyncAttributes (handlers : list (string * attrHandler))
  (promises : list (string * completion)) (html : string) :
  keepsDepth (fun _ => True) (asyncAttributes handlers promises html).
Proof.
  unfold asyncAttributes.
  eapply keepsDepth_bind.
  - apply keepsDepth_mapM with (Q := fun _ => True).
    intros x. repeat keeps_step; auto.
  - intros l _. apply keepsDepth_foldM.
    intros a x. repeat keeps_step; auto.
Qed.

Lemma keepsDepth_processAttributes (handlers : list (string * attrHandler))
  (props : jsv) :
  keepsDepth balanced (_processAttributes handlers props).
Proof.
  unfold _processAttributes.
  eapply keepsDepth_bind.
  - apply keepsDepth_mapM with (Q := fun _ => True).
    apply keepsDepth_processAttribute.
  - intros parts _.
    destruct (flat_map _ parts); apply keepsDepth_ret; simpl; auto.
    apply keepsDepth_asyncAttributes.
Qed.

Lemma keepsDepth_processStyleEntry (entry : string * jsv) :
  keepsDepth (fun _ => True) (processStyleEntry entry).
Proof.
  unfold processStyleEntry.
  eapply keepsDepth_bind with (Q1 := fun _ => True).
  - repeat keeps_step; auto.
  - intros v _. destruct v; repeat keeps_step; auto.
Qed.

Lemma keepsDepth_processStyleObject (style : jsv) :
  keepsDepth balanced (_processStyleObject style).
Proof.
  unfold _processStyleObject.
  destruct (_ && _); [|now apply keepsDepth_ret].
  eapply keepsDepth_bind.
  - apply keepsDepth_mapM with (Q := fun _ => True).
    apply keepsDepth_processStyleEntry.
  - intros parts _.
    destruct (flat_map (fun p => optionToList (snd p)) parts);
      apply keepsDepth_ret; cbn [balanced]; auto.
    eapply keepsDepth_bind.
    + apply keepsDepth_mapM with (Q := fun _ => True).
      intros x. repeat keeps_step; auto.
    + intros rules _. now apply keepsDepth_ret.
Qed.

Lemma keepsDepth_renderStyle (style : jsv) :
  keepsDepth balanced (_renderStyle style).
Proof.
  unfold _renderStyle.
  destruct (negb (Js.truthy style)); [now apply keepsDepth_ret|].
  destruct (Js.isFunction style); [|apply keepsDepth_processStyleObject].
  apply keepsDepth_tryCatch.
  - eapply keepsDepth_bind; [apply keepsDepth_evaluateFunction|].
    intros result _.
    destruct result; try apply keepsDepth_processStyleObject.
    apply keepsDepth_ret. simpl.
    eapply keepsDepth_andThen; [apply keepsDepth_settle|].
    apply keepsDepth_processStyleObject.
  - intros msg. repeat keeps_step; simpl; auto.
Qed.

Section Balance.

Variable components : list (string * component).
Variable handlers : list (string * attrHandler).
Variable self : jsv -> M rres.
Hypothesis self_keeps : forall vnode, keepsDepth balanced (self vnode).

Lemma keepsDepth_renderList (items : list jsv) :
  keepsDepth balanced
    (results <- mapM self items ;;
     if existsb isLater results then ret (Later (allJoin results))
     else ret (Now (joinNow results))).
Proof.
  eapply keepsDepth_bind; [apply keepsDepth_mapM, self_keeps|].
  intros results Hres.
  destruct (existsb isLater results); apply keepsDepth_ret;
    cbn [balanced]; auto.
  now apply keepsDepth_allJoin.
Qed.

Lemma keepsDepth_renderChildrenContent (children : jsv) :
  keepsDepth balanced (_renderChildrenContent self children).
Proof.
  destruct children; cbn [_renderChildrenContent];
    try (destruct (negb _); [apply self_keeps | now apply keepsDepth_ret]).
  apply keepsDepth_renderList.
Qed.

Lemma keepsDepth_renderElementContent (tagName : string) (props : jsv)
  (html : string) :
  keepsDepth balanced (_renderElementContent self tagName props html).
Proof.
  unfold _renderElementContent.
  destruct (negb (Js.isUndef (Js.get props "text"))).
  { eapply keepsDepth_bind with (Q1 := fun _ => True).
    - repeat keeps_step; auto.
    - intros text _.
      destruct text; apply keepsDepth_ret; cbn [balanced]; auto.
      repeat keeps_step; auto. }
  destruct (negb (Js.isUndef (Js.get props "children")));
    [|now apply keepsDepth_ret].
  eapply keepsDepth_bind with (Q1 := fun _ => True).
  - repeat keeps_step; auto.
  - intros children _.
    assert (G : keepsDepth balanced
                  (childrenResult <- _renderChildrenContent self children ;;
                   match childrenResult with
                   | Later p =>
                       ret (Later
                              (content <- p ;;
                               ret (_finalizeElement tagName
                                      (html +++ content))))
                   | Now s =>
                       ret (Now (_finalizeElement tagName (html +++ s)))
                   end)).
    { eapply keepsDepth_bind; [apply keepsDepth_renderChildrenContent|].
      intros r Hr. destruct r; apply keepsDepth_ret; cbn [balanced]; auto.
      eapply keepsDepth_bind; [exact Hr|].
      intros content _. now apply keepsDepth_ret. }
    destruct children; try exact G.
    apply keepsDepth_ret. cbn [balanced].
    eapply keepsDepth_bind.
    + eapply keepsDepth_andThen; [apply keepsDepth_settle|].
      apply keepsDepth_renderChildrenContent.
    + intros content _. now apply keepsDepth_ret.
Qed.

Lemma keepsDepth_continueElementRendering (tagName : string) (props : jsv)
  (attrs : string) :
  keepsDepth balanced (_continueElementRendering self tagName props attrs).
Proof.
  unfold _continueElementRendering.
  eapply keepsDepth_bind; [apply keepsDepth_renderStyle|].
  intros r Hr. destruct r; [apply keepsDepth_renderElementContent|].
  apply keepsDepth_ret. cbn [balanced].
  eapply keepsDepth_andThen; [exact Hr|].
  intros s. apply keepsDepth_renderElementContent.
Qed.

Lemma keepsDepth_renderElement (tagName : string) (props : jsv) :
  keepsDepth balanced (_renderElement handlers self tagName props).
Proof.
  unfold _renderElement.
  eapply keepsDepth_bind; [apply keepsDepth_processAttributes|].
  intros r Hr. destruct r; [apply keepsDepth_continueElementRendering|].
  apply keepsDepth_ret. cbn [balanced].
  eapply keepsDepth_andThen; [exact Hr|].
  intros s. apply keepsDepth_continueElementRendering.
Qed.

Lemma keepsDepth_processComponentResult (result : jsv) (tagName : string) :
  keepsDepth balanced
    (_processComponentResult components self result tagName).
Proof.
  unfold _processComponentResult.
  destruct (negb (Js.truthy result)); [now apply keepsDepth_ret|].
  destruct (Js.get result "render");
    try (destruct (Js.typeofObject result);
         [destruct (Js.keys result) as [|firstKey rest];
          [|destruct (isValidTag components firstKey)]|];
         first [apply self_keeps | now apply keepsDepth_ret]).
  apply keepsDepth_tryCatch.
  - eapply keepsDepth_bind; [apply keepsDepth_settle|].
    intros renderResult _.
    destruct renderResult; try apply self_keeps.
    apply keepsDepth_ret. cbn [balanced].
    eapply keepsDepth_andThen; [apply keepsDepth_settle | apply self_keeps].
  - intros msg. repeat keeps_step; cbn [balanced]; auto.
Qed.

Lemma keepsDepth_renderComponent (tagName : string) (props : jsv) :
  keepsDepth balanced (_renderComponent components self tagName props).
Proof.
  unfold _renderComponent.
  apply keepsDepth_tryCatch.
  - destruct (mapGet tagName components) as [componentFn|];
      [|apply keepsDepth_throw].
    eapply keepsDepth_bind; [apply keepsDepth_settle|].
    intros result _.
    destruct result; try apply keepsDepth_processComponentResult.
    eapply keepsDepth_bind; [apply keepsDepth_say|]. intros _ _.
    apply keepsDepth_ret. cbn [balanced].
    eapply keepsDepth_andThen; [apply keepsDepth_settle|].
    intros r. apply keepsDepth_processComponentResult.
  - intros msg. repeat keeps_step; cbn [balanced]; auto.
Qed.

Lemma keepsDepth_renderInternal (vnode : jsv) :
  keepsDepth balanced (_renderInternal components handlers self vnode).
Proof.
  unfold _renderInternal.
  destruct (negb (Js.truthy vnode)); [now apply keepsDepth_ret|].
  destruct (negb (Js.typeofObject vnode)); [now apply keepsDepth_ret|].
  assert (G : keepsDepth balanced
                match Js.keys vnode with
                | [] => ret (Now "")
                | tagName :: _ =>
                    if negb (Str.nonEmpty tagName) then ret (Now "")
                    else
                      let nodeProps :=
                        if Js.truthy (Js.get vnode tagName)
                        then Js.get vnode tagName else JObj [] in
                      if isComponent components tagName
                      then _renderComponent components self tagName nodeProps
                      else _renderElement handlers self tagName nodeProps
                end).
  { destruct (Js.keys vnode) as [|tagName rest]; [now apply keepsDepth_ret|].
    destruct (negb (Str.nonEmpty tagName)); [now apply keepsDepth_ret|].
    cbv zeta. destruct (isComponent components tagName);
      [apply keepsDepth_renderComponent | apply keepsDepth_renderElement]. }
  destruct vnode; try exact G.
  apply keepsDepth_renderList.
Qed.

End Balance.

Section BalanceRender.

Variable components : list (string * component).
Variable handlers : list (string * attrHandler).
Variable renderInternalAsync : jsv -> M string.
Hypothesis async_keeps :
  forall vnode, keepsDepth (fun _ => True) (renderInternalAsync vnode).

(** [renderAsync] leaves the counter where it found it: refused at the
    guard, returned from, or thrown out of. *)
Lemma renderAsync_keeps_depth (vnode : jsv) :
  keepsDepth (fun _ => True) (renderAsync renderInternalAsync vnode).
Proof.
  intros st. unfold renderAsync, bind, getDepth, getMaxDepth.
  destruct (renderDepth st >? maxRenderDepth st)%Z.
  { cbn. repeat split. }
  unfold tryCatch, setDepth, bind, getDepth.
  pose proof (async_keeps vnode (withDepth (renderDepth st + 1) st)) as H.
  destruct (renderInternalAsync vnode (withDepth (renderDepth st + 1) st))
    as [[a|msg|] st1]; [| |exact Logic.I].
  - destruct H as [[Hd Hm] _]. cbn in *. repeat split; cbn; [lia|exact Hm].
  - destruct H as [Hd Hm]. cbn in *. repeat split; cbn; [lia|exact Hm].
Qed.

(** One level of [render] leaves the counter where it found it when the
    calls it makes do. *)
Lemma renderBody_keeps_depth (self : jsv -> M rres) (vnode : jsv) :
  (forall v, keepsDepth balanced (self v)) ->
  keepsDepth balanced
    (renderBody components handlers renderInternalAsync self vnode).
Proof.
  intros Hself st. unfold renderBody, bind at 1 2, getDepth, getMaxDepth.
  destruct (renderDepth st >? maxRenderDepth st)%Z.
  { cbn. repeat split. }
  unfold tryCatch, setDepth, setAsyncDetected, bind, getDepth,
    getAsyncDetected.
  set (st0 := withAsyncDetected false (withDepth (renderDepth st + 1) st)).
  pose proof (keepsDepth_renderInternal components handlers self Hself
                vnode st0) as H.
  destruct (_renderInternal components handlers self vnode st0)
    as [[r|msg|] st1]; [| |exact Logic.I].
  - destruct H as [[Hd Hm] Hr]. subst st0. cbn in Hd, Hm.
    destruct r as [s|p].
    + destruct (asyncDetected (withDepth (renderDepth st1 - 1) st1)).
      * cbn. repeat split; cbn; [lia|exact Hm|].
        apply renderAsync_keeps_depth.
      * cbn. repeat split; cbn; [lia|exact Hm].
    + cbn. repeat split; cbn; [lia|exact Hm|exact Hr].
  - destruct H as [Hd Hm]. subst st0. cbn in *. repeat split; cbn; [lia|exact Hm].
Qed.

(** [render] returns with the depth counter where it found it, on the
    guard's path, the success path and the error path alike, and so does
    every promise it returns, once awaited. *)
Lemma render_keeps_depth (fuel : nat) (vnode : jsv) :
  keepsDepth balanced
    (render components handlers renderInternalAsync fuel vnode).
Proof.
  revert vnode. induction fuel as [|n IH]; intros vnode.
  - intros st. exact Logic.I.
  - cbn [render]. now apply renderBody_keeps_depth.
Qed.

End BalanceRender.

(** * Further properties of the state manager *)

(** ** A write leaves the paths beside it alone *)

Lemma lookup_update_other (a b : string) (v : value) (props : props_t) :
  String.eqb b a = false -> lookup b (update a v props) = lookup b props.
Proof.
  intros H. induction props as [|[k w] r IH]; simpl.
  - now rewrite H.
  - destruct (String.eqb a k) eqn:E; simpl.
    + apply String.eqb_eq in E. subst k. now rewrite H.
    + destruct (String.eqb b k); [reflexivity | exact IH].
Qed.

Lemma getProp_setProp_other (cur : value) (a b : string) (v : value) :
  String.eqb b a = false -> getProp (setProp cur a v) b = getProp cur b.
Proof.
  intros H. destruct cur; try reflexivity. simpl.
  now rewrite (lookup_update_other a b v props H).
Qed.

Lemma getProp_setProp_same (arr : bool) (props : props_t) (a : string)
  (v : value) :
  getProp (setProp (VObj arr props) a v) a = v.
Proof. simpl. now rewrite lookup_update_same. Qed.

Lemma assignPath_head (a : string) (rest : list string) (v cur : value) :
  exists x, assignPath (a :: rest) v cur = setProp cur a x.
Proof.
  destruct rest as [|b r]; [now exists v|].
  eexists. apply assignPath_cons. discriminate.
Qed.

(** Below a key that holds neither an object nor a string nothing is found,
    and below the empty object put in its place neither. *)
Lemma walk_child (rest : list string) (child d : value) :
  rest <> [] ->
  (forall s, child <> VStr s) ->
  walk rest
    (if isNullish child || negb (typeofObject child)
     then VObj false [] else child) d =
  if isUndef child then d else walk rest child d.
Proof.
  intros H N. destruct rest as [|b r]; [congruence|].
  destruct child; try reflexivity. now destruct (N s).
Qed.

Lemma walk_empty_not_string (parts : list string) (s : string) :
  walk parts (VObj false []) VNull <> VStr s.
Proof. destruct parts; cbn; discriminate. Qed.

Lemma diverge_nonempty (ps qs : list string) :
  diverge ps qs = true -> ps <> [] /\ qs <> [].
Proof. destruct ps, qs; simpl; try discriminate. now split. Qed.

Lemma walk_assignPath_diverge (ps : list string) :
  forall (qs : list string) (v cur d : value),
    diverge ps qs = true ->
    (forall k s, k < List.length ps ->
       walk (firstn k ps) cur VNull <> VStr s) ->
    walk qs (assignPath ps v cur) d = walk qs cur d.
Proof.
  induction ps as [|a r1 IH]; intros qs v cur d H NS; [discriminate|].
  destruct qs as [|b r2]; [discriminate|]. simpl in H.
  destruct (String.eqb a b) eqn:E.
  - apply String.eqb_eq in E. subst b.
    destruct (diverge_nonempty _ _ H) as [N1 N2].
    rewrite (assignPath_cons a r1 v cur N1).
    destruct cur as [| | | | |arr props]; try reflexivity.
    set (child := getProp (VObj arr props) a).
    assert (NC : forall s, child <> VStr s).
    { intros s Hc. apply (NS 1 s).
      - destruct r1; [congruence | simpl; lia].
      - cbn [firstn walk isNullish orb]. fold child. now rewrite Hc. }
    assert (NS' : forall k s, k < List.length r1 ->
              walk (firstn k r1)
                (if isNullish child || negb (typeofObject child)
                 then VObj false [] else child) VNull <> VStr s).
    { intros k s Hk Hw. apply (NS (S k) s); [simpl; lia|].
      cbn [firstn walk isNullish orb]. fold child.
      destruct child as [| | | |s'|arr' props'];
        cbn [isNullish typeofObject negb orb isUndef] in *;
        try (now apply walk_empty_not_string in Hw);
        try (now destruct (NC s')).
      exact Hw. }
    cbn [walk]. rewrite getProp_setProp_same. fold child.
    destruct (assignPath_obj r1 v false []) as [p0 E0].
    destruct (child_obj child) as [a' [q' Eq]].
    destruct (assignPath_obj r1 v a' q') as [p1 E1].
    rewrite Eq, E1. cbn [isNullish isUndef orb].
    rewrite <- E1, <- Eq, (IH r2 v _ d H NS').
    now rewrite (walk_child r2 child d N2 NC).
  - destruct (assignPath_head a r1 v cur) as [x Ex]. rewrite Ex.
    assert (Hba : String.eqb b a = false) by now rewrite String.eqb_sym.
    destruct cur as [| | | | |arr props]; try reflexivity.
    cbn [walk]. now rewrite (getProp_setProp_other _ a b x Hba).
Qed.

Lemma getState_reads_state (q : string) (d : value) (s s' : store) :
  state s = state s' -> fst (getState q d s) = fst (getState q d s').
Proof.
  intros H. unfold getState. destruct (negb (isValidPath q)); [reflexivity|].
  destruct (currentTracking s), (currentTracking s'); cbn; now rewrite H.
Qed.

Lemma setState_state_cases (p : string) (v c : value) (st : store) :
  batchingActive st = false ->
  internalBodies (writesOnly p) st ->
  externalBodies (writesOnly p) st ->
  state (fst (setState run p v c st)) = state st \/
  state (fst (setState run p v c st)) =
  writeState p (finalValueOf p v c st) (state st).
Proof.
  intros B HI HE.
  destruct (isValidPath p) eqn:V.
  2:{ left. unfold setState. rewrite V. reflexivity. }
  destruct (Str.mem p (currentlyUpdating st)) eqn:C.
  { left. apply (setState_dropped_state run p v c st C). }
  rewrite (setState_immediate run p v c st V C B).
  rewrite (setStateImmediate_state p v c st HI HE), silentWrite_state.
  destruct (deepEquals _ _); [now left | now right].
Qed.

(** X1.  A write at [p] changes nothing that is read at a path [q] which
    parts ways with [p] (at some segment both paths go on with different
    keys), when no segment of either path is a built-in member name and no
    proper prefix of [p] holds a string (a string on the way to [p] is
    replaced by an object, and its characters are no longer read): with
    batching inactive and callbacks that write at [p] only, [getState q]
    returns after [setState p v] what it returned before, whatever the
    middleware does and whether or not objects were made on the way to
    [p].  The state is a tree: no object of it is reached by two paths. *)
Theorem set_leaves_unrelated_paths (st : store) (p q : string)
  (v c d : value) :
  diverge (getPathParts p) (getPathParts q) = true ->
  ordinaryPath p = true ->
  ordinaryPath q = true ->
  (forall k s, k < List.length (getPathParts p) ->
     walk (firstn k (getPathParts p)) (VObj false (state st)) VNull <>
     VStr s) ->
  batchingActive st = false ->
  internalBodies (writesOnly p) st ->
  externalBodies (writesOnly p) st ->
  fst (getState q d (fst (setState run p v c st))) = fst (getState q d st).
Proof.
  intros D _ _ NS B HI HE.
  destruct (setState_state_cases p v c st B HI HE) as [E|E].
  - now apply getState_reads_state.
  - destruct (isValidPath q) eqn:V.
    2:{ unfold getState. rewrite V. reflexivity. }
    rewrite !getState_value by exact V. rewrite E.
    rewrite writeState_assignPath.
    now apply walk_assignPath_diverge.
Qed.

Lemma set_leaves_unrelated_paths_witness :
  fst (getState "user.age" VNull
         (fst (setState run "user.name.first" (VStr "Ann") (VObj false [])
                 (newStateManager
                    [("user", VObj false [("name", VNum 1);
                                          ("age", VNum 30)])] [])))) =
  fst (getState "user.age" VNull
         (newStateManager
            [("user", VObj false [("name", VNum 1); ("age", VNum 30)])] [])).
Proof.
  apply set_leaves_unrelated_paths.
  - reflexivity.
  - reflexivity.
  - reflexivity.
  - intros [|[|[|k]]] s Hk; cbn; discriminate.
  - reflexivity.
  - intros path subs cb H. destruct H.
  - intros path subs sub nv ov cp H. destruct H.
Defined.

(** ** Dependency tracking *)

Lemma dedupInto_ext (l : list string) :
  forall seen seen',
    (forall x, Str.mem x seen = Str.mem x seen') ->
    Str.dedupInto seen l = Str.dedupInto seen' l.
Proof.
  induction l as [|x r IH]; intros seen seen' H; simpl; [reflexivity|].
  rewrite <- (H x). destruct (Str.mem x seen).
  - now apply IH.
  - f_equal. apply IH. intros y. simpl. now rewrite H.
Qed.

Lemma mem_app (x : string) (l m : list string) :
  Str.mem x (l ++ m) = Str.mem x l || Str.mem x m.
Proof.
  induction l as [|y r IH]; simpl; [reflexivity|].
  now rewrite IH, orb_assoc.
Qed.

Lemma fold_setAdd (l : list string) :
  forall deps,
    fold_left (fun acc p => setAdd p acc) l deps =
    deps ++ Str.dedupInto deps l.
Proof.
  induction l as [|x r IH]; intros deps; simpl.
  - now rewrite app_nil_r.
  - unfold setAdd at 2. destruct (Str.mem x deps) eqn:E; [apply IH|].
    rewrite IH, <- app_assoc. simpl. do 2 f_equal.
    apply dedupInto_ext. intros y. rewrite mem_app. simpl.
    now rewrite orb_false_r, orb_comm.
Qed.

Lemma readAll_tracking (ps : list string) :
  forall st deps,
    currentTracking st = Some deps ->
    currentTracking (readAll ps st) =
    Some (fold_left (fun acc p => setAdd p acc)
            (filter isValidPath ps) deps).
Proof.
  unfold readAll.
  induction ps as [|p r IH]; intros st deps H; simpl; [exact H|].
  unfold getState at 2. destruct (isValidPath p) eqn:V; simpl.
  - rewrite H. apply IH. reflexivity.
  - apply IH. exact H.
Qed.

Lemma readAll_state (ps : list string) (st : store) :
  state (readAll ps st) = state st.
Proof.
  unfold readAll. revert st.
  induction ps as [|p r IH]; intros st; simpl; [reflexivity|].
  now rewrite IH, getState_state.
Qed.

(** X2.  Between [startTracking] and [endTracking] every read is recorded:
    [endTracking] returns the valid paths that were passed to [getState],
    each once, in the order of their first read; a read of an invalid path
    is not recorded.  Tracking is off afterwards and the state tree is as it
    was. *)
Theorem tracking_collects_reads (ps : list string) (st : store) :
  fst (endTracking (readAll ps (startTracking st))) =
    Str.dedup (filter isValidPath ps) /\
  currentTracking (snd (endTracking (readAll ps (startTracking st)))) = None /\
  state (snd (endTracking (readAll ps (startTracking st)))) = state st.
Proof.
  split; [|split].
  - unfold endTracking. cbn [fst].
    rewrite (readAll_tracking ps (startTracking st) []) by reflexivity.
    now rewrite fold_setAdd.
  - reflexivity.
  - unfold endTracking. cbn [snd]. cbn. now rewrite readAll_state.
Qed.

(** ** A callback is subscribed to what it reads *)

Lemma runMiddleware_tracking (mws : list middleware_t) (i : nat)
  (path : string) (o f c : value) (st : store) :
  currentTracking (snd (runMiddleware mws i path o f c st)) =
  currentTracking st.
Proof.
  revert i f st. induction mws as [|mw rest IH]; intros i f st; simpl;
    [reflexivity|].
  destruct (mw path o f c (state st)); now rewrite IH.
Qed.

Lemma silentWrite_tracking (p : string) (v c : value) (st : store)
  (deps : list string) :
  isValidPath p = true ->
  currentTracking st = Some deps ->
  currentTracking (silentWrite p v c st) = Some (setAdd p deps).
Proof.
  intros V H. unfold silentWrite, getState. rewrite V, H. cbn [negb].
  set (st1 := set_currentTracking _ st).
  pose proof (runMiddleware_tracking (middleware st1) 0 p
                (walk (getPathParts p) (VObj false (state st1)) VNull)
                v c st1) as T.
  destruct (runMiddleware _ _ _ _ _ _ st1) as [fv st2]. cbn [snd] in T.
  destruct (deepEquals _ fv); cbn; exact T.
Qed.

Lemma batchingActive_silent (st st' : store) :
  silent st st' -> batchingActive st' = batchingActive st.
Proof.
  intros [[] _ _]. unfold batchingActive. congruence.
Qed.

Lemma setState_tracking_grows (R : prog -> store -> outcome)
  (p : string) (v c : value) (st : store) (deps : list string) :
  isUpdating st = true ->
  batchingActive st = false ->
  currentTracking st = Some deps ->
  exists deps',
    currentTracking (fst (setState R p v c st)) = Some deps' /\
    forall x, Str.mem x deps = true -> Str.mem x deps' = true.
Proof.
  intros U B H. unfold setState.
  destruct (isValidPath p) eqn:V; cbn [negb].
  2:{ exists deps. split; [exact H | auto]. }
  unfold _hasCircularUpdate.
  destruct (Str.mem p (currentlyUpdating st)) eqn:C.
  { exists deps. split; [exact H | auto]. }
  fold (batchingActive st). rewrite B.
  rewrite (setStateImmediate_in_pass R p v c st U). cbn [fst].
  exists (setAdd p deps). split; [now apply silentWrite_tracking|].
  intros x. apply mem_setAdd_other.
Qed.

Lemma getState_tracking (path : string) (d : value) (st : store)
  (deps : list string) :
  currentTracking st = Some deps ->
  currentTracking (snd (getState path d st)) =
  Some (if isValidPath path then setAdd path deps else deps).
Proof.
  intros H. unfold getState. destruct (isValidPath path); cbn [negb snd].
  - now rewrite H.
  - exact H.
Qed.

Lemma run_tracking_grows (body : prog) :
  forall (st : store) (deps : list string),
    isUpdating st = true ->
    batchingActive st = false ->
    currentTracking st = Some deps ->
    exists deps',
      currentTracking (fst (run body st)) = Some deps' /\
      forall x, Str.mem x deps = true -> Str.mem x deps' = true.
Proof.
  induction body as [|msg|path d k IH|path v c k IH]; intros st deps U B H.
  - exists deps. now split.
  - exists deps. now split.
  - unfold run. cbn [runProg].
    pose proof (getState_silent path d st) as S.
    pose proof (getState_tracking path d st deps H) as T.
    destruct (getState path d st) as [x st1]. cbn [snd] in S, T.
    fold (run (k x) st1).
    destruct (IH x st1 _ (eq_trans (silent_isUpdating _ _ S) U)
                (eq_trans (batchingActive_silent _ _ S) B) T)
      as [deps' [E G]].
    exists deps'. split; [exact E|]. intros y Hy. apply G.
    destruct (isValidPath path); [now apply mem_setAdd_other | exact Hy].
  - unfold run. cbn [runProg].
    set (R := fun (_ : prog) (s : store) => (s, @None string)).
    destruct (setState_in_pass R R path v c st U) as [_ [N S]].
    destruct (setState_tracking_grows R path v c st deps U B H)
      as [deps1 [E1 G1]].
    destruct (setState R path v c st) as [st1 [e|]];
      cbn [fst snd] in *; [discriminate|].
    fold (run k st1).
    destruct (IH st1 deps1 (eq_trans (silent_isUpdating _ _ S) U)
                (eq_trans (batchingActive_silent _ _ S) B) E1)
      as [deps' [E G]].
    exists deps'. split; [exact E | auto].
Qed.

Lemma run_alwaysReads (q : string) (body : prog) :
  alwaysReads q body ->
  isValidPath q = true ->
  forall (st : store) (deps : list string),
    isUpdating st = true ->
    batchingActive st = false ->
    currentTracking st = Some deps ->
    exists deps',
      currentTracking (fst (run body st)) = Some deps' /\
      Str.mem q deps' = true.
Proof.
  intros A V. induction A as [d k|path d k _ IH|path v c k _ IH];
    intros st deps U B H.
  - unfold run. cbn [runProg].
    pose proof (getState_silent q d st) as S.
    pose proof (getState_tracking q d st deps H) as T. rewrite V in T.
    destruct (getState q d st) as [x st1]. cbn [snd] in S, T.
    fold (run (k x) st1).
    destruct (run_tracking_grows (k x) st1 _
                (eq_trans (silent_isUpdating _ _ S) U)
                (eq_trans (batchingActive_silent _ _ S) B) T)
      as [deps' [E G]].
    exists deps'. split; [exact E | apply G, mem_setAdd].
  - unfold run. cbn [runProg].
    pose proof (getState_silent path d st) as S.
    pose proof (getState_tracking path d st deps H) as T.
    destruct (getState path d st) as [x st1]. cbn [snd] in S, T.
    fold (run (k x) st1).
    exact (IH x st1 _ (eq_trans (silent_isUpdating _ _ S) U)
             (eq_trans (batchingActive_silent _ _ S) B) T).
  - unfold run. cbn [runProg].
    set (R := fun (_ : prog) (s : store) => (s, @None string)).
    destruct (setState_in_pass R R path v c st U) as [_ [N S]].
    destruct (setState_tracking_grows R path v c st deps U B H)
      as [deps1 [E1 _]].
    destruct (setState R path v c st) as [st1 [e|]];
      cbn [fst snd] in *; [discriminate|].
    fold (run k st1).
    exact (IH st1 deps1 (eq_trans (silent_isUpdating _ _ S) U)
             (eq_trans (batchingActive_silent _ _ S) B) E1).
Qed.

Lemma hasCallback_last (cb : icallback) (subs : list icallback) :
  hasCallback cb (subs ++ [cb]) = true.
Proof.
  unfold hasCallback. rewrite existsb_app. simpl.
  now rewrite Nat.eqb_refl, orb_true_r.
Qed.

Lemma subscribeInternal_here (q : string) (cb : icallback) (st : store) :
  hasCallback cb (internalAt q (subscribeInternal q cb st)) = true.
Proof.
  unfold internalAt, subscribeInternal. cbn [subscribers set_subscribers].
  rewrite mapGet_mapSet.
  set (subs := match mapGet q (subscribers st) with
               | Some s => s
               | None => []
               end).
  destruct (hasCallback cb subs) eqn:E; [exact E | apply hasCallback_last].
Qed.

Lemma subscribeInternal_keeps (q q' : string) (cb cb' : icallback)
  (st : store) :
  hasCallback cb' (internalAt q' st) = true ->
  hasCallback cb' (internalAt q' (subscribeInternal q cb st)) = true.
Proof.
  intros H. unfold internalAt, subscribeInternal.
  cbn [subscribers set_subscribers].
  destruct (String.eqb q' q) eqn:E.
  - apply String.eqb_eq in E. subst q'. rewrite mapGet_mapSet.
    unfold internalAt in H.
    set (subs := match mapGet q (subscribers st) with
                 | Some s => s
                 | None => []
                 end) in *.
    destruct (hasCallback cb subs); [exact H|].
    unfold hasCallback in *. rewrite existsb_app, H. reflexivity.
  - now rewrite (mapGet_mapSet_other q q' _ _ E).
Qed.

(** The loop over [newTracking] (lines 408-413). *)
Lemma resubscribe_subscribed (cb : icallback) (tracked : list string) :
  forall (st : store) (q : string),
    In q tracked \/ hasCallback cb (internalAt q st) = true ->
    hasCallback cb
      (internalAt q
         (fold_left
            (fun s newPath =>
               match mapGet newPath (subscribers s) with
               | Some existingSubs =>
                   if hasCallback cb existingSubs then s
                   else subscribeInternal newPath cb s
               | None => subscribeInternal newPath cb s
               end) tracked st)) = true.
Proof.
  induction tracked as [|x r IH]; intros st q H; simpl.
  - destruct H as [[]|H]. exact H.
  - apply IH.
    destruct (String.eqb_spec q x) as [->|N].
    + right. unfold internalAt at 1.
      destruct (mapGet x (subscribers st)) as [subs|] eqn:G.
      * destruct (hasCallback cb subs) eqn:E.
        -- unfold internalAt. now rewrite G.
        -- apply subscribeInternal_here.
      * apply subscribeInternal_here.
    + destruct H as [[H|H]|H]; [congruence | now left | right].
      destruct (mapGet x (subscribers st)) as [subs|] eqn:G.
      * destruct (hasCallback cb subs); [exact H|].
        now apply subscribeInternal_keeps.
      * now apply subscribeInternal_keeps.
Qed.

(** X3.  A reactive callback that returns normally is subscribed to every
    path it read: when the loop of [_triggerPathSubscribers] has run, inside
    a pass and with batching inactive, a callback whose body reads the valid
    path [q] on every run and never throws, the callback is registered at
    [q], so that a later change of [q] triggers it. *)
Theorem callback_subscribed_to_reads (st : store) (path q : string)
  (cb : icallback) :
  isUpdating st = true ->
  batchingActive st = false ->
  isValidPath q = true ->
  neverThrows (icb_run cb) ->
  alwaysReads q (icb_run cb) ->
  snd (triggerCallback run path cb st) = None /\
  hasCallback cb
    (internalAt q (fst (triggerCallback run path cb st))) = true.
Proof.
  intros U B V NT AR. unfold triggerCallback.
  set (st1 := emit _ (set_currentTracking (Some []) st)).
  assert (U1 : isUpdating st1 = true) by exact U.
  assert (B1 : batchingActive st1 = false) by exact B.
  destruct (run_alwaysReads q (icb_run cb) AR V st1 [] U1 B1 eq_refl)
    as [deps [E M]].
  pose proof (run_neverThrows (icb_run cb) st1 NT U1) as N.
  destruct (run (icb_run cb) st1) as [st2 [msg|]]; cbn [fst snd] in *;
    [discriminate|].
  split; [reflexivity|]. rewrite E.
  apply resubscribe_subscribed. left. now apply mem_In.
Qed.

Lemma callback_subscribed_to_reads_witness :
  let cb := {| icb_id := 1;
               icb_run := GetState "total" VNull (fun _ => Return) |} in
  let st := passStart "items" (VNum 1) (VObj false [])
              (subscribeInternal "items" cb (newStateManager [] [])) in
  snd (triggerCallback run "items" cb st) = None /\
  hasCallback cb
    (internalAt "total" (fst (triggerCallback run "items" cb st))) = true.
Proof.
  intros cb st. apply callback_subscribed_to_reads.
  - reflexivity.
  - reflexivity.
  - reflexivity.
  - apply nt_get. intros v. apply nt_return.
  - apply ar_here.
Defined.

(** ** Middleware *)

Lemma runMiddleware_apply (mws : list middleware_t) :
  forall (i : nat) (p : string) (o f c : value) (st : store),
    fst (runMiddleware mws i p o f c st) =
    applyMiddleware mws p o f c (state st).
Proof.
  induction mws as [|mw rest IH]; intros i p o f c st; simpl; [reflexivity|].
  destruct (mw p o f c (state st)); now rewrite IH.
Qed.

Lemma getState_middleware (p : string) (d : value) (st : store) :
  middleware (snd (getState p d st)) = middleware st.
Proof.
  unfold getState. destruct (negb (isValidPath p)); [reflexivity|].
  now destruct (currentTracking st).
Qed.

Lemma finalValueOf_apply (p : string) (v c : value) (st : store) :
  finalValueOf p v c st =
  applyMiddleware (middleware st) p (oldValueOf p st) v c (state st).
Proof.
  unfold finalValueOf, oldValueOf.
  pose proof (getState_state p VNull st) as S.
  pose proof (getState_middleware p VNull st) as M.
  destruct (getState p VNull st) as [o st1]. cbn [fst snd] in *.
  now rewrite runMiddleware_apply, S, M.
Qed.



(** ** Batches *)

Lemma pathGroups_keys (batch : list updateRec) :
  forall groups : list (string * updateRec),
    map fst (fold_left (fun g u => mapSet (upd_path u) u g) batch groups) =
    fold_left (fun acc p => setAdd p acc) (map upd_path batch)
      (map fst groups).
Proof.
  induction batch as [|u r IH]; intros groups; simpl; [reflexivity|].
  now rewrite IH, keys_mapSet.
Qed.

Lemma find_last {A : Type} (f : A -> bool) (l : list A) (x : A) :
  find f (l ++ [x]) =
  match find f l with
  | Some y => Some y
  | None => if f x then Some x else None
  end.
Proof.
  induction l as [|y r IH]; simpl; [reflexivity|].
  destruct (f y); [reflexivity | exact IH].
Qed.

Lemma pathGroups_get (p : string) (batch : list updateRec) :
  forall groups : list (string * updateRec),
    mapGet p (fold_left (fun g u => mapSet (upd_path u) u g) batch groups) =
    match find (fun u => String.eqb p (upd_path u)) (rev batch) with
    | Some u => Some u
    | None => mapGet p groups
    end.
Proof.
  induction batch as [|u r IH]; intros groups; simpl; [reflexivity|].
  rewrite IH, find_last.
  destruct (find _ (rev r)); [reflexivity|].
  destruct (String.eqb p (upd_path u)) eqn:E.
  - apply String.eqb_eq in E. subst p. apply mapGet_mapSet.
  - now apply mapGet_mapSet_other.
Qed.

Lemma dedupInto_NoDup (l : list string) :
  forall seen,
    NoDup (Str.dedupInto seen l) /\
    forall x, In x (Str.dedupInto seen l) -> Str.mem x seen = false.
Proof.
  induction l as [|x r IH]; intros seen; simpl.
  - split; [constructor | intros y []].
  - destruct (Str.mem x seen) eqn:E; [apply IH|].
    destruct (IH (x :: seen)) as [N D]. split.
    + constructor; [|exact N]. intros H. apply D in H. simpl in H.
      now rewrite String.eqb_refl in H.
    + intros y [<-|H]; [exact E|]. apply D in H. simpl in H.
      now apply orb_false_elim in H.
Qed.

(** X5.  A batch is applied one update per path: [pathGroups] holds each
    path of the batch once, in the order in which the paths first occur,
    and with each path the last update the batch has for it. *)
Theorem batch_groups_last_write (batch : list updateRec) :
  map fst (pathGroups batch) = Str.dedup (map upd_path batch) /\
  NoDup (map fst (pathGroups batch)) /\
  forall p,
    mapGet p (pathGroups batch) =
    find (fun u => String.eqb p (upd_path u)) (rev batch).
Proof.
  assert (K : map fst (pathGroups batch) = Str.dedup (map upd_path batch)).
  { unfold pathGroups. now rewrite pathGroups_keys, fold_setAdd. }
  split; [exact K|]. split.
  - rewrite K. apply dedupInto_NoDup.
  - intros p. unfold pathGroups. rewrite pathGroups_get.
    now destruct (find _ (rev batch)).
Qed.

(** ** A flush takes the front of the queue *)

Lemma flushing_getState (q0 : list updateRec) (p : string) (d : value)
  (st : store) :
  flushing q0 st -> flushing q0 (snd (getState p d st)).
Proof.
  intros H. unfold getState. destruct (negb (isValidPath p)); [exact H|].
  destruct (currentTracking st); exact H.
Qed.

Lemma flushing_runMiddleware (q0 : list updateRec)
  (mws : list middleware_t) :
  forall (i : nat) (p : string) (o f c : value) (st : store),
    flushing q0 st -> flushing q0 (snd (runMiddleware mws i p o f c st)).
Proof.
  induction mws as [|mw rest IH]; intros i p o f c st H; simpl; [exact H|].
  destruct (mw p o f c (state st)); apply IH; exact H.
Qed.

Lemma flushing_silentWrite (q0 : list updateRec) (p : string)
  (v c : value) (st : store) :
  flushing q0 st -> flushing q0 (silentWrite p v c st).
Proof.
  intros H. unfold silentWrite.
  pose proof (flushing_getState q0 p VNull st H) as H1.
  destruct (getState p VNull st) as [o st1]. cbn [snd] in H1.
  pose proof (flushing_runMiddleware q0 (middleware st1) 0 p o v c st1 H1)
    as H2.
  destruct (runMiddleware _ _ _ _ _ _ st1) as [fv st2]. cbn [snd] in H2.
  destruct (deepEquals o fv); exact H2.
Qed.

Lemma flushing_queueUpdate (q0 : list updateRec)
  (R : prog -> store -> outcome) (p : string) (v c : value) (st : store) :
  flushing q0 st -> flushing q0 (_queueUpdate R p v c st).
Proof.
  intros [F [extra E]]. unfold _queueUpdate.
  set (u := {| upd_path := p; upd_value := v; upd_context := c |}).
  set (st1 := set_updateQueue (updateQueue st ++ [u]) st).
  assert (H1 : flushing q0 st1).
  { split; [exact F|]. exists (extra ++ [u]). cbn. now rewrite E, app_assoc. }
  destruct (_ >? _)%Z.
  - unfold _processBatchedUpdates.
    cbn [batchUpdateInProgress emit]. destruct H1 as [F1 E1].
    rewrite F1. cbn [orb]. split; [exact F1 | exact E1].
  - destruct (batchTimeout st1); exact H1.
Qed.

Lemma flushing_setState_in_pass (q0 : list updateRec)
  (R : prog -> store -> outcome) (p : string) (v c : value) (st : store) :
  isUpdating st = true ->
  flushing q0 st -> flushing q0 (fst (setState R p v c st)).
Proof.
  intros U H. unfold setState.
  destruct (negb (isValidPath p)); [exact H|].
  unfold _hasCircularUpdate.
  destruct (Str.mem p (currentlyUpdating st)); [exact H|].
  destruct (_ && _).
  - now apply flushing_queueUpdate.
  - rewrite (setStateImmediate_in_pass R p v c st U).
    now apply flushing_silentWrite.
Qed.

Lemma flushing_run (q0 : list updateRec) (body : prog) :
  forall st,
    flushing q0 st -> isUpdating st = true ->
    flushing q0 (fst (run body st)).
Proof.
  induction body as [|msg|path d k IH|path v c k IH]; intros st H U.
  - exact H.
  - exact H.
  - unfold run. cbn [runProg].
    pose proof (getState_silent path d st) as S.
    pose proof (flushing_getState q0 path d st H) as H1.
    destruct (getState path d st) as [x st1]. cbn [snd] in S, H1.
    apply IH; [exact H1 | exact (eq_trans (silent_isUpdating _ _ S) U)].
  - unfold run. cbn [runProg].
    set (R := fun (_ : prog) (s : store) => (s, @None string)).
    destruct (setState_in_pass R R path v c st U) as [_ [N S]].
    pose proof (flushing_setState_in_pass q0 R path v c st U H) as H1.
    destruct (setState R path v c st) as [st1 [e|]];
      cbn [fst snd] in *; [discriminate|].
    apply IH; [exact H1 | exact (eq_trans (silent_isUpdating _ _ S) U)].
Qed.

Lemma flushing_setStateImmediate (q0 : list updateRec) (p : string)
  (v c : value) (st : store) :
  flushing q0 st -> flushing q0 (fst (_setStateImmediate run p v c st)).
Proof.
  intros H. rewrite setStateImmediate_unfold.
  pose proof (flushing_silentWrite q0 p v c st H) as HW.
  destruct (deepEquals _ _); [exact HW|].
  destruct (isUpdating st) eqn:U; cbn [negb]; [exact HW|].
  set (T := fun _ : prog => True).
  assert (Jrun : forall body s, T body \/ T body -> flushing q0 s ->
                   isUpdating s = true -> flushing q0 (fst (run body s))).
  { intros body s _ Hs Us. now apply flushing_run. }
  assert (Jemit : forall e s, flushing q0 s -> flushing q0 (emit e s))
    by (intros e s Hs; exact Hs).
  assert (Jtr : forall x s, flushing q0 s ->
                  flushing q0 (set_currentTracking x s))
    by (intros x s Hs; exact Hs).
  assert (Jsub : forall x s, flushing q0 s ->
                   flushing q0 (set_subscribers x s))
    by (intros x s Hs; exact Hs).
  assert (I0 : passInv T T (flushing q0) (passStart p v c st)).
  { split; [reflexivity|]. split; [exact HW|]. split.
    - intros ? ? ? _ _. exact Logic.I.
    - intros ? ? ? ? ? ? _ _. exact Logic.I. }
  pose proof (notifySubscribers_inv T T (flushing q0) Jrun Jemit Jtr Jsub
                p _ I0) as I1.
  destruct (_notifySubscribers run p (passStart p v c st)) as [st5 [e|]];
    cbn [fst] in *.
  - destruct I1 as (_ & J1 & _). exact J1.
  - pose proof (notifyExternalSubscribers_inv T T (flushing q0) Jrun Jemit
                  p (finalValueOf p v c st) (oldValueOf p st) st5 I1)
      as (_ & J2 & _).
    exact J2.
Qed.

Lemma flushing_forEach (q0 : list updateRec) (l : list updateRec) :
  forall st,
    flushing q0 st ->
    flushing q0
      (fst (forEach
              (fun u s =>
                 _setStateImmediate run (upd_path u) (upd_value u)
                   (upd_context u) s) l st)).
Proof.
  induction l as [|u r IH]; intros st H; simpl; [exact H|].
  pose proof (flushing_setStateImmediate q0 (upd_path u) (upd_value u)
                (upd_context u) st H) as H1.
  destruct (_setStateImmediate run _ _ _ st) as [st1 [e|]]; cbn [fst] in *;
    [exact H1 | now apply IH].
Qed.

(** X6.  A flush takes the first min(maxBatchSize, queue length) updates
    off the queue and applies them; what the callbacks queue meanwhile goes
    behind the rest, and a nested flush does nothing.  When it ends the
    flag [batchUpdateInProgress] is down again, whether or not a callback
    threw, and if the queue is not empty a timer for the next flush is
    pending. *)
Theorem flush_takes_front_of_queue (st : store) :
  batchUpdateInProgress st = false ->
  updateQueue st <> [] ->
  let st' := _processBatchedUpdates run st in
  batchUpdateInProgress st' = false /\
  (exists extra,
     updateQueue st' = skipn (batchSizeOf st) (updateQueue st) ++ extra) /\
  (updateQueue st' <> [] -> In (pred (nextId st')) (timers st')) /\
  (forall s, batchUpdateInProgress s = true ->
     _processBatchedUpdates run s = s).
Proof.
  intros F NE st'.
  assert (Nested : forall s, batchUpdateInProgress s = true ->
                     _processBatchedUpdates run s = s).
  { intros s Hs. unfold _processBatchedUpdates. now rewrite Hs. }
  subst st'. unfold _processBatchedUpdates. rewrite F. cbn [orb].
  destruct (updateQueue st) as [|u0 q] eqn:Q; [congruence|].
  cbn [List.length Nat.eqb].
  set (st1 := set_batchUpdateInProgress true st).
  set (st2 := match batchTimeout st1 with
              | Some t => set_batchTimeout None (clearTimeout t st1)
              | None => st1
              end).
  assert (Q2 : updateQueue st2 = updateQueue st).
  { unfold st2. now destruct (batchTimeout st1). }
  assert (M2 : maxBatchSize st2 = maxBatchSize st).
  { unfold st2. now destruct (batchTimeout st1). }
  assert (F2 : batchUpdateInProgress st2 = true).
  { unfold st2. now destruct (batchTimeout st1). }
  rewrite Q2, M2, Q. fold (batchSizeOf st) in *.
  assert (K : Z.to_nat (Z.min (maxBatchSize st)
                (Z.of_nat (List.length (u0 :: q)))) = batchSizeOf st).
  { unfold batchSizeOf. now rewrite Q. }
  rewrite K.
  set (k := batchSizeOf st).
  set (st3 := set_updateQueue (skipn k (u0 :: q)) st2).
  assert (H3 : flushing (skipn k (u0 :: q)) st3).
  { split; [exact F2|]. exists []. cbn. now rewrite app_nil_r. }
  pose proof (flushing_forEach (skipn k (u0 :: q))
                (map snd (pathGroups (firstn k (u0 :: q)))) st3 H3) as H4.
  destruct (forEach _ (map snd (pathGroups (firstn k (u0 :: q)))) st3)
    as [st4 r]. cbn [fst] in H4. destruct H4 as [_ [extra E4]].
  set (st5 := match r with
              | Some msg => emit (Error _) st4
              | None => emit (Log _) st4
              end).
  assert (E5 : updateQueue st5 = skipn k (u0 :: q) ++ extra).
  { unfold st5. now destruct r. }
  replace (match r with
           | Some msg =>
               emit (Error ("Error processing batched updates: " +++ msg))
                 st4
           | None => _
           end) with st5 by (unfold st5; now destruct r).
  set (st6 := set_batchUpdateInProgress false st5).
  assert (E6 : updateQueue st6 = skipn k (u0 :: q) ++ extra) by exact E5.
  destruct (0 <? List.length (updateQueue st6))%nat eqn:L.
  - split; [reflexivity|]. split; [now exists extra|]. split; [|exact Nested].
    intros _. cbn. apply in_or_app. right. now left.
  - split; [reflexivity|]. split; [now exists extra|]. split; [|exact Nested].
    intros NE'. destruct (updateQueue st6); [congruence | discriminate].
Qed.

Lemma flush_takes_front_of_queue_witness :
  let st := setThrice VNull VNull VNull
              (configureBatching (Some 2%Z) (Some 10%Z) None
                 (newStateManager [] [])) in
  batchUpdateInProgress (_processBatchedUpdates run st) = false /\
  exists extra,
    updateQueue (_processBatchedUpdates run st) =
    skipn (batchSizeOf st) (updateQueue st) ++ extra.
Proof.
  intros st.
  assert (F : batchUpdateInProgress st = false) by reflexivity.
  assert (NE : updateQueue st <> []) by (vm_compute; discriminate).
  destruct (flush_takes_front_of_queue st F NE) as [A [B _]].
  split; [exact A | exact B].
Defined.

(** ** The reactive callbacks of a path *)

(** X7.  [_triggerPathSubscribers], called inside a pass, calls every
    reactive callback that is registered at the path when it starts, once
    each and in the order of registration, provided none of them throws;
    callbacks that are registered while it runs are not called by it. *)
Theorem path_callbacks_called_in_order (st : store) (path : string) :
  isUpdating st = true ->
  (forall cb, In cb (internalAt path st) -> neverThrows (icb_run cb)) ->
  snd (_triggerPathSubscribers run path st) = None /\
  exists l,
    traced st (fst (_triggerPathSubscribers run path st)) l /\
    calls l = map (internalCall path) (internalAt path st).
Proof.
  intros U NT. unfold _triggerPathSubscribers, internalAt in *.
  destruct (mapGet path (subscribers st)) as [subs|].
  - destruct (triggerCallbacks_calls path subs st U NT) as [N [_ H]].
    now split.
  - split; [reflexivity|]. exists []. split;
      [apply traced_refl | reflexivity].
Qed.

Lemma path_callbacks_called_in_order_witness :
  let a := {| icb_id := 1; icb_run := Return |} in
  let b := {| icb_id := 2;
              icb_run := GetState "y" VNull (fun _ => Return) |} in
  let st := passStart "x" (VNum 1) (VObj false [])
              (subscribeInternal "x" b
                 (subscribeInternal "x" a (newStateManager [] []))) in
  snd (_triggerPathSubscribers run "x" st) = None /\
  exists l,
    traced st (fst (_triggerPathSubscribers run "x" st)) l /\
    calls l = map (internalCall "x") (internalAt "x" st).
Proof.
  intros a b st. apply path_callbacks_called_in_order.
  - reflexivity.
  - intros cb H. cbn in H. destruct H as [<-|[<-|[]]].
    + apply nt_return.
    + apply nt_get. intros v. apply nt_return.
Defined.

(** ** A reactive callback that throws *)

Lemma passStart_subscribers (p : string) (v c : value) (st : store) :
  subscribers (passStart p v c st) = subscribers st.
Proof.
  unfold passStart. cbn [subscribers set_currentlyUpdating set_isUpdating].
  apply (si_subscribers _ _ (silentWrite_silent p v c st)).
Qed.




(** ** Subscribing and unsubscribing a reactive callback *)

Lemma mapGet_mapDelete_other {A : Type} (k k' : string)
  (m : list (string * A)) :
  String.eqb k' k = false -> mapGet k' (mapDelete k m) = mapGet k' m.
Proof.
  intros H. unfold mapDelete. induction m as [|[x b] r IH]; simpl;
    [reflexivity|].
  destruct (String.eqb k x) eqn:E; simpl.
  - apply String.eqb_eq in E. subst x. now rewrite H.
  - destruct (String.eqb k' x); [reflexivity | exact IH].
Qed.

Lemma mapGet_mapDelete {A : Type} (k : string) (m : list (string * A)) :
  mapGet k (mapDelete k m) = None.
Proof.
  unfold mapDelete. induction m as [|[x b] r IH]; simpl; [reflexivity|].
  destruct (String.eqb k x) eqn:E; simpl; [exact IH|].
  now rewrite E.
Qed.

Lemma mapDelete_absent {A : Type} (k : string) (m : list (string * A)) :
  mapGet k m = None -> mapDelete k m = m.
Proof.
  unfold mapDelete. induction m as [|[x b] r IH]; simpl; [reflexivity|].
  destruct (String.eqb k x); [discriminate|].
  intros H. simpl. now rewrite IH.
Qed.

Lemma mapDelete_mapSet_absent {A : Type} (k : string) (a : A)
  (m : list (string * A)) :
  mapGet k m = None -> mapDelete k (mapSet k a m) = m.
Proof.
  intros H. rewrite mapDelete_mapSet. now apply mapDelete_absent.
Qed.

Lemma filter_other_callbacks (cb : icallback) (subs : list icallback) :
  hasCallback cb subs = false ->
  filter (fun c => negb (Nat.eqb (icb_id c) (icb_id cb))) (subs ++ [cb]) =
  subs.
Proof.
  unfold hasCallback. intros H. rewrite filter_app. simpl.
  rewrite Nat.eqb_refl. simpl. rewrite app_nil_r.
  induction subs as [|x r IH]; simpl in *; [reflexivity|].
  apply orb_false_elim in H. destruct H as [H1 H2].
  rewrite H1. simpl. now rewrite IH.
Qed.

Lemma set_subscribers_same (st : store) :
  set_subscribers (subscribers st) st = st.
Proof. now destruct st. Qed.

(** X9.  The callbacks of a path are a set: subscribing one that is
    already there changes nothing.  The function [subscribeInternal]
    returns undoes the subscription: after it the callbacks registered at
    every path are the ones registered before, and a path that had no entry
    has none again. *)
Theorem subscribeInternal_round_trip (st : store) (p : string)
  (cb : icallback) :
  subscribeInternal p cb (subscribeInternal p cb st) =
    subscribeInternal p cb st /\
  (hasCallback cb (internalAt p st) = false ->
   forall q,
     internalAt q (unsubscribeInternal p cb (subscribeInternal p cb st)) =
     internalAt q st) /\
  (mapGet p (subscribers st) = None ->
   unsubscribeInternal p cb (subscribeInternal p cb st) = st).
Proof.
  split; [|split].
  - unfold subscribeInternal at 1 3.
    set (st1 := subscribeInternal p cb st).
    assert (H : hasCallback cb (internalAt p st1) = true)
      by apply subscribeInternal_here.
    unfold internalAt in H. rewrite H.
    subst st1. unfold subscribeInternal in *.
    cbn [subscribers set_subscribers] in *.
    rewrite mapGet_mapSet in *. rewrite mapSet_mapSet. reflexivity.
  - intros H q. unfold internalAt in H.
    unfold unsubscribeInternal, subscribeInternal.
    cbn [subscribers set_subscribers]. rewrite mapGet_mapSet.
    set (subs := match mapGet p (subscribers st) with
                 | Some s => s
                 | None => []
                 end) in *.
    rewrite H, (filter_other_callbacks cb subs H).
    unfold internalAt.
    destruct (String.eqb q p) eqn:E.
    + apply String.eqb_eq in E. subst q. fold subs.
      destruct subs as [|x r] eqn:S; cbn [subscribers set_subscribers].
      * now rewrite mapGet_mapDelete.
      * now rewrite mapSet_mapSet, mapGet_mapSet.
    + destruct subs as [|x r]; cbn [subscribers set_subscribers].
      * now rewrite (mapGet_mapDelete_other p q _ E),
          (mapGet_mapSet_other p q _ _ E).
      * now rewrite mapSet_mapSet, (mapGet_mapSet_other p q _ _ E).
  - intros H. unfold unsubscribeInternal, subscribeInternal.
    cbn [subscribers set_subscribers]. rewrite mapGet_mapSet, H.
    cbn [hasCallback existsb app filter].
    rewrite Nat.eqb_refl. cbn [negb].
    cbn [subscribers set_subscribers].
    rewrite (mapDelete_mapSet_absent p [cb] (subscribers st) H).
    destruct st. reflexivity.
Qed.

Lemma subscribeInternal_round_trip_witness :
  let cb := {| icb_id := 3; icb_run := Return |} in
  let st := subscribeInternal "b" {| icb_id := 1; icb_run := Return |}
              (newStateManager [] []) in
  unsubscribeInternal "a" cb (subscribeInternal "a" cb st) = st.
Proof.
  intros cb st.
  apply (proj2 (proj2 (subscribeInternal_round_trip st "a" cb))).
  reflexivity.
Defined.

(** ** Deep equality *)

Lemma eachEntry_spec (propsB l : props_t) :
  eachEntry propsB l = true <->
  forall k va, In (k, va) l ->
    exists vb, lookup k propsB = Some vb /\ deepEquals va vb = true.
Proof.
  induction l as [|[k va] r IH]; simpl.
  - split; [intros _ k va [] | reflexivity].
  - split.
    + intros H k' va' [E|Hin].
      * inversion E; subst k' va'.
        destruct (lookup k propsB) as [vb|]; [|discriminate].
        exists vb. split; [reflexivity|].
        now destruct (deepEquals va vb).
      * apply IH; [|exact Hin].
        destruct (lookup k propsB) as [vb|]; [|discriminate].
        now destruct (deepEquals va vb).
    + intros H. destruct (H k va (or_introl eq_refl)) as [vb [L D]].
      rewrite L, D. apply IH. intros k' va' Hin. apply H. now right.
Qed.

Lemma lookup_In (k : string) (v : value) (props : props_t) :
  lookup k props = Some v -> In (k, v) props.
Proof.
  induction props as [|[x w] r IH]; simpl; [discriminate|].
  destruct (String.eqb_spec k x) as [->|N].
  - intros E. inversion E. now left.
  - intros E. right. now apply IH.
Qed.

Lemma deepEquals_sym_imp (a : value) :
  forall b,
    distinctKeys a -> distinctKeys b ->
    deepEquals a b = true -> deepEquals b a = true.
Proof.
  induction a as [| |x|x|x|arr props IH] using value_ind'; intros b Da Db H.
  - destruct b; simpl in H; try discriminate; reflexivity.
  - destruct b; simpl in H; try discriminate; reflexivity.
  - destruct b as [| |y| | |]; simpl in H; try discriminate.
    destruct (Bool.eqb x y) eqn:E; [|discriminate].
    apply Bool.eqb_prop in E. subst y. simpl. now rewrite Bool.eqb_reflx.
  - destruct b as [| | |y| |]; simpl in H; try discriminate.
    destruct (Z.eqb x y) eqn:E; [|discriminate].
    apply Z.eqb_eq in E. subst y. simpl. now rewrite Z.eqb_refl.
  - destruct b as [| | | |y|]; simpl in H; try discriminate.
    destruct (String.eqb x y) eqn:E; [|discriminate].
    apply String.eqb_eq in E. subst y. simpl. now rewrite String.eqb_refl.
  - destruct b as [| | | | |arrB propsB]; try discriminate.
    rewrite deepEquals_obj in *.
    apply andb_true_iff in H. destruct H as [H E].
    apply andb_true_iff in H. destruct H as [A L].
    apply Bool.eqb_prop in A. subst arrB. apply Nat.eqb_eq in L.
    rewrite Bool.eqb_reflx, <- L, Nat.eqb_refl. cbn [andb].
    destruct (distinctKeys_entries arr props Da) as [Na Ea].
    destruct (distinctKeys_entries arr propsB Db) as [Nb Eb].
    pose proof (proj1 (eachEntry_spec propsB props) E) as F.
    assert (Incl : incl (map fst propsB) (map fst props)).
    { apply NoDup_length_incl; [exact Na | |].
      - rewrite !length_map. now rewrite L.
      - intros k Hk. apply in_map_iff in Hk.
        destruct Hk as [[k' va] [<- Hin]].
        destruct (F k' va Hin) as [vb [Lb _]].
        apply lookup_In in Lb. apply in_map_iff. now exists (k', vb). }
    apply eachEntry_spec. intros k vb Hb.
    assert (Hk : In k (map fst props)).
    { apply Incl, in_map_iff. now exists (k, vb). }
    apply in_map_iff in Hk. destruct Hk as [[k' va] [Ek Ha]].
    cbn [fst] in Ek. subst k'.
    exists va. split; [now apply lookup_NoDup|].
    destruct (F k va Ha) as [vb' [Lb D]].
    rewrite (lookup_NoDup k vb propsB Nb Hb) in Lb. inversion Lb. subst vb'.
    rewrite Forall_forall in IH.
    exact (IH (k, va) Ha vb (Ea k va Ha) (Eb k vb Hb) D).
Qed.

(** X10.  [deepEquals] does not depend on which side a value is on: for
    values whose objects have distinct keys, as JavaScript objects do,
    [deepEquals a b] and [deepEquals b a] agree.  The loop looks only at the
    keys of [a]; with as many keys on both sides every key of [b] is then a
    key of [a].  So a write is skipped exactly when the old value is
    deep-equal to the new one, read either way, and the order of the keys
    plays no part. *)
Theorem deepEquals_sym (a b : value) :
  distinctKeys a -> distinctKeys b -> deepEquals a b = deepEquals b a.
Proof.
  intros Da Db.
  destruct (deepEquals a b) eqn:E1, (deepEquals b a) eqn:E2; try reflexivity.
  - now rewrite (deepEquals_sym_imp a b Da Db E1) in E2.
  - now rewrite (deepEquals_sym_imp b a Db Da E2) in E1.
Qed.

Lemma deepEquals_sym_witness :
  deepEquals (VObj false [("a", VNum 1); ("b", VObj true [("0", VStr "x")])])
             (VObj false [("b", VObj true [("0", VStr "x")]); ("a", VNum 1)])
  =
  deepEquals (VObj false [("b", VObj true [("0", VStr "x")]); ("a", VNum 1)])
             (VObj false [("a", VNum 1); ("b", VObj true [("0", VStr "x")])]).
Proof.
  apply deepEquals_sym.
  - simpl. repeat split; repeat constructor; simpl; intuition discriminate.
  - simpl. repeat split; repeat constructor; simpl; intuition discriminate.
Defined.

(** ** Unsubscribing leaves the other subscriptions alone *)

Lemma unsubscribe_same_fields (p : string) (h : nat) (st : store) :
  state (unsubscribe p h st) = state st /\
  middleware (unsubscribe p h st) = middleware st /\
  currentlyUpdating (unsubscribe p h st) = currentlyUpdating st.
Proof.
  unfold unsubscribe.
  destruct (mapGet p (externalSubscribers st)) as [subs|]; [|now repeat split].
  destruct (filter _ subs); now repeat split.
Qed.

Lemma count_filtered_subs (h h' : nat) (q sp : string) (nv ov : value)
  (subs : list subscription) :
  h' <> h ->
  countCalls h'
    (flat_map
       (fun sub =>
          if shouldNotify (sub_hierarchical sub) q sp
          then [CallExternal sp (sub_id sub) nv ov q] else [])
       (filter (fun s => negb (Nat.eqb (sub_id s) h)) subs)) =
  countCalls h'
    (flat_map
       (fun sub =>
          if shouldNotify (sub_hierarchical sub) q sp
          then [CallExternal sp (sub_id sub) nv ov q] else []) subs).
Proof.
  intros N. induction subs as [|s r IH]; [reflexivity|].
  cbn [filter flat_map]. destruct (Nat.eqb_spec (sub_id s) h) as [E|E];
    cbn [negb].
  - rewrite countCalls_app, IH.
    destruct (shouldNotify _ _ _); [|reflexivity].
    unfold countCalls at 2. cbn.
    destruct (Nat.eqb_spec h' (sub_id s)); [congruence | reflexivity].
  - cbn [flat_map]. now rewrite !countCalls_app, IH.
Qed.

Lemma externalCalls_cons (q : string) (nv ov : value) (sp : string)
  (subs : list subscription) (r : list (string * list subscription)) :
  externalCalls q nv ov ((sp, subs) :: r) =
  flat_map
    (fun sub =>
       if shouldNotify (sub_hierarchical sub) q sp
       then [CallExternal sp (sub_id sub) nv ov q] else []) subs ++
  externalCalls q nv ov r.
Proof. reflexivity. Qed.

Lemma mapGet_absent {A : Type} (k : string) (m : list (string * A)) :
  ~ In k (map fst m) -> mapGet k m = None.
Proof.
  induction m as [|[x a] r IH]; simpl; [reflexivity|]. intros H.
  destruct (String.eqb_spec k x) as [->|N]; [elim H; now left|].
  apply IH. intros Hin. apply H. now right.
Qed.

Lemma count_unsubscribed (h h' : nat) (p q : string) (nv ov : value)
  (ext : list (string * list subscription)) (subs : list subscription) :
  h' <> h ->
  NoDup (map fst ext) ->
  mapGet p ext = Some subs ->
  countCalls h'
    (externalCalls q nv ov
       (match filter (fun s => negb (Nat.eqb (sub_id s) h)) subs with
        | [] => mapDelete p ext
        | _ :: _ =>
            mapSet p (filter (fun s => negb (Nat.eqb (sub_id s) h)) subs) ext
        end)) =
  countCalls h' (externalCalls q nv ov ext).
Proof.
  intros N. induction ext as [|[sp ss] r IH]; intros ND G; [discriminate|].
  cbn [map fst] in ND. inversion ND as [|? ? Hnot ND']; subst.
  cbn [mapGet] in G.
  assert (F := count_filtered_subs h h' q sp nv ov ss N).
  destruct (String.eqb_spec p sp) as [->|Np].
  - inversion G; subst ss.
    destruct (filter (fun s => negb (Nat.eqb (sub_id s) h)) subs) eqn:Fl.
    + unfold mapDelete. cbn [filter fst]. rewrite String.eqb_refl.
      cbn [negb]. fold (mapDelete sp r).
      rewrite (mapDelete_absent sp r (mapGet_absent sp r Hnot)).
      rewrite externalCalls_cons, countCalls_app, <- F. reflexivity.
    + cbn [mapSet]. rewrite String.eqb_refl.
      rewrite !externalCalls_cons, !countCalls_app, <- F. reflexivity.
  - specialize (IH ND' G).
    destruct (filter (fun s => negb (Nat.eqb (sub_id s) h)) subs) eqn:Fl.
    + unfold mapDelete in *. cbn [filter fst].
      destruct (String.eqb_spec p sp); [congruence|]. cbn [negb].
      rewrite !externalCalls_cons, !countCalls_app. now rewrite IH.
    + cbn [mapSet]. destruct (String.eqb_spec p sp); [congruence|].
      rewrite !externalCalls_cons, !countCalls_app. now rewrite IH.
Qed.

(** X11.  The function that [subscribe] returns removes its own
    subscription and nothing else.  At its path the other subscriptions
    stay, in their order; the subscriptions of every other path are as they
    were; and a later [setState] calls every other subscriber exactly as
    often as it would have without the unsubscribing.  The callbacks read
    and write the store and do not subscribe or unsubscribe ([prog]). *)
Theorem unsubscribe_leaves_others (st : store) (p : string) (h : nat) :
  batchingActive st = false ->
  isUpdating st = false ->
  internalBodies neverThrows st ->
  NoDup (map fst (externalSubscribers st)) ->
  (forall q,
     externalAt q (unsubscribe p h st) =
     if String.eqb q p
     then filter (fun s => negb (Nat.eqb (sub_id s) h)) (externalAt q st)
     else externalAt q st) /\
  (forall h' q v c,
     h' <> h ->
     countCalls h'
       (newEvents (unsubscribe p h st)
          (fst (setState run q v c (unsubscribe p h st)))) =
     countCalls h' (newEvents st (fst (setState run q v c st)))).
Proof.
  intros B U HI ND. split.
  - intros q. unfold externalAt, unsubscribe.
    destruct (String.eqb_spec q p) as [->|N].
    + destruct (mapGet p (externalSubscribers st)) as [subs|] eqn:G.
      * destruct (filter _ subs) eqn:F;
          cbn [externalSubscribers set_externalSubscribers].
        -- now rewrite mapGet_mapDelete.
        -- now rewrite mapGet_mapSet.
      * now rewrite G.
    + assert (E : String.eqb q p = false) by now apply String.eqb_neq.
      destruct (mapGet p (externalSubscribers st)) as [subs|]; [|reflexivity].
      destruct (filter _ subs);
        cbn [externalSubscribers set_externalSubscribers].
      * now rewrite (mapGet_mapDelete_other p q _ E).
      * now rewrite (mapGet_mapSet_other p q _ _ E).
  - intros h' q v c N.
    destruct (unsubscribe_fields p h st) as [B' [U' S']].
    destruct (unsubscribe_same_fields p h st) as [St [Mw Cu]].
    assert (HI' : internalBodies neverThrows (unsubscribe p h st)).
    { intros path subs cb Hin. rewrite S' in Hin. now apply (HI path subs). }
    rewrite (setState_countCalls (unsubscribe p h st) q v c h'
               (eq_trans B' B) (eq_trans U' U) HI').
    rewrite (setState_countCalls st q v c h' B U HI).
    assert (O : oldValueOf q (unsubscribe p h st) = oldValueOf q st).
    { unfold oldValueOf. now apply getState_reads_state. }
    assert (Fv : finalValueOf q v c (unsubscribe p h st) =
                 finalValueOf q v c st).
    { now rewrite !finalValueOf_apply, O, Mw, St. }
    rewrite O, Fv, Cu.
    destruct (_ && _); [|reflexivity].
    unfold unsubscribe.
    destruct (mapGet p (externalSubscribers st)) as [subs|] eqn:G;
      [|reflexivity].
    pose proof (count_unsubscribed h h' p q (finalValueOf q v c st)
                  (oldValueOf q st) (externalSubscribers st) subs N ND G)
      as C.
    destruct (filter _ subs); exact C.
Qed.

Lemma unsubscribe_leaves_others_witness :
  let st1 := snd (subscribe "a" (fun _ _ _ => Return) true
                    (newStateManager [] [])) in
  let st2 := snd (subscribe "a" (fun _ _ _ => Return) false st1) in
  countCalls 1
    (newEvents (unsubscribe "a" 0 st2)
       (fst (setState run "a" (VNum 1) (VObj false [])
               (unsubscribe "a" 0 st2)))) =
  countCalls 1
    (newEvents st2 (fst (setState run "a" (VNum 1) (VObj false []) st2))).
Proof.
  intros st1 st2.
  refine (proj2 (unsubscribe_leaves_others st2 "a" 0 _ _ _ _) 1 "a" (VNum 1)
            (VObj false []) _).
  - reflexivity.
  - reflexivity.
  - intros path subs cb H. destruct H.
  - cbn. repeat constructor. intros H. destruct H.
  - discriminate.
Defined.

(** ** Resetting the state *)

Lemma run_readsOnly (body : prog) :
  readsOnly body -> forall st, state (fst (run body st)) = state st.
Proof.
  induction 1 as [|msg|path d k _ IH]; intros st; try reflexivity.
  unfold run. cbn [runProg].
  pose proof (getState_state path d st) as S.
  destruct (getState path d st) as [x st1]. cbn [snd] in S.
  fold (run (k x) st1). now rewrite IH.
Qed.

Lemma setDelete_setAdd (p : string) (l : list string) :
  Str.mem p l = false -> setDelete p (setAdd p l) = l.
Proof.
  intros H. unfold setAdd, setDelete. rewrite H, filter_app. simpl.
  rewrite String.eqb_refl. simpl. rewrite app_nil_r.
  induction l as [|x r IH]; simpl in *; [reflexivity|].
  apply orb_false_elim in H. destruct H as [H1 H2].
  rewrite H1. simpl. now rewrite IH.
Qed.

Lemma frame_batchingActive (st st' : store) :
  frame st st' -> batchingActive st' = batchingActive st.
Proof. intros []. unfold batchingActive. congruence. Qed.

(** A [setState] issued outside any pass, with batching inactive and
    callbacks that only read and, the reactive ones, do not throw: it
    returns with the store outside the pass again, the tree as the write
    left it, and callbacks of the same kind. *)
Lemma setState_top_level (st : store) (p : string) (v c : value) :
  isValidPath p = true ->
  isUpdating st = false ->
  batchingActive st = false ->
  Str.mem p (currentlyUpdating st) = false ->
  internalBodies (fun b => neverThrows b /\ readsOnly b) st ->
  externalBodies readsOnly st ->
  let st' := fst (setState run p v c st) in
  snd (setState run p v c st) = None /\
  state st' = state (silentWrite p v c st) /\
  isUpdating st' = false /\
  batchingActive st' = false /\
  currentlyUpdating st' = currentlyUpdating st /\
  middleware st' = middleware st /\
  internalBodies (fun b => neverThrows b /\ readsOnly b) st' /\
  externalBodies readsOnly st'.
Proof.
  intros V U B C HI HE st'. subst st'.
  rewrite (setState_immediate run p v c st V C B), setStateImmediate_unfold.
  pose proof (silentWrite_silent p v c st) as [F Su _].
  destruct (deepEquals _ _).
  { cbn [fst snd].
    pose proof (frame_batchingActive st _ F) as B1. destruct F.
    split; [reflexivity|]. split; [reflexivity|].
    split; [congruence|]. split; [congruence|].
    split; [congruence|]. split; [congruence|]. split.
    - intros path subs cb. rewrite Su. apply HI.
    - intros path subs sub a b d. rewrite fr_external0. apply HE. }
  rewrite U. cbn [negb].
  set (st4 := passStart p v c st).
  set (P := fun b => neverThrows b /\ readsOnly b).
  set (J := fun x => frame st4 x /\ state x = state st4).
  assert (Jrun : forall body x, P body \/ readsOnly body -> J x ->
                   isUpdating x = true -> J (fst (run body x))).
  { intros body x Hb [Fx Sx] Ux. split.
    - eapply frame_trans; [exact Fx|]. apply (si_frame _ _ (run_in_pass body x Ux)).
    - rewrite run_readsOnly; [exact Sx|]. destruct Hb as [[_ R]|R]; exact R. }
  assert (Jemit : forall e x, J x -> J (emit e x)).
  { intros e x [[] Sx]. split; [constructor; assumption | exact Sx]. }
  assert (Jtr : forall t x, J x -> J (set_currentTracking t x)).
  { intros t x [[] Sx]. split; [constructor; assumption | exact Sx]. }
  assert (Jsub : forall t x, J x -> J (set_subscribers t x)).
  { intros t x [[] Sx]. split; [constructor; assumption | exact Sx]. }
  assert (I4 : passInv P readsOnly J st4).
  { split; [reflexivity|]. split; [split; [apply frame_refl | reflexivity]|].
    split.
    - intros path subs cb. unfold st4. rewrite passStart_subscribers.
      apply HI.
    - intros path subs sub a b d. unfold st4, passStart.
      cbn [externalSubscribers set_currentlyUpdating set_isUpdating].
      destruct F. rewrite fr_external0. apply HE. }
  assert (N4 : passInv neverThrows (fun _ => True) (fun _ => True) st4).
  { destruct I4 as (U4 & _ & HI4 & _). split; [exact U4|].
    split; [exact Logic.I|]. split.
    - intros path subs cb H1 H2. now destruct (HI4 path subs cb H1 H2).
    - intros ? ? ? ? ? ? _ _. exact Logic.I. }
  pose proof (notifySubscribers_no_throw p st4 N4) as NT.
  pose proof (notifySubscribers_inv P readsOnly J Jrun Jemit Jtr Jsub p st4
                I4) as I5.
  destruct (_notifySubscribers run p st4) as [st5 [e|]]; cbn [fst snd] in *;
    [discriminate|].
  pose proof (notifyExternalSubscribers_inv P readsOnly J Jrun Jemit p
                (finalValueOf p v c st) (oldValueOf p st) st5 I5)
    as (_ & [F6 S6] & HI6 & HE6).
  set (st6 := _notifyExternalSubscribers run p _ _ st5) in *.
  destruct F6.
  assert (Cu4 : currentlyUpdating st4 = setAdd p (currentlyUpdating
                  (silentWrite p v c st))) by reflexivity.
  destruct F.
  split; [reflexivity|]. split; [exact S6|]. split; [reflexivity|].
  split; [|split; [|split; [|split; [exact HI6 | exact HE6]]]].
  - unfold batchingActive. cbn.
    rewrite fr_batchingEnabled0, fr_batchDelayMs0. unfold st4, passStart. cbn.
    rewrite fr_batchingEnabled1, fr_batchDelayMs1. exact B.
  - cbn. rewrite fr_currentlyUpdating0, Cu4, fr_currentlyUpdating1.
    now apply setDelete_setAdd.
  - cbn. rewrite fr_middleware0. unfold st4, passStart. cbn.
    exact fr_middleware1.
Qed.

Lemma update_absent (k : string) (v : value) (props : props_t) :
  lookup k props = None -> update k v props = props ++ [(k, v)].
Proof.
  induction props as [|[x w] r IH]; simpl; [reflexivity|].
  destruct (String.eqb k x); [discriminate|]. intros H. now rewrite IH.
Qed.

Lemma lookup_app_absent (k k' : string) (v : value) (props : props_t) :
  k' <> k -> lookup k' props = None -> lookup k' (props ++ [(k, v)]) = None.
Proof.
  intros N. induction props as [|[x w] r IH]; simpl.
  - destruct (String.eqb_spec k' k); [congruence | reflexivity].
  - destruct (String.eqb k' x); [discriminate | exact IH].
Qed.

Lemma silentWrite_fresh_key (k : string) (v c : value) (st : store) :
  middleware st = [] ->
  plainKey k ->
  lookup k (state st) = None ->
  state (silentWrite k v c st) =
  if isNull v then state st else state st ++ [(k, v)].
Proof.
  intros M (V & Pk & _) L. rewrite silentWrite_state.
  rewrite (finalValueOf_no_middleware k v c st M).
  assert (O : oldValueOf k st = VNull).
  { unfold oldValueOf. rewrite (getState_value k VNull st V), Pk.
    cbn [walk isNullish orb getProp]. now rewrite L. }
  rewrite O.
  assert (D : deepEquals VNull v = isNull v) by now destruct v.
  rewrite D. destruct (isNull v); [reflexivity|].
  unfold writeState. rewrite Pk. cbn [assignPath setProp].
  now apply update_absent.
Qed.

Lemma jsonCopy_clean (v : value) : jsonClean v -> jsonCopy v = v.
Proof.
  induction v as [| |b|n|s|arr props IH] using value_ind'; try reflexivity.
  intros C.
  assert (E : forall l, Forall (fun e => jsonClean (snd e) ->
                                         jsonCopy (snd e) = snd e) l ->
                (fix each (l : props_t) : Prop :=
                   match l with
                   | [] => True
                   | (_, x) :: r => jsonClean x /\ each r
                   end) l ->
                (fix each (l : props_t) : props_t :=
                   match l with
                   | [] => []
                   | (k, x) :: r =>
                       if isUndef x then each r
                       else (k, jsonCopy x) :: each r
                   end) l = l /\
                (fix each (l : props_t) : props_t :=
                   match l with
                   | [] => []
                   | (k, x) :: r =>
                       (k, if isUndef x then VNull else jsonCopy x)
                       :: each r
                   end) l = l).
  { induction l as [|[k x] r IHl]; intros F Cl; [now split|].
    inversion F as [|? ? Hx Hr]; subst. destruct Cl as [Cx Cr].
    destruct (IHl Hr Cr) as [E1 E2]. cbn [snd] in Hx.
    assert (U : isUndef x = false) by (destruct x; [destruct Cx|..];
                                       reflexivity).
    rewrite U, E1, E2, (Hx Cx). now split. }
  destruct (E props IH C) as [E1 E2].
  destruct arr; simpl; f_equal; assumption.
Qed.

Lemma clean_not_undef (v : value) : jsonClean v -> v <> VUndef.
Proof. intros C E. subst v. exact C. Qed.

Lemma lookup_absent (k : string) (props : props_t) :
  ~ In k (map fst props) -> lookup k props = None.
Proof.
  induction props as [|[x w] r IH]; simpl; [reflexivity|]. intros H.
  destruct (String.eqb_spec k x) as [->|N]; [elim H; now left|].
  apply IH. intros Hin. apply H. now right.
Qed.

Lemma lookup_filter (g : value -> bool) (k : string) (props : props_t) :
  NoDup (map fst props) ->
  lookup k (filter (fun e => g (snd e)) props) =
  match lookup k props with
  | Some v => if g v then Some v else None
  | None => None
  end.
Proof.
  induction props as [|[x w] r IH]; intros ND; [reflexivity|].
  inversion ND as [|? ? Hnot ND']; subst.
  cbn [filter snd lookup].
  destruct (String.eqb_spec k x) as [->|N].
  - destruct (g w); cbn [lookup].
    + now rewrite String.eqb_refl.
    + rewrite (IH ND'), (lookup_absent x r Hnot). reflexivity.
  - destruct (g w); cbn [lookup].
    + destruct (String.eqb_spec k x); [congruence | now apply IH].
    + now apply IH.
Qed.

Lemma reset_loop (entries : props_t) :
  forall st,
    isUpdating st = false ->
    batchingActive st = false ->
    currentlyUpdating st = [] ->
    middleware st = [] ->
    internalBodies (fun b => neverThrows b /\ readsOnly b) st ->
    externalBodies readsOnly st ->
    (forall k v, In (k, v) entries -> plainKey k /\ jsonClean v) ->
    NoDup (map fst entries) ->
    (forall k, In k (map fst entries) -> lookup k (state st) = None) ->
    let r := forEach restoreEntry entries st in
    snd r = None /\
    state (fst r) =
    state st ++ filter (fun e => negb (isNull (snd e))) entries.
Proof.
  induction entries as [|[k v] rest IH];
    intros st U B C M HI HE HK ND HL r; subst r.
  - cbn. split; [reflexivity | now rewrite app_nil_r].
  - destruct (HK k v (or_introl eq_refl)) as [Pk Cv].
    cbn [forEach].
    assert (F : restoreEntry (k, v) st =
                setState run k v (VObj false []) st).
    { pose proof (jsonCopy_clean v Cv) as Jc. unfold restoreEntry.
      cbn [fst snd].
      destruct v; try (rewrite Jc; reflexivity). destruct Cv. }
    rewrite F.
    assert (Ck : Str.mem k (currentlyUpdating st) = false) by now rewrite C.
    destruct (setState_top_level st k v (VObj false []) (proj1 Pk) U B Ck
                HI HE) as (N1 & S1 & U1 & B1 & C1 & M1 & HI1 & HE1).
    destruct (setState run k v (VObj false []) st) as [st1 [e|]];
      cbn [fst snd] in *; [discriminate|].
    rewrite (silentWrite_fresh_key k v (VObj false []) st M Pk
               (HL k (or_introl eq_refl))) in S1.
    inversion ND as [|? ? Hnot ND']; subst.
    destruct (IH st1 U1 B1 (eq_trans C1 C) (eq_trans M1 M) HI1 HE1
                (fun k' v' H => HK k' v' (or_intror H)) ND') as [N2 S2].
    { intros k' Hin. rewrite S1.
      assert (Nk : k' <> k) by (intros ->; contradiction).
      destruct (isNull v); [apply HL; now right|].
      apply lookup_app_absent; [exact Nk | apply HL; now right]. }
    split; [exact N2|]. rewrite S2, S1. cbn [filter snd].
    destruct (isNull v); cbn [negb]; [reflexivity|].
    now rewrite <- app_assoc.
Qed.

(** X12.  [reset()] with nothing to preserve puts the state tree back to
    the initial state.  When the keys of the initial state are plain keys
    (valid paths of one segment that are no built-in member names and not
    written with digits only), with batching inactive, no middleware,
    outside any pass, and callbacks that only read and, the reactive ones,
    do not throw, [reset] returns normally and the state tree is the
    initial state again, whatever it was before, except that a key whose
    initial value is [null] is absent: the deep comparison with the default
    [null] skips that write.  Reading a key of the initial state then gives
    what it gives on a store made afresh from the initial state. *)
Theorem reset_restores_initial_state (initialState : props_t) (st : store) :
  isUpdating st = false ->
  batchingActive st = false ->
  currentlyUpdating st = [] ->
  middleware st = [] ->
  internalBodies (fun b => neverThrows b /\ readsOnly b) st ->
  externalBodies readsOnly st ->
  (forall k v, In (k, v) initialState -> plainKey k /\ jsonClean v) ->
  NoDup (map fst initialState) ->
  snd (reset initialState [] st) = None /\
  state (fst (reset initialState [] st)) =
    filter (fun e => negb (isNull (snd e))) initialState /\
  forall k,
    In k (map fst initialState) ->
    fst (getState k VNull (fst (reset initialState [] st))) =
    fst (getState k VNull (newStateManager initialState [])).
Proof.
  intros U B C M HI HE HK ND.
  assert (L : snd (reset initialState [] st) = None /\
              state (fst (reset initialState [] st)) =
              filter (fun e => negb (isNull (snd e))) initialState).
  { unfold reset. cbn [collectPreserved fold_left].
    destruct (reset_loop initialState (set_state [] st) U B C M HI HE HK ND
                (fun k _ => eq_refl)) as [N S].
    destruct (forEach _ initialState (set_state [] st)) as [st3 [e|]];
      cbn [fst snd] in *; [discriminate|].
    split; [reflexivity | exact S]. }
  destruct L as [N S]. split; [exact N|]. split; [exact S|].
  intros k Hin. apply in_map_iff in Hin. destruct Hin as [[k' v] [E Hin]].
  cbn [fst] in E. subst k'.
  destruct (HK k v Hin) as [(V & Pk & _) Cv].
  rewrite !getState_value by exact V. rewrite S, Pk.
  cbn [newStateManager state walk isNullish orb getProp].
  assert (L1 : lookup k initialState = Some v)
    by now apply lookup_NoDup.
  rewrite L1.
  rewrite (lookup_filter (fun v => negb (isNull v)) k initialState ND), L1.
  destruct v; reflexivity.
Qed.

Lemma reset_restores_initial_state_witness :
  state (fst (reset [("count", VNum 0); ("user", VNull)] []
                (fst (setState run "count" (VNum 7) (VObj false [])
                        (newStateManager
                           [("count", VNum 0); ("user", VNull)] []))))) =
  filter (fun e => negb (isNull (snd e)))
    [("count", VNum 0); ("user", VNull)].
Proof.
  refine (proj1 (proj2 (reset_restores_initial_state
                          [("count", VNum 0); ("user", VNull)] _
                          _ _ _ _ _ _ _ _))).
  - reflexivity.
  - reflexivity.
  - reflexivity.
  - reflexivity.
  - intros path subs cb H. destruct H.
  - intros path subs sub nv ov cp H. destruct H.
  - intros k v [E|[E|[]]]; inversion E; repeat split.
  - repeat constructor; cbn; intuition discriminate.
Defined.

(** ** Writing the same value again *)



(** ** A write that is queued *)

(** X14.  With batching active a write is put off.  [setState] on a valid
    path that is not being notified, with room in the queue, adds the update
    to the end of the queue and, when no flush timer is pending, sets one;
    it changes nothing in the state tree, calls no subscriber and logs
    nothing, so that [getState] still returns the old value afterwards. *)
Theorem batched_set_is_deferred (st : store) (p : string) (v c : value) :
  isValidPath p = true ->
  Str.mem p (currentlyUpdating st) = false ->
  batchingActive st = true ->
  (Z.of_nat (S (List.length (updateQueue st))) <= maxBatchSize st * 2)%Z ->
  let st' := fst (setState run p v c st) in
  snd (setState run p v c st) = None /\
  state st' = state st /\
  trace st' = trace st /\
  updateQueue st' =
    updateQueue st ++
    [{| upd_path := p; upd_value := v; upd_context := c |}] /\
  (batchTimeout st = None ->
   batchTimeout st' = Some (nextId st) /\
   timers st' = timers st ++ [nextId st]) /\
  (batchTimeout st <> None ->
   batchTimeout st' = batchTimeout st /\ timers st' = timers st) /\
  forall q d, fst (getState q d st') = fst (getState q d st).
Proof.
  intros V C B Q st'. subst st'.
  rewrite (setState_queued run p v c st V C B),
    (queueUpdate_plain run p v c st Q). cbn [fst snd].
  assert (G : forall s, state s = state st ->
                forall q d, fst (getState q d s) = fst (getState q d st)).
  { intros s E q d. now apply getState_reads_state. }
  destruct (batchTimeout st) as [t|] eqn:T.
  - split; [reflexivity|]. split; [reflexivity|]. split; [reflexivity|].
    split; [reflexivity|]. split; [discriminate|].
    split; [intros _; now split | now apply G].
  - split; [reflexivity|]. split; [reflexivity|]. split; [reflexivity|].
    split; [reflexivity|]. split; [intros _; now split|].
    split; [congruence | now apply G].
Qed.

Lemma batched_set_is_deferred_witness :
  let st := configureBatching None (Some 10%Z) None
              (newStateManager [("x", VNum 0)] []) in
  fst (getState "x" VNull
         (fst (setState run "x" (VNum 1) (VObj false []) st))) =
  fst (getState "x" VNull st).
Proof.
  intros st.
  refine (proj2 (proj2 (proj2 (proj2 (proj2 (proj2
            (batched_set_is_deferred st "x" (VNum 1) (VObj false [])
               _ _ _ _)))))) "x" VNull).
  - reflexivity.
  - reflexivity.
  - reflexivity.
  - cbn. lia.
Defined.

(** * Further properties of the string renderer *)

(** ** Errors end up in the markup *)

Lemma neverRejects_ret {A : Type} (a : A) : neverRejects (ret a).
Proof. intros st msg. discriminate. Qed.

Lemma neverRejects_bind {A B : Type} (m : M A) (f : A -> M B) :
  neverRejects m -> (forall a, neverRejects (f a)) ->
  neverRejects (bind m f).
Proof.
  intros Hm Hf st msg. unfold bind. specialize (Hm st).
  destruct (m st) as [[a|e|] st1]; cbn [fst] in *.
  - apply Hf.
  - now destruct (Hm e).
  - discriminate.
Qed.

Lemma neverRejects_tryCatch {A : Type} (m : M A) (h : string -> M A) :
  (forall msg, neverRejects (h msg)) -> neverRejects (tryCatch m h).
Proof.
  intros Hh st msg. unfold tryCatch.
  destruct (m st) as [[a|e|] st1]; cbn [fst]; try discriminate.
  apply Hh.
Qed.

Lemma neverRejects_say_ret {A : Type} (text : string) (a : A) :
  neverRejects (_ <- say text ;; ret a).
Proof. intros st msg. discriminate. Qed.

Lemma renderBody_neverRejects (components : list (string * component))
  (handlers : list (string * attrHandler)) (inner : jsv -> M string)
  (self : jsv -> M rres) (vnode : jsv) :
  neverRejects (renderBody components handlers inner self vnode).
Proof.
  unfold renderBody.
  apply neverRejects_bind; [intros st msg; discriminate|]. intros d.
  apply neverRejects_bind; [intros st msg; discriminate|]. intros mx.
  destruct (d >? mx)%Z; [apply neverRejects_say_ret|].
  apply neverRejects_bind; [intros st msg; discriminate|]. intros _.
  apply neverRejects_bind; [intros st msg; discriminate|]. intros _.
  apply neverRejects_tryCatch. intros e.
  apply neverRejects_bind; [intros st msg; discriminate|]. intros d'.
  apply neverRejects_bind; [intros st msg; discriminate|]. intros _.
  apply neverRejects_say_ret.
Qed.

(** X15.  Rendering does not throw.  [render] never ends with an
    exception: whatever a component, a function of the tree or an attribute
    handler throws is caught on the way and becomes a comment in the markup.
    [renderToString] does not throw either, and the promise it returns in
    either mode is never rejected: it is fulfilled with an error [div]
    instead.  What is thrown, and what a promise is rejected with, is an
    error with a message ([completion]): the handlers read [error.message],
    which fails on [null] and [undefined]. *)
Theorem errors_become_markup (components : list (string * component))
  (handlers : list (string * attrHandler)) (inner : jsv -> M string)
  (fuel : nat) (vnode : jsv) (forceAsync : bool) :
  neverRejects (render components handlers inner fuel vnode) /\
  neverRejects
    (renderToString components handlers inner fuel vnode forceAsync) /\
  forall st p st',
    renderToString components handlers inner fuel vnode forceAsync st =
      (Val (Later p), st') ->
    neverRejects p.
Proof.
  assert (R : neverRejects (render components handlers inner fuel vnode)).
  { destruct fuel as [|n]; [intros st msg; discriminate|].
    apply renderBody_neverRejects. }
  split; [exact R|]. split.
  - unfold renderToString.
    destruct (negb (Js.truthy vnode)); [apply neverRejects_ret|].
    apply neverRejects_tryCatch. intros msg. apply neverRejects_say_ret.
  - intros st p st'. unfold renderToString.
    destruct (negb (Js.truthy vnode)); [discriminate|].
    unfold tryCatch at 1.
    destruct forceAsync.
    + cbn. intros E. inversion E.
      apply neverRejects_tryCatch. intros msg. apply neverRejects_say_ret.
    + unfold bind at 1.
      pose proof (R st) as Rst.
      destruct (render components handlers inner fuel vnode st)
        as [[[s|q]|e|] st1]; cbn [fst] in *.
      * discriminate.
      * cbn. intros E. inversion E.
        apply neverRejects_tryCatch. intros msg. apply neverRejects_say_ret.
      * now destruct (Rst e).
      * discriminate.
Qed.

(** ** A component that throws *)

Lemma state_back (st : rstate) (msg : string) :
  withDepth (renderDepth st + 1 - 1)
    (withMessage msg
       (withAsyncDetected false (withDepth (renderDepth st + 1) st))) =
  withMessage msg (withAsyncDetected false st).
Proof.
  destruct st. unfold withDepth, withMessage, withAsyncDetected. cbn.
  f_equal. lia.
Qed.

(** X16.  A component that throws does not stop the rendering: [render]
    returns, in place of the component, a comment that names the component
    and the error, logs the error, and leaves the depth counter where it
    was.  The same holds when the [render] method of the object the
    component returned throws. *)
Theorem component_error_is_contained
  (components : list (string * component))
  (handlers : list (string * attrHandler)) (inner : jsv -> M string)
  (n : nat) (name : string) (props : jsv) (f : component) (st : rstate) :
  Str.nonEmpty name = true ->
  mapGet name components = Some f ->
  (renderDepth st <= maxRenderDepth st)%Z ->
  (forall msg,
     f (if Js.truthy props then props else JObj []) = Thrown msg ->
     render components handlers inner (S n) (JObj [(name, props)]) st =
     (Val (Now ("<!-- Component " +++ name +++ " error: " +++ msg
                +++ " -->")),
      withMessage ("StringRenderer: Error rendering component " +++ name
                   +++ ": " +++ msg) (withAsyncDetected false st))) /\
  (forall r src msg,
     f (if Js.truthy props then props else JObj []) = Normal r ->
     Js.isThenable r = false ->
     Js.truthy r = true ->
     Js.get r "render" = JFun src (Thrown msg) ->
     render components handlers inner (S n) (JObj [(name, props)]) st =
     (Val (Now ("<!-- Component " +++ name +++ " render error: " +++ msg
                +++ " -->")),
      withMessage ("StringRenderer: Error in component " +++ name
                   +++ " render method: " +++ msg)
        (withAsyncDetected false st))).
Proof.
  intros NE G D. split.
  - intros msg T. rewrite render_unfold.
    set (st0 := withAsyncDetected false (withDepth (renderDepth st + 1) st)).
    assert (H : _renderInternal components handlers
                  (render components handlers inner n)
                  (JObj [(name, props)]) st0 =
                (Val (Now ("<!-- Component " +++ name +++ " error: " +++ msg
                           +++ " -->")),
                 withMessage ("StringRenderer: Error rendering component "
                              +++ name +++ ": " +++ msg) st0)).
    { rewrite (renderInternal_component components handlers _ name props f
                 _ NE G).
      unfold _renderComponent, tryCatch. rewrite G. unfold bind.
      rewrite T. reflexivity. }
    rewrite (renderBody_now components handlers inner _ _ st _ _ D H
               eq_refl).
    f_equal. apply state_back.
  - intros r src msg T NP TR GR. rewrite render_unfold.
    set (st0 := withAsyncDetected false (withDepth (renderDepth st + 1) st)).
    assert (H : _renderInternal components handlers
                  (render components handlers inner n)
                  (JObj [(name, props)]) st0 =
                (Val (Now ("<!-- Component " +++ name +++ " render error: "
                           +++ msg +++ " -->")),
                 withMessage ("StringRenderer: Error in component " +++ name
                              +++ " render method: " +++ msg) st0)).
    { rewrite (renderInternal_component components handlers _ name props f
                 _ NE G).
      unfold _renderComponent, tryCatch at 1. rewrite G. unfold bind at 1.
      rewrite T. cbn [settle ret].
      destruct r; try discriminate;
        unfold _processComponentResult; rewrite TR, GR; reflexivity. }
    rewrite (renderBody_now components handlers inner _ _ st _ _ D H
               eq_refl).
    f_equal. apply state_back.
Qed.

Lemma component_error_is_contained_witness :
  render [("Bad", fun _ => Thrown "boom")] [] (fun _ => throw "unused") 1
    (JObj [("Bad", JObj [])]) newRenderer =
  (Val (Now "<!-- Component Bad error: boom -->"),
   withMessage "StringRenderer: Error rendering component Bad: boom"
     (withAsyncDetected false newRenderer)).
Proof.
  refine (proj1 (component_error_is_contained
                   [("Bad", fun _ => Thrown "boom")] [] _ 0 "Bad" (JObj [])
                   (fun _ => Thrown "boom") newRenderer _ _ _) "boom" _).
  - reflexivity.
  - reflexivity.
  - discriminate.
  - reflexivity.
Defined.

(** ** Attribute values *)

Lemma escapeAttributeValue_any (v : jsv) :
  _escapeAttributeValue v =
  if Js.isNullish v then "" else flatMapStr entityOf (Js.toStr v).
Proof.
  unfold _escapeAttributeValue. destruct (Js.isNullish v); [reflexivity|].
  rewrite !replaceAll_flatMapStr, !flatMapStr_compose.
  apply flatMapStr_ext.
  intros [[] [] [] [] [] [] [] []]; reflexivity.
Qed.

Lemma entities_no_markup (s : string) :
  forallb (fun c => negb (isMarkupChar c))
    (Str.chars (flatMapStr entityOf s)) = true.
Proof.
  induction s as [|c r IH]; simpl; [reflexivity|].
  rewrite chars_app, forallb_app, IH, andb_true_r.
  revert c. intros [[] [] [] [] [] [] [] []]; reflexivity.
Qed.

(** X17.  An attribute value cannot leave its quotes.
    [_escapeAttributeValue] turns a value into a string (nothing for [null]
    and [undefined]) and replaces each of the five characters by its entity
    in what amounts to one pass, so that no quote and no angle bracket is
    left in it.  With no special handler for the name, [_renderAttribute]
    returns nothing, the bare name, or a name (the name given, its
    lower-case form, [class], [for] or [tabindex]) followed by such a value
    between double quotes (the value given, its class names, or the number
    [parseInt] reads from it), and it neither throws nor touches the
    renderer.  The value is one whose conversion to a string is plain
    ([printable]), and the number read for [tabindex] a safe integer. *)
Theorem attribute_value_is_escaped :
  (forall v,
     printable v = true ->
     _escapeAttributeValue v =
     if Js.isNullish v then "" else flatMapStr entityOf (Js.toStr v)) /\
  (forall v,
     printable v = true ->
     forallb (fun c => negb (isMarkupChar c))
       (Str.chars (_escapeAttributeValue v)) = true) /\
  (forall handlers name value st,
     mapGet (Js.toLowerCase name) handlers = None ->
     printable value = true ->
     (forall n, Js.parseInt value = Some n -> (Z.abs n < 2 ^ 53)%Z) ->
     exists s,
       _renderAttribute handlers name value st = (Val s, st) /\
       (s = "" \/ s = " " +++ name \/
        exists n' v',
          In n' [name; Js.toLowerCase name; "class"; "for"; "tabindex"] /\
          (v' = value \/ v' = JStr (_processClassName value) \/
           exists n, Js.parseInt value = Some n /\ v' = JNum n) /\
          printable v' = true /\
          s = " " +++ n' +++ "=" +++ dq +++ _escapeAttributeValue v'
              +++ dq)).
Proof.
  split; [intros v _; apply escapeAttributeValue_any|]. split.
  - intros v _. rewrite escapeAttributeValue_any.
    destruct (Js.isNullish v); [reflexivity | apply entities_no_markup].
  - intros handlers name value st H P Safe. unfold _renderAttribute.
    rewrite H.
    destruct (Js.parseInt value) as [tabIndex|] eqn:T.
    2:{ repeat match goal with
               | |- context [if ?b then _ else _] => destruct b
               end;
          (eexists; split; [reflexivity|]);
          first [ now left
                | now (right; left)
                | right; right;
                  refine (ex_intro _ _ (ex_intro _ _
                            (conj _ (conj _ (conj _ eq_refl)))));
                  [ simpl; tauto
                  | first [now left | now (right; left)]
                  | first [exact P | reflexivity] ] ]. }
    assert (PT : printable (JNum tabIndex) = true).
    { cbn [printable]. apply Z.ltb_lt. now apply Safe. }
    repeat match goal with
           | |- context [if ?b then _ else _] => destruct b
           end;
      (eexists; split; [reflexivity|]);
      first [ now left
            | now (right; left)
            | right; right;
              refine (ex_intro _ _ (ex_intro _ _
                        (conj _ (conj _ (conj _ eq_refl)))));
              [ simpl; tauto
              | first [ now left | now (right; left)
                      | right; right; now exists tabIndex ]
              | first [exact P | exact PT | reflexivity] ] ].
Qed.

Lemma attribute_value_is_escaped_witness :
  exists s,
    _renderAttribute [] "TabIndex" (JStr "7<") newRenderer =
      (Val s, newRenderer) /\
    (s = "" \/ s = " " +++ "TabIndex" \/
     exists n' v',
       In n' ["TabIndex"; Js.toLowerCase "TabIndex"; "class"; "for";
              "tabindex"] /\
       (v' = JStr "7<" \/ v' = JStr (_processClassName (JStr "7<")) \/
        exists n, Js.parseInt (JStr "7<") = Some n /\ v' = JNum n) /\
       printable v' = true /\
       s = " " +++ n' +++ "=" +++ dq +++ _escapeAttributeValue v' +++ dq).
Proof.
  apply (proj2 (proj2 attribute_value_is_escaped)).
  - reflexivity.
  - reflexivity.
  - intros n H. vm_compute in H. injection H as <-. reflexivity.
Defined.

(** ** Keys that are no attributes *)

Lemma concat_cons (x : string) (xs : list string) :
  String.concat "" (x :: xs) = x +++ String.concat "" xs.
Proof.
  destruct xs as [|y r]; simpl; [now rewrite append_nil_r | reflexivity].
Qed.

Lemma mapGet_filter_key {A : Type} (g : string -> bool) (k : string)
  (m : list (string * A)) :
  g k = true -> mapGet k (filter (fun e => g (fst e)) m) = mapGet k m.
Proof.
  intros H. induction m as [|[x a] r IH]; simpl; [reflexivity|].
  destruct (String.eqb_spec k x) as [->|N].
  - rewrite H. simpl. now rewrite String.eqb_refl.
  - destruct (g x); simpl; [|exact IH].
    destruct (String.eqb_spec k x); [congruence | exact IH].
Qed.

Lemma keys_filter {A : Type} (g : string -> bool) (m : list (string * A)) :
  map fst (filter (fun e => g (fst e)) m) = filter g (map fst m).
Proof.
  induction m as [|[x a] r IH]; simpl; [reflexivity|].
  destruct (g x); simpl; now rewrite IH.
Qed.

(** The markup and the pending promises that [_processAttributes] takes
    from the attributes it went through. *)
Lemma processAttribute_dropSkipped (handlers : list (string * attrHandler))
  (props : list (string * jsv)) (key : string) :
  _shouldSkipAttribute key = false ->
  processAttribute handlers (JObj (dropSkipped props)) key =
  processAttribute handlers (JObj props) key.
Proof.
  intros H. unfold processAttribute, Js.get, Js.entries, dropSkipped.
  rewrite (mapGet_filter_key (fun k => negb (_shouldSkipAttribute k)) key
             props) by now rewrite H.
  reflexivity.
Qed.

Lemma mapM_cons_run {A B : Type} (f : A -> M B) (x : A) (r : list A)
  (st : rstate) :
  mapM f (x :: r) st =
  match f x st with
  | (Val y, s0) =>
      match mapM f r s0 with
      | (Val ys, s1) => (Val (y :: ys), s1)
      | (Exc m, s1) => (Exc m, s1)
      | (OutOfFuel, s1) => (OutOfFuel, s1)
      end
  | (Exc m, s0) => (Exc m, s0)
  | (OutOfFuel, s0) => (OutOfFuel, s0)
  end.
Proof.
  cbn [mapM]. unfold bind. destruct (f x st) as [[y|m|] s0]; reflexivity.
Qed.

Lemma processAttributes_keys (handlers : list (string * attrHandler))
  (props : list (string * jsv)) (ks : list string) (st : rstate) :
  (forall key, _shouldSkipAttribute key = true ->
     mapGet key handlers = None) ->
  match
    mapM (processAttribute handlers (JObj props)) ks st,
    mapM (processAttribute handlers (JObj (dropSkipped props)))
      (filter (fun k => negb (_shouldSkipAttribute k)) ks) st
  with
  | (Val a, s1), (Val b, s2) =>
      s1 = s2 /\
      String.concat "" (map fst a) = String.concat "" (map fst b) /\
      flat_map (fun p => optionToList (snd p)) a =
      flat_map (fun p => optionToList (snd p)) b
  | (Exc m1, s1), (Exc m2, s2) => m1 = m2 /\ s1 = s2
  | (OutOfFuel, s1), (OutOfFuel, s2) => s1 = s2
  | _, _ => False
  end.
Proof.
  intros HS. revert st. induction ks as [|k r IH]; intros st.
  - cbn. repeat split.
  - cbn [filter]. destruct (_shouldSkipAttribute k) eqn:E; cbn [negb].
    + rewrite mapM_cons_run.
      assert (P : processAttribute handlers (JObj props) k st =
                  (Val ("", None), st)).
      { unfold processAttribute. rewrite (HS k E), E. reflexivity. }
      rewrite P. specialize (IH st).
      destruct (mapM (processAttribute handlers (JObj props)) r st)
        as [[a|m1|] s1];
        destruct (mapM _ (filter _ r) st) as [[b|m2|] s2];
        try contradiction; try exact IH.
      destruct IH as [S [C F]]. split; [exact S|]. split.
      * cbn [map fst]. now rewrite concat_cons.
      * exact F.
    + rewrite !mapM_cons_run.
      rewrite (processAttribute_dropSkipped handlers props k E).
      destruct (processAttribute handlers (JObj props) k st)
        as [[x|m|] s0]; [| now split | reflexivity].
      specialize (IH s0).
      destruct (mapM (processAttribute handlers (JObj props)) r s0)
        as [[a|m1|] s1];
        destruct (mapM _ (filter _ r) s0) as [[b|m2|] s2];
        try contradiction; try exact IH.
      destruct IH as [S [C F]]. split; [exact S|]. split.
      * cbn [map]. now rewrite !concat_cons, C.
      * cbn [flat_map]. now rewrite F.
Qed.

(** X18.  The keys [children], [text], [style] and [key] and the event
    handlers (keys that start with [on] and a letter, in any case) are no
    attributes: provided no special handler is registered for such a key,
    [_processAttributes] returns for the props what it returns for the props
    without these keys, leaves the renderer in the same state, and so does
    not evaluate their values. *)
Theorem skipped_keys_are_no_attributes
  (handlers : list (string * attrHandler)) (props : list (string * jsv))
  (st : rstate) :
  (forall key, _shouldSkipAttribute key = true ->
     mapGet key handlers = None) ->
  _processAttributes handlers (JObj props) st =
  _processAttributes handlers (JObj (dropSkipped props)) st.
Proof.
  intros HS. unfold _processAttributes, bind.
  pose proof (processAttributes_keys handlers props
                (Js.keys (JObj props)) st HS) as H.
  assert (K : Js.keys (JObj (dropSkipped props)) =
              filter (fun k => negb (_shouldSkipAttribute k))
                (Js.keys (JObj props))).
  { unfold Js.keys, Js.entries, dropSkipped.
    apply (keys_filter (fun k => negb (_shouldSkipAttribute k))). }
  rewrite K.
  destruct (mapM (processAttribute handlers (JObj props))
              (Js.keys (JObj props)) st) as [[a|m1|] s1];
    destruct (mapM _ (filter _ (Js.keys (JObj props))) st)
      as [[b|m2|] s2]; try contradiction.
  - destruct H as [-> [C F]]. rewrite C, F. reflexivity.
  - destruct H as [-> ->]. reflexivity.
  - now subst s2.
Qed.

Lemma skipped_keys_are_no_attributes_witness :
  _processAttributes []
    (JObj [("id", JStr "a"); ("onclick", JFun "handler" (Thrown "called"));
           ("text", JStr "t")]) newRenderer =
  _processAttributes [] (JObj [("id", JStr "a")]) newRenderer.
Proof.
  apply (skipped_keys_are_no_attributes []
           [("id", JStr "a"); ("onclick", JFun "handler" (Thrown "called"));
            ("text", JStr "t")] newRenderer).
  intros key _. reflexivity.
Defined.

(** ** Trees without functions and promises *)

Lemma static_items (items : list jsv) :
  isStatic (JArr items) = true ->
  forall x, In x items -> isStatic x = true /\ nesting x < nesting (JArr items).
Proof.
  induction items as [|y r IH]; intros H x Hin; [destruct Hin|].
  simpl in H. apply andb_true_iff in H. destruct H as [Hy Hr].
  specialize (IH Hr). simpl in *. destruct Hin as [<-|Hin].
  - split; [exact Hy | lia].
  - destruct (IH x Hin) as [S L]. split; [exact S | lia].
Qed.

Lemma static_props (props : list (string * jsv)) :
  isStatic (JObj props) = true ->
  forall k x, In (k, x) props ->
    isStatic x = true /\ nesting x < nesting (JObj props).
Proof.
  induction props as [|[k' y] r IH]; intros H k x Hin; [destruct Hin|].
  simpl in H. apply andb_true_iff in H. destruct H as [Hy Hr].
  specialize (IH Hr). simpl in *. destruct Hin as [E|Hin].
  - inversion E; subst. split; [exact Hy | lia].
  - destruct (IH k x Hin) as [S L]. split; [exact S | lia].
Qed.

Lemma In_indexed {A : Type} (l : list A) :
  forall (i : nat) (k : string) (x : A),
    In (k, x) (Js.indexed i l) -> In x l.
Proof.
  induction l as [|y r IH]; intros i k x H; simpl in *; [exact H|].
  destruct H as [E|H]; [inversion E; now left | right; eapply IH; eauto].
Qed.

Lemma static_entries (v : jsv) (k : string) (x : jsv) :
  isStatic v = true -> In (k, x) (Js.entries v) ->
  isStatic x = true /\ nesting x <= nesting v.
Proof.
  intros S H. destruct v; simpl in H; try contradiction.
  - apply In_indexed, in_map_iff in H. destruct H as [c [<- _]].
    split; [reflexivity | simpl; lia].
  - apply In_indexed in H. destruct (static_items items S x H).
    split; [assumption | lia].
  - destruct (static_props props S k x H). split; [assumption | lia].
Qed.

Lemma static_get (v : jsv) (k : string) :
  isStatic v = true ->
  isStatic (Js.get v k) = true /\ nesting (Js.get v k) <= nesting v.
Proof.
  intros S. unfold Js.get.
  destruct (mapGet k (Js.entries v)) as [x|] eqn:G.
  - apply mapGet_In in G. now apply (static_entries v k x).
  - split; [reflexivity | simpl; lia].
Qed.

Lemma mapM_returns {A B : Type} (Q : B -> Prop) (f : A -> M B)
  (l : list A) (st : rstate) :
  (forall x, In x l -> exists y, f x st = (Val y, st) /\ Q y) ->
  exists ys, mapM f l st = (Val ys, st) /\ Forall Q ys.
Proof.
  induction l as [|x r IH]; intros H.
  - exists []. split; [reflexivity | constructor].
  - destruct (H x (or_introl eq_refl)) as [y [E Qy]].
    destruct (IH (fun z Hz => H z (or_intror Hz))) as [ys [Es Qs]].
    exists (y :: ys). split; [|now constructor].
    now rewrite mapM_cons_run, E, Es.
Qed.

Lemma no_promises {A B : Type} (parts : list (A * option B)) :
  Forall (fun p => snd p = None) parts ->
  flat_map (fun p => optionToList (snd p)) parts = [].
Proof.
  induction 1 as [|[a o] r H _ IH]; simpl; [reflexivity|].
  simpl in H. subst o. exact IH.
Qed.

Lemma renderAttribute_returns (handlers : list (string * attrHandler))
  (name : string) (value : jsv) (st : rstate) :
  mapGet (Js.toLowerCase name) handlers = None ->
  exists s, _renderAttribute handlers name value st = (Val s, st).
Proof.
  intros H. unfold _renderAttribute. rewrite H.
  repeat match goal with
         | |- context [if ?b then _ else _] => destruct b
         | |- context [match Js.parseInt ?v with _ => _ end] =>
             destruct (Js.parseInt v)
         end; eexists; reflexivity.
Qed.

Lemma static_not_function (v : jsv) :
  isStatic v = true -> Js.isFunction v = false /\ Js.isThenable v = false.
Proof. destruct v; simpl; intros H; try discriminate; now split. Qed.

Lemma processAttribute_static (props : jsv) (key : string) (st : rstate) :
  isStatic props = true ->
  exists s, processAttribute [] props key st = (Val (s, None), st).
Proof.
  intros S. unfold processAttribute. cbn [mapGet].
  destruct (_shouldSkipAttribute key); [now exists ""|].
  destruct (static_get props key S) as [Sv _].
  destruct (static_not_function _ Sv) as [F _]. rewrite F.
  destruct (renderAttribute_returns [] key (Js.get props key) st eq_refl)
    as [s E].
  exists s. unfold bind. now rewrite E.
Qed.

Lemma processAttributes_static (props : jsv) (st : rstate) :
  isStatic props = true ->
  exists s, _processAttributes [] props st = (Val (Now s), st).
Proof.
  intros S. unfold _processAttributes.
  destruct (mapM_returns (fun p => snd p = None)
              (processAttribute [] props) (Js.keys props) st)
    as [parts [E N]].
  { intros key _. destruct (processAttribute_static props key st S)
      as [s Es].
    exists (s, None). now split. }
  unfold bind. rewrite E, (no_promises parts N).
  eexists. reflexivity.
Qed.

Lemma processStyleEntry_static (entry : string * jsv) (st : rstate) :
  isStatic (snd entry) = true ->
  exists r, processStyleEntry entry st = (Val (r, None), st).
Proof.
  intros S. unfold processStyleEntry.
  destruct (static_not_function _ S) as [F T]. rewrite F.
  unfold bind. cbn [ret].
  destruct (snd entry); try discriminate;
    try (eexists; reflexivity).
Qed.

Lemma processStyleObject_static (style : jsv) (st : rstate) :
  isStatic style = true ->
  exists s, _processStyleObject style st = (Val (Now s), st).
Proof.
  intros S. unfold _processStyleObject.
  destruct (_ && _); [|eexists; reflexivity].
  destruct (mapM_returns (fun p => snd p = None) processStyleEntry
              (Js.entries style) st) as [parts [E N]].
  { intros [k x] Hin.
    destruct (static_entries style k x S Hin) as [Sx _].
    destruct (processStyleEntry_static (k, x) st Sx) as [r Er].
    exists (r, None). now split. }
  unfold bind. rewrite E, (no_promises parts N).
  eexists. reflexivity.
Qed.

Lemma renderStyle_static (style : jsv) (st : rstate) :
  isStatic style = true ->
  exists s, _renderStyle style st = (Val (Now s), st).
Proof.
  intros S. unfold _renderStyle.
  destruct (negb (Js.truthy style)); [eexists; reflexivity|].
  destruct (static_not_function _ S) as [F _]. rewrite F.
  now apply processStyleObject_static.
Qed.

Section StaticRender.

Variable self : jsv -> M rres.
Variable bound : nat.

(** The calls that a level of [render] makes return a string at once and
    leave the renderer as it is, for the trees that nest less than
    [bound]. *)
Hypothesis self_static : forall x st,
  isStatic x = true ->
  nesting x < bound ->
  asyncDetected st = false ->
  (renderDepth st + Z.of_nat (nesting x) <= maxRenderDepth st)%Z ->
  exists s, self x st = (Val (Now s), st).

Variable st : rstate.
Hypothesis no_async : asyncDetected st = false.
Hypothesis depth_ok :
  (renderDepth st + Z.of_nat bound <= maxRenderDepth st + 1)%Z.

Lemma self_below (x : jsv) :
  isStatic x = true -> nesting x < bound ->
  exists s, self x st = (Val (Now s), st).
Proof.
  intros S L. apply self_static; [exact S | exact L | exact no_async | lia].
Qed.

Lemma items_static (items : list jsv) :
  (forall x, In x items -> isStatic x = true /\ nesting x < bound) ->
  exists s,
    (results <- mapM self items ;;
     if existsb isLater results then ret (Later (allJoin results))
     else ret (Now (joinNow results))) st = (Val (Now s), st).
Proof.
  intros H.
  destruct (mapM_returns (fun r => isLater r = false) self items st)
    as [rs [E N]].
  { intros x Hin. destruct (H x Hin) as [S L].
    destruct (self_below x S L) as [s Es]. exists (Now s). now split. }
  unfold bind. rewrite E.
  assert (X : existsb isLater rs = false).
  { clear E. induction N as [|r l Hr _ IH]; simpl; [reflexivity|].
    now rewrite Hr, IH. }
  rewrite X. eexists. reflexivity.
Qed.

Lemma renderChildrenContent_static (children : jsv) :
  isStatic children = true -> nesting children < bound ->
  exists s, _renderChildrenContent self children st = (Val (Now s), st).
Proof.
  intros S L.
  destruct children; cbn [_renderChildrenContent negb Js.isNullish];
    try (eexists; reflexivity); try (now apply self_below);
    try discriminate.
  apply items_static. intros x Hin.
  destruct (static_items items S x Hin) as [Sx Lx]. split; [exact Sx | lia].
Qed.

Lemma renderElementContent_static (tagName : string) (props : jsv)
  (html : string) :
  (forall k, isStatic (Js.get props k) = true /\
             nesting (Js.get props k) < bound) ->
  exists s,
    _renderElementContent self tagName props html st = (Val (Now s), st).
Proof.
  intros H. unfold _renderElementContent.
  destruct (negb (Js.isUndef (Js.get props "text"))).
  { destruct (H "text") as [S _].
    destruct (static_not_function _ S) as [F _]. rewrite F.
    unfold bind. cbn [ret].
    destruct (Js.get props "text"); try discriminate;
      eexists; reflexivity. }
  destruct (negb (Js.isUndef (Js.get props "children")));
    [|eexists; reflexivity].
  destruct (H "children") as [S L].
  destruct (static_not_function _ S) as [F _]. rewrite F.
  unfold bind at 1. cbn [ret].
  destruct (renderChildrenContent_static _ S L) as [s E].
  destruct (Js.get props "children") eqn:C; try discriminate;
    unfold bind; rewrite E; eexists; reflexivity.
Qed.

Lemma renderElement_static (tagName : string) (props : jsv) :
  isStatic props = true ->
  (forall k, nesting (Js.get props k) < bound) ->
  exists s, _renderElement [] self tagName props st = (Val (Now s), st).
Proof.
  intros S L. unfold _renderElement.
  destruct (processAttributes_static props st S) as [attrs E].
  unfold bind. rewrite E.
  unfold _continueElementRendering.
  destruct (static_get props "style" S) as [Ss _].
  destruct (renderStyle_static _ st Ss) as [style Es].
  unfold bind. rewrite Es.
  apply renderElementContent_static. intros k. split; [|apply L].
  apply (static_get props k S).
Qed.

Lemma renderInternal_static (vnode : jsv) :
  isStatic vnode = true -> nesting vnode <= bound ->
  exists s, _renderInternal [] [] self vnode st = (Val (Now s), st).
Proof.
  intros S L. unfold _renderInternal.
  destruct vnode as [| |b|n|t|items|props| |]; try discriminate;
    cbn [Js.truthy Js.typeofObject negb];
    try (eexists; reflexivity).
  - destruct b; eexists; reflexivity.
  - destruct (negb (negb (n =? 0)%Z)); eexists; reflexivity.
  - destruct (negb (Str.nonEmpty t)); eexists; reflexivity.
  - apply items_static. intros x Hin.
    destruct (static_items items S x Hin) as [Sx Lx]. split; [exact Sx | lia].
  - destruct props as [|[tagName p] rest]; [eexists; reflexivity|].
    cbn [Js.keys Js.entries map fst].
    destruct (negb (Str.nonEmpty tagName)); [eexists; reflexivity|].
    cbv zeta. unfold isComponent. cbn [mapGet].
    assert (G : Js.get (JObj ((tagName, p) :: rest)) tagName = p).
    { unfold Js.get. cbn. now rewrite String.eqb_refl. }
    rewrite G.
    destruct (static_props _ S tagName p (or_introl eq_refl)) as [Sp Lp].
    destruct (Js.truthy p).
    + apply renderElement_static; [exact Sp|].
      intros k. destruct (static_get p k Sp) as [_ Lk]. lia.
    + apply renderElement_static; [reflexivity|].
      intros k. unfold Js.get. cbn. lia.
Qed.

End StaticRender.

Lemma withAsyncDetected_same (st : rstate) :
  asyncDetected st = false -> withAsyncDetected false st = st.
Proof. destruct st. cbn. now intros ->. Qed.

(** X19.  A tree that holds no function and no promise, and whose values
    convert to strings plainly ([printable]: safe integers, no object with
    a [toString] of its own), is rendered at once.  With no component and
    no special attribute handler registered, [render] returns a string for
    it, not a promise, does not throw and writes nothing to the console,
    and leaves the renderer as it found it ([asyncDetected] false, the depth
    counter back), provided the fuel exceeds the nesting of the tree and the
    depth counter leaves room for it: the guard does not fire and no marker
    appears. *)
Theorem static_tree_renders_at_once (inner : jsv -> M string) :
  forall (n : nat) (v : jsv) (st : rstate),
    isStatic v = true ->
    printable v = true ->
    nesting v <= n ->
    (renderDepth st + Z.of_nat (nesting v) <= maxRenderDepth st)%Z ->
    exists s,
      render [] [] inner (S n) v st =
      (Val (Now s), withAsyncDetected false st).
Proof.
  intros n v st HS _. revert v st HS.
  induction n as [|n IH]; intros v st HS L D.
  - rewrite render_unfold.
    set (st0 := withAsyncDetected false (withDepth (renderDepth st + 1) st)).
    destruct (renderInternal_static (render [] [] inner 0) (nesting v))
      with (st := st0) (vnode := v) as [s E];
      [intros x st' _ Lx; lia | reflexivity | cbn; lia | exact HS | lia |].
    exists s.
    rewrite (renderBody_now [] [] inner _ v st st0 s ltac:(lia) E eq_refl).
    f_equal. apply withDepth_back.
  - rewrite render_unfold.
    set (st0 := withAsyncDetected false (withDepth (renderDepth st + 1) st)).
    destruct (renderInternal_static (render [] [] inner (S n)) (nesting v))
      with (st := st0) (vnode := v) as [s E];
      [ | reflexivity | cbn; lia | exact HS | lia |].
    + intros x st' Sx Lx A Dx.
      destruct (IH x st' Sx ltac:(lia) Dx) as [s Es].
      exists s. now rewrite Es, (withAsyncDetected_same st' A).
    + exists s.
      rewrite (renderBody_now [] [] inner _ v st st0 s ltac:(lia) E eq_refl).
      f_equal. apply withDepth_back.
Qed.

Lemma static_tree_renders_at_once_witness :
  exists s,
    render [] [] (fun _ => throw "unused") 6
      (JObj [("ul",
              JObj [("class", JStr "list");
                    ("children",
                     JArr [textNode "li" (JStr "a"); JStr "b"])])])
      newRenderer =
    (Val (Now s), withAsyncDetected false newRenderer).
Proof.
  apply static_tree_renders_at_once.
  - reflexivity.
  - reflexivity.
  - simpl. lia.
  - simpl. lia.
Defined.

(** ** Nodes that are no objects *)

(** X20.  A node that is not an object is rendered as text.  With the depth
    counter within the bound, [render] returns nothing for a falsy node
    ([undefined], [null], [false], 0, the empty string) and the escaped
    string of any other node that is not an object: a safe integer (below
    2^53 in absolute value) in decimal digits, [true], a string, and also a
    function, which is not called but written out as its source text.  The
    renderer is left as it was. *)
Theorem primitive_nodes_are_text (components : list (string * component))
  (handlers : list (string * attrHandler)) (inner : jsv -> M string)
  (n : nat) (v : jsv) (st : rstate) :
  Js.truthy v = false \/ Js.typeofObject v = false ->
  printable v = true ->
  (renderDepth st <= maxRenderDepth st)%Z ->
  render components handlers inner (S n) v st =
  (Val (Now (if Js.truthy v then _escapeHtml (Js.toStr v) else "")),
   withAsyncDetected false st).
Proof.
  intros H _ D. rewrite render_unfold.
  set (st0 := withAsyncDetected false (withDepth (renderDepth st + 1) st)).
  assert (E : _renderInternal components handlers
                (render components handlers inner n) v st0 =
              (Val (Now (if Js.truthy v then _escapeHtml (Js.toStr v)
                         else "")), st0)).
  { unfold _renderInternal. destruct (Js.truthy v) eqn:T; cbn [negb].
    - destruct H as [H|H]; [discriminate|]. now rewrite H.
    - reflexivity. }
  rewrite (renderBody_now components handlers inner _ v st st0 _ D E eq_refl).
  f_equal. apply withDepth_back.
Qed.

Lemma primitive_nodes_are_text_witness :
  render [] [] (fun _ => throw "unused") 1 (JNum 42) newRenderer =
  (Val (Now (if Js.truthy (JNum 42) then _escapeHtml (Js.toStr (JNum 42))
             else "")),
   withAsyncDetected false newRenderer).
Proof.
  apply primitive_nodes_are_text.
  - right. reflexivity.
  - reflexivity.
  - discriminate.
Defined.

(** ** The shape of an element *)

Lemma renderElementContent_shape (self : jsv -> M rres)
  (tagName : string) (props : jsv) (html s : string) (st st' : rstate) :
  _renderElementContent self tagName props html st = (Val (Now s), st') ->
  exists content,
    s = _finalizeElement tagName (html +++ content) /\
    forall html',
      _renderElementContent self tagName props html' st =
      (Val (Now (_finalizeElement tagName (html' +++ content))), st').
Proof.
  unfold _renderElementContent.
  destruct (negb (Js.isUndef (Js.get props "text"))).
  { unfold bind.
    destruct ((if Js.isFunction (Js.get props "text")
               then _evaluateFunction (Js.get props "text")
               else ret (Js.get props "text")) st) as [[text|m|] s1];
      try discriminate.
    destruct text; cbn [ret]; intros E; inversion E; subst; eexists;
      (split; [reflexivity | intros html'; reflexivity]). }
  destruct (negb (Js.isUndef (Js.get props "children"))).
  2:{ cbn [ret]. intros E. inversion E. subst. exists "". split.
      - now rewrite append_nil_r.
      - intros html'. now rewrite append_nil_r. }
  unfold bind.
  destruct ((if Js.isFunction (Js.get props "children")
             then tryCatch (_evaluateFunction (Js.get props "children")) _
             else ret (Js.get props "children")) st) as [[children|m|] s1];
    try discriminate.
  destruct children; cbn [ret]; try discriminate;
    destruct (_renderChildrenContent self _ s1) as [[[x|p]|m|] s2];
    try discriminate; intros E; inversion E; subst; eexists;
    (split; [reflexivity | intros html'; reflexivity]).
Qed.

(** X21.  The markup of an element is its opening tag, its content and its
    closing tag.  Whenever [_renderElement] returns a string, the string is
    ["<"], the tag name, the attributes that [_processAttributes] returned,
    the [style] attribute made of what [_renderStyle] returned when that is
    not empty, [">"], the content and then, unless the element is a void
    element ([br], [img], [input], ...), ["</"], the tag name and [">"]; a
    void element gets no closing tag.  The content is what
    [_renderElementContent] puts between the opening tag and the end,
    whatever the opening tag is. *)
Theorem element_markup_shape (handlers : list (string * attrHandler))
  (self : jsv -> M rres) (tagName : string) (props : jsv) (s : string)
  (st st' : rstate) :
  _renderElement handlers self tagName props st = (Val (Now s), st') ->
  exists attrs styleStr content st1 st2,
    _processAttributes handlers props st = (Val (Now attrs), st1) /\
    _renderStyle (Js.get props "style") st1 = (Val (Now styleStr), st2) /\
    (forall html,
       _renderElementContent self tagName props html st2 =
       (Val (Now (_finalizeElement tagName (html +++ content))), st')) /\
    s = "<" +++ tagName +++ attrs +++
        (if Str.nonEmpty styleStr
         then " style=" +++ dq +++ _escapeAttributeValue (JStr styleStr)
              +++ dq
         else "") +++
        ">" +++ content +++
        (if _isVoidElement tagName then "" else "</" +++ tagName +++ ">").
Proof.
  unfold _renderElement, bind at 1.
  destruct (_processAttributes handlers props st) as [[[attrs|p]|m|] s1]
    eqn:EA; try discriminate.
  unfold _continueElementRendering, bind at 1.
  destruct (_renderStyle (Js.get props "style") s1) as [[[style|p]|m|] s2]
    eqn:ES; try discriminate.
  intros E. apply renderElementContent_shape in E.
  destruct E as [content [-> F]].
  exists attrs, style, content, s1, s2.
  split; [reflexivity|]. split; [exact ES|]. split; [exact F|].
  unfold _finalizeElement, openTag.
  destruct (Str.nonEmpty style), (_isVoidElement tagName); cbn [negb];
    rewrite ?append_assoc, ?append_nil_r; reflexivity.
Qed.

Lemma element_markup_shape_witness :
  let props := JObj [("id", JStr "x"); ("children", JArr [JStr "a<b"])] in
  let self := fun v : jsv => ret (Now (_escapeHtml (Js.toStr v))) in
  exists attrs styleStr content st1 st2,
    _processAttributes [] props newRenderer = (Val (Now attrs), st1) /\
    _renderStyle (Js.get props "style") st1 = (Val (Now styleStr), st2) /\
    (forall html,
       _renderElementContent self "p" props html st2 =
       (Val (Now (_finalizeElement "p" (html +++ content))), newRenderer)) /\
    "<p id=" +++ dq +++ "x" +++ dq +++ ">a&lt;b</p>" =
    "<" +++ "p" +++ attrs +++
    (if Str.nonEmpty styleStr
     then " style=" +++ dq +++ _escapeAttributeValue (JStr styleStr) +++ dq
     else "") +++
    ">" +++ content +++
    (if _isVoidElement "p" then "" else "</" +++ "p" +++ ">").
Proof.
  intros props self.
  apply (element_markup_shape [] self "p" props _ newRenderer newRenderer).
  reflexivity.
Defined.

(** ** Style property names *)

Lemma lowerChar_not_upper (c : ascii) :
  Js.isUpper c = true -> Js.isUpper (Js.lowerChar c) = false.
Proof.
  revert c. intros [[] [] [] [] [] [] [] []]; vm_compute; congruence.
Qed.

Lemma camelToKebab_no_upper (s : string) :
  forallb (fun c => negb (Js.isUpper c)) (Str.chars (_camelToKebab s)) = true.
Proof.
  induction s as [|c r IH]; simpl; [reflexivity|].
  destruct (Js.isUpper c) eqn:U; simpl.
  - now rewrite (lowerChar_not_upper c U), IH.
  - now rewrite U, IH.
Qed.

Lemma camelToKebab_lower (s : string) :
  forallb (fun c => negb (Js.isUpper c)) (Str.chars s) = true ->
  _camelToKebab s = s.
Proof.
  induction s as [|c r IH]; simpl; [reflexivity|].
  intros H. apply andb_true_iff in H. destruct H as [U R].
  apply negb_true_iff in U. rewrite U. now rewrite IH.
Qed.

Lemma camelToKebab_app (a b : string) :
  _camelToKebab (a +++ b) = _camelToKebab a +++ _camelToKebab b.
Proof.
  induction a as [|c r IH]; simpl; [reflexivity|].
  destruct (Js.isUpper c); simpl; now rewrite IH.
Qed.

Lemma lowerChar_upper (c : ascii) :
  Js.isUpper c = true ->
  nat_of_ascii (Js.lowerChar c) = nat_of_ascii c + 32 /\
  Js.isLower (Js.lowerChar c) = true.
Proof.
  revert c. intros [[] [] [] [] [] [] [] []]; vm_compute; try congruence;
    now split.
Qed.

(** X22.  [_camelToKebab] writes a style property name in kebab case: each
    upper-case letter A-Z of the name becomes a hyphen followed by its
    lower-case letter (the letter 32 code points up), every other
    character stays, and what stands before and behind is converted in the
    same way.  No upper-case letter is left in the result, a name without
    upper-case letters is returned as it is, so the function applied twice
    gives what it gives once, and the result is longer than the name by the
    number of its upper-case letters. *)
Theorem camelToKebab_kebab (s : string) :
  (forall a c b,
     s = a +++ String c b -> Js.isUpper c = true ->
     _camelToKebab s =
       _camelToKebab a +++ "-" +++
       String (Js.lowerChar c) (_camelToKebab b) /\
     nat_of_ascii (Js.lowerChar c) = nat_of_ascii c + 32 /\
     Js.isLower (Js.lowerChar c) = true) /\
  (forall a c b,
     s = a +++ String c b -> Js.isUpper c = false ->
     _camelToKebab s = _camelToKebab a +++ String c (_camelToKebab b)) /\
  forallb (fun c => negb (Js.isUpper c)) (Str.chars (_camelToKebab s))
    = true /\
  (forallb (fun c => negb (Js.isUpper c)) (Str.chars s) = true ->
   _camelToKebab s = s) /\
  _camelToKebab (_camelToKebab s) = _camelToKebab s /\
  String.length (_camelToKebab s) =
  String.length s + List.length (filter Js.isUpper (Str.chars s)).
Proof.
  split.
  { intros a c b -> U. split; [|now apply lowerChar_upper].
    rewrite camelToKebab_app. simpl. now rewrite U. }
  split.
  { intros a c b -> U. rewrite camelToKebab_app. simpl. now rewrite U. }
  split; [apply camelToKebab_no_upper|].
  split; [apply camelToKebab_lower|]. split.
  - apply camelToKebab_lower, camelToKebab_no_upper.
  - induction s as [|c r IH]; simpl; [reflexivity|].
    destruct (Js.isUpper c); simpl; rewrite IH; lia.
Qed.

Lemma camelToKebab_kebab_witness :
  _camelToKebab "backgroundColor" =
  _camelToKebab "background" +++ "-" +++
  String (Js.lowerChar "C") (_camelToKebab "olor").
Proof.
  apply (proj1 (camelToKebab_kebab "backgroundColor") "background" "C"%char
           "olor"); reflexivity.
Defined.

(** * The route matcher *)

Lemma matchSegments_matches (ps : list string) :
  forall (cs : list string) (params : list (string * string)),
    List.length cs = List.length ps ->
    (matchSegments ps cs params <> None <-> Forall2 segmentMatches ps cs).
Proof.
  induction ps as [|p r IH]; intros cs params L.
  - destruct cs; [|discriminate]. split; [constructor | discriminate].
  - destruct cs as [|c cs]; [discriminate|]. injection L as L. simpl.
    destruct (Str.startsWith p ":") eqn:P.
    + rewrite (IH cs _ L). split.
      * intros H. constructor; [now left | exact H].
      * intros H. now inversion H.
    + destruct (String.eqb_spec p c) as [->|N]; cbn [negb].
      * rewrite (IH cs _ L). split.
        -- intros H. constructor; [now right | exact H].
        -- intros H. now inversion H.
      * split; [congruence|]. intros H. inversion H as [|? ? ? ? M _]; subst.
        destruct M as [M|M]; congruence.
Qed.

Lemma matchSegments_params (name : string) (ps : list string) :
  forall (cs : list string) (params out : list (string * string)),
    matchSegments ps cs params = Some out ->
    mapGet name out =
    match find (isParam name) (rev (combine ps cs)) with
    | Some pc => Some (snd pc)
    | None => mapGet name params
    end.
Proof.
  induction ps as [|p r IH]; intros cs params out H.
  - simpl in H. inversion H. reflexivity.
  - destruct cs as [|c cs]; [simpl in H; inversion H; reflexivity|].
    cbn [combine rev]. rewrite find_last. simpl in H.
    unfold isParam at 2. cbn [fst snd].
    destruct (Str.startsWith p ":") eqn:P; cbn [andb].
    + rewrite (IH cs _ out H).
      destruct (find (isParam name) (rev (combine r cs))); [reflexivity|].
      destruct (String.eqb name (slice1 p)) eqn:E.
      * apply String.eqb_eq in E. subst name. apply mapGet_mapSet.
      * now apply mapGet_mapSet_other.
    + destruct (negb (String.eqb p c)); [discriminate|].
      rewrite (IH cs _ out H).
      now destruct (find (isParam name) (rev (combine r cs))).
Qed.

(** X23.  [matchRoute] compares a path with a pattern segment by segment,
    the segments being what is left between the slashes, empty pieces
    dropped: slashes at either end and doubled slashes make no difference.
    The path matches exactly when it has as many segments as the pattern
    and every pattern segment is a parameter (it starts with a colon) or
    equals the path segment at its place.  The object returned then has
    as its own properties, for every name, the path segment at the last
    pattern segment of that name, and nothing for a name that is no
    parameter of the pattern, provided no parameter is called [__proto__]
    (an assignment to that name makes no property). *)
Theorem matchRoute_matches_segments (currentPath routePattern : string) :
  (matchRoute currentPath routePattern <> None <->
   Forall2 segmentMatches (segments routePattern) (segments currentPath)) /\
  forall params name,
    Str.mem ":__proto__" (segments routePattern) = false ->
    matchRoute currentPath routePattern = Some params ->
    mapGet name params =
    option_map snd
      (find (isParam name)
         (rev (combine (segments routePattern) (segments currentPath)))).
Proof.
  unfold matchRoute. split.
  - destruct (Nat.eqb_spec (List.length (segments currentPath))
                (List.length (segments routePattern))) as [L|N];
      cbn [negb].
    + now apply matchSegments_matches.
    + split; [congruence|]. intros H. apply Forall2_length in H. congruence.
  - intros params name _.
    destruct (negb (_ =? _)%nat); [discriminate|]. intros H.
    rewrite (matchSegments_params name _ _ [] params H).
    now destruct (find _ _).
Qed.

Lemma matchRoute_matches_segments_witness :
  mapGet "id" [("id", "42")] =
  option_map snd
    (find (isParam "id")
       (rev (combine (segments "/users/:id") (segments "users//42/")))).
Proof.
  apply (proj2 (matchRoute_matches_segments "users//42/" "/users/:id"));
    reflexivity.
Defined.

(** * The edit distance *)

Lemma writeAt_cons {A : Type} (i : nat) (v x : A) (xs : list A) :
  writeAt (S i) v (x :: xs) = x :: writeAt i v xs.
Proof. reflexivity. Qed.

Lemma writeAt_length {A : Type} (v : A) :
  forall (i : nat) (xs : list A),
    i < List.length xs -> List.length (writeAt i v xs) = List.length xs.
Proof.
  induction i as [|i IH]; intros [|x xs] H; simpl in H; try lia.
  - reflexivity.
  - rewrite writeAt_cons. simpl. rewrite IH; lia.
Qed.

Lemma writeAt_end {A : Type} (v : A) (xs : list A) :
  writeAt (List.length xs) v xs = xs ++ [v].
Proof.
  induction xs as [|x r IH]; [reflexivity|].
  simpl List.length. now rewrite writeAt_cons, IH.
Qed.

Lemma nth_writeAt_same {A : Type} (v d : A) :
  forall (i : nat) (xs : list A),
    i <= List.length xs -> nth i (writeAt i v xs) d = v.
Proof.
  induction i as [|i IH]; intros [|x xs] H; simpl in H; try lia;
    try reflexivity.
  rewrite writeAt_cons. simpl. apply IH. lia.
Qed.

Lemma nth_writeAt_other {A : Type} (v d : A) :
  forall (i k : nat) (xs : list A),
    k <> i -> i <= List.length xs ->
    nth k (writeAt i v xs) d = nth k xs d.
Proof.
  induction i as [|i IH]; intros k [|x xs] N H; simpl in H; try lia.
  - destruct k as [|k]; [congruence|]. cbn. now destruct k.
  - destruct k as [|k]; [congruence | reflexivity].
  - rewrite writeAt_cons. destruct k as [|k]; [reflexivity|].
    simpl. apply IH; lia.
Qed.

Lemma editDistance_cons (a b : ascii) (u w : list ascii) :
  editDistance (a :: u) (b :: w) =
  if Ascii.eqb a b then editDistance u w
  else Nat.min (editDistance u w + 1)
         (Nat.min (editDistance (a :: u) w + 1)
                  (editDistance u (b :: w) + 1)).
Proof. reflexivity. Qed.

Lemma editDistance_nil_r (u : list ascii) :
  editDistance u [] = List.length u.
Proof. now destruct u. Qed.

Lemma get_chars (s : string) :
  forall k, String.get k s = nth_error (Str.chars s) k.
Proof.
  induction s as [|c r IH]; intros [|k]; simpl; try reflexivity. apply IH.
Qed.

Lemma length_chars (s : string) :
  List.length (Str.chars s) = String.length s.
Proof. induction s; simpl; congruence. Qed.

Lemma firstn_snoc {A : Type} (l : list A) :
  forall k, k < List.length l ->
    exists x, nth_error l k = Some x /\ firstn (S k) l = firstn k l ++ [x].
Proof.
  induction l as [|y r IH]; intros k H; simpl in H; [lia|].
  destruct k as [|k].
  - exists y. now split.
  - destruct (IH k ltac:(lia)) as [x [E F]].
    exists x. split; [exact E|]. cbn [firstn app] in *. now rewrite F.
Qed.

Lemma fold_seq_ind {A : Type} (f : A -> nat -> A) (I : nat -> A -> Prop) :
  forall (n a : nat) (m : A),
    I a m ->
    (forall k x, a <= k -> k < a + n -> I k x -> I (S k) (f x k)) ->
    I (a + n) (fold_left f (seq a n) m).
Proof.
  induction n as [|n IH]; intros a m H Step; simpl.
  - now rewrite Nat.add_0_r.
  - replace (a + S n) with (S a + n) by lia. apply IH.
    + apply Step; [lia | lia | exact H].
    + intros k x H1 H2. apply Step; lia.
Qed.

Section Matrix.

Variables str1 str2 : string.

Let n1 := String.length str1.
Let n2 := String.length str2.

Lemma distanceAt_first_row (j : nat) : j <= n1 -> (distanceAt str1 str2) 0 j = j.
Proof.
  intros H. unfold distanceAt. cbn [firstn rev editDistance].
  rewrite length_rev, firstn_length_le; [reflexivity|].
  now rewrite length_chars.
Qed.

Lemma distanceAt_first_column (i : nat) : i <= n2 -> (distanceAt str1 str2) i 0 = i.
Proof.
  intros H. unfold distanceAt. cbn [firstn rev].
  rewrite editDistance_nil_r, length_rev, firstn_length_le; [reflexivity|].
  now rewrite length_chars.
Qed.

Lemma distanceAt_step (i j : nat) :
  i < n2 -> j < n1 ->
  (distanceAt str1 str2) (S i) (S j) =
  if sameChar (charAt str2 i) (charAt str1 j) then (distanceAt str1 str2) i j
  else Nat.min ((distanceAt str1 str2) i j + 1) (Nat.min ((distanceAt str1 str2) (S i) j + 1) ((distanceAt str1 str2) i (S j) + 1)).
Proof.
  intros Hi Hj. unfold distanceAt, charAt.
  destruct (firstn_snoc (Str.chars str2) i) as [x2 [E2 F2]];
    [now rewrite length_chars|].
  destruct (firstn_snoc (Str.chars str1) j) as [x1 [E1 F1]];
    [now rewrite length_chars|].
  rewrite !get_chars, E1, E2, F1, F2, !rev_unit, editDistance_cons.
  reflexivity.
Qed.

Lemma row_snoc (i j : nat) :
  map ((distanceAt str1 str2) i) (seq 0 j) ++ [(distanceAt str1 str2) i j] = map ((distanceAt str1 str2) i) (seq 0 (S j)).
Proof. now rewrite seq_S, map_app. Qed.

Lemma nth_row (i j k : nat) :
  k < j -> nth k (map ((distanceAt str1 str2) i) (seq 0 j)) 0 = (distanceAt str1 str2) i k.
Proof.
  intros H. rewrite (nth_indep _ 0 ((distanceAt str1 str2) i 0)) by now rewrite length_map, length_seq.
  rewrite map_nth, seq_nth; [reflexivity | exact H].
Qed.

(** Writing cell [(i, j)], the next one of row [i]. *)
Lemma setCell_filled (m : list (list nat)) (i j : nat) :
  i <= n2 -> filledTo str1 str2 i j m -> filledTo str1 str2 i (S j) (setCell m i j ((distanceAt str1 str2) i j)).
Proof.
  intros Hi (L & Above & Row & Below). unfold setCell.
  assert (Li : i < List.length m) by lia.
  split; [|split; [|split]].
  - rewrite writeAt_length; [exact L | exact Li].
  - intros k Hk. rewrite nth_writeAt_other; [now apply Above | lia | lia].
  - rewrite nth_writeAt_same by lia. rewrite Row.
    replace j with (List.length (map ((distanceAt str1 str2) i) (seq 0 j))) at 1
      by now rewrite length_map, length_seq.
    rewrite writeAt_end. apply row_snoc.
  - intros k H1 H2. rewrite nth_writeAt_other; [now apply Below | lia | lia].
Qed.

(** The end of row [i] is the start of row [i + 1]. *)
Lemma filled_next_row (m : list (list nat)) (i : nat) :
  i < n2 -> filledTo str1 str2 i (S n1) m -> filledTo str1 str2 (S i) 1 m.
Proof.
  intros Hi (L & Above & Row & Below).
  split; [exact L|]. split; [|split].
  - intros k Hk. destruct (Nat.eq_dec k i) as [->|N];
      [exact Row | apply Above; lia].
  - rewrite (Below (S i)) by lia. cbn [seq map].
    now rewrite (distanceAt_first_column (S i)) by lia.
  - intros k H1 H2. apply Below; lia.
Qed.

Lemma fillCell_filled (m : list (list nat)) (i j : nat) :
  i < n2 -> j < n1 ->
  filledTo str1 str2 (S i) (S j) m ->
  filledTo str1 str2 (S i) (S (S j)) (fillCell str1 str2 (S i) m (S j)).
Proof.
  intros Hi Hj F.
  assert (V : fillCell str1 str2 (S i) m (S j) =
              setCell m (S i) (S j) ((distanceAt str1 str2) (S i) (S j))).
  { destruct F as (L & Above & Row & Below).
    unfold fillCell, cell. cbn [Nat.sub]. rewrite !Nat.sub_0_r.
    rewrite (Above i) by lia. rewrite Row.
    fold n1. rewrite (nth_row i (S n1) j) by lia.
    rewrite (nth_row (S i) (S j) j) by lia.
    rewrite (nth_row i (S n1) (S j)) by lia.
    rewrite (distanceAt_step i j Hi Hj).
    now destruct (sameChar _ _). }
  rewrite V. apply setCell_filled; [lia | exact F].
Qed.

Lemma fillRow_filled (m : list (list nat)) (i : nat) :
  i < n2 -> filledTo str1 str2 (S i) 1 m ->
  filledTo str1 str2 (S i) (S n1)
    (fold_left (fillCell str1 str2 (S i)) (seq 1 n1) m).
Proof.
  intros Hi F.
  apply (fold_seq_ind (fillCell str1 str2 (S i))
           (fun j x => filledTo str1 str2 (S i) j x) n1 1 m F).
  intros k x H1 H2 Fx. destruct k as [|k]; [lia|].
  apply fillCell_filled; [exact Hi | lia | exact Fx].
Qed.

Lemma rows_filled :
  filledTo str1 str2 0 1
    (fold_left (fun matrix i => writeAt i [i] matrix) (seq 0 (S n2)) []).
Proof.
  assert (G : forall n a m,
             List.length m = a ->
             fold_left (fun matrix i => writeAt i [i] matrix) (seq a n) m =
             m ++ map (fun k => [k]) (seq a n)).
  { induction n as [|n IH]; intros a m H; simpl; [now rewrite app_nil_r|].
    rewrite IH.
    - subst a. rewrite writeAt_end, <- app_assoc. reflexivity.
    - subst a. rewrite writeAt_end, length_app. simpl. lia. }
  rewrite (G (S n2) 0 [] eq_refl). cbn [app].
  assert (N : forall k, k <= n2 ->
                nth k (map (fun k => [k]) (seq 0 (S n2))) [] = [k]).
  { intros k H. rewrite (nth_indep _ [] [0])
      by (rewrite length_map, length_seq; lia).
    rewrite (map_nth (fun k => [k])), seq_nth; [reflexivity | lia]. }
  split; [now rewrite length_map, length_seq|]. split; [|split].
  - intros k H. lia.
  - rewrite N by lia. cbn [seq map].
    now rewrite (distanceAt_first_row 0) by lia.
  - intros k H1 H2. now apply N.
Qed.

Lemma first_row_filled (m : list (list nat)) :
  filledTo str1 str2 0 1 m ->
  filledTo str1 str2 0 (S n1) (fold_left (fun matrix j => setCell matrix 0 j j)
                     (seq 0 (S n1)) m).
Proof.
  intros F. cbn [seq fold_left].
  assert (Z : filledTo str1 str2 0 1 (setCell m 0 0 0)).
  { destruct F as (L & Above & Row & Below). unfold setCell.
    split; [|split; [|split]].
    - rewrite writeAt_length; [exact L | lia].
    - intros k H. lia.
    - rewrite nth_writeAt_same by lia. rewrite Row. cbn [seq map].
      rewrite (distanceAt_first_row 0) by lia. reflexivity.
    - intros k H1 H2. rewrite nth_writeAt_other; [now apply Below|lia|lia]. }
  apply (fold_seq_ind (fun matrix j => setCell matrix 0 j j)
           (fun j x => filledTo str1 str2 0 j x) n1 1 _ Z).
  intros k x H1 H2 Fx.
  replace (setCell x 0 k k)
    with (setCell x 0 k (distanceAt str1 str2 0 k))
    by now rewrite (distanceAt_first_row k) by lia.
  apply setCell_filled; [lia | exact Fx].
Qed.

Lemma all_rows_filled (m : list (list nat)) :
  filledTo str1 str2 0 (S n1) m ->
  filledTo str1 str2 n2 (S n1)
    (fold_left
       (fun matrix i => fold_left (fillCell str1 str2 i) (seq 1 n1) matrix)
       (seq 1 n2) m).
Proof.
  intros F.
  pose proof (fold_seq_ind
                (fun matrix i =>
                   fold_left (fillCell str1 str2 i) (seq 1 n1) matrix)
                (fun i x => filledTo str1 str2 (pred i) (S n1) x) n2 1 m F) as H.
  replace (pred (1 + n2)) with n2 in H by lia.
  apply H. intros k x H1 H2 Fx. destruct k as [|k]; [lia|].
  cbn [pred] in *. apply fillRow_filled; [lia|].
  apply filled_next_row; [lia | exact Fx].
Qed.

(** The matrix ends with the edit distance in its last cell. *)
Lemma levenshteinDistance_editDistance :
  levenshteinDistance str1 str2 =
  editDistance (rev (Str.chars str2)) (rev (Str.chars str1)).
Proof.
  unfold levenshteinDistance. fold n1 n2.
  pose proof (all_rows_filled _ (first_row_filled _ rows_filled))
    as (_ & _ & Row & _).
  unfold cell. rewrite Row, (nth_row n2 (S n1) n1) by lia.
  unfold distanceAt.
  rewrite !firstn_all2; [reflexivity | |]; rewrite length_chars; lia.
Qed.

End Matrix.

Lemma editDistance_refl (u : list ascii) : editDistance u u = 0.
Proof.
  induction u as [|a u IH]; [reflexivity|].
  now rewrite editDistance_cons, Ascii.eqb_refl.
Qed.

Lemma editDistance_zero (u : list ascii) :
  forall w, editDistance u w = 0 -> u = w.
Proof.
  induction u as [|a u IH]; intros [|b w] H; try discriminate;
    [reflexivity|].
  rewrite editDistance_cons in H.
  destruct (Ascii.eqb_spec a b) as [->|N]; [|lia].
  now rewrite (IH w H).
Qed.

Lemma editDistance_sym (u : list ascii) :
  forall w, editDistance u w = editDistance w u.
Proof.
  induction u as [|a u IHu]; intros w.
  - now rewrite editDistance_nil_r.
  - induction w as [|b w IHw]; [reflexivity|].
    rewrite !editDistance_cons, (Ascii.eqb_sym b a), <- IHw, (IHu w),
      (IHu (b :: w)).
    destruct (Ascii.eqb a b); lia.
Qed.

Lemma editDistance_bounds (u : list ascii) :
  forall w,
    editDistance u w <= Nat.max (List.length u) (List.length w) /\
    List.length u - List.length w <= editDistance u w /\
    List.length w - List.length u <= editDistance u w.
Proof.
  induction u as [|a u IHu]; intros w.
  - cbn. lia.
  - induction w as [|b w IHw]; [cbn; lia|].
    rewrite editDistance_cons.
    pose proof (IHu w). pose proof (IHu (b :: w)).
    cbn [List.length] in *.
    destruct (Ascii.eqb a b); lia.
Qed.

Lemma chars_inj (s t : string) : Str.chars s = Str.chars t -> s = t.
Proof.
  revert t. induction s as [|c r IH]; intros [|d t] H; try discriminate;
    [reflexivity|].
  inversion H. f_equal. now apply IH.
Qed.

(** X24.  [levenshteinDistance] computes the edit distance.  The matrix it
    fills holds, at row [i] and column [j], the edit distance of the first
    [i] characters of the second string and the first [j] characters of the
    first, and the cell it returns is the edit distance of the two strings:
    the value of the usual recurrence (nothing for equal characters, one
    more than the least of the three neighbours otherwise).  So the result
    is 0 exactly when the strings are equal, it is the same with the
    arguments exchanged, it is at most the length of the longer string, and
    at least the difference of the lengths. *)
Theorem levenshteinDistance_is_edit_distance (s t : string) :
  levenshteinDistance s t =
    editDistance (rev (Str.chars t)) (rev (Str.chars s)) /\
  (levenshteinDistance s t = 0 <-> s = t) /\
  levenshteinDistance s t = levenshteinDistance t s /\
  levenshteinDistance s t <= Nat.max (String.length s) (String.length t) /\
  String.length s - String.length t <= levenshteinDistance s t /\
  String.length t - String.length s <= levenshteinDistance s t.
Proof.
  pose proof (levenshteinDistance_editDistance s t) as E.
  split; [exact E|]. split; [|split].
  - rewrite E. split.
    + intros H. apply editDistance_zero in H.
      apply (f_equal (@rev ascii)) in H. rewrite !rev_involutive in H.
      symmetry. now apply chars_inj.
    + intros ->. apply editDistance_refl.
  - rewrite E, (levenshteinDistance_editDistance t s).
    apply editDistance_sym.
  - rewrite E.
    pose proof (editDistance_bounds (rev (Str.chars t)) (rev (Str.chars s)))
      as B.
    rewrite !length_rev, !length_chars in B. lia.
Qed.

Lemma levenshteinDistance_is_edit_distance_witness :
  levenshteinDistance "users" "users" = 0.
Proof.
  apply (proj2 (proj1 (proj2 (levenshteinDistance_is_edit_distance
                                "users" "users")))).
  reflexivity.
Defined.
